(** * Verification of the image-decode layer of the rendering canvas
    (canvas_base.c)

    The development embeds the pixel conversion, palette, mask, inverse
    surface and chunk traversal code of canvas_base.c as Rocq functions and
    proves properties of them.

    Conventions.
    - C integers are values of [Z]; conversions to a fixed width are written
      out with [u8], [u32], [u64] and [s32].
    - Byte-addressed memory is a total function [Z -> Z] from addresses to
      bytes; a store is a point update.  Multi-byte accesses are
      little-endian, as on the hosts the canvas is built for.
    - [CANVAS_ERROR] and [ASSERT] both abort the call: a function that may
      reach one returns an [outcome]. *)

From Stdlib Require Import ZArith Lia List Bool String.
From stdpp Require Import base tactics option functions list gmap.

Local Open Scope Z_scope.

(** ** Fixed-width integers *)

Definition u8 (z : Z) : Z := z mod 2 ^ 8.
Definition u16 (z : Z) : Z := z mod 2 ^ 16.
Definition u32 (z : Z) : Z := z mod 2 ^ 32.
(** A value of the type [ADDRESS], the 64-bit unsigned address of the
    protocol: sums of addresses wrap around at [2^64]. *)
Definition u64 (z : Z) : Z := z mod 2 ^ 64.
(** Conversion of a 32-bit pattern to [int]. *)
Definition s32 (z : Z) : Z :=
  let w := z mod 2 ^ 32 in if w <? 2 ^ 31 then w else w - 2 ^ 32.

(** Bounded universal quantification over [a .. a+n-1], used to settle facts
    about bytes and colour components by enumeration. *)
Fixpoint forall_from (n : nat) (a : Z) (P : Z -> bool) : bool :=
  match n with
  | O => true
  | S k => P a && forall_from k (a + 1) P
  end.

Definition forall_below (n : Z) (P : Z -> bool) : bool :=
  forall_from (Z.to_nat n) 0 P.

(** ** 16 bpp to 32 bpp expansion *)

Module Pixel.

(** [canvas_16bpp_to_32bpp]: the argument and the result are [uint32_t]. *)
Definition canvas_16bpp_to_32bpp (color : Z) : Z :=
  let ret := Z.lor (u32 (Z.shiftl (Z.land color 0x001f) 3))
                   (Z.shiftr (Z.land color 0x001c) 2) in
  let ret := Z.lor ret (Z.lor (u32 (Z.shiftl (Z.land color 0x03e0) 6))
                              (u32 (Z.shiftl (Z.land color 0x0380) 1))) in
  let ret := Z.lor ret (Z.lor (u32 (Z.shiftl (Z.land color 0x7c00) 9))
                              (u32 (Z.shiftl (Z.land color 0x7000) 4))) in
  ret.

(** The component expansion as the specification words it, for an [n]-bit
    component [c]: bit replication into 8 bits. *)
Definition expand (n c : Z) : Z :=
  Z.lor (Z.shiftl c (8 - n)) (Z.shiftr c (2 * n - 8)).

(** The 5-bit component of [color] that starts at bit [pos]. *)
Definition component (color pos : Z) : Z :=
  Z.shiftr (Z.land color (Z.shiftl 0x1f pos)) pos.

Definition combine (b g r : Z) : Z :=
  Z.lor (Z.lor b (Z.shiftl g 8)) (Z.shiftl r 16).

End Pixel.

(** ** Bit reversal of a byte *)

Module Bits.

(** The body of the loop of [revers_bits], iterated [n] times from [i]. *)
Fixpoint revers_loop (n : nat) (i byte ret : Z) : Z :=
  match n with
  | O => ret
  | S k =>
      let shift := 7 - i * 2 in
      let ret := u8 (Z.lor ret (Z.shiftl (Z.land byte (Z.shiftl 1 i)) shift)) in
      let ret := u8 (Z.lor ret (Z.shiftr (Z.land byte (Z.shiftr 0x80 i)) shift)) in
      revers_loop k (i + 1) byte ret
  end.

Definition revers_bits (byte : Z) : Z := revers_loop 4 0 byte 0.

(** [~b] stored to a [uint8_t]. *)
Definition invert_byte (b : Z) : Z := u8 (Z.lnot b).

(** The fused store of [canvas_get_bitmap_mask]: [~revers_bits(b)]. *)
Definition fused_byte (b : Z) : Z := u8 (Z.lnot (revers_bits b)).

End Bits.

(** ** Outcomes of a call

    [CANVAS_ERROR(msg)] prints the message and aborts; [ASSERT(x)] aborts when
    [x] is false.  [Fault] is a read outside the buffer that holds a palette
    (the model does not know what memory holds there).  [OutOfFuel] only
    arises from the row loops, whose guard is a pointer inequality. *)

Inductive outcome (A : Type) : Type :=
| Done (a : A)
| Abort (msg : string)
| Fault
| OutOfFuel.
Arguments Done {A} a.
Arguments Abort {A} msg.
Arguments Fault {A}.
Arguments OutOfFuel {A}.

Global Instance outcome_ret : MRet outcome := fun A a => Done a.
Global Instance outcome_bind : MBind outcome := fun A B f o =>
  match o with
  | Done a => f a
  | Abort msg => Abort msg
  | Fault => Fault
  | OutOfFuel => OutOfFuel
  end.

Definition CANVAS_ERROR {A : Type} (msg : string) : outcome A := Abort msg.

Definition ASSERT (c : bool) (expr : string) : outcome unit :=
  if c then Done tt else Abort expr.

(** ** Byte-addressed memory *)

Definition mem : Type := Z -> Z.

Definition load8 (m : mem) (p : Z) : Z := u8 (m p).
Definition store8 (m : mem) (p v : Z) : mem := <[p := u8 v]> m.

Definition load16 (m : mem) (p : Z) : Z :=
  load8 m p + 2 ^ 8 * load8 m (p + 1).

Definition load32 (m : mem) (p : Z) : Z :=
  load8 m p + 2 ^ 8 * load8 m (p + 1) + 2 ^ 16 * load8 m (p + 2)
  + 2 ^ 24 * load8 m (p + 3).

Definition store32 (m : mem) (p v : Z) : mem :=
  store8 (store8 (store8 (store8 m p v) (p + 1) (v / 2 ^ 8))
                 (p + 2) (v / 2 ^ 16))
         (p + 3) (v / 2 ^ 24).

(** [memcpy(dest, src, n)] from the read-only memory [from]. *)
Fixpoint memcpy_loop (n : nat) (from : mem) (dest src : Z) (m : mem) : mem :=
  match n with
  | O => m
  | S k => memcpy_loop k from (dest + 1) (src + 1) (store8 m dest (load8 from src))
  end.

Definition memcpy (from : mem) (dest src n : Z) (m : mem) : mem :=
  memcpy_loop (Z.to_nat n) from dest src m.

(** The bytes [m p .. m (p+n-1)], to display a result. *)
Definition read_bytes (m : mem) (p : Z) (n : nat) : list Z :=
  map (fun i => load8 m (p + Z.of_nat i)) (seq 0 n).

Definition read_words (m : mem) (p : Z) (n : nat) : list Z :=
  map (fun i => load32 m (p + 4 * Z.of_nat i)) (seq 0 n).

(** A memory holding the bytes [l] from address [0] on, and [0] elsewhere. *)
Definition mem_of_bytes (l : list Z) : mem :=
  fun p => if p <? 0 then 0 else nth (Z.to_nat p) l 0.

(** The row loop shared by the copy and inversion functions:
    [for (; a != a_end; a += a_stride, b += b_stride) body(a, b)]. *)
Fixpoint for_rows (fuel : nat) (body : Z -> Z -> mem -> outcome mem)
    (a a_stride a_end b b_stride : Z) (m : mem) : outcome mem :=
  match fuel with
  | O => OutOfFuel
  | S fuel' =>
      if a =? a_end then Done m
      else m' ← body a b m;
           for_rows fuel' body (a + a_stride) a_stride a_end
                    (b + b_stride) b_stride m'
  end.

(** ** Wire and surface types *)

Inductive cairo_format_t : Type :=
| CAIRO_FORMAT_ARGB32 | CAIRO_FORMAT_RGB24 | CAIRO_FORMAT_A8 | CAIRO_FORMAT_A1.

Inductive cairo_status_t : Type :=
| CAIRO_STATUS_SUCCESS | CAIRO_STATUS_NO_MEMORY.

Global Instance cairo_format_eq_dec : EqDecision cairo_format_t.
Proof. solve_decision. Defined.
Global Instance cairo_status_eq_dec : EqDecision cairo_status_t.
Proof. solve_decision. Defined.

(** An image surface of the drawing backend: what the accessors
    [cairo_surface_status], [cairo_image_surface_get_format], [_get_width],
    [_get_height], [_get_stride] and [_get_data] return.  The pixel buffer is
    a memory of its own, addressed from the data pointer. *)
Record cairo_surface_t : Type := {
  cairo_surface_status : cairo_status_t;
  cairo_image_surface_get_format : cairo_format_t;
  cairo_image_surface_get_width : Z;
  cairo_image_surface_get_height : Z;
  cairo_image_surface_get_stride : Z;
  cairo_image_surface_get_data : mem
}.

Definition with_data (s : cairo_surface_t) (m : mem) : cairo_surface_t :=
  {| cairo_surface_status := cairo_surface_status s;
     cairo_image_surface_get_format := cairo_image_surface_get_format s;
     cairo_image_surface_get_width := cairo_image_surface_get_width s;
     cairo_image_surface_get_height := cairo_image_surface_get_height s;
     cairo_image_surface_get_stride := cairo_image_surface_get_stride s;
     cairo_image_surface_get_data := m |}.

(** [Palette]: the entry count and the words stored from [ents] on, up to
    the end of the buffer that holds the palette (at least [num_ents] of them
    in a well-formed message, possibly more). *)
Record Palette : Type := {
  num_ents : Z;
  ents : list Z
}.

(** [palette->ents[i]] *)
Definition ents_at (palette : Palette) (i : Z) : outcome Z :=
  if i <? 0 then Fault
  else match ents palette !! Z.to_nat i with
       | Some e => Done e
       | None => Fault
       end.

Inductive bitmap_format : Type :=
| BITMAP_FMT_INVALID
| BITMAP_FMT_1BIT_LE
| BITMAP_FMT_1BIT_BE
| BITMAP_FMT_4BIT_LE
| BITMAP_FMT_4BIT_BE
| BITMAP_FMT_8BIT
| BITMAP_FMT_16BIT
| BITMAP_FMT_24BIT
| BITMAP_FMT_32BIT
| BITMAP_FMT_RGBA.

Global Instance bitmap_format_eq_dec : EqDecision bitmap_format.
Proof. solve_decision. Defined.

(** The bits of [Bitmap.flags]. *)
Record bitmap_flags : Type := {
  BITMAP_PAL_CACHE_ME : bool;
  BITMAP_PAL_FROM_CACHE : bool;
  BITMAP_TOP_DOWN : bool
}.

(** [Bitmap]; [x], [y] and [stride] are [UINT32], the two addresses are
    [ADDRESS]. *)
Record Bitmap : Type := {
  bitmap_format_of : bitmap_format;
  bitmap_flags_of : bitmap_flags;
  bitmap_x : Z;
  bitmap_y : Z;
  bitmap_stride : Z;
  bitmap_palette : Z;
  bitmap_data : Z
}.

(** [GET_ADDRESS] is declared outside this file.  [quic_usr_more_space] adds
    the address delta by hand before it applies the macro, so the macro
    itself is the cast from [ADDRESS] to a pointer. *)
Definition GET_ADDRESS (addr : Z) : Z := addr.

(** [ALIGN(a, b)] for a power of two [b]. *)
Definition ALIGN (a b : Z) : Z := Z.land (a + (b - 1)) (Z.lnot (b - 1)).

(** ** Pixel format conversion

    The copy functions read the bitmap rows from the wire buffer [wire] and
    write the pixel buffer of the surface; the two do not overlap (the
    surface is created by the call), so they are two memories here.  [int]
    arithmetic on the row geometry is exact under the bounds the theorems
    state. *)

Module Convert.

Section Copy.

Variable wire : mem.

Definition test_bit_be (addr bit : Z) : bool :=
  negb (Z.land (load8 wire (addr + Z.shiftr bit 3))
               (Z.shiftr 0x80 (Z.land bit 0x07)) =? 0).

(** *** 32 bpp *)

Definition copy_32bpp_line (width : Z) (src dest : Z) (m : mem) : outcome mem :=
  Done (memcpy wire dest src (Z.shiftl width 2) m).

Definition canvas_copy_32bpp (fuel : nat) (dest dest_stride src src_stride
    width end_ : Z) (m : mem) : outcome mem :=
  for_rows fuel (copy_32bpp_line width) src src_stride end_ dest dest_stride m.

(** *** 24 bpp: [n] pixels are left on the line, the fourth byte of each
    destination pixel is skipped *)

Fixpoint copy_24bpp_pixels (n : nat) (src_line dest_line : Z) (m : mem) : mem :=
  match n with
  | O => m
  | S k =>
      let m := store8 m dest_line (load8 wire src_line) in
      let m := store8 m (dest_line + 1) (load8 wire (src_line + 1)) in
      let m := store8 m (dest_line + 2) (load8 wire (src_line + 2)) in
      copy_24bpp_pixels k (src_line + 3) (dest_line + 4) m
  end.

Definition copy_24bpp_line (width : Z) (src dest : Z) (m : mem) : outcome mem :=
  Done (copy_24bpp_pixels (Z.to_nat width) src dest m).

Definition canvas_copy_24bpp (fuel : nat) (dest dest_stride src src_stride
    width end_ : Z) (m : mem) : outcome mem :=
  for_rows fuel (copy_24bpp_line width) src src_stride end_ dest dest_stride m.

(** *** 16 bpp *)

Fixpoint copy_16bpp_pixels (n : nat) (src_line dest_line : Z) (m : mem) : mem :=
  match n with
  | O => m
  | S k =>
      let m := store32 m dest_line
                 (Pixel.canvas_16bpp_to_32bpp (load16 wire src_line)) in
      copy_16bpp_pixels k (src_line + 2) (dest_line + 4) m
  end.

Definition copy_16bpp_line (width : Z) (src dest : Z) (m : mem) : outcome mem :=
  Done (copy_16bpp_pixels (Z.to_nat width) src dest m).

Definition canvas_copy_16bpp (fuel : nat) (dest dest_stride src src_stride
    width end_ : Z) (m : mem) : outcome mem :=
  for_rows fuel (copy_16bpp_line width) src src_stride end_ dest dest_stride m.

(** *** 8 bpp, palette indexed *)

Fixpoint copy_8bpp_pixels (n : nat) (palette : Palette)
    (src_line dest_line : Z) (m : mem) : outcome mem :=
  match n with
  | O => Done m
  | S k =>
      _ ← ASSERT (load8 wire src_line <? num_ents palette)
                 "*src_line < palette->num_ents";
      e ← ents_at palette (load8 wire src_line);
      copy_8bpp_pixels k palette (src_line + 1) (dest_line + 4)
                       (store32 m dest_line e)
  end.

Definition copy_8bpp_line (palette : Palette) (width : Z) (src dest : Z)
    (m : mem) : outcome mem :=
  copy_8bpp_pixels (Z.to_nat width) palette src dest m.

Definition canvas_copy_8bpp (fuel : nat) (dest dest_stride src src_stride
    width end_ : Z) (palette : option Palette) (m : mem) : outcome mem :=
  match palette with
  | None => CANVAS_ERROR "no palette"
  | Some palette =>
      for_rows fuel (copy_8bpp_line palette width) src src_stride end_
               dest dest_stride m
  end.

(** *** 4 bpp big endian, palette indexed.  The pair loop returns the
    destination pointer it stops at together with the memory. *)

Fixpoint copy_4bpp_be_pairs (n : nat) (palette : Palette)
    (now dest_line : Z) (m : mem) : outcome (Z * mem) :=
  match n with
  | O => Done (dest_line, m)
  | S k =>
      let byte := load8 wire now in
      _ ← ASSERT (Z.land byte 0x0f <? num_ents palette)
                 "( *now & 0x0f) < palette->num_ents";
      _ ← ASSERT (Z.land (Z.shiftr byte 4) 0x0f <? num_ents palette)
                 "(( *now >> 4) & 0x0f) < palette->num_ents";
      hi ← ents_at palette (Z.land (Z.shiftr byte 4) 0x0f);
      let m := store32 m dest_line hi in
      lo ← ents_at palette (Z.land byte 0x0f);
      let m := store32 m (dest_line + 4) lo in
      copy_4bpp_be_pairs k palette (now + 1) (dest_line + 8) m
  end.

Definition copy_4bpp_be_line (palette : Palette) (width : Z) (src dest : Z)
    (m : mem) : outcome mem :=
  '(dest_line, m) ← copy_4bpp_be_pairs (Z.to_nat (Z.shiftr width 1)) palette
                                       src dest m;
  if Z.land width 1 =? 0 then Done m
  else e ← ents_at palette (Z.land (Z.shiftr (load8 wire src) 4) 0x0f);
       Done (store32 m dest_line e).

Definition canvas_copy_4bpp_be (fuel : nat) (dest dest_stride src src_stride
    width end_ : Z) (palette : option Palette) (m : mem) : outcome mem :=
  match palette with
  | None => CANVAS_ERROR "no palette"
  | Some palette =>
      for_rows fuel (copy_4bpp_be_line palette width) src src_stride end_
               dest dest_stride m
  end.

(** *** 1 bpp big endian, palette indexed *)

Fixpoint copy_1bpp_be_pixels (n : nat) (fore_color back_color : Z)
    (src i dest_line : Z) (m : mem) : mem :=
  match n with
  | O => m
  | S k =>
      let m := if test_bit_be src i then store32 m dest_line fore_color
               else store32 m dest_line back_color in
      copy_1bpp_be_pixels k fore_color back_color src (i + 1) (dest_line + 4) m
  end.

Definition copy_1bpp_be_line (fore_color back_color : Z) (width : Z)
    (src dest : Z) (m : mem) : outcome mem :=
  Done (copy_1bpp_be_pixels (Z.to_nat width) fore_color back_color src 0 dest m).

Definition canvas_copy_1bpp_be (fuel : nat) (dest dest_stride src src_stride
    width end_ : Z) (palette : option Palette) (m : mem) : outcome mem :=
  match palette with
  | None => CANVAS_ERROR "no palette"
  | Some palette =>
      fore_color ← ents_at palette 1;
      back_color ← ents_at palette 0;
      for_rows fuel (copy_1bpp_be_line fore_color back_color width)
               src src_stride end_ dest dest_stride m
  end.

(** *** [canvas_bitmap_to_surface] *)

(** [surface_create] belongs to the drawing backend; the function is
    parameterised by it. *)
Variable surface_create : cairo_format_t -> Z -> Z -> bool -> cairo_surface_t.

(** The surface [canvas_bitmap_to_surface] creates for a bitmap. *)
Definition new_bitmap_surface (bitmap : Bitmap) : cairo_surface_t :=
  surface_create
    (if decide (bitmap_format_of bitmap = BITMAP_FMT_RGBA)
     then CAIRO_FORMAT_ARGB32 else CAIRO_FORMAT_RGB24)
    (bitmap_x bitmap) (bitmap_y bitmap) false.

Definition canvas_bitmap_to_surface (fuel : nat) (bitmap : Bitmap)
    (palette : option Palette) : outcome cairo_surface_t :=
  let src := GET_ADDRESS (bitmap_data bitmap) in
  let src_stride := s32 (bitmap_stride bitmap) in
  let end_ := src + u32 (bitmap_y bitmap * src_stride) in
  let cairo_surface := new_bitmap_surface bitmap in
  if decide (cairo_surface_status cairo_surface <> CAIRO_STATUS_SUCCESS)
  then CANVAS_ERROR "create surface failed"
  else
    let dest := 0 in
    let dest_stride := cairo_image_surface_get_stride cairo_surface in
    '(dest, dest_stride) ←
      (if BITMAP_TOP_DOWN (bitmap_flags_of bitmap) then Done (dest, dest_stride)
       else _ ← ASSERT (0 <? bitmap_y bitmap) "bitmap->y > 0";
            Done (dest + dest_stride * (s32 (bitmap_y bitmap) - 1),
                  - dest_stride));
    let width := s32 (bitmap_x bitmap) in
    let m := cairo_image_surface_get_data cairo_surface in
    m ← match bitmap_format_of bitmap with
         | BITMAP_FMT_32BIT | BITMAP_FMT_RGBA =>
             canvas_copy_32bpp fuel dest dest_stride src src_stride width end_ m
         | BITMAP_FMT_24BIT =>
             canvas_copy_24bpp fuel dest dest_stride src src_stride width end_ m
         | BITMAP_FMT_16BIT =>
             canvas_copy_16bpp fuel dest dest_stride src src_stride width end_ m
         | BITMAP_FMT_8BIT =>
             canvas_copy_8bpp fuel dest dest_stride src src_stride width end_
                              palette m
         | BITMAP_FMT_4BIT_BE =>
             canvas_copy_4bpp_be fuel dest dest_stride src src_stride width end_
                                 palette m
         | BITMAP_FMT_1BIT_BE =>
             canvas_copy_1bpp_be fuel dest dest_stride src src_stride width end_
                                 palette m
         | _ => Done m
         end;
    Done (with_data cairo_surface m).


End Copy.

End Convert.

(** ** Masks and inverse surfaces *)

Module Mask.

(** One scanline of [n] bytes read from [from] at [now], each stored through
    [f] at [dest]: the inner loop [while (now < end)] of the mask and
    inversion functions. *)
Fixpoint map_bytes (f : Z -> Z) (n : nat) (from : mem) (now dest : Z)
    (m : mem) : mem :=
  match n with
  | O => m
  | S k => map_bytes f k from (now + 1) (dest + 1)
                     (store8 m dest (f (load8 from now)))
  end.

Definition map_line (f : Z -> Z) (from : mem) (line_size : Z)
    (src_line dest_line : Z) (m : mem) : outcome mem :=
  Done (map_bytes f (Z.to_nat line_size) from src_line dest_line m).

Definition memcpy_line (from : mem) (line_size : Z) (src_line dest_line : Z)
    (m : mem) : outcome mem :=
  Done (memcpy from dest_line src_line line_size m).

(** The complement of a pixel word masked with [0x00ffffff], over the [n]
    pixels of a line. *)
Fixpoint invers_pixels (n : nat) (from : mem) (src dest : Z) (m : mem) : mem :=
  match n with
  | O => m
  | S k =>
      invers_pixels k from (src + 4) (dest + 4)
        (store32 m dest (Z.land (u32 (Z.lnot (load32 from src))) 0x00ffffff))
  end.

Section Engine.

(** Build variants: the two symbols swap the cases of
    [canvas_get_bitmap_mask]. *)
Variable GL_CANVAS GDI_CANVAS : bool.

(** The drawing backend. *)
Variable surface_create : cairo_format_t -> Z -> Z -> bool -> cairo_surface_t.
Variable cairo_image_surface_create : cairo_format_t -> Z -> Z -> cairo_surface_t.

Variable wire : mem.

(** The format whose scanlines are copied as they are, and the one whose
    bytes are bit-reversed. *)
Definition copied_format : bitmap_format :=
  if GL_CANVAS || GDI_CANVAS then BITMAP_FMT_1BIT_BE else BITMAP_FMT_1BIT_LE.
Definition reversed_format : bitmap_format :=
  if GL_CANVAS || GDI_CANVAS then BITMAP_FMT_1BIT_LE else BITMAP_FMT_1BIT_BE.

Definition canvas_get_bitmap_mask (fuel : nat) (bitmap : Bitmap) (invers : bool)
    : outcome cairo_surface_t :=
  let surface := surface_create CAIRO_FORMAT_A1 (bitmap_x bitmap)
                                (bitmap_y bitmap) true in
  if decide (cairo_surface_status surface <> CAIRO_STATUS_SUCCESS)
  then CANVAS_ERROR "create surface failed"
  else
    let src_line := GET_ADDRESS (bitmap_data bitmap) in
    let src_stride := s32 (bitmap_stride bitmap) in
    let end_line := src_line + u32 (bitmap_y bitmap * src_stride) in
    let line_size := s32 (Z.shiftr (u32 (ALIGN (bitmap_x bitmap) 8)) 3) in
    let dest_stride := cairo_image_surface_get_stride surface in
    let dest_line := 0 in
    '(dest_line, dest_stride) ←
      (if bool_decide (BITMAP_TOP_DOWN (bitmap_flags_of bitmap) = GL_CANVAS)
       then _ ← ASSERT (0 <? bitmap_y bitmap) "bitmap->y > 0";
            Done (dest_line + dest_stride * (s32 (bitmap_y bitmap) - 1),
                  - dest_stride)
       else Done (dest_line, dest_stride));
    let m := cairo_image_surface_get_data surface in
    m ← (if invers then
           if decide (bitmap_format_of bitmap = copied_format) then
             for_rows fuel (map_line Bits.invert_byte wire line_size)
                      src_line src_stride end_line dest_line dest_stride m
           else if decide (bitmap_format_of bitmap = reversed_format) then
             for_rows fuel (map_line Bits.fused_byte wire line_size)
                      src_line src_stride end_line dest_line dest_stride m
           else CANVAS_ERROR "invalid bitmap format"
         else
           if decide (bitmap_format_of bitmap = copied_format) then
             for_rows fuel (memcpy_line wire line_size)
                      src_line src_stride end_line dest_line dest_stride m
           else if decide (bitmap_format_of bitmap = reversed_format) then
             for_rows fuel (map_line Bits.revers_bits wire line_size)
                      src_line src_stride end_line dest_line dest_stride m
           else CANVAS_ERROR "invalid bitmap format");
    Done (with_data surface m).

(** [canvas_A1_invers]: when the new surface could not be created it is
    returned as it is, for the caller to test. *)
Definition canvas_A1_invers (fuel : nat) (src_surf : cairo_surface_t)
    : outcome cairo_surface_t :=
  let width := cairo_image_surface_get_width src_surf in
  let height := cairo_image_surface_get_height src_surf in
  let invers := cairo_image_surface_create CAIRO_FORMAT_A1 width height in
  if decide (cairo_surface_status invers = CAIRO_STATUS_SUCCESS) then
    let src_line := 0 in
    let src_stride := cairo_image_surface_get_stride src_surf in
    let end_line := src_line + height * src_stride in
    let line_size := Z.shiftr (ALIGN width 8) 3 in
    let dest_line := 0 in
    let dest_stride := cairo_image_surface_get_stride invers in
    m ← for_rows fuel
          (map_line Bits.invert_byte (cairo_image_surface_get_data src_surf)
                    line_size)
          src_line src_stride end_line dest_line dest_stride
          (cairo_image_surface_get_data invers);
    Done (with_data invers m)
  else Done invers.

(** [canvas_surf_to_invers]: the row loop is guarded by the destination
    pointer. *)
Definition canvas_surf_to_invers (fuel : nat) (surf : cairo_surface_t)
    : outcome cairo_surface_t :=
  let width := cairo_image_surface_get_width surf in
  let height := cairo_image_surface_get_height surf in
  _ ← ASSERT (bool_decide (cairo_image_surface_get_format surf = CAIRO_FORMAT_RGB24))
             "cairo_image_surface_get_format(surf) == CAIRO_FORMAT_RGB24";
  let invers := cairo_image_surface_create CAIRO_FORMAT_RGB24 width height in
  if decide (cairo_surface_status invers <> CAIRO_STATUS_SUCCESS)
  then CANVAS_ERROR "create surface failed"
  else
    let dest_line := 0 in
    let dest_stride := cairo_image_surface_get_stride invers in
    let dest_line_end := dest_line + dest_stride * height in
    let src_line := 0 in
    let src_stride := cairo_image_surface_get_stride surf in
    m ← for_rows fuel
          (fun dest_line src_line m =>
             Done (invers_pixels (Z.to_nat width)
                     (cairo_image_surface_get_data surf) src_line dest_line m))
          dest_line dest_stride dest_line_end src_line src_stride
          (cairo_image_surface_get_data invers);
    Done (with_data invers m).

(** The inversion that [canvas_handle_inverse_user_data] computes, chosen by
    the format of the surface; a surface that could not be created is the
    error of that function. *)
Definition compute_inverse (fuel : nat) (surface : cairo_surface_t)
    : outcome cairo_surface_t :=
  inv_surf ← (if decide (cairo_image_surface_get_format surface = CAIRO_FORMAT_A1)
              then canvas_A1_invers fuel surface
              else canvas_surf_to_invers fuel surface);
  if decide (cairo_surface_status inv_surf <> CAIRO_STATUS_SUCCESS)
  then CANVAS_ERROR "create surface failed"
  else Done inv_surf.

End Engine.

(** A backend in the manner of cairo's image surfaces, to run the functions
    on concrete inputs: rows are padded to a multiple of four bytes and a new
    surface is cleared. *)
Definition cairo_format_stride_for_width (format : cairo_format_t) (width : Z) : Z :=
  match format with
  | CAIRO_FORMAT_ARGB32 | CAIRO_FORMAT_RGB24 => 4 * width
  | CAIRO_FORMAT_A8 => 4 * ((width + 3) / 4)
  | CAIRO_FORMAT_A1 => 4 * ((width + 31) / 32)
  end.

Definition image_surface (format : cairo_format_t) (width height : Z)
    : cairo_surface_t :=
  {| cairo_surface_status := CAIRO_STATUS_SUCCESS;
     cairo_image_surface_get_format := format;
     cairo_image_surface_get_width := width;
     cairo_image_surface_get_height := height;
     cairo_image_surface_get_stride := cairo_format_stride_for_width format width;
     cairo_image_surface_get_data := fun _ => 0 |}.

Definition image_surface_create (format : cairo_format_t) (width height : Z)
    (top_down : bool) : cairo_surface_t :=
  image_surface format width height.

End Mask.

(** ** Surface objects, the bits cache and [canvas_get_mask] *)

Module Canvas.

(** A [cairo_surface_t *]. *)
Definition loc : Type := nat.

(** A surface of the backend as an object: its image, its reference count,
    and the user data stored under the key [invers_data_type] (the inverse
    surface, released through [__release_surface]). *)
Record surface_object : Type := {
  object_surface : cairo_surface_t;
  object_refs : Z;
  object_inverse : option loc
}.

Definition set_refs (o : surface_object) (n : Z) : surface_object :=
  {| object_surface := object_surface o; object_refs := n;
     object_inverse := object_inverse o |}.

Definition set_inverse (o : surface_object) (inv : option loc) : surface_object :=
  {| object_surface := object_surface o; object_refs := object_refs o;
     object_inverse := inv |}.

(** The backend's object operations, as cairo documents them.  A new surface
    has one reference; [cairo_surface_destroy] drops one and, with the last,
    frees the surface after running the destroy function of its user data
    (here [__release_surface], which destroys the inverse);
    [cairo_surface_set_user_data] is taken to succeed. *)
Definition new_surface (s : cairo_surface_t) (h : gmap loc surface_object)
    : loc * gmap loc surface_object :=
  let l := fresh (dom h) in
  (l, <[l := {| object_surface := s; object_refs := 1; object_inverse := None |}]> h).

Definition cairo_surface_reference (l : loc) (h : gmap loc surface_object)
    : gmap loc surface_object :=
  alter (fun o => set_refs o (object_refs o + 1)) l h.

Fixpoint cairo_surface_destroy_rec (fuel : nat) (l : loc)
    (h : gmap loc surface_object) : gmap loc surface_object :=
  match fuel with
  | O => h
  | S fuel' =>
      match h !! l with
      | None => h
      | Some o =>
          if object_refs o <=? 1 then
            match object_inverse o with
            | Some inv => cairo_surface_destroy_rec fuel' inv (delete l h)
            | None => delete l h
            end
          else <[l := set_refs o (object_refs o - 1)]> h
      end
  end.

Definition cairo_surface_destroy (l : loc) (h : gmap loc surface_object)
    : gmap loc surface_object :=
  cairo_surface_destroy_rec (S (size h)) l h.

Definition cairo_surface_get_user_data (l : loc) (h : gmap loc surface_object)
    : option loc :=
  o ← h !! l; object_inverse o.

Definition cairo_surface_set_user_data (l inv : loc) (h : gmap loc surface_object)
    : cairo_status_t * gmap loc surface_object :=
  (CAIRO_STATUS_SUCCESS, alter (fun o => set_inverse o (Some inv)) l h).

(** *** Wire structures of a mask *)

Inductive image_type : Type :=
| IMAGE_TYPE_BITMAP | IMAGE_TYPE_QUIC | IMAGE_TYPE_LZ_PLT | IMAGE_TYPE_LZ_RGB
| IMAGE_TYPE_GLZ_RGB | IMAGE_TYPE_FROM_CACHE.

Record ImageDescriptor : Type := {
  descriptor_id : Z;
  descriptor_type : image_type;
  IMAGE_CACHE_ME : bool;
  descriptor_width : Z;
  descriptor_height : Z
}.

Record BitmapImage : Type := {
  descriptor : ImageDescriptor;
  bitmap : Bitmap
}.

Record QMask : Type := {
  MASK_INVERS : bool;
  mask_bitmap : Z
}.

(** The part of the canvas state the mask path touches: the surface objects
    and what is behind [bits_cache_opaque]. *)
Record canvas_state : Type := {
  surfaces : gmap loc surface_object;
  bits_cache : gmap Z loc
}.

(** Modelled from the spec: the bits cache is an external collaborator,
    reached through the function pointers [bits_cache_put] and
    [bits_cache_get] of the canvas; it is a finite map from ids to surfaces
    here.  The cache keeps a reference of its own to a stored surface and
    [get] hands out a new one ([canvas_get_mask] destroys the reference it
    was given); a [get] of an absent id is the cache coherency error. *)
Definition bits_cache_put (id : Z) (surface : loc) (st : canvas_state)
    : canvas_state :=
  {| surfaces := cairo_surface_reference surface (surfaces st);
     bits_cache := <[id := surface]> (bits_cache st) |}.

Definition bits_cache_get (id : Z) (st : canvas_state)
    : outcome (loc * canvas_state) :=
  match bits_cache st !! id with
  | Some surface =>
      Done (surface, {| surfaces := cairo_surface_reference surface (surfaces st);
                        bits_cache := bits_cache st |})
  | None => Abort "image not in cache"
  end.

Section GetMask.

(** Build variants. *)
Variable GL_CANVAS GDI_CANVAS : bool.
Variable CAIRO_CANVAS_CACHE CAIRO_CANVAS_IMAGE_CACHE : bool.
Variable CAIRO_CANVAS_CACH_IS_SHARED : bool.

(** The drawing backend. *)
Variable surface_create : cairo_format_t -> Z -> Z -> bool -> cairo_surface_t.
Variable cairo_image_surface_create : cairo_format_t -> Z -> Z -> cairo_surface_t.

(** The wire buffer: pixel bytes, and the images found at an address. *)
Variable wire : mem.
Variable images : gmap Z BitmapImage.

(** [canvas_handle_inverse_user_data] run by one thread on its own: the two
    sections under the mutex follow each other with nothing in between. *)
Definition canvas_handle_inverse_user_data (fuel : nat) (surface : loc)
    (h : gmap loc surface_object) : outcome (loc * gmap loc surface_object) :=
  match cairo_surface_get_user_data surface h with
  | Some inv_surf => Done (inv_surf, cairo_surface_reference inv_surf h)
  | None =>
      match h !! surface with
      | None => Fault
      | Some o =>
          inv ← (if decide (cairo_image_surface_get_format (object_surface o)
                            = CAIRO_FORMAT_A1)
                 then Mask.canvas_A1_invers cairo_image_surface_create fuel
                                            (object_surface o)
                 else Mask.canvas_surf_to_invers cairo_image_surface_create fuel
                                                 (object_surface o));
          let '(inv_surf, h) := new_surface inv h in
          if decide (cairo_surface_status inv <> CAIRO_STATUS_SUCCESS)
          then CANVAS_ERROR "create surface failed"
          else
            if CAIRO_CANVAS_CACH_IS_SHARED
               && bool_decide (is_Some (cairo_surface_get_user_data surface h))
            then Done (inv_surf, h)
            else
              let '(status, h) := cairo_surface_set_user_data surface inv_surf h in
              if decide (status = CAIRO_STATUS_SUCCESS)
              then Done (inv_surf, cairo_surface_reference inv_surf h)
              else Done (inv_surf, h)
      end
  end.

Definition canvas_get_mask (fuel : nat) (mask : QMask) (st : canvas_state)
    : outcome (option loc * canvas_state) :=
  if mask_bitmap mask =? 0 then Done (None, st)
  else
    match images !! GET_ADDRESS (mask_bitmap mask) with
    | None => Fault
    | Some image =>
        let descriptor := descriptor image in
        let need_invers := MASK_INVERS mask in
        let cache_me :=
          if CAIRO_CANVAS_CACHE then IMAGE_CACHE_ME descriptor else false in
        '(surface, is_invers, st) ←
          match descriptor_type descriptor with
          | IMAGE_TYPE_BITMAP =>
              let is_invers := need_invers && negb cache_me in
              s ← Mask.canvas_get_bitmap_mask GL_CANVAS GDI_CANVAS surface_create
                    wire fuel (bitmap image) is_invers;
              let '(surface, h) := new_surface s (surfaces st) in
              Done (surface, is_invers,
                    {| surfaces := h; bits_cache := bits_cache st |})
          | IMAGE_TYPE_FROM_CACHE =>
              if CAIRO_CANVAS_CACHE || CAIRO_CANVAS_IMAGE_CACHE then
                '(surface, st) ← bits_cache_get (descriptor_id descriptor) st;
                Done (surface, false, st)
              else CANVAS_ERROR "invalid image type"
          | _ => CANVAS_ERROR "invalid image type"
          end;
        if CAIRO_CANVAS_CACHE || CAIRO_CANVAS_IMAGE_CACHE then
          let st := if cache_me
                    then bits_cache_put (descriptor_id descriptor) surface st
                    else st in
          if need_invers && negb is_invers then
            '(inv_surf, h) ← canvas_handle_inverse_user_data fuel surface
                               (surfaces st);
            let h := cairo_surface_destroy surface h in
            Done (Some inv_surf, {| surfaces := h; bits_cache := bits_cache st |})
          else Done (Some surface, st)
        else Done (Some surface, st)
    end.

End GetMask.

End Canvas.

(** ** Palette resolution *)

Module PaletteResolver.

(** [canvas_localize_palette] rewrites the palette it is given; the function
    returns the new contents.  An index past the end of the list is outside
    the modelled buffer and [alter] leaves the list as it is. *)
Fixpoint localize_loop (n : nat) (now : nat) (ents : list Z) : list Z :=
  match n with
  | O => ents
  | S k => localize_loop k (S now) (alter Pixel.canvas_16bpp_to_32bpp now ents)
  end.

Definition canvas_localize_palette (color_shift : Z) (palette : Palette) : Palette :=
  if color_shift =? 5 then
    {| num_ents := num_ents palette;
       ents := localize_loop (Z.to_nat (num_ents palette)) 0 (ents palette) |}
  else palette.

(** What [canvas_get_palett] returns: a null pointer, a pointer into the wire
    buffer, or a palette owned by the palette cache. *)
Inductive palette_ptr : Type :=
| PaletteNull
| PaletteInline (addr : Z)
| PaletteCached (palette : Palette).

Section Resolver.

(** The palette cache of the canvas: its opaque state and the two function
    pointers used here.  [palette_cache_put] is handed the pointer and sees
    the palette behind it. *)
Variable palette_cache : Type.
Variable palette_cache_put : palette_cache -> Z -> Palette -> palette_cache.
Variable palette_cache_get : palette_cache -> Z -> Palette.

Record canvas_state : Type := {
  color_shift : Z;
  inline_palettes : gmap Z Palette;
  palette_cache_opaque : palette_cache
}.

Definition canvas_get_palett (st : canvas_state) (base_palette : Z)
    (flags : bitmap_flags) : outcome (palette_ptr * canvas_state) :=
  if base_palette =? 0 then Done (PaletteNull, st)
  else if BITMAP_PAL_FROM_CACHE flags then
    Done (PaletteCached (palette_cache_get (palette_cache_opaque st) base_palette),
          st)
  else
    let palette := GET_ADDRESS base_palette in
    match inline_palettes st !! palette with
    | None => Fault
    | Some contents =>
        let contents := canvas_localize_palette (color_shift st) contents in
        let inline := <[palette := contents]> (inline_palettes st) in
        if BITMAP_PAL_CACHE_ME flags then
          Done (PaletteInline palette,
                {| color_shift := color_shift st;
                   inline_palettes := inline;
                   palette_cache_opaque :=
                     palette_cache_put (palette_cache_opaque st) palette contents |})
        else
          Done (PaletteInline palette,
                {| color_shift := color_shift st;
                   inline_palettes := inline;
                   palette_cache_opaque := palette_cache_opaque st |})
    end.

End Resolver.

Arguments color_shift {palette_cache} _.
Arguments inline_palettes {palette_cache} _.
Arguments palette_cache_opaque {palette_cache} _.

End PaletteResolver.

(** ** Chunked Quic payloads *)

Module Quic.

(** [DataChunk]: the header fields and the bytes stored from [data] on. *)
Record DataChunk : Type := {
  chunk_size : Z;
  chunk_prev : Z;
  chunk_next : Z;
  chunk_data : list Z
}.

(** The fields of [QuicData] used for chunked input. *)
Record QuicData : Type := {
  next : Z;
  address_delta : Z
}.

Section Chunks.

(** An input pointer handed to the decoder is the [data] field of a chunk;
    it is given by the address of the chunk. *)

(** The chunks found in the address space, by local address. *)
Variable chunks : gmap Z DataChunk.

(** [quic_usr_more_space] (chunked build): the result is the returned word
    count, the value left in [*io_ptr] and the updated [QuicData].  [next]
    and [address_delta] are of the type [ADDRESS], and so is their sum. *)
Definition quic_usr_more_space (quic_data : QuicData) (io_ptr : Z)
    (rows_completed : Z) : outcome (Z * Z * QuicData) :=
  if next quic_data =? 0 then Done (0, io_ptr, quic_data)
  else
    let chunk :=
      GET_ADDRESS (u64 (next quic_data + address_delta quic_data)) in
    match chunks !! chunk with
    | None => Fault
    | Some c =>
        Done (Z.shiftr (chunk_size c) 2, chunk,
              {| next := chunk_next c; address_delta := address_delta quic_data |})
    end.

(** The entry of [canvas_get_quic] (chunked build) up to the call of
    [quic_decode_begin]: [first] is the chunk pointer read from
    [image->quic.data]; the result is the buffer and word count passed to the
    decoder and the [QuicData] it will be called back with. *)
Definition canvas_get_quic_begin (canvas_address_delta : Z) (first : Z)
    : outcome (Z * Z * QuicData) :=
  match chunks !! first with
  | None => Fault
  | Some c =>
      Done (first, Z.shiftr (chunk_size c) 2,
            {| next := chunk_next c; address_delta := canvas_address_delta |})
  end.

(** The 32-bit word number [i] behind an input pointer. *)
Definition io_word (io_ptr : Z) (i : Z) : outcome Z :=
  match chunks !! io_ptr with
  | None => Fault
  | Some c =>
      match chunk_data c !! Z.to_nat (4 * i), chunk_data c !! Z.to_nat (4 * i + 1),
            chunk_data c !! Z.to_nat (4 * i + 2), chunk_data c !! Z.to_nat (4 * i + 3)
      with
      | Some b0, Some b1, Some b2, Some b3 =>
          Done (u8 b0 + 2 ^ 8 * u8 b1 + 2 ^ 16 * u8 b2 + 2 ^ 24 * u8 b3)
      | _, _, _, _ => Fault
      end
  end.

(** The reading position of a decode: the buffer it reads, the index of the
    next word, the number of words in the buffer, and the [QuicData] of its
    callbacks. *)
Record io_state : Type := {
  io_now : Z;
  io_index : Z;
  io_words : Z;
  io_quic_data : QuicData
}.

(** Modelled from the spec: the Quic decoder itself is not part of the
    sources.  It consumes its input word by word from the buffer it was
    given; when that buffer is exhausted it calls [more_space], and a call
    that supplies no words in the middle of a decode is the incomplete-stream
    condition, reported through the [error] callback.  [quic_usr_error] jumps
    back into [canvas_get_quic], which ends in [CANVAS_ERROR]. *)
Definition read_io_word (st : io_state) : outcome (Z * io_state) :=
  if io_index st <? io_words st then
    w ← io_word (io_now st) (io_index st);
    Done (w, {| io_now := io_now st; io_index := io_index st + 1;
                io_words := io_words st; io_quic_data := io_quic_data st |})
  else
    '(num_io_words, io_ptr, quic_data) ←
      quic_usr_more_space (io_quic_data st) (io_now st) 0;
    if num_io_words <=? 0 then CANVAS_ERROR "quic error, no more words"
    else
      w ← io_word io_ptr 0;
      Done (w, {| io_now := io_ptr; io_index := 1;
                  io_words := num_io_words; io_quic_data := quic_data |}).

Fixpoint read_io_words (n : nat) (st : io_state) : outcome (list Z * io_state) :=
  match n with
  | O => Done ([], st)
  | S k =>
      '(w, st) ← read_io_word st;
      '(ws, st) ← read_io_words k st;
      Done (w :: ws, st)
  end.

(** A decode that consumes [n] words of a chunked image. *)
Definition decode_words (canvas_address_delta : Z) (first : Z) (n : nat)
    : outcome (list Z) :=
  '(io_ptr, num_io_words, quic_data) ←
    canvas_get_quic_begin canvas_address_delta first;
  '(ws, _) ← read_io_words n {| io_now := io_ptr; io_index := 0;
                                 io_words := num_io_words;
                                 io_quic_data := quic_data |};
  Done ws.

End Chunks.

(** The little-endian words of a byte sequence whose length is a multiple of
    four. *)
Fixpoint words_of_bytes (l : list Z) : list Z :=
  match l with
  | b0 :: b1 :: b2 :: b3 :: rest =>
      (u8 b0 + 2 ^ 8 * u8 b1 + 2 ^ 16 * u8 b2 + 2 ^ 24 * u8 b3)
        :: words_of_bytes rest
  | _ => []
  end.

End Quic.

(** ** The inverse surface under concurrent callers

    [canvas_handle_inverse_user_data] built with [CAIRO_CANVAS_CACH_IS_SHARED].
    The two sections under [cairo_surface_user_data_mutex] exclude each other,
    so each is one atomic step of the thread that runs it; computing the
    inverse touches only the thread's new surface and reads the pixels of the
    original, and is a step of its own; so is the reference a thread takes on
    an inverse it found attached.  A run is an interleaving of the steps of
    the threads. *)

Module Shared.
Import Canvas.

Inductive thread_state : Type :=
| AtEntry
| Found (inv_surf : loc)
| NotFound
| Computed (inv_surf : loc)
| Returned (inv_surf : loc).

Record config : Type := {
  heap : gmap loc surface_object;
  threads : list thread_state
}.

Section Run.

Variable cairo_image_surface_create : cairo_format_t -> Z -> Z -> cairo_surface_t.
Variable fuel : nat.

(** The surface every thread asks the inverse of. *)
Variable surface : loc.

Definition set_thread (i : nat) (t : thread_state) (c : config)
    (h : gmap loc surface_object) : config :=
  {| heap := h; threads := <[i := t]> (threads c) |}.

(** The second section under the mutex: attach the inverse if none is
    attached yet. *)
Definition attach (inv_surf : loc) (h : gmap loc surface_object)
    : gmap loc surface_object :=
  match cairo_surface_get_user_data surface h with
  | Some _ => h
  | None =>
      let '(status, h) := cairo_surface_set_user_data surface inv_surf h in
      if decide (status = CAIRO_STATUS_SUCCESS)
      then cairo_surface_reference inv_surf h
      else h
  end.

Inductive step : config -> config -> Prop :=
| step_lookup_found (c : config) (i : nat) (inv_surf : loc) :
    threads c !! i = Some AtEntry ->
    cairo_surface_get_user_data surface (heap c) = Some inv_surf ->
    step c (set_thread i (Found inv_surf) c (heap c))
| step_lookup_none (c : config) (i : nat) :
    threads c !! i = Some AtEntry ->
    cairo_surface_get_user_data surface (heap c) = None ->
    step c (set_thread i NotFound c (heap c))
| step_reference (c : config) (i : nat) (inv_surf : loc) :
    threads c !! i = Some (Found inv_surf) ->
    step c (set_thread i (Returned inv_surf) c
                       (cairo_surface_reference inv_surf (heap c)))
| step_compute (c : config) (i : nat) (o : surface_object)
      (inv : cairo_surface_t) :
    threads c !! i = Some NotFound ->
    heap c !! surface = Some o ->
    Mask.compute_inverse cairo_image_surface_create fuel (object_surface o)
      = Done inv ->
    step c (set_thread i (Computed (new_surface inv (heap c)).1) c
                       (new_surface inv (heap c)).2)
| step_attach (c : config) (i : nat) (inv_surf : loc) :
    threads c !! i = Some (Computed inv_surf) ->
    step c (set_thread i (Returned inv_surf) c (attach inv_surf (heap c))).

(** The next step of thread [i], when it has one. *)
Definition thread_step (i : nat) (c : config) : option config :=
  match threads c !! i with
  | Some AtEntry =>
      match cairo_surface_get_user_data surface (heap c) with
      | Some inv_surf => Some (set_thread i (Found inv_surf) c (heap c))
      | None => Some (set_thread i NotFound c (heap c))
      end
  | Some (Found inv_surf) =>
      Some (set_thread i (Returned inv_surf) c
                       (cairo_surface_reference inv_surf (heap c)))
  | Some NotFound =>
      match heap c !! surface with
      | Some o =>
          match Mask.compute_inverse cairo_image_surface_create fuel
                  (object_surface o) with
          | Done inv =>
              Some (set_thread i (Computed (new_surface inv (heap c)).1) c
                               (new_surface inv (heap c)).2)
          | _ => None
          end
      | None => None
      end
  | Some (Computed inv_surf) =>
      Some (set_thread i (Returned inv_surf) c (attach inv_surf (heap c)))
  | Some (Returned _) | None => None
  end.

(** The run in which the threads move in the order of [schedule]. *)
Fixpoint run_schedule (schedule : list nat) (c : config) : option config :=
  match schedule with
  | [] => Some c
  | i :: schedule => c ← thread_step i c; run_schedule schedule c
  end.

(** [n] callers about to enter, over the surfaces [h]. *)
Definition initial (h : gmap loc surface_object) (n : nat) : config :=
  {| heap := h; threads := replicate n AtEntry |}.

Definition all_returned (c : config) : Prop :=
  forall i t, threads c !! i = Some t -> exists inv_surf, t = Returned inv_surf.

End Run.

End Shared.

(** ** More of the Quic path *)

Module QuicTail.
Import Quic.

(** The inner loop [for (; pix < end_pix; pix++) *pix ^= 0x00ffffff] of
    [canvas_get_quic], over the [n] pixels of a row. *)
Fixpoint xor_pixels (n : nat) (pix : Z) (m : mem) : mem :=
  match n with
  | O => m
  | S k =>
      xor_pixels k (pix + 4)
                 (store32 m pix (Z.lxor (load32 m pix) 0x00ffffff))
  end.

(** The end of [canvas_get_quic], after the decoder has filled the surface
    it was given: with [invers] the rows are inverted in place.  [width] and
    [height] are the two values the decoder reported. *)
Definition canvas_get_quic_invers (fuel : nat) (invers : bool)
    (surface : cairo_surface_t) (width height : Z) : outcome cairo_surface_t :=
  let dest := 0 in
  let stride := cairo_image_surface_get_stride surface in
  if invers then
    let end_ := dest + height * stride in
    m ← for_rows fuel
          (fun dest _ m => Done (xor_pixels (Z.to_nat width) dest m))
          dest stride end_ 0 0 (cairo_image_surface_get_data surface);
    Done (with_data surface m)
  else Done surface.

Section Calls.

Variable chunks : gmap Z DataChunk.

(** [n] calls of [quic_usr_more_space] in a row, as a decoder makes them:
    the word count and the input pointer of each call. *)
Fixpoint more_space_calls (n : nat) (quic_data : QuicData) (io_ptr : Z)
    : outcome (list (Z * Z) * QuicData) :=
  match n with
  | O => Done ([], quic_data)
  | S k =>
      '(num_io_words, io_ptr, quic_data) ←
        quic_usr_more_space chunks quic_data io_ptr 0;
      '(rest, quic_data) ← more_space_calls k quic_data io_ptr;
      Done ((num_io_words, io_ptr) :: rest, quic_data)
  end.

(** The chunks [cs] are linked from the protocol address [a] on: each has a
    protocol address that is not null, is found at that address moved by
    [delta], a sum of two [ADDRESS] values, and the last has no next. *)
Fixpoint chain (delta a : Z) (cs : list DataChunk) : Prop :=
  match cs with
  | [] => a = 0
  | c :: cs =>
      0 < a < 2 ^ 64 /\ chunks !! GET_ADDRESS (u64 (a + delta)) = Some c
      /\ chain delta (chunk_next c) cs
  end.

End Calls.

(** The word count and the local address of each chunk of a chain. *)
Fixpoint chain_calls (delta a : Z) (cs : list DataChunk) : list (Z * Z) :=
  match cs with
  | [] => []
  | c :: cs =>
      (Z.shiftr (chunk_size c) 2, GET_ADDRESS (u64 (a + delta)))
        :: chain_calls delta (chunk_next c) cs
  end.

(** The local address of the last chunk of a chain, [io_ptr] for none. *)
Fixpoint chain_last (delta a : Z) (cs : list DataChunk) (io_ptr : Z) : Z :=
  match cs with
  | [] => io_ptr
  | c :: cs =>
      chain_last delta (chunk_next c) cs (GET_ADDRESS (u64 (a + delta)))
  end.

End QuicTail.

(** ** Glyph bits

    The glyphs of a string are read from the wire buffer and drawn into the
    pixel buffer of the string mask, a memory of its own. *)

Module Glyph.

Definition MIN (x y : Z) : Z := if x <=? y then x else y.
Definition MAX (x y : Z) : Z := if x >=? y then x else y.

Record Point : Type := {
  point_x : Z;
  point_y : Z
}.

Record Rect : Type := {
  top : Z;
  left : Z;
  bottom : Z;
  right : Z
}.

(** [RasterGlyph]: the two points are pairs of [int32], [width] and
    [height] are 16-bit unsigned fields, and [glyph_data] is the address of
    the [data] bytes in the wire buffer. *)
Record RasterGlyph : Type := {
  render_pos : Point;
  glyph_origin : Point;
  glyph_width : Z;
  glyph_height : Z;
  glyph_data : Z
}.

(** [rect_offset] is declared in rect.h: it moves a rectangle by [dx] and
    [dy]. *)
Definition rect_offset (r : Rect) (dx dy : Z) : Rect :=
  {| top := top r + dy; left := left r + dx;
     bottom := bottom r + dy; right := right r + dx |}.

(** [canvas_next_raster_glyph]: [glyph_end] is the address [glyph + 1], the
    first byte after the header.  The size of the data is computed in
    [int]: the product [width * bpp], its alignment and the product with
    [height] are 32-bit values, and one that passes [2^31] is taken as the
    32-bit multiplication of the compiled code leaves it; the shift of a
    negative [int] is the arithmetic one. *)
Definition canvas_next_raster_glyph (glyph_end : Z) (glyph : RasterGlyph)
    (bpp : Z) : Z :=
  glyph_end
  + Z.shiftr (s32 (s32 (ALIGN (s32 (glyph_width glyph * bpp)) 8)
                   * glyph_height glyph)) 3.

(** [canvas_raster_glyph_box]; the sums of [int32] fields are taken exact. *)
Definition canvas_raster_glyph_box (glyph : RasterGlyph) : Rect :=
  let top := point_y (render_pos glyph) + point_y (glyph_origin glyph) in
  let bottom := top + glyph_height glyph in
  let left := point_x (render_pos glyph) + point_x (glyph_origin glyph) in
  let right := left + glyph_width glyph in
  {| top := top; left := left; bottom := bottom; right := right |}.

Section PutBits.

(** Build variant: the two definitions of [__canvas_put_bits]. *)
Variable GL_CANVAS : bool.

Variable wire : mem.

(** [__canvas_put_bits]; [val] is a [uint8_t] and so is [mask]. *)
Definition __canvas_put_bits (dest offset val n : Z) (m : mem) : mem :=
  let val := u8 val in
  let dest := dest + Z.shiftr offset 3 in
  let offset := Z.land offset 0x07 in
  let now := MIN (8 - offset) n in
  if GL_CANVAS then
    let mask := u8 (Z.lnot (Z.shiftl 1 (8 - now) - 1)) in
    let mask := u8 (Z.shiftr mask offset) in
    let m := store8 m dest
               (Z.lor (Z.land (Z.shiftr val offset) mask) (load8 m dest)) in
    let n := n - now in
    if n =? 0 then m
    else
      let mask := u8 (Z.lnot (Z.shiftl 1 (8 - n) - 1)) in
      let dest := dest + 1 in
      store8 m dest (Z.lor (Z.land (Z.shiftl val now) mask) (load8 m dest))
  else
    let mask := u8 (Z.shiftl 1 now - 1) in
    let mask := u8 (Z.shiftl mask offset) in
    let val := Bits.revers_bits val in
    let m := store8 m dest
               (Z.lor (Z.land (Z.shiftl val offset) mask) (load8 m dest)) in
    let n := n - now in
    if n =? 0 then m
    else
      let mask := u8 (Z.shiftl 1 n - 1) in
      let dest := dest + 1 in
      store8 m dest (Z.lor (Z.land (Z.shiftr val now) mask) (load8 m dest)).

(** [canvas_put_bits]: the loop runs while [n] is not zero. *)
Fixpoint canvas_put_bits (fuel : nat) (dest dest_offset src n : Z) (m : mem)
    : outcome mem :=
  match fuel with
  | O => OutOfFuel
  | S fuel' =>
      if n =? 0 then Done m
      else
        let now := MIN n 8 in
        let n := n - now in
        let m := __canvas_put_bits dest dest_offset (load8 wire src) now m in
        canvas_put_bits fuel' dest (dest_offset + now) (src + 1) n m
  end.

(** *** [canvas_put_glyph_bits] *)

(** 1 bpp: the loop [for (i = 0; i < lines; i++)], with [n] lines left. *)
Fixpoint put_lines_1bpp (fuel : nat) (n : nat)
    (src src_stride dest dest_stride left width : Z) (m : mem) : outcome mem :=
  match n with
  | O => Done m
  | S k =>
      let src := src - src_stride in
      m ← canvas_put_bits fuel dest left src width m;
      put_lines_1bpp fuel k src src_stride (dest + dest_stride) dest_stride
                     left width m
  end.

(** 4 bpp: the loop [while (i < (width & ~1))] with [n] rounds left; it
    gives back [i], [now] and the memory. *)
Fixpoint put_pairs_4bpp (n : nat) (dest i now : Z) (m : mem) : Z * Z * mem :=
  match n with
  | O => (i, now, m)
  | S k =>
      let m := store8 m (dest + i)
                 (MAX (load8 m (dest + i)) (Z.land (load8 wire now) 0xf0)) in
      let m := store8 m (dest + i + 1)
                 (MAX (load8 m (dest + i + 1)) (Z.shiftl (load8 wire now) 4)) in
      put_pairs_4bpp k dest (i + 2) (now + 1) m
  end.

(** The body of the row loop of the 4 bpp case; [src] is the pointer the
    previous round left. *)
Definition put_line_4bpp (width src_stride : Z) (dest src : Z) (m : mem)
    : outcome mem :=
  let src := src - src_stride in
  let rounds := Z.to_nat (Z.land width (Z.lnot 1) / 2) in
  let '(i, now, m) := put_pairs_4bpp rounds dest 0 src m in
  if i <? width then
    Done (store8 m (dest + i)
            (MAX (load8 m (dest + i)) (Z.land (load8 wire now) 0xf0)))
  else Done m.

(** 8 bpp: the loop [for (i = 0; i < width; i++)], with [n] bytes left. *)
Fixpoint put_bytes_8bpp (n : nat) (dest src : Z) (m : mem) : mem :=
  match n with
  | O => m
  | S k =>
      put_bytes_8bpp k (dest + 1) (src + 1)
        (store8 m dest (MAX (load8 m dest) (load8 wire src)))
  end.

Definition put_line_8bpp (width : Z) (dest src : Z) (m : mem) : outcome mem :=
  Done (put_bytes_8bpp (Z.to_nat width) dest src m).

Definition canvas_put_glyph_bits (fuel : nat) (glyph : RasterGlyph) (bpp : Z)
    (dest dest_stride : Z) (bounds : Rect) (m : mem) : outcome mem :=
  let glyph_box := canvas_raster_glyph_box glyph in
  _ ← ASSERT ((top glyph_box >=? top bounds)
              && (bottom glyph_box <=? bottom bounds))
        "glyph_box.top >= bounds->top && glyph_box.bottom <= bounds->bottom";
  _ ← ASSERT ((left glyph_box >=? left bounds)
              && (right glyph_box <=? right bounds))
        "glyph_box.left >= bounds->left && glyph_box.right <= bounds->right";
  let glyph_box := rect_offset glyph_box (- left bounds) (- top bounds) in
  let dest := dest + top glyph_box * dest_stride in
  let src := glyph_data glyph in
  let lines := bottom glyph_box - top glyph_box in
  let width := right glyph_box - left glyph_box in
  if bpp =? 1 then
    let src_stride := Z.shiftr (ALIGN width 8) 3 in
    let src := src + src_stride * lines in
    put_lines_1bpp fuel (Z.to_nat lines) src src_stride dest dest_stride
                   (left glyph_box) width m
  else if bpp =? 4 then
    let src_stride := Z.shiftr (ALIGN (width * 4) 8) 3 in
    let src := src + src_stride * lines in
    let dest := dest + left glyph_box in
    let end_ := dest + dest_stride * lines in
    for_rows fuel (put_line_4bpp width src_stride) dest dest_stride end_
             src (- src_stride) m
  else if bpp =? 8 then
    let src := src + width * lines in
    let dest := dest + left glyph_box in
    let end_ := dest + dest_stride * lines in
    for_rows fuel (put_line_8bpp width) dest dest_stride end_
             src (- width) m
  else CANVAS_ERROR "invalid bpp".

End PutBits.

(** *** [canvas_get_str_mask] *)

(** [rect_union] is declared in rect.h: the smallest rectangle that holds
    both. *)
Definition rect_union (dest r : Rect) : Rect :=
  {| top := MIN (top dest) (top r); left := MIN (left dest) (left r);
     bottom := MAX (bottom dest) (bottom r);
     right := MAX (right dest) (right r) |}.

Section StrMask.

Variable GL_CANVAS : bool.
Variable wire : mem.
Variable cairo_image_surface_create : cairo_format_t -> Z -> Z -> cairo_surface_t.

(** The glyph headers found in the wire buffer, by address, and the size of
    a header: the glyph after the one at [glyph] is looked for from
    [glyph + 1] on.  The build is the one without
    [CAIRO_CANVAS_ACCESS_TEST], where [access_test] is empty. *)
Variable glyphs : gmap Z RasterGlyph.
Variable sizeof_RasterGlyph : Z.

(** The first loop, [for (i = 1; i < str->length; i++)], with [n] rounds
    left: the bounds grow by the box of each glyph. *)
Fixpoint str_bounds (n : nat) (next_glyph bpp : Z) (bounds : Rect)
    : outcome Rect :=
  match n with
  | O => Done bounds
  | S k =>
      match glyphs !! next_glyph with
      | None => Fault
      | Some glyph =>
          let next_glyph :=
            canvas_next_raster_glyph (next_glyph + sizeof_RasterGlyph)
                                     glyph bpp in
          str_bounds k next_glyph bpp
                     (rect_union bounds (canvas_raster_glyph_box glyph))
      end
  end.

(** The second loop, [for (i = 0; i < str->length; i++)], with [n] rounds
    left. *)
Fixpoint put_glyphs (fuel : nat) (n : nat) (glyph bpp dest dest_stride : Z)
    (bounds : Rect) (m : mem) : outcome mem :=
  match n with
  | O => Done m
  | S k =>
      match glyphs !! glyph with
      | None => Fault
      | Some header =>
          m ← canvas_put_glyph_bits GL_CANVAS wire fuel header bpp
                dest dest_stride bounds m;
          put_glyphs fuel k
            (canvas_next_raster_glyph (glyph + sizeof_RasterGlyph) header bpp)
            bpp dest dest_stride bounds m
      end
  end.

(** [canvas_get_str_mask]: [str_data] and [str_length] are the two fields of
    the string; the result is the mask and the position stored in [pos]. *)
Definition canvas_get_str_mask (fuel : nat) (str_data str_length bpp : Z)
    : outcome (cairo_surface_t * Point) :=
  _ ← ASSERT (0 <? str_length) "str->length > 0";
  match glyphs !! str_data with
  | None => Fault
  | Some glyph =>
      let next_glyph :=
        canvas_next_raster_glyph (str_data + sizeof_RasterGlyph) glyph bpp in
      bounds ← str_bounds (Z.to_nat (str_length - 1)) next_glyph bpp
                 (canvas_raster_glyph_box glyph);
      let str_mask :=
        cairo_image_surface_create
          (if bpp =? 1 then CAIRO_FORMAT_A1 else CAIRO_FORMAT_A8)
          (right bounds - left bounds) (bottom bounds - top bounds) in
      if decide (cairo_surface_status str_mask <> CAIRO_STATUS_SUCCESS)
      then CANVAS_ERROR "create surface failed"
      else
        let dest := 0 in
        let dest_stride := cairo_image_surface_get_stride str_mask in
        m ← (if GL_CANVAS then
               put_glyphs fuel (Z.to_nat str_length) str_data bpp
                 (dest + (bottom bounds - top bounds - 1) * dest_stride)
                 (- dest_stride) bounds
                 (cairo_image_surface_get_data str_mask)
             else
               put_glyphs fuel (Z.to_nat str_length) str_data bpp
                 dest dest_stride bounds
                 (cairo_image_surface_get_data str_mask));
        Done (with_data str_mask m,
              {| point_x := left bounds; point_y := top bounds |})
  end.

End StrMask.

End Glyph.

(** ** [canvas_get_bits] and [canvas_get_image] *)

Module Images.

Section GetBits.
Import PaletteResolver.

Variable wire : mem.
Variable surface_create : cairo_format_t -> Z -> Z -> bool -> cairo_surface_t.

(** The palette cache of the canvas, as in [canvas_get_palett], and its
    third function pointer: [palette_cache_release] is handed the palette
    and acts on the cache. *)
Variable palette_cache : Type.
Variable palette_cache_put : palette_cache -> Z -> Palette -> palette_cache.
Variable palette_cache_get : palette_cache -> Z -> Palette.
Variable palette_cache_release : palette_cache -> Palette -> palette_cache.

(** The palette behind the pointer [canvas_get_palett] returned. *)
Definition palette_of (st : canvas_state palette_cache) (palette : palette_ptr)
    : outcome (option Palette) :=
  match palette with
  | PaletteNull => Done None
  | PaletteInline addr =>
      match inline_palettes st !! addr with
      | Some contents => Done (Some contents)
      | None => Fault
      end
  | PaletteCached contents => Done (Some contents)
  end.

(** [canvas_get_bits], build with [CAIRO_CANVAS_CACHE]. *)
Definition canvas_get_bits (fuel : nat) (st : canvas_state palette_cache)
    (bitmap : Bitmap) : outcome (cairo_surface_t * canvas_state palette_cache) :=
  '(palette, st) ← canvas_get_palett palette_cache palette_cache_put
                     palette_cache_get st (bitmap_palette bitmap)
                     (bitmap_flags_of bitmap);
  contents ← palette_of st palette;
  surface ← Convert.canvas_bitmap_to_surface wire surface_create fuel bitmap
              contents;
  match contents with
  | Some released =>
      if BITMAP_PAL_FROM_CACHE (bitmap_flags_of bitmap) then
        Done (surface,
              {| color_shift := color_shift st;
                 inline_palettes := inline_palettes st;
                 palette_cache_opaque :=
                   palette_cache_release (palette_cache_opaque st) released |})
      else Done (surface, st)
  | None => Done (surface, st)
  end.

(** [canvas_get_bits], build without [CAIRO_CANVAS_CACHE]: in 16-bit colour
    mode the palette is copied, [sizeof(Palette) + (num_ents << 2)] bytes of
    it, and the copy is localized; the canvas is not changed. *)
Definition canvas_get_bits_uncached (fuel : nat) (shift : Z)
    (palettes : gmap Z Palette) (bitmap : Bitmap) : outcome cairo_surface_t :=
  if bitmap_palette bitmap =? 0 then
    Convert.canvas_bitmap_to_surface wire surface_create fuel bitmap None
  else
    match palettes !! GET_ADDRESS (bitmap_palette bitmap) with
    | None => Fault
    | Some palette =>
        if shift =? 5 then
          if num_ents palette <=? Z.of_nat (length (ents palette)) then
            let local_palette :=
              {| num_ents := num_ents palette;
                 ents := take (Z.to_nat (num_ents palette)) (ents palette) |} in
            Convert.canvas_bitmap_to_surface wire surface_create fuel bitmap
              (Some (canvas_localize_palette shift local_palette))
          else Fault
        else
          Convert.canvas_bitmap_to_surface wire surface_create fuel bitmap
            (Some palette)
    end.

End GetBits.

Section GetImage.
Import Canvas.

(** Build variants. *)
Variable CAIRO_CANVAS_NO_CHUNKS USE_GLZ : bool.

(** The image descriptors found in the wire buffer, by address. *)
Variable images : gmap Z BitmapImage.

(** The decoders [canvas_get_image] hands an image to: each is given the
    image it is to decode (the compressed ones by their address) and gives
    a surface. *)
Variable canvas_get_quic canvas_get_lz canvas_get_glz
  : Z -> canvas_state -> outcome (loc * canvas_state).
Variable canvas_get_bits : Bitmap -> canvas_state -> outcome (loc * canvas_state).

(** [canvas_get_image], build with [CAIRO_CANVAS_CACHE] or
    [CAIRO_CANVAS_IMAGE_CACHE]. *)
Definition canvas_get_image (addr : Z) (st : canvas_state)
    : outcome (loc * canvas_state) :=
  match images !! GET_ADDRESS addr with
  | None => Fault
  | Some image =>
      let descriptor := descriptor image in
      match descriptor_type descriptor with
      | IMAGE_TYPE_FROM_CACHE => bits_cache_get (descriptor_id descriptor) st
      | type =>
          '(surface, st) ←
            match type with
            | IMAGE_TYPE_QUIC => canvas_get_quic (GET_ADDRESS addr) st
            | IMAGE_TYPE_LZ_PLT | IMAGE_TYPE_LZ_RGB =>
                if CAIRO_CANVAS_NO_CHUNKS
                then canvas_get_lz (GET_ADDRESS addr) st
                else CANVAS_ERROR "invalid image type"
            | IMAGE_TYPE_GLZ_RGB =>
                if USE_GLZ then canvas_get_glz (GET_ADDRESS addr) st
                else CANVAS_ERROR "invalid image type"
            | IMAGE_TYPE_BITMAP => canvas_get_bits (bitmap image) st
            | IMAGE_TYPE_FROM_CACHE => CANVAS_ERROR "invalid image type"
            end;
          if IMAGE_CACHE_ME descriptor
          then Done (surface, bits_cache_put (descriptor_id descriptor) surface st)
          else Done (surface, st)
      end
  end.

End GetImage.

End Images.

(** ** Concrete inputs

    Small inputs on which the functions are run in the examples below. *)

Module Inputs.

Definition no_flags : bitmap_flags :=
  {| BITMAP_PAL_CACHE_ME := false; BITMAP_PAL_FROM_CACHE := false;
     BITMAP_TOP_DOWN := false |}.

Definition top_down_flag : bitmap_flags :=
  {| BITMAP_PAL_CACHE_ME := false; BITMAP_PAL_FROM_CACHE := false;
     BITMAP_TOP_DOWN := true |}.

(** Two rows of two 32-bit pixels: [R0 = 1, 2] and [R1 = 3, 4]. *)
Definition wire_2x2 : mem :=
  mem_of_bytes [1; 0; 0; 0;  2; 0; 0; 0;  3; 0; 0; 0;  4; 0; 0; 0].

Definition bitmap_2x2 (flags : bitmap_flags) : Bitmap :=
  {| bitmap_format_of := BITMAP_FMT_32BIT; bitmap_flags_of := flags;
     bitmap_x := 2; bitmap_y := 2; bitmap_stride := 8;
     bitmap_palette := 0; bitmap_data := 0 |}.

(** A palette of sixteen entries, entry [i] being [100 + i]. *)
Definition palette16 : Palette :=
  {| num_ents := 16;
     ents := [100; 101; 102; 103; 104; 105; 106; 107;
              108; 109; 110; 111; 112; 113; 114; 115] |}.

(** One row of three 4-bit pixels with the indices 1, 2, 3: the bytes [0x12]
    and [0x30]. *)
Definition wire_4bpp : mem := mem_of_bytes [0x12; 0x30].

Definition bitmap_4bpp : Bitmap :=
  {| bitmap_format_of := BITMAP_FMT_4BIT_BE; bitmap_flags_of := top_down_flag;
     bitmap_x := 3; bitmap_y := 1; bitmap_stride := 2;
     bitmap_palette := 0; bitmap_data := 0 |}.

(** A palette that declares one entry, [0xAA]; the word [0xBB] follows it in
    the buffer. *)
Definition palette1 : Palette :=
  {| num_ents := 1; ents := [0xAA; 0xBB] |}.

(** One row of one 1-bit pixel, set. *)
Definition wire_1bpp : mem := mem_of_bytes [0x80].

Definition bitmap_1bpp : Bitmap :=
  {| bitmap_format_of := BITMAP_FMT_1BIT_BE; bitmap_flags_of := top_down_flag;
     bitmap_x := 1; bitmap_y := 1; bitmap_stride := 1;
     bitmap_palette := 0; bitmap_data := 0 |}.

(** A palette that declares two entries; two more words follow it. *)
Definition palette2 : Palette :=
  {| num_ents := 2; ents := [0xAA; 0xBB; 0xCC; 0xDD] |}.

(** One row of one 4-bit pixel with the index 3. *)
Definition wire_4bpp_1 : mem := mem_of_bytes [0x30].

Definition bitmap_4bpp_1 : Bitmap :=
  {| bitmap_format_of := BITMAP_FMT_4BIT_BE; bitmap_flags_of := top_down_flag;
     bitmap_x := 1; bitmap_y := 1; bitmap_stride := 1;
     bitmap_palette := 0; bitmap_data := 0 |}.

(** The same pixel as one 8-bit index. *)
Definition wire_8bpp_1 : mem := mem_of_bytes [3].

Definition bitmap_8bpp_1 : Bitmap :=
  {| bitmap_format_of := BITMAP_FMT_8BIT; bitmap_flags_of := top_down_flag;
     bitmap_x := 1; bitmap_y := 1; bitmap_stride := 1;
     bitmap_palette := 0; bitmap_data := 0 |}.

(** One 32-bit pixel whose fourth byte is set: the word [0xFF332211]. *)
Definition wire_tinted : mem := mem_of_bytes [0x11; 0x22; 0x33; 0xFF].

Definition bitmap_tinted : Bitmap :=
  {| bitmap_format_of := BITMAP_FMT_32BIT; bitmap_flags_of := top_down_flag;
     bitmap_x := 1; bitmap_y := 1; bitmap_stride := 4;
     bitmap_palette := 0; bitmap_data := 0 |}.

(** The 24 bpp surface that pixel decodes to. *)
Definition surface_tinted : cairo_surface_t :=
  with_data (Mask.image_surface CAIRO_FORMAT_RGB24 1 1) wire_tinted.

(** A 1 bpp surface of two rows of two pixels. *)
Definition surface_a1 : cairo_surface_t :=
  with_data (Mask.image_surface CAIRO_FORMAT_A1 2 2)
            (mem_of_bytes [0x01; 0; 0; 0;  0x02; 0; 0; 0]).

(** A palette cache that records what it is given, newest first. *)
Definition recording_cache : Type := list (Z * Palette).

Definition recording_put (c : recording_cache) (palette : Z) (contents : Palette)
    : recording_cache :=
  (palette, contents) :: c.

Definition recording_get (c : recording_cache) (id : Z) : Palette :=
  match filter (fun e => bool_decide (e.1 = id)) c with
  | e :: _ => e.2
  | [] => {| num_ents := 0; ents := [] |}
  end.

Definition cache_me_flag : bitmap_flags :=
  {| BITMAP_PAL_CACHE_ME := true; BITMAP_PAL_FROM_CACHE := false;
     BITMAP_TOP_DOWN := true |}.

(** A canvas in 16-bit colour mode with an inline palette of one entry, the
    16-bit white [0x7fff], at address 64 of the wire buffer. *)
Definition canvas_16bit : PaletteResolver.canvas_state recording_cache :=
  {| PaletteResolver.color_shift := 5;
     PaletteResolver.inline_palettes :=
       {[ 64 := {| num_ents := 1; ents := [0x7fff] |} ]};
     PaletteResolver.palette_cache_opaque := [] |}.

(** A Quic payload in two chunks.  The protocol address of the second chunk
    is 2000; with the address delta 100 it is found at 2100. *)
Definition chunk0 : Quic.DataChunk :=
  {| Quic.chunk_size := 8; Quic.chunk_prev := 0; Quic.chunk_next := 2000;
     Quic.chunk_data := [1; 2; 3; 4; 5; 6; 7; 8] |}.

Definition chunk1 : Quic.DataChunk :=
  {| Quic.chunk_size := 4; Quic.chunk_prev := 900; Quic.chunk_next := 0;
     Quic.chunk_data := [9; 10; 11; 12] |}.

Definition chunk_space : gmap Z Quic.DataChunk :=
  {[ 1000 := chunk0; 2100 := chunk1 ]}.

(** The same two chunks in a session with the address delta 2150: the
    protocol address of the second chunk is [2^64 - 50]. *)
Definition chunk0_far : Quic.DataChunk :=
  {| Quic.chunk_size := 8; Quic.chunk_prev := 0;
     Quic.chunk_next := 2 ^ 64 - 50;
     Quic.chunk_data := [1; 2; 3; 4; 5; 6; 7; 8] |}.

Definition far_chunk_space : gmap Z Quic.DataChunk :=
  {[ 1000 := chunk0_far; 2100 := chunk1 ]}.

(** A mask request with inversion for a cached image: one row of eight
    1-bit pixels, the byte [0x05], in the bit order the canvas copies as it
    is; the descriptor has the id 7 and carries CacheMe. *)
Definition wire_mask : mem := mem_of_bytes [0x05].

Definition mask_image : Canvas.BitmapImage :=
  {| Canvas.descriptor :=
       {| Canvas.descriptor_id := 7;
          Canvas.descriptor_type := Canvas.IMAGE_TYPE_BITMAP;
          Canvas.IMAGE_CACHE_ME := true;
          Canvas.descriptor_width := 8; Canvas.descriptor_height := 1 |};
     Canvas.bitmap :=
       {| bitmap_format_of := BITMAP_FMT_1BIT_LE; bitmap_flags_of := top_down_flag;
          bitmap_x := 8; bitmap_y := 1; bitmap_stride := 1;
          bitmap_palette := 0; bitmap_data := 0 |} |}.

(** A later descriptor that refers to the cached image by its id. *)
Definition cached_mask_image : Canvas.BitmapImage :=
  {| Canvas.descriptor :=
       {| Canvas.descriptor_id := 7;
          Canvas.descriptor_type := Canvas.IMAGE_TYPE_FROM_CACHE;
          Canvas.IMAGE_CACHE_ME := false;
          Canvas.descriptor_width := 8; Canvas.descriptor_height := 1 |};
     Canvas.bitmap := Canvas.bitmap mask_image |}.

Definition mask_images : gmap Z Canvas.BitmapImage :=
  {[ 500 := mask_image; 600 := cached_mask_image ]}.

Definition inverted_mask : Canvas.QMask :=
  {| Canvas.MASK_INVERS := true; Canvas.mask_bitmap := 500 |}.

Definition cached_mask : Canvas.QMask :=
  {| Canvas.MASK_INVERS := false; Canvas.mask_bitmap := 600 |}.

Definition empty_canvas : Canvas.canvas_state :=
  {| Canvas.surfaces := ∅; Canvas.bits_cache := ∅ |}.

(** The value of a call that returns. *)
Definition returned {A : Type} (o : outcome A) (otherwise : A) : A :=
  match o with
  | Done a => a
  | _ => otherwise
  end.

(** The mask of that image converted without inversion, and its inverse. *)
Definition plain_mask : cairo_surface_t :=
  returned (Mask.canvas_get_bitmap_mask false false Mask.image_surface_create
              wire_mask 2 (Canvas.bitmap mask_image) false)
           (Mask.image_surface CAIRO_FORMAT_A1 0 0).

Definition plain_mask_inverse : cairo_surface_t :=
  returned (Mask.compute_inverse Mask.image_surface 2 plain_mask)
           (Mask.image_surface CAIRO_FORMAT_A1 0 0).

(** The inverse of the 1 bpp surface of the examples. *)
Definition surface_a1_inverse : cairo_surface_t :=
  returned (Mask.compute_inverse Mask.image_surface 3 surface_a1)
           (Mask.image_surface CAIRO_FORMAT_A1 0 0).

(** The first byte of the surface at a location. *)
Definition first_byte (h : gmap Canvas.loc Canvas.surface_object)
    (l : Canvas.loc) : option Z :=
  o ← h !! l;
  Some (load8 (cairo_image_surface_get_data (Canvas.object_surface o)) 0).

(** A top-down mask of two rows of eight 1-bit pixels, the bytes [0x05] and
    [0x81], in the bit order the canvas reverses. *)
Definition wire_mask_be : mem := mem_of_bytes [0x05; 0x81].

Definition bitmap_mask_be : Bitmap :=
  {| bitmap_format_of := BITMAP_FMT_1BIT_BE; bitmap_flags_of := top_down_flag;
     bitmap_x := 8; bitmap_y := 2; bitmap_stride := 1;
     bitmap_palette := 0; bitmap_data := 0 |}.

(** One surface, at location 0, with one reference and no inverse attached;
    two callers that both look before either attaches. *)
Definition shared_heap : gmap Canvas.loc Canvas.surface_object :=
  {[ 0%nat := {| Canvas.object_surface := surface_a1; Canvas.object_refs := 1;
                 Canvas.object_inverse := None |} ]}.

Definition racing_schedule : list nat := [0; 1; 0; 1; 0; 1]%nat.

Definition racing_run : option Shared.config :=
  Shared.run_schedule Mask.image_surface 3 0%nat racing_schedule
    (Shared.initial shared_heap 2).

Definition racing_final : Shared.config :=
  default (Shared.initial shared_heap 2) racing_run.

(** The image at a location of the final heap of a run. *)
Definition image_at (c : option Shared.config) (l : Canvas.loc) (n : nat)
    : option (list Z) :=
  c ← c; o ← Shared.heap c !! l;
  Some (read_bytes (cairo_image_surface_get_data (Canvas.object_surface o)) 0 n).

(** A function applied to a surface and then to its result. *)
Definition twice (f : cairo_surface_t -> outcome cairo_surface_t)
    (s : cairo_surface_t) : outcome cairo_surface_t :=
  inv ← f s; f inv.

(** The pixel words of a result, or nothing when the call did not return. *)
Definition pixels_of (o : outcome cairo_surface_t) (n : nat) : option (list Z) :=
  match o with
  | Done s => Some (read_words (cairo_image_surface_get_data s) 0 n)
  | _ => None
  end.

End Inputs.

(** ** Vocabulary of the statements below *)

(** Two memories that hold the same bytes between [lo] and [hi]. *)
Definition agree (lo hi : Z) (m1 m2 : mem) : Prop :=
  forall p, lo <= p < hi -> m1 p = m2 p.

(** *** Writers confined to a range

    A memory transformer is confined to [lo, hi) when it leaves every byte
    outside the range as it was and what it leaves inside depends on nothing
    but the previous contents of the range. *)
Record confined (lo hi : Z) (f : mem -> mem) : Prop := {
  confined_frame : forall m p, ~ (lo <= p < hi) -> f m p = m p;
  confined_agree : forall m1 m2, agree lo hi m1 m2 -> agree lo hi (f m1) (f m2)
}.

(** The same for a transformer that may fail: the failure does not depend on
    the memory, and the row loops never see it run out of fuel. *)
Definition same_outcome (R : mem -> mem -> Prop) (o1 o2 : outcome mem) : Prop :=
  match o1, o2 with
  | Done m1, Done m2 => R m1 m2
  | Abort e1, Abort e2 => e1 = e2
  | Fault, Fault => True
  | _, _ => False
  end.

Record confined_writer (lo hi : Z) (f : mem -> outcome mem) : Prop := {
  writer_frame : forall m m' p, f m = Done m' -> ~ (lo <= p < hi) -> m' p = m p;
  writer_agree : forall m1 m2, agree lo hi m1 m2 ->
                               same_outcome (agree lo hi) (f m1) (f m2)
}.

(** A fallible memory transformer whose failure does not depend on the
    memory: it is a confined function, or it always fails the same way. *)
Definition uniform (lo hi : Z) (f : mem -> outcome mem) : Prop :=
  (exists g, confined lo hi g /\ forall m, f m = Done (g m))
  \/ (exists msg, forall m, f m = Abort msg)
  \/ (forall m, f m = Fault).

(** The pointer at which the body of a row loop writes: [b] when [at_b] is
    set, [a] otherwise. *)
Definition written_at (at_b : bool) (a b : Z) : Z := if at_b then b else a.

(** *** Concurrent requests for an inverse *)

Module SharedVocabulary.
Import Canvas Shared.

(** The inverse surface a thread holds a pointer to. *)
Definition held (t : thread_state) : option loc :=
  match t with
  | Found l | Computed l | Returned l => Some l
  | AtEntry | NotFound => None
  end.

(** The image of the surface at a location. *)
Definition surface_at (h : gmap loc surface_object) (l : loc)
    : option cairo_surface_t :=
  object_surface <$> h !! l.

(** The steps a thread has left at most, and their sum over the threads. *)
Definition remaining (t : thread_state) : nat :=
  match t with
  | AtEntry => 3
  | NotFound => 2
  | Found _ | Computed _ => 1
  | Returned _ => 0
  end.

Definition pending (l : list thread_state) : nat :=
  foldr (fun t k => (remaining t + k)%nat) 0%nat l.

Section Consistent.

Variable cairo_image_surface_create : cairo_format_t -> Z -> Z -> cairo_surface_t.
Variable fuel : nat.
Variable surface : loc.
Variable s0 : cairo_surface_t.
Variable n : nat.

(** The inverse [l] is known to thread [i] alone and is not attached. *)
Definition private (c : config) (i : nat) (l : loc) : Prop :=
  cairo_surface_get_user_data surface (heap c) <> Some l
  /\ forall j t, j <> i -> threads c !! j = Some t -> held t <> Some l.

(** What holds of every configuration of a run of [n] callers on a surface
    with the image [s0]. *)
Record consistent (c : config) : Prop := {
  consistent_length : length (threads c) = n;
  consistent_surface : surface_at (heap c) surface = Some s0;
  consistent_held : forall i t l,
    threads c !! i = Some t -> held t = Some l ->
    l <> surface
    /\ exists inv,
         Mask.compute_inverse cairo_image_surface_create fuel s0 = Done inv
         /\ surface_at (heap c) l = Some inv;
  consistent_attached : forall w,
    cairo_surface_get_user_data surface (heap c) = Some w ->
    exists i, threads c !! i = Some (Returned w);
  consistent_found : forall i l,
    threads c !! i = Some (Found l) ->
    cairo_surface_get_user_data surface (heap c) = Some l;
  consistent_computed : forall i l,
    threads c !! i = Some (Computed l) -> private c i l;
  consistent_returned : forall i l,
    threads c !! i = Some (Returned l) ->
    is_Some (cairo_surface_get_user_data surface (heap c))
    /\ (cairo_surface_get_user_data surface (heap c) = Some l \/ private c i l)
}.

End Consistent.

End SharedVocabulary.

(** ** More concrete inputs *)

Module CopyInputs.

(** A destination buffer that holds nothing yet. *)
Definition blank : mem := fun _ => 0.

(** One row of two 24-bit pixels. *)
Definition wire_24bpp : mem := mem_of_bytes [1; 2; 3;  4; 5; 6].

(** One row of two 16-bit pixels: white, [0x7fff], and blue, [0x001f]. *)
Definition wire_16bpp : mem := mem_of_bytes [0xff; 0x7f;  0x1f; 0x00].

(** One row of two 8-bit indices, 3 and 5. *)
Definition wire_8bpp : mem := mem_of_bytes [3; 5].

(** One row of eight 1-bit pixels, the first and the last set. *)
Definition wire_1bpp_row : mem := mem_of_bytes [0x81].

End CopyInputs.

Module QuicInputs.

(** Three chunks: the second holds six bytes, one word and a half. *)
Definition chunk_a : Quic.DataChunk :=
  {| Quic.chunk_size := 8; Quic.chunk_prev := 0; Quic.chunk_next := 2000;
     Quic.chunk_data := [1; 2; 3; 4; 5; 6; 7; 8] |}.

Definition chunk_b : Quic.DataChunk :=
  {| Quic.chunk_size := 6; Quic.chunk_prev := 900; Quic.chunk_next := 3000;
     Quic.chunk_data := [9; 10; 11; 12; 13; 14] |}.

Definition chunk_c : Quic.DataChunk :=
  {| Quic.chunk_size := 4; Quic.chunk_prev := 2000; Quic.chunk_next := 0;
     Quic.chunk_data := [15; 16; 17; 18] |}.

Definition three_chunks : gmap Z Quic.DataChunk :=
  {[ 1000 := chunk_a; 2100 := chunk_b; 3100 := chunk_c ]}.

(** The last two chunks in a session whose delta is [2^64 - 900]: their
    protocol addresses are 3000 and 4000, and the sums pass [2^64]. *)
Definition chunk_b_far : Quic.DataChunk :=
  {| Quic.chunk_size := 6; Quic.chunk_prev := 900; Quic.chunk_next := 4000;
     Quic.chunk_data := [9; 10; 11; 12; 13; 14] |}.

Definition far_chunks : gmap Z Quic.DataChunk :=
  {[ 2100 := chunk_b_far; 3100 := chunk_c ]}.

End QuicInputs.

Module GlyphInputs.
Import Glyph.

(** A glyph of three columns and two rows, drawn at column 2 and row 1 of a
    string whose bounds are eight columns and four rows. *)
Definition glyph_3x2 : RasterGlyph :=
  {| render_pos := {| point_x := 2; point_y := 1 |};
     glyph_origin := {| point_x := 0; point_y := 0 |};
     glyph_width := 3; glyph_height := 2; glyph_data := 0 |}.

Definition string_bounds : Rect :=
  {| top := 0; left := 0; bottom := 4; right := 8 |}.

(** Its rows at 1 bit per pixel, [101] and [010]. *)
Definition wire_glyph_1bpp : mem := mem_of_bytes [0xA0; 0x40].

(** Its rows at 4 bits per pixel, [1, 15, 2] and [0, 3, 0]. *)
Definition wire_glyph_4bpp : mem := mem_of_bytes [0x1F; 0x20;  0x03; 0x00].

(** Its rows at 8 bits per pixel, [1, 2, 3] and [4, 5, 6], and the three
    bytes that follow them in the buffer. *)
Definition wire_glyph_8bpp : mem :=
  mem_of_bytes [1; 2; 3;  4; 5; 6;  7; 8; 9].

(** A glyph that reaches over the right edge of the bounds. *)
Definition glyph_outside : RasterGlyph :=
  {| render_pos := {| point_x := 6; point_y := 1 |};
     glyph_origin := {| point_x := 0; point_y := 0 |};
     glyph_width := 3; glyph_height := 2; glyph_data := 0 |}.

(** A glyph of 20000 by 20000 pixels. *)
Definition glyph_large : RasterGlyph :=
  {| render_pos := {| point_x := 0; point_y := 0 |};
     glyph_origin := {| point_x := 0; point_y := 0 |};
     glyph_width := 20000; glyph_height := 20000; glyph_data := 20 |}.

(** A string of two glyphs at 1 bit per pixel, with headers of twenty
    bytes: the glyph above at address 0, its two rows at 20, and a glyph of
    two columns and one row at 22, its row [11] at 42. *)
Definition glyph_first : RasterGlyph :=
  {| render_pos := {| point_x := 2; point_y := 1 |};
     glyph_origin := {| point_x := 0; point_y := 0 |};
     glyph_width := 3; glyph_height := 2; glyph_data := 20 |}.

Definition glyph_second : RasterGlyph :=
  {| render_pos := {| point_x := 6; point_y := 0 |};
     glyph_origin := {| point_x := 0; point_y := 0 |};
     glyph_width := 2; glyph_height := 1; glyph_data := 42 |}.

Definition string_glyphs : gmap Z RasterGlyph :=
  <[0 := glyph_first]> (<[22 := glyph_second]> ∅).

Definition wire_string : mem :=
  mem_of_bytes (repeat 0 20 ++ [0xA0; 0x40] ++ repeat 0 20 ++ [0xC0]).

End GlyphInputs.

Module SurfaceInputs.

(** A backend that is out of memory. *)
Definition failing_create (format : cairo_format_t) (width height : Z)
    (top_down : bool) : cairo_surface_t :=
  {| cairo_surface_status := CAIRO_STATUS_NO_MEMORY;
     cairo_image_surface_get_format := format;
     cairo_image_surface_get_width := width;
     cairo_image_surface_get_height := height;
     cairo_image_surface_get_stride := 0;
     cairo_image_surface_get_data := fun _ => 0 |}.

(** A bitmap of two rows of two pixels in a given format, top down. *)
Definition bitmap_of_format (format : bitmap_format) (stride : Z) : Bitmap :=
  {| bitmap_format_of := format; bitmap_flags_of := Inputs.top_down_flag;
     bitmap_x := 2; bitmap_y := 2; bitmap_stride := stride;
     bitmap_palette := 0; bitmap_data := 0 |}.

(** A bottom-up bitmap without rows. *)
Definition bitmap_no_rows : Bitmap :=
  {| bitmap_format_of := BITMAP_FMT_32BIT; bitmap_flags_of := Inputs.no_flags;
     bitmap_x := 2; bitmap_y := 0; bitmap_stride := 8;
     bitmap_palette := 0; bitmap_data := 0 |}.

End SurfaceInputs.

Module MaskInputs.
Import Inputs.

(** A bottom-up mask of two rows of eight pixels in the bit order the canvas
    copies as it is. *)
Definition bitmap_mask_le : Bitmap :=
  {| bitmap_format_of := BITMAP_FMT_1BIT_LE; bitmap_flags_of := no_flags;
     bitmap_x := 8; bitmap_y := 2; bitmap_stride := 1;
     bitmap_palette := 0; bitmap_data := 0 |}.

(** The same rows declared as 8-bit pixels. *)
Definition bitmap_mask_8bit : Bitmap :=
  {| bitmap_format_of := BITMAP_FMT_8BIT; bitmap_flags_of := top_down_flag;
     bitmap_x := 8; bitmap_y := 2; bitmap_stride := 1;
     bitmap_palette := 0; bitmap_data := 0 |}.

(** The mask image of the examples without CacheMe, and a Quic image. *)
Definition uncached_image : Canvas.BitmapImage :=
  {| Canvas.descriptor :=
       {| Canvas.descriptor_id := 8;
          Canvas.descriptor_type := Canvas.IMAGE_TYPE_BITMAP;
          Canvas.IMAGE_CACHE_ME := false;
          Canvas.descriptor_width := 8; Canvas.descriptor_height := 1 |};
     Canvas.bitmap := Canvas.bitmap mask_image |}.

Definition quic_image : Canvas.BitmapImage :=
  {| Canvas.descriptor :=
       {| Canvas.descriptor_id := 9;
          Canvas.descriptor_type := Canvas.IMAGE_TYPE_QUIC;
          Canvas.IMAGE_CACHE_ME := false;
          Canvas.descriptor_width := 8; Canvas.descriptor_height := 1 |};
     Canvas.bitmap := Canvas.bitmap mask_image |}.

Definition more_images : gmap Z Canvas.BitmapImage :=
  {[ 700 := uncached_image; 800 := quic_image; 600 := cached_mask_image ]}.

Definition uncached_mask : Canvas.QMask :=
  {| Canvas.MASK_INVERS := true; Canvas.mask_bitmap := 700 |}.

Definition quic_mask : Canvas.QMask :=
  {| Canvas.MASK_INVERS := false; Canvas.mask_bitmap := 800 |}.

Definition no_mask : Canvas.QMask :=
  {| Canvas.MASK_INVERS := true; Canvas.mask_bitmap := 0 |}.

(** The mask of that image converted with inversion. *)
Definition inverted_conversion : cairo_surface_t :=
  returned (Mask.canvas_get_bitmap_mask false false Mask.image_surface_create
              wire_mask 2 (Canvas.bitmap uncached_image) true)
           (Mask.image_surface CAIRO_FORMAT_A1 0 0).

(** The object of the surface of the examples in [shared_heap]. *)
Definition shared_object : Canvas.surface_object :=
  {| Canvas.object_surface := surface_a1; Canvas.object_refs := 1;
     Canvas.object_inverse := None |}.

End MaskInputs.

Module ImageInputs.
Import Inputs.

(** The recording palette cache releases nothing. *)
Definition recording_release (c : recording_cache) (palette : Palette)
    : recording_cache := c.

(** One row of two 8-bit pixels, both of index 0, with the inline palette of
    [canvas_16bit] at address 64. *)
Definition wire_indexed : mem := mem_of_bytes [0; 0].

Definition bitmap_indexed : Bitmap :=
  {| bitmap_format_of := BITMAP_FMT_8BIT; bitmap_flags_of := top_down_flag;
     bitmap_x := 2; bitmap_y := 1; bitmap_stride := 2;
     bitmap_palette := 64; bitmap_data := 0 |}.


(** A bitmap image to be cached under the id 7, at address 500, and a
    reference to it at address 600; an LZ image at address 900. *)
Definition lz_image : Canvas.BitmapImage :=
  {| Canvas.descriptor :=
       {| Canvas.descriptor_id := 10;
          Canvas.descriptor_type := Canvas.IMAGE_TYPE_LZ_RGB;
          Canvas.IMAGE_CACHE_ME := false;
          Canvas.descriptor_width := 8; Canvas.descriptor_height := 1 |};
     Canvas.bitmap := Canvas.bitmap mask_image |}.

Definition image_space : gmap Z Canvas.BitmapImage :=
  {[ 500 := mask_image; 600 := cached_mask_image; 900 := lz_image ]}.

(** A decoder that puts a blank surface of one pixel into the heap, and one
    that fails. *)
Definition blank_decoder (image : Z) (st : Canvas.canvas_state)
    : outcome (Canvas.loc * Canvas.canvas_state) :=
  let '(l, h) := Canvas.new_surface (Mask.image_surface CAIRO_FORMAT_RGB24 1 1)
                                    (Canvas.surfaces st) in
  Done (l, {| Canvas.surfaces := h; Canvas.bits_cache := Canvas.bits_cache st |}).

Definition blank_bits (bitmap : Bitmap) (st : Canvas.canvas_state)
    : outcome (Canvas.loc * Canvas.canvas_state) :=
  blank_decoder 0 st.

(** What the decoder gives on the empty canvas. *)
Definition decoded : Canvas.loc * Canvas.canvas_state :=
  returned (blank_bits (Canvas.bitmap mask_image) empty_canvas)
           (0%nat, empty_canvas).

End ImageInputs.

(** *** Bit strings in memory *)

Module GlyphVocabulary.
Import Glyph.

(** Bit [q] of the bit string that starts at address 0: it is found in byte
    [q / 8], counted from the least significant bit of the byte or from the
    most significant one. *)
Definition bit_lsb (m : mem) (q : Z) : bool :=
  Z.testbit (load8 m (q / 8)) (q mod 8).

Definition bit_msb (m : mem) (q : Z) : bool :=
  Z.testbit (load8 m (q / 8)) (7 - q mod 8).

(** The bit order of the destination of [__canvas_put_bits] in the two
    builds. *)
Definition dest_bit (GL_CANVAS : bool) (m : mem) (q : Z) : bool :=
  if GL_CANVAS then bit_msb m q else bit_lsb m q.

(** The values [__canvas_put_bits] ORs into the byte at [dest] and into the
    byte after it, for a bit offset [offset] below 8. *)
Definition first_bits (GL_CANVAS : bool) (val offset n : Z) : Z :=
  let now := MIN (8 - offset) n in
  if GL_CANVAS then
    Z.land (Z.shiftr val offset)
           (u8 (Z.shiftr (u8 (Z.lnot (Z.shiftl 1 (8 - now) - 1))) offset))
  else
    Z.land (Z.shiftl (Bits.revers_bits val) offset)
           (u8 (Z.shiftl (u8 (Z.shiftl 1 now - 1)) offset)).

Definition second_bits (GL_CANVAS : bool) (val offset n : Z) : Z :=
  let now := MIN (8 - offset) n in
  let n := n - now in
  if GL_CANVAS then
    Z.land (Z.shiftl val now) (u8 (Z.lnot (Z.shiftl 1 (8 - n) - 1)))
  else
    Z.land (Z.shiftr (Bits.revers_bits val) now) (u8 (Z.shiftl 1 n - 1)).

(** The position in a byte of the bit number [b] of a bit string. *)
Definition bit_position (GL_CANVAS : bool) (b : Z) : Z :=
  if GL_CANVAS then 7 - b else b.

(** The bits [__canvas_put_bits] ORs into the two bytes are the first [n]
    bits of [val], most significant bit first, placed from bit [offset] of
    the destination on: the check of one [val], [offset] and [n]. *)
Definition put_bits_check (GL_CANVAS : bool) (val offset n : Z) : bool :=
  let first := u8 (first_bits GL_CANVAS val offset n) in
  let second := u8 (second_bits GL_CANVAS val offset n) in
  forall_below 8 (fun b =>
    Bool.eqb (Z.testbit first (bit_position GL_CANVAS b))
             ((offset <=? b) && (b <? offset + n)
              && Z.testbit val (7 - (b - offset)))
    && Bool.eqb (Z.testbit second (bit_position GL_CANVAS b))
                ((8 + b <? offset + n)
                 && Z.testbit val (7 - (8 + b - offset)))).




End GlyphVocabulary.

(** * Theorems *)

(** ** Enumeration and masking *)

Lemma forall_from_spec (n : nat) (a : Z) (P : Z -> bool) :
  forall_from n a P = true -> forall z, a <= z < a + Z.of_nat n -> P z = true.
Proof.
  revert a. induction n as [|k IH]; simpl; intros a H z Hz; [lia|].
  apply andb_true_iff in H as [Ha Hrest].
  destruct (Z.eq_dec z a) as [->|Hne]; [exact Ha|].
  apply (IH (a + 1)); [exact Hrest | lia].
Qed.

Lemma forall_below_spec (n : Z) (P : Z -> bool) :
  forall_below n P = true -> forall z, 0 <= z < n -> P z = true.
Proof.
  intros H z Hz. apply (forall_from_spec _ 0 P H). lia.
Qed.

(** A mask below [2^k] only looks at the low [k] bits of its operand. *)
Lemma land_low_bits (k x m : Z) :
  0 <= k -> 0 <= m < 2 ^ k -> Z.land x m = Z.land (x mod 2 ^ k) m.
Proof.
  intros Hk Hm.
  rewrite <- (Z.land_ones x k) by exact Hk.
  rewrite <- Z.land_assoc. f_equal.
  rewrite Z.land_comm, Z.land_ones by exact Hk.
  symmetry. apply Z.mod_small. exact Hm.
Qed.

(** ** Memory *)

Lemma u8_range (z : Z) : 0 <= u8 z < 256.
Proof. unfold u8. apply Z.mod_pos_bound. lia. Qed.

Lemma u8_small (z : Z) : 0 <= z < 256 -> u8 z = z.
Proof. intros H. unfold u8. apply Z.mod_small. exact H. Qed.

Lemma u8_idem (z : Z) : u8 (u8 z) = u8 z.
Proof. apply u8_small, u8_range. Qed.

Lemma load8_range (m : mem) (p : Z) : 0 <= load8 m p < 256.
Proof. apply u8_range. Qed.

Lemma store8_at (m : mem) (p v q : Z) :
  store8 m p v q = if decide (p = q) then u8 v else m q.
Proof.
  unfold store8. destruct (decide (p = q)) as [->|Hne].
  - apply fn_lookup_insert.
  - apply fn_lookup_insert_ne. exact Hne.
Qed.

Lemma store8_same (m : mem) (p v : Z) : store8 m p v p = u8 v.
Proof. rewrite store8_at. destruct (decide (p = p)); congruence. Qed.

Lemma store8_other (m : mem) (p v q : Z) : p <> q -> store8 m p v q = m q.
Proof. intros H. rewrite store8_at. destruct (decide (p = q)); congruence. Qed.

Lemma load8_store8_same (m : mem) (p v : Z) : load8 (store8 m p v) p = u8 v.
Proof. unfold load8. rewrite store8_same. apply u8_idem. Qed.

Lemma load8_store8_other (m : mem) (p v q : Z) :
  p <> q -> load8 (store8 m p v) q = load8 m q.
Proof. intros H. unfold load8. rewrite store8_other by exact H. reflexivity. Qed.

Lemma store32_other (m : mem) (p v q : Z) :
  q < p \/ p + 4 <= q -> store32 m p v q = m q.
Proof.
  intros H. unfold store32. rewrite !store8_other by lia. reflexivity.
Qed.

Lemma load8_store32_other (m : mem) (p v q : Z) :
  q < p \/ p + 4 <= q -> load8 (store32 m p v) q = load8 m q.
Proof. intros H. unfold load8. rewrite store32_other by exact H. reflexivity. Qed.

Lemma load32_store32_other (m : mem) (p v q : Z) :
  q + 4 <= p \/ p + 4 <= q -> load32 (store32 m p v) q = load32 m q.
Proof.
  intros H. unfold load32. rewrite !load8_store32_other by lia. reflexivity.
Qed.

Lemma u32_bytes (v : Z) :
  u8 v + 2 ^ 8 * u8 (v / 2 ^ 8) + 2 ^ 16 * u8 (v / 2 ^ 16)
  + 2 ^ 24 * u8 (v / 2 ^ 24) = u32 v.
Proof.
  unfold u8, u32.
  change (2 ^ 8) with 256. change (2 ^ 16) with 65536.
  change (2 ^ 24) with 16777216. change (2 ^ 32) with 4294967296.
  pose proof (Z.div_mod v 256 ltac:(lia)).
  pose proof (Z.mod_pos_bound v 256 ltac:(lia)).
  pose proof (Z.div_mod (v / 256) 256 ltac:(lia)).
  pose proof (Z.mod_pos_bound (v / 256) 256 ltac:(lia)).
  pose proof (Z.div_mod (v / 65536) 256 ltac:(lia)).
  pose proof (Z.mod_pos_bound (v / 65536) 256 ltac:(lia)).
  pose proof (Z.div_mod (v / 16777216) 256 ltac:(lia)).
  pose proof (Z.mod_pos_bound (v / 16777216) 256 ltac:(lia)).
  assert (E1 : v / 65536 = v / 256 / 256)
    by (rewrite Z.div_div by lia; reflexivity).
  assert (E2 : v / 16777216 = v / 65536 / 256)
    by (rewrite Z.div_div by lia; reflexivity).
  apply (Z.mod_unique v 4294967296 (v / 16777216 / 256)); [left; lia|].
  rewrite E2, E1 in *. lia.
Qed.

Lemma load32_store32_same (m : mem) (p v : Z) :
  load32 (store32 m p v) p = u32 v.
Proof.
  unfold load32, store32.
  rewrite load8_store8_other by lia.
  rewrite load8_store8_other by lia.
  rewrite load8_store8_other by lia.
  rewrite load8_store8_same.
  rewrite (load8_store8_other _ (p + 3)) by lia.
  rewrite (load8_store8_other _ (p + 2)) by lia.
  rewrite load8_store8_same.
  rewrite (load8_store8_other _ (p + 3)) by lia.
  rewrite load8_store8_same.
  rewrite load8_store8_same.
  apply u32_bytes.
Qed.



Lemma agree_sym (lo hi : Z) (m1 m2 : mem) : agree lo hi m1 m2 -> agree lo hi m2 m1.
Proof. intros H p Hp. symmetry. apply H, Hp. Qed.

Lemma agree_trans (lo hi : Z) (m1 m2 m3 : mem) :
  agree lo hi m1 m2 -> agree lo hi m2 m3 -> agree lo hi m1 m3.
Proof. intros H1 H2 p Hp. rewrite (H1 p Hp). apply H2, Hp. Qed.

Lemma agree_load8 (lo hi : Z) (m1 m2 : mem) (p : Z) :
  agree lo hi m1 m2 -> lo <= p < hi -> load8 m1 p = load8 m2 p.
Proof. intros H Hp. unfold load8. rewrite (H p Hp). reflexivity. Qed.

Lemma agree_load32 (lo hi : Z) (m1 m2 : mem) (p : Z) :
  agree lo hi m1 m2 -> lo <= p -> p + 4 <= hi -> load32 m1 p = load32 m2 p.
Proof.
  intros H Hlo Hhi. unfold load32.
  rewrite !(agree_load8 lo hi m1 m2) by (exact H || lia). reflexivity.
Qed.

(** *** Writers confined to a range *)

Lemma confined_id (lo hi : Z) : confined lo hi (fun m => m).
Proof. split; auto. Qed.

Lemma confined_ext (lo hi : Z) (f g : mem -> mem) :
  (forall m, f m = g m) -> confined lo hi g -> confined lo hi f.
Proof.
  intros E [Hf Ha]. split.
  - intros m p Hp. rewrite E. apply Hf, Hp.
  - intros m1 m2 H. rewrite !E. apply Ha, H.
Qed.

Lemma confined_compose (lo hi : Z) (f g : mem -> mem) :
  confined lo hi f -> confined lo hi g -> confined lo hi (fun m => g (f m)).
Proof.
  intros [Hf Ha] [Hg Hb]. split.
  - intros m p Hp. rewrite Hg by exact Hp. apply Hf, Hp.
  - intros m1 m2 H. apply Hb, Ha, H.
Qed.

Lemma confined_store8 (lo hi p v : Z) :
  lo <= p < hi -> confined lo hi (fun m => store8 m p v).
Proof.
  intros Hp. split.
  - intros m q Hq. apply store8_other. lia.
  - intros m1 m2 H q Hq. rewrite !store8_at.
    destruct (decide (p = q)); [reflexivity | apply H, Hq].
Qed.

Lemma confined_store32 (lo hi p v : Z) :
  lo <= p -> p + 4 <= hi -> confined lo hi (fun m => store32 m p v).
Proof.
  intros Hlo Hhi. unfold store32.
  apply (confined_compose lo hi
           (fun m => store8 (store8 (store8 m p v) (p + 1) (v / 2 ^ 8))
                            (p + 2) (v / 2 ^ 16))
           (fun m => store8 m (p + 3) (v / 2 ^ 24))).
  - apply (confined_compose lo hi
             (fun m => store8 (store8 m p v) (p + 1) (v / 2 ^ 8))
             (fun m => store8 m (p + 2) (v / 2 ^ 16))).
    + apply (confined_compose lo hi (fun m => store8 m p v)
               (fun m => store8 m (p + 1) (v / 2 ^ 8)));
        apply confined_store8; lia.
    + apply confined_store8; lia.
  - apply confined_store8; lia.
Qed.

Lemma confined_writer_ext (lo hi : Z) (f g : mem -> outcome mem) :
  (forall m, f m = g m) -> confined_writer lo hi g -> confined_writer lo hi f.
Proof.
  intros E [Hf Ha]. split.
  - intros m m' p. rewrite E. apply Hf.
  - intros m1 m2 H. rewrite !E. apply Ha, H.
Qed.

Lemma confined_writer_done (lo hi : Z) (f : mem -> mem) :
  confined lo hi f -> confined_writer lo hi (fun m => Done (f m)).
Proof.
  intros [Hf Ha]. split.
  - intros m m' p [= <-] Hp. apply Hf, Hp.
  - intros m1 m2 H. simpl. apply Ha, H.
Qed.

Lemma confined_writer_abort (lo hi : Z) (msg : string) :
  confined_writer lo hi (fun _ => Abort msg).
Proof. split; [discriminate | intros; reflexivity]. Qed.

Lemma confined_writer_fault (lo hi : Z) :
  confined_writer lo hi (fun _ => Fault).
Proof. split; [discriminate | intros; exact I]. Qed.

Lemma confined_writer_after (lo hi : Z) (f : mem -> mem) (g : mem -> outcome mem) :
  confined lo hi f -> confined_writer lo hi g ->
  confined_writer lo hi (fun m => g (f m)).
Proof.
  intros [Hf Ha] [Hg Hb]. split.
  - intros m m' p Hm Hp. rewrite (Hg _ _ _ Hm Hp). apply Hf, Hp.
  - intros m1 m2 H. apply Hb, Ha, H.
Qed.

Lemma confined_writer_widen (lo hi lo' hi' : Z) (f : mem -> outcome mem) :
  lo' <= lo -> hi <= hi' ->
  (forall m, f m <> OutOfFuel) ->
  confined_writer lo hi f -> confined_writer lo' hi' f.
Proof.
  intros Hlo Hhi Hfuel [Hf Ha]. split.
  - intros m m' p Hm Hp. apply (Hf _ _ _ Hm). lia.
  - intros m1 m2 H.
    assert (H' : agree lo hi m1 m2) by (intros p Hp; apply H; lia).
    specialize (Ha m1 m2 H').
    destruct (f m1) as [a| | |] eqn:E1, (f m2) as [b| | |] eqn:E2;
      simpl in *; try contradiction; try exact Ha; try exact I.
    intros p Hp.
    destruct (decide (lo <= p < hi)) as [Hin|Hout].
    + apply Ha, Hin.
    + rewrite (Hf _ _ _ E1 Hout), (Hf _ _ _ E2 Hout). apply H, Hp.
Qed.

(** ** The row loop

    The loop steps two pointers, [a] (which it tests) and [b]; its body
    writes the row at one of them, [b] when [at_b] is set and [a] otherwise.
    When the body is confined to the [W] bytes of the row it is given and the
    rows are at least [W] bytes apart, each row of the result holds what the
    body does to that row of the initial memory, whatever the order and
    direction in which the rows are visited. *)

Section RowLoop.

Variable body : Z -> Z -> mem -> outcome mem.
Variable at_b : bool.
Variables a_stride b_stride W : Z.

Hypothesis stride_nonzero : a_stride <> 0.
Hypothesis rows_apart : W <= Z.abs (written_at at_b a_stride b_stride).
Hypothesis body_confined :
  forall a b, confined_writer (written_at at_b a b) (written_at at_b a b + W) (body a b).
Hypothesis body_fuel : forall a b m, body a b m <> OutOfFuel.

Lemma written_step (a b k : Z) :
  written_at at_b (a + a_stride + k * a_stride) (b + b_stride + k * b_stride)
  = written_at at_b a b + written_at at_b a_stride b_stride + k * written_at at_b a_stride b_stride.
Proof. unfold written_at. destruct at_b; reflexivity. Qed.

Lemma written_row (a b k : Z) :
  written_at at_b (a + k * a_stride) (b + k * b_stride)
  = written_at at_b a b + k * written_at at_b a_stride b_stride.
Proof. unfold written_at. destruct at_b; reflexivity. Qed.

Lemma rows_disjoint (d k p : Z) :
  0 <= k -> d <= p < d + W ->
  ~ (d + written_at at_b a_stride b_stride + k * written_at at_b a_stride b_stride <= p
     < d + written_at at_b a_stride b_stride + k * written_at at_b a_stride b_stride + W).
Proof.
  intros Hk Hp.
  set (s := written_at at_b a_stride b_stride) in *.
  assert (Hcases : W <= s \/ s <= - W) by lia.
  destruct Hcases as [Hpos|Hneg].
  - assert (0 <= k * s) by nia. lia.
  - assert (k * s <= 0) by nia. lia.
Qed.

Lemma for_rows_rows (n : nat) : forall (fuel : nat) (a b : Z) (m0 : mem),
  (n < fuel)%nat ->
  match for_rows fuel body a a_stride (a + Z.of_nat n * a_stride) b b_stride m0 with
  | Done m =>
      (forall k, 0 <= k < Z.of_nat n ->
         exists mk, body (a + k * a_stride) (b + k * b_stride) m0 = Done mk
                    /\ agree (written_at at_b a b + k * written_at at_b a_stride b_stride)
                             (written_at at_b a b + k * written_at at_b a_stride b_stride + W)
                             m mk)
      /\ (forall p, (forall k, 0 <= k < Z.of_nat n ->
                       ~ (written_at at_b a b + k * written_at at_b a_stride b_stride <= p
                          < written_at at_b a b + k * written_at at_b a_stride b_stride + W)) ->
                    m p = m0 p)
  | Abort msg =>
      exists k, 0 <= k < Z.of_nat n
                /\ body (a + k * a_stride) (b + k * b_stride) m0 = Abort msg
  | Fault =>
      exists k, 0 <= k < Z.of_nat n
                /\ body (a + k * a_stride) (b + k * b_stride) m0 = Fault
  | OutOfFuel => False
  end.
Proof.
  induction n as [|n IH]; intros fuel a b m0 Hfuel.
  - destruct fuel as [|fuel]; [lia|]. cbn [for_rows].
    replace (a + Z.of_nat 0 * a_stride) with a by lia. rewrite Z.eqb_refl.
    split; [intros k Hk; lia | reflexivity].
  - destruct fuel as [|fuel]; [lia|].
    cbn [for_rows].
    assert (Hne : (a =? a + Z.of_nat (S n) * a_stride) = false).
    { apply Z.eqb_neq. intros E.
      assert (Z.of_nat (S n) * a_stride = 0) by lia.
      apply Z.mul_eq_0 in H. lia. }
    rewrite Hne.
    assert (Hrow0 : body (a + 0 * a_stride) (b + 0 * b_stride) m0 = body a b m0)
      by (f_equal; lia).
    destruct (body a b m0) as [m1| msg | |] eqn:Ebody; cbn [mbind outcome_bind].
    2: { exists 0. split; [lia | exact Hrow0]. }
    2: { exists 0. split; [lia | exact Hrow0]. }
    2: { exact (body_fuel _ _ _ Ebody). }
    specialize (IH fuel (a + a_stride) (b + b_stride) m1 ltac:(lia)).
    replace (a + a_stride + Z.of_nat n * a_stride)
      with (a + Z.of_nat (S n) * a_stride) in IH by lia.
    pose proof (writer_frame _ _ _ (body_confined a b) m0 m1) as Hframe0.
    set (d := written_at at_b a b) in *.
    set (s := written_at at_b a_stride b_stride) in *.
    assert (Hd : written_at at_b (a + a_stride) (b + b_stride) = d + s)
      by (unfold written_at, d, s; destruct at_b; reflexivity).
    rewrite Hd in IH.
    (* a later row sees the same bytes in [m1] as in [m0] *)
    assert (Hlater : forall k, 0 <= k ->
              same_outcome
                (agree (d + s + k * s) (d + s + k * s + W))
                (body (a + a_stride + k * a_stride)
                      (b + b_stride + k * b_stride) m1)
                (body (a + a_stride + k * a_stride)
                      (b + b_stride + k * b_stride) m0)).
    { intros k Hk.
      pose proof (writer_agree _ _ _
                    (body_confined (a + a_stride + k * a_stride)
                                   (b + b_stride + k * b_stride))) as Hag.
      rewrite written_step in Hag. fold d s in Hag.
      apply Hag.
      intros p Hp. apply Hframe0; [exact Ebody|].
      intros Hin. exact (rows_disjoint d k p Hk Hin Hp). }
    destruct (for_rows fuel body (a + a_stride) a_stride
                (a + Z.of_nat (S n) * a_stride) (b + b_stride) b_stride m1)
      as [m| msg | |] eqn:Erest.
    + destruct IH as [IHrows IHframe]. split.
      * intros k Hk. destruct (decide (k = 0)) as [->|Hk0].
        -- exists m1. split; [exact Hrow0|].
           replace (d + 0 * s) with d by lia.
           intros p Hp. apply IHframe. intros j Hj.
           apply (rows_disjoint d j p); [lia | exact Hp].
        -- destruct (IHrows (k - 1) ltac:(lia)) as (mk & Hmk & Hagree).
           specialize (Hlater (k - 1) ltac:(lia)).
           rewrite Hmk in Hlater.
           replace (a + a_stride + (k - 1) * a_stride) with (a + k * a_stride)
             in Hlater by lia.
           replace (b + b_stride + (k - 1) * b_stride) with (b + k * b_stride)
             in Hlater by lia.
           replace (d + s + (k - 1) * s) with (d + k * s) in * by lia.
           destruct (body (a + k * a_stride) (b + k * b_stride) m0)
             as [mk'| | |]; simpl in Hlater; try contradiction.
           exists mk'. split; [reflexivity|].
           eapply agree_trans; [exact Hagree | exact Hlater].
      * intros p Hp. rewrite IHframe.
        -- apply Hframe0; [exact Ebody|].
           specialize (Hp 0 ltac:(lia)).
           replace (d + 0 * s) with d in Hp by lia. exact Hp.
        -- intros j Hj. specialize (Hp (j + 1) ltac:(lia)).
           replace (d + (j + 1) * s) with (d + s + j * s) in Hp by lia.
           exact Hp.
    + destruct IH as (k & Hk & Hmk).
      specialize (Hlater k ltac:(lia)). rewrite Hmk in Hlater.
      exists (k + 1). split; [lia|].
      replace (a + (k + 1) * a_stride) with (a + a_stride + k * a_stride) by lia.
      replace (b + (k + 1) * b_stride) with (b + b_stride + k * b_stride) by lia.
      destruct (body (a + a_stride + k * a_stride) (b + b_stride + k * b_stride) m0);
        simpl in Hlater; try contradiction.
      congruence.
    + destruct IH as (k & Hk & Hmk).
      specialize (Hlater k ltac:(lia)). rewrite Hmk in Hlater.
      exists (k + 1). split; [lia|].
      replace (a + (k + 1) * a_stride) with (a + a_stride + k * a_stride) by lia.
      replace (b + (k + 1) * b_stride) with (b + b_stride + k * b_stride) by lia.
      destruct (body (a + a_stride + k * a_stride) (b + b_stride + k * b_stride) m0);
        simpl in Hlater; try contradiction.
      reflexivity.
    + exact IH.
Qed.

End RowLoop.

(** ** The scanline loops are confined to the destination line *)

Lemma uniform_confined_writer (lo hi : Z) (f : mem -> outcome mem) :
  uniform lo hi f -> confined_writer lo hi f.
Proof.
  intros [(g & Hg & E)|[(msg & E)|E]].
  - apply (confined_writer_ext lo hi f (fun m => Done (g m)) E).
    apply confined_writer_done, Hg.
  - apply (confined_writer_ext lo hi f (fun _ => Abort msg) E).
    apply confined_writer_abort.
  - apply (confined_writer_ext lo hi f (fun _ => Fault) E).
    apply confined_writer_fault.
Qed.

Lemma uniform_fuel (lo hi : Z) (f : mem -> outcome mem) :
  uniform lo hi f -> forall m, f m <> OutOfFuel.
Proof.
  intros [(g & _ & E)|[(msg & E)|E]] m; rewrite E; discriminate.
Qed.

Lemma uniform_done (lo hi : Z) (g : mem -> mem) :
  confined lo hi g -> uniform lo hi (fun m => Done (g m)).
Proof. intros H. left. exists g. split; [exact H | reflexivity]. Qed.

Lemma memcpy_loop_confined (from : mem) (n : nat) : forall lo hi dest src,
  lo <= dest -> dest + Z.of_nat n <= hi ->
  confined lo hi (memcpy_loop n from dest src).
Proof.
  induction n as [|n IH]; intros lo hi dest src Hlo Hhi.
  - apply (confined_ext lo hi _ (fun m => m)); [reflexivity | apply confined_id].
  - apply (confined_ext lo hi _
             (fun m => memcpy_loop n from (dest + 1) (src + 1)
                         (store8 m dest (load8 from src)))); [reflexivity|].
    apply (confined_compose lo hi (fun m => store8 m dest (load8 from src))).
    + apply confined_store8. lia.
    + apply IH; lia.
Qed.

Lemma map_bytes_confined (f : Z -> Z) (from : mem) (n : nat) :
  forall lo hi now dest,
  lo <= dest -> dest + Z.of_nat n <= hi ->
  confined lo hi (Mask.map_bytes f n from now dest).
Proof.
  induction n as [|n IH]; intros lo hi now dest Hlo Hhi.
  - apply (confined_ext lo hi _ (fun m => m)); [reflexivity | apply confined_id].
  - apply (confined_ext lo hi _
             (fun m => Mask.map_bytes f n from (now + 1) (dest + 1)
                         (store8 m dest (f (load8 from now))))); [reflexivity|].
    apply (confined_compose lo hi (fun m => store8 m dest (f (load8 from now)))).
    + apply confined_store8. lia.
    + apply IH; lia.
Qed.


Section CopyLines.

Import Convert.
Variable wire : mem.

Lemma copy_24bpp_pixels_confined (n : nat) : forall lo hi src dest,
  lo <= dest -> dest + 4 * Z.of_nat n <= hi ->
  confined lo hi (copy_24bpp_pixels wire n src dest).
Proof.
  induction n as [|n IH]; intros lo hi src dest Hlo Hhi.
  - apply (confined_ext lo hi _ (fun m => m)); [reflexivity | apply confined_id].
  - apply (confined_ext lo hi _
             (fun m => copy_24bpp_pixels wire n (src + 3) (dest + 4)
                (store8 (store8 (store8 m dest (load8 wire src))
                                (dest + 1) (load8 wire (src + 1)))
                        (dest + 2) (load8 wire (src + 2))))); [reflexivity|].
    apply (confined_compose lo hi
             (fun m => store8 (store8 (store8 m dest (load8 wire src))
                                      (dest + 1) (load8 wire (src + 1)))
                              (dest + 2) (load8 wire (src + 2)))).
    + apply (confined_compose lo hi
               (fun m => store8 (store8 m dest (load8 wire src))
                                (dest + 1) (load8 wire (src + 1)))
               (fun m => store8 m (dest + 2) (load8 wire (src + 2)))).
      * apply (confined_compose lo hi
                 (fun m => store8 m dest (load8 wire src))
                 (fun m => store8 m (dest + 1) (load8 wire (src + 1))));
          apply confined_store8; lia.
      * apply confined_store8; lia.
    + apply IH; lia.
Qed.

Lemma copy_16bpp_pixels_confined (n : nat) : forall lo hi src dest,
  lo <= dest -> dest + 4 * Z.of_nat n <= hi ->
  confined lo hi (copy_16bpp_pixels wire n src dest).
Proof.
  induction n as [|n IH]; intros lo hi src dest Hlo Hhi.
  - apply (confined_ext lo hi _ (fun m => m)); [reflexivity | apply confined_id].
  - apply (confined_ext lo hi _
             (fun m => copy_16bpp_pixels wire n (src + 2) (dest + 4)
                (store32 m dest (Pixel.canvas_16bpp_to_32bpp (load16 wire src)))));
      [reflexivity|].
    apply (confined_compose lo hi
             (fun m => store32 m dest
                         (Pixel.canvas_16bpp_to_32bpp (load16 wire src)))).
    + apply confined_store32; lia.
    + apply IH; lia.
Qed.

Lemma copy_1bpp_be_pixels_confined (fore back : Z) (n : nat) :
  forall lo hi src i dest,
  lo <= dest -> dest + 4 * Z.of_nat n <= hi ->
  confined lo hi (copy_1bpp_be_pixels wire n fore back src i dest).
Proof.
  induction n as [|n IH]; intros lo hi src i dest Hlo Hhi.
  - apply (confined_ext lo hi _ (fun m => m)); [reflexivity | apply confined_id].
  - apply (confined_ext lo hi _
             (fun m => copy_1bpp_be_pixels wire n fore back src (i + 1) (dest + 4)
                (store32 m dest (if test_bit_be wire src i then fore else back)))).
    { intros m. cbn [copy_1bpp_be_pixels].
      destruct (test_bit_be wire src i); reflexivity. }
    apply (confined_compose lo hi
             (fun m => store32 m dest
                         (if test_bit_be wire src i then fore else back))).
    + apply confined_store32; lia.
    + apply IH; lia.
Qed.

Lemma copy_8bpp_pixels_uniform (palette : Palette) (n : nat) :
  forall lo hi src dest,
  lo <= dest -> dest + 4 * Z.of_nat n <= hi ->
  uniform lo hi (copy_8bpp_pixels wire n palette src dest).
Proof.
  induction n as [|n IH]; intros lo hi src dest Hlo Hhi.
  - left. exists (fun m => m). split; [apply confined_id | reflexivity].
  - cbn [copy_8bpp_pixels]. unfold ASSERT.
    destruct (load8 wire src <? num_ents palette).
    2: { right. left. eexists. intros m. reflexivity. }
    destruct (ents_at palette (load8 wire src)) as [e| msg | |] eqn:Ee.
    2: { right. left. exists msg. intros m. reflexivity. }
    2: { right. right. intros m. reflexivity. }
    2: { unfold ents_at in Ee.
         destruct (load8 wire src <? 0); [discriminate|].
         destruct (ents palette !! Z.to_nat (load8 wire src)); discriminate. }
    destruct (IH lo hi (src + 1) (dest + 4) ltac:(lia) ltac:(lia))
      as [(g & Hg & E)|[(msg & E)|E]].
    + left. exists (fun m => g (store32 m dest e)). split.
      * apply (confined_compose lo hi (fun m => store32 m dest e) g);
          [apply confined_store32; lia | exact Hg].
      * intros m. cbn [mbind outcome_bind]. apply E.
    + right. left. exists msg. intros m. cbn [mbind outcome_bind]. apply E.
    + right. right. intros m. cbn [mbind outcome_bind]. apply E.
Qed.

Lemma ents_at_fuel (palette : Palette) (i : Z) : ents_at palette i <> OutOfFuel.
Proof.
  unfold ents_at. destruct (i <? 0); [discriminate|].
  destruct (ents palette !! Z.to_nat i); discriminate.
Qed.

(** The pair loop of the 4 bpp copy stops at [dest + 8 n]. *)
Lemma copy_4bpp_be_pairs_uniform (palette : Palette) (n : nat) :
  forall lo hi now dest,
  lo <= dest -> dest + 8 * Z.of_nat n <= hi ->
  (exists g, confined lo hi g
             /\ forall m, copy_4bpp_be_pairs wire n palette now dest m
                          = Done (dest + 8 * Z.of_nat n, g m))
  \/ (exists msg, forall m, copy_4bpp_be_pairs wire n palette now dest m = Abort msg)
  \/ (forall m, copy_4bpp_be_pairs wire n palette now dest m = Fault).
Proof.
  induction n as [|n IH]; intros lo hi now dest Hlo Hhi.
  - left. exists (fun m => m). split; [apply confined_id|].
    intros m. cbn [copy_4bpp_be_pairs]. do 2 f_equal. lia.
  - cbn [copy_4bpp_be_pairs]. unfold ASSERT.
    destruct (Z.land (load8 wire now) 15 <? num_ents palette).
    2: { right. left. eexists. intros m. reflexivity. }
    destruct (Z.land (Z.shiftr (load8 wire now) 4) 15 <? num_ents palette).
    2: { right. left. eexists. intros m. reflexivity. }
    destruct (ents_at palette (Z.land (Z.shiftr (load8 wire now) 4) 15))
      as [hi_e| msg | |] eqn:Ehi.
    2: { right. left. exists msg. intros m. reflexivity. }
    2: { right. right. intros m. reflexivity. }
    2: { exfalso. exact (ents_at_fuel _ _ Ehi). }
    destruct (ents_at palette (Z.land (load8 wire now) 15))
      as [lo_e| msg | |] eqn:Elo.
    2: { right. left. exists msg. intros m. reflexivity. }
    2: { right. right. intros m. reflexivity. }
    2: { exfalso. exact (ents_at_fuel _ _ Elo). }
    destruct (IH lo hi (now + 1) (dest + 8) ltac:(lia) ltac:(lia))
      as [(g & Hg & E)|[(msg & E)|E]].
    + left. exists (fun m => g (store32 (store32 m dest hi_e) (dest + 4) lo_e)).
      split.
      * apply (confined_compose lo hi
                 (fun m => store32 (store32 m dest hi_e) (dest + 4) lo_e) g);
          [|exact Hg].
        apply (confined_compose lo hi (fun m => store32 m dest hi_e)
                 (fun m => store32 m (dest + 4) lo_e));
          apply confined_store32; lia.
      * intros m. cbn [mbind outcome_bind]. rewrite E. do 2 f_equal. lia.
    + right. left. exists msg. intros m. cbn [mbind outcome_bind]. apply E.
    + right. right. intros m. cbn [mbind outcome_bind]. apply E.
Qed.

End CopyLines.

(** ** Conversion of a bitmap to a surface *)

Lemma s32_small (z : Z) : 0 <= z < 2 ^ 31 -> s32 z = z.
Proof.
  intros H. unfold s32. cbv zeta.
  assert (2 ^ 31 < 2 ^ 32) by (vm_compute; reflexivity).
  rewrite Z.mod_small by lia.
  destruct (z <? 2 ^ 31) eqn:E; [reflexivity|]. apply Z.ltb_ge in E. lia.
Qed.

Lemma u32_small (z : Z) : 0 <= z < 2 ^ 32 -> u32 z = z.
Proof. intros H. unfold u32. apply Z.mod_small. exact H. Qed.

Lemma for_rows_ext (body1 body2 : Z -> Z -> mem -> outcome mem) :
  (forall a b m, body1 a b m = body2 a b m) ->
  forall fuel a a_stride a_end b b_stride m,
    for_rows fuel body1 a a_stride a_end b b_stride m
    = for_rows fuel body2 a a_stride a_end b b_stride m.
Proof.
  intros E fuel. induction fuel as [|fuel IH]; intros; [reflexivity|].
  cbn [for_rows]. destruct (a =? a_end); [reflexivity|].
  rewrite E. destruct (body2 a b m); cbn [mbind outcome_bind]; auto.
Qed.

Module ConvertFacts.
Import Convert.

Section Lines.

Variable wire : mem.



End Lines.

Section Surface.

Variable wire : mem.
Variable surface_create : cairo_format_t -> Z -> Z -> bool -> cairo_surface_t.


End Surface.

End ConvertFacts.

Module ConvertExamples.
Import Convert Inputs.


(** The two-row bitmap with the rows [R0 = 1, 2] and [R1 = 3, 4]: bottom-up
    it gives the surface rows [R1, R0], top-down the rows [R0, R1]. *)
Example bottom_up_2x2 :
  pixels_of (canvas_bitmap_to_surface wire_2x2 Mask.image_surface_create 3
               (bitmap_2x2 no_flags) None) 4
  = Some [3; 4; 1; 2].
Proof. vm_compute. reflexivity. Qed.

Example top_down_2x2 :
  pixels_of (canvas_bitmap_to_surface wire_2x2 Mask.image_surface_create 3
               (bitmap_2x2 top_down_flag) None) 4
  = Some [1; 2; 3; 4].
Proof. vm_compute. reflexivity. Qed.

End ConvertExamples.

Module PixelFacts.
Import Pixel.

Lemma expand5_table :
  forall_below 32 (fun c => expand 5 c =? 8 * c + c / 4) = true.
Proof. vm_compute. reflexivity. Qed.

Lemma expand5_arith (c : Z) : 0 <= c < 32 -> expand 5 c = 8 * c + c / 4.
Proof.
  intros Hc. apply Z.eqb_eq.
  apply (forall_below_spec 32 _ expand5_table). lia.
Qed.

Lemma component_range (color pos : Z) :
  0 <= pos -> 0 <= component color pos < 32.
Proof.
  intros Hpos. unfold component.
  rewrite Z.shiftr_land, Z.shiftr_shiftl_l, Z.sub_diag, Z.shiftl_0_r by lia.
  change 0x1f with (Z.ones 5). rewrite Z.land_ones by lia.
  apply Z.mod_pos_bound. lia.
Qed.

Lemma canvas_16bpp_low15 (color : Z) :
  canvas_16bpp_to_32bpp color = canvas_16bpp_to_32bpp (color mod 2 ^ 15).
Proof.
  unfold canvas_16bpp_to_32bpp.
  rewrite !(land_low_bits 15 color) by (vm_compute; intuition congruence).
  reflexivity.
Qed.

Lemma components_low15 (color : Z) :
  combine (expand 5 (component color 0)) (expand 5 (component color 5))
          (expand 5 (component color 10))
  = combine (expand 5 (component (color mod 2 ^ 15) 0))
            (expand 5 (component (color mod 2 ^ 15) 5))
            (expand 5 (component (color mod 2 ^ 15) 10)).
Proof.
  unfold component.
  change (Z.shiftl 0x1f 0) with 0x1f.
  change (Z.shiftl 0x1f 5) with 0x3e0.
  change (Z.shiftl 0x1f 10) with 0x7c00.
  rewrite !(land_low_bits 15 color) by (vm_compute; intuition congruence).
  reflexivity.
Qed.

Lemma canvas_16bpp_table :
  forall_below (2 ^ 15) (fun c =>
    canvas_16bpp_to_32bpp c =?
    combine (expand 5 (component c 0)) (expand 5 (component c 5))
            (expand 5 (component c 10))) = true.
Proof. vm_compute. reflexivity. Qed.

(** C5. [canvas_16bpp_to_32bpp] expands each of the three 5-bit components
    [c] of its argument to the 8-bit value [(c << (8-n)) | (c >> (2n-8))]
    with [n = 5], independently, and ORs the three results together at bit
    offsets 0, 8 and 16; over the [2^5] component values the expansion is
    strictly monotonic, hence injective, and stays below [2^8]. *)
Theorem canvas_16bpp_to_32bpp_expansion :
  (forall color,
      canvas_16bpp_to_32bpp color =
      combine (expand 5 (component color 0)) (expand 5 (component color 5))
              (expand 5 (component color 10)))
  /\ (forall c, 0 <= c < 2 ^ 5 -> 0 <= expand 5 c < 2 ^ 8)
  /\ (forall c1 c2, 0 <= c1 < 2 ^ 5 -> 0 <= c2 < 2 ^ 5 ->
        c1 < c2 -> expand 5 c1 < expand 5 c2)
  /\ (forall c1 c2, 0 <= c1 < 2 ^ 5 -> 0 <= c2 < 2 ^ 5 ->
        expand 5 c1 = expand 5 c2 -> c1 = c2).
Proof.
  assert (Hmono : forall c1 c2, 0 <= c1 < 2 ^ 5 -> 0 <= c2 < 2 ^ 5 ->
            c1 < c2 -> expand 5 c1 < expand 5 c2).
  { intros c1 c2 H1 H2 Hlt. change (2 ^ 5) with 32 in *.
    rewrite !expand5_arith by lia.
    assert (c1 / 4 <= c2 / 4) by (apply Z.div_le_mono; lia). lia. }
  split; [|split; [|split]].
  - intros color.
    rewrite canvas_16bpp_low15, components_low15.
    apply Z.eqb_eq.
    apply (forall_below_spec (2 ^ 15) _ canvas_16bpp_table).
    apply Z.mod_pos_bound. lia.
  - intros c Hc. change (2 ^ 5) with 32 in *. rewrite expand5_arith by lia.
    assert (0 <= c / 4 < 8).
    { split; [apply Z.div_pos; lia | apply Z.div_lt_upper_bound; lia]. }
    lia.
  - exact Hmono.
  - intros c1 c2 H1 H2 Heq.
    destruct (Z.lt_trichotomy c1 c2) as [Hlt|[Heq'|Hgt]]; [|exact Heq'|].
    + pose proof (Hmono c1 c2 H1 H2 Hlt). lia.
    + pose proof (Hmono c2 c1 H2 H1 Hgt). lia.
Qed.

Lemma canvas_16bpp_to_32bpp_expansion_witness :
  Pixel.expand 5 3 < Pixel.expand 5 4.
Proof.
  apply (proj1 (proj2 (proj2 canvas_16bpp_to_32bpp_expansion)) 3 4); lia.
Defined.

End PixelFacts.

(** ** Palette indices in the indexed copies *)

Module IndexFacts.
Import Convert Inputs.

(** On a line of odd width the 4 bpp copy takes its last pixel from the
    high nibble of the byte at [src], the first byte of the line. *)
Lemma copy_4bpp_be_line_odd_width (wire : mem) (palette : Palette)
    (width src dest : Z) (m m' : mem) :
  0 <= width -> width mod 2 = 1 ->
  copy_4bpp_be_line wire palette width src dest m = Done m' ->
  exists e,
    ents_at palette (Z.land (Z.shiftr (load8 wire src) 4) 0x0f) = Done e
    /\ load32 m' (dest + 4 * (width - 1)) = u32 e.
Proof.
  intros Hw Hodd. unfold copy_4bpp_be_line.
  assert (Hhalf : Z.shiftr width 1 = width / 2)
    by (rewrite Z.shiftr_div_pow2 by lia; reflexivity).
  assert (Hbit : Z.land width 1 = 1).
  { change 1 with (Z.ones 1) at 1. rewrite Z.land_ones by lia. exact Hodd. }
  pose proof (Z.div_mod width 2 ltac:(lia)) as Hdm.
  assert (Hpairs : Z.of_nat (Z.to_nat (Z.shiftr width 1)) = width / 2).
  { rewrite Hhalf. apply Z2Nat.id. apply Z.div_pos; lia. }
  destruct (copy_4bpp_be_pairs_uniform wire palette
              (Z.to_nat (Z.shiftr width 1)) dest (dest + 4 * width) src dest
              ltac:(lia) ltac:(lia))
    as [(g & Hg & E)|[(msg & E)|E]]; rewrite E; cbn [mbind outcome_bind];
    try discriminate.
  rewrite Hbit. change (1 =? 0) with false. cbv iota.
  destruct (ents_at palette (Z.land (Z.shiftr (load8 wire src) 4) 15))
    as [e| | |]; cbn [mbind outcome_bind]; try discriminate.
  intros [= <-]. exists e. split; [reflexivity|].
  replace (dest + 4 * (width - 1))
    with (dest + 8 * Z.of_nat (Z.to_nat (Z.shiftr width 1))) by lia.
  apply load32_store32_same.
Qed.

(** C1. A row of three 4-bit pixels with the indices 1, 2, 3 (bytes [0x12],
    [0x30]) under a palette of sixteen entries decodes to the entries 1, 2
    and 1: the pixel of the trailing half byte is taken from the high nibble
    of the first byte of the row, not from the high nibble of the trailing
    byte, which selects entry 3. *)
Theorem canvas_copy_4bpp_be_trailing_pixel :
  pixels_of (canvas_bitmap_to_surface wire_4bpp Mask.image_surface_create 2
               bitmap_4bpp (Some palette16)) 3
  = Some [101; 102; 101]
  /\ ents_at palette16 (Z.land (Z.shiftr (load8 wire_4bpp 1) 4) 0x0f)
     = Done 103.
Proof. split; vm_compute; reflexivity. Qed.

(** The 8 bpp copy returns only when every index of the line is below
    [num_ents]. *)
Lemma copy_8bpp_pixels_checked (wire : mem) (palette : Palette) (n : nat) :
  forall src dest m m',
  copy_8bpp_pixels wire n palette src dest m = Done m' ->
  forall i, 0 <= i < Z.of_nat n -> load8 wire (src + i) < num_ents palette.
Proof.
  induction n as [|n IH]; intros src dest m m' H i Hi; [lia|].
  cbn [copy_8bpp_pixels] in H. unfold ASSERT in H.
  destruct (load8 wire src <? num_ents palette) eqn:Hlt;
    cbn [mbind outcome_bind] in H; [|discriminate].
  destruct (ents_at palette (load8 wire src)) as [e| | |];
    cbn [mbind outcome_bind] in H; try discriminate.
  destruct (decide (i = 0)) as [->|Hne].
  - replace (src + 0) with src by lia. apply Z.ltb_lt, Hlt.
  - replace (src + i) with (src + 1 + (i - 1)) by lia.
    apply (IH _ _ _ _ H). lia.
Qed.

(** So do the pairs of the 4 bpp copy, for both nibbles of each byte. *)
Lemma copy_4bpp_be_pairs_checked (wire : mem) (palette : Palette) (n : nat) :
  forall now dest m r,
  copy_4bpp_be_pairs wire n palette now dest m = Done r ->
  forall i, 0 <= i < Z.of_nat n ->
    Z.land (load8 wire (now + i)) 0x0f < num_ents palette
    /\ Z.land (Z.shiftr (load8 wire (now + i)) 4) 0x0f < num_ents palette.
Proof.
  induction n as [|n IH]; intros now dest m r H i Hi; [lia|].
  cbn [copy_4bpp_be_pairs] in H. unfold ASSERT in H.
  destruct (Z.land (load8 wire now) 15 <? num_ents palette) eqn:Hlo;
    cbn [mbind outcome_bind] in H; [|discriminate].
  destruct (Z.land (Z.shiftr (load8 wire now) 4) 15 <? num_ents palette) eqn:Hhi;
    cbn [mbind outcome_bind] in H; [|discriminate].
  destruct (ents_at palette (Z.land (Z.shiftr (load8 wire now) 4) 15));
    cbn [mbind outcome_bind] in H; try discriminate.
  destruct (ents_at palette (Z.land (load8 wire now) 15));
    cbn [mbind outcome_bind] in H; try discriminate.
  destruct (decide (i = 0)) as [->|Hne].
  - replace (now + 0) with now by lia.
    split; apply Z.ltb_lt; assumption.
  - replace (now + i) with (now + 1 + (i - 1)) by lia.
    apply (IH _ _ _ _ H). lia.
Qed.

(** The 1 bpp copy never looks at [num_ents]. *)
Lemma canvas_copy_1bpp_be_ignores_num_ents (wire : mem) (fuel : nat)
    (dest dest_stride src src_stride width end_ : Z) (n1 n2 : Z)
    (l : list Z) (m : mem) :
  canvas_copy_1bpp_be wire fuel dest dest_stride src src_stride width end_
    (Some {| num_ents := n1; ents := l |}) m
  = canvas_copy_1bpp_be wire fuel dest dest_stride src src_stride width end_
      (Some {| num_ents := n2; ents := l |}) m.
Proof. reflexivity. Qed.

(** C2. The index checks of the three indexed copies.  A 1-bit bitmap with a
    set pixel under a palette of one entry decodes, and the pixel is the
    word that follows the palette; a 4-bit bitmap of width one with the
    index 3 under a palette of two entries decodes as well, from the word
    three places into the buffer; the same index in an 8-bit bitmap stops
    the call at the assertion. *)
Theorem indexed_copies_index_checks :
  pixels_of (canvas_bitmap_to_surface wire_1bpp Mask.image_surface_create 2
               bitmap_1bpp (Some palette1)) 1
  = Some [0xBB]
  /\ pixels_of (canvas_bitmap_to_surface wire_4bpp_1 Mask.image_surface_create 2
                  bitmap_4bpp_1 (Some palette2)) 1
     = Some [0xDD]
  /\ canvas_bitmap_to_surface wire_8bpp_1 Mask.image_surface_create 2
       bitmap_8bpp_1 (Some palette2)
     = Abort "*src_line < palette->num_ents".
Proof. repeat split; vm_compute; reflexivity. Qed.

End IndexFacts.

(** ** Bit reversal and inversion of mask bytes *)

Module BitsFacts.
Import Bits.

Lemma fused_byte_table :
  forall_below 256 (fun b =>
    (fused_byte b =? invert_byte (revers_bits b))
    && (invert_byte (revers_bits b) =? revers_bits (invert_byte b))) = true.
Proof. vm_compute. reflexivity. Qed.

(** [revers_bits] mirrors the eight bits of a byte. *)
Lemma revers_bits_table :
  forall_below 256 (fun b =>
    forall_below 8 (fun i =>
      Bool.eqb (Z.testbit (revers_bits b) i) (Z.testbit b (7 - i)))) = true.
Proof. vm_compute. reflexivity. Qed.

Lemma revers_bits_mirror (b i : Z) :
  0 <= b < 256 -> 0 <= i < 8 ->
  Z.testbit (revers_bits b) i = Z.testbit b (7 - i).
Proof.
  intros Hb Hi.
  pose proof (forall_below_spec 256 _ revers_bits_table b Hb) as H.
  cbv beta in H.
  pose proof (forall_below_spec 8 _ H i Hi) as H'.
  cbv beta in H'. apply Bool.eqb_prop in H'. exact H'.
Qed.

(** Reversal and complement of a byte commute. *)
Lemma invert_revers_commute (b : Z) :
  0 <= b < 256 ->
  invert_byte (revers_bits b) = revers_bits (invert_byte b).
Proof.
  intros Hb.
  pose proof (forall_below_spec 256 _ fused_byte_table b Hb) as H.
  cbv beta in H. apply andb_true_iff in H as [_ H2].
  apply Z.eqb_eq. exact H2.
Qed.

End BitsFacts.

(** ** Inverse surfaces *)







Lemma confined_load8_outside (lo hi : Z) (f : mem -> mem) (m : mem) (p : Z) :
  confined lo hi f -> ~ (lo <= p < hi) -> load8 (f m) p = load8 m p.
Proof.
  intros Hf Hp. unfold load8. rewrite (confined_frame _ _ _ Hf) by exact Hp.
  reflexivity.
Qed.

Lemma confined_load32_outside (lo hi : Z) (f : mem -> mem) (m : mem) (p : Z) :
  confined lo hi f -> p + 4 <= lo \/ hi <= p -> load32 (f m) p = load32 m p.
Proof.
  intros Hf Hp. unfold load32.
  rewrite !(confined_load8_outside lo hi f) by (exact Hf || lia). reflexivity.
Qed.

(** What a scanline holds after the byte loop. *)
Lemma map_bytes_load8 (f : Z -> Z) (from : mem) (n : nat) :
  forall now dest m j, 0 <= j < Z.of_nat n ->
  load8 (Mask.map_bytes f n from now dest m) (dest + j)
  = u8 (f (load8 from (now + j))).
Proof.
  induction n as [|n IH]; intros now dest m j Hj; [lia|].
  cbn [Mask.map_bytes].
  destruct (decide (j = 0)) as [->|Hne].
  - rewrite (confined_load8_outside (dest + 1) (dest + 1 + Z.of_nat n));
      [|apply map_bytes_confined; lia|lia].
    replace (dest + 0) with dest by lia. replace (now + 0) with now by lia.
    apply load8_store8_same.
  - replace (dest + j) with (dest + 1 + (j - 1)) by lia.
    replace (now + j) with (now + 1 + (j - 1)) by lia.
    apply IH. lia.
Qed.


Lemma line_size_nonneg (width : Z) : 0 <= width -> 0 <= Z.shiftr (ALIGN width 8) 3.
Proof.
  intros H. apply Z.shiftr_nonneg. unfold ALIGN. apply Z.land_nonneg. left. lia.
Qed.

Module InversFacts.
Import Mask.

Section Invers.

Variable cairo_image_surface_create : cairo_format_t -> Z -> Z -> cairo_surface_t.

(** One inversion of a 1 bpp surface: every byte of every scanline is
    complemented. *)
Lemma canvas_A1_invers_bytes (fuel : nat) (src_surf : cairo_surface_t) :
  let width := cairo_image_surface_get_width src_surf in
  let height := cairo_image_surface_get_height src_surf in
  let created := cairo_image_surface_create CAIRO_FORMAT_A1 width height in
  let line_size := Z.shiftr (ALIGN width 8) 3 in
  cairo_surface_status created = CAIRO_STATUS_SUCCESS ->
  0 <= width -> 0 <= height ->
  cairo_image_surface_get_stride src_surf <> 0 ->
  line_size <= cairo_image_surface_get_stride created ->
  (Z.to_nat height < fuel)%nat ->
  exists invers,
    canvas_A1_invers cairo_image_surface_create fuel src_surf = Done invers
    /\ invers = with_data created (cairo_image_surface_get_data invers)
    /\ forall r j, 0 <= r < height -> 0 <= j < line_size ->
         load8 (cairo_image_surface_get_data invers)
               (r * cairo_image_surface_get_stride created + j)
         = Bits.invert_byte
             (load8 (cairo_image_surface_get_data src_surf)
                    (r * cairo_image_surface_get_stride src_surf + j)).
Proof.
  intros width height created line_size Hstatus Hw Hh Hsrc Hfit Hfuel.
  pose proof (line_size_nonneg width Hw) as Hls. fold line_size in Hls.
  unfold canvas_A1_invers. fold width height created line_size.
  destruct (decide (cairo_surface_status created = CAIRO_STATUS_SUCCESS));
    [|contradiction].
  set (src_stride := cairo_image_surface_get_stride src_surf) in *.
  set (dest_stride := cairo_image_surface_get_stride created) in *.
  set (from := cairo_image_surface_get_data src_surf).
  set (m0 := cairo_image_surface_get_data created).
  assert (Hbody : forall a b,
            confined b (b + line_size)
              (map_bytes Bits.invert_byte (Z.to_nat line_size) from a b)).
  { intros a b. apply map_bytes_confined; lia. }
  pose proof (for_rows_rows (map_line Bits.invert_byte from line_size) true
                src_stride dest_stride line_size Hsrc
                ltac:(unfold written_at; lia)
                (fun a b => confined_writer_done _ _ _ (Hbody a b))
                ltac:(intros; discriminate)
                (Z.to_nat height) fuel 0 0 m0 Hfuel) as H.
  rewrite Z2Nat.id in H by lia. unfold written_at in H.
  replace (0 + height * src_stride) with (0 + height * src_stride) in H by lia.
  destruct (for_rows fuel (map_line Bits.invert_byte from line_size) 0
              src_stride (0 + height * src_stride) 0 dest_stride m0)
    as [m| | |]; cbn [mbind outcome_bind].
  2: { destruct H as (k & _ & Hk). discriminate. }
  2: { destruct H as (k & _ & Hk). discriminate. }
  2: contradiction.
  exists (with_data created m). split; [reflexivity|]. split; [reflexivity|].
  intros r j Hr Hj. cbn [cairo_image_surface_get_data with_data].
  destruct H as [Hrows _].
  destruct (Hrows r Hr) as (mk & Hmk & Hagree).
  unfold map_line in Hmk. injection Hmk as <-.
  rewrite (agree_load8 _ _ _ _ (r * dest_stride + j) Hagree) by lia.
  replace (r * dest_stride + j) with (0 + r * dest_stride + j) by lia.
  rewrite map_bytes_load8 by lia.
  replace (0 + r * src_stride + j) with (r * src_stride + j) by lia.
  fold (Bits.invert_byte (load8 from (r * src_stride + j))).
  unfold Bits.invert_byte. apply u8_idem.
Qed.



End Invers.

End InversFacts.

Module InversExamples.
Import Mask Inputs.

(** The 24 bpp surface of the examples is what the 32-bit bitmap with the
    pixel bytes [0x11 0x22 0x33 0xFF] decodes to. *)
Example surface_tinted_decoded :
  pixels_of (Convert.canvas_bitmap_to_surface wire_tinted image_surface_create 2
               bitmap_tinted None) 1
  = Some (read_words (cairo_image_surface_get_data surface_tinted) 0 1).
Proof. vm_compute. reflexivity. Qed.


Example double_inversion_tinted :
  pixels_of (twice (canvas_surf_to_invers image_surface 2) surface_tinted) 1
  = Some [0x00332211].
Proof. vm_compute. reflexivity. Qed.


End InversExamples.

(** ** The fused pass of [canvas_get_bitmap_mask] *)

Lemma ALIGN_8 (a : Z) : 0 <= a -> ALIGN a 8 = 8 * ((a + 7) / 8).
Proof.
  intros H. unfold ALIGN. change (8 - 1) with (Z.ones 3).
  rewrite <- Z.ldiff_land, Z.ldiff_ones_r by lia.
  rewrite Z.shiftl_mul_pow2, Z.shiftr_div_pow2 by lia.
  change (2 ^ 3) with 8. change (Z.ones 3) with 7. lia.
Qed.

(** The line size of a mask fits the [int] it is stored in. *)
Lemma line_size_small (x : Z) :
  0 <= x < 2 ^ 31 ->
  s32 (Z.shiftr (u32 (ALIGN x 8)) 3) = Z.shiftr (ALIGN x 8) 3.
Proof.
  intros H. rewrite ALIGN_8 by lia.
  assert (H31 : 2 ^ 31 = 2147483648) by reflexivity.
  assert (H32 : 2 ^ 32 = 4294967296) by reflexivity.
  assert (Hq : 0 <= (x + 7) / 8 <= 268435456).
  { split; [apply Z.div_pos; lia|].
    apply Z.lt_succ_r, Z.div_lt_upper_bound; lia. }
  rewrite u32_small by lia.
  rewrite Z.shiftr_div_pow2 by lia. change (2 ^ 3) with 8.
  rewrite Z.mul_comm, Z.div_mul by lia.
  apply s32_small. lia.
Qed.

(** The rows a byte loop leaves: row [k] of the destination holds the bytes
    of row [k] of the source, each sent through [f]. *)
Lemma map_rows_bytes (f : Z -> Z) (from : mem) (fuel : nat)
    (line_size y src src_stride dest ds : Z) (m0 : mem) :
  0 <= line_size -> 0 <= y -> src_stride <> 0 -> line_size <= Z.abs ds ->
  (Z.to_nat y < fuel)%nat ->
  exists m,
    for_rows fuel (Mask.map_line f from line_size) src src_stride
             (src + y * src_stride) dest ds m0 = Done m
    /\ forall k j, 0 <= k < y -> 0 <= j < line_size ->
         load8 m (dest + k * ds + j)
         = u8 (f (load8 from (src + k * src_stride + j))).
Proof.
  intros Hls Hy Hsrc Hapart Hfuel.
  assert (Hbody : forall a b,
            confined b (b + line_size)
              (Mask.map_bytes f (Z.to_nat line_size) from a b)).
  { intros a b. apply map_bytes_confined; lia. }
  pose proof (for_rows_rows (Mask.map_line f from line_size) true
                src_stride ds line_size Hsrc
                ltac:(unfold written_at; lia)
                (fun a b => confined_writer_done _ _ _ (Hbody a b))
                ltac:(intros; discriminate)
                (Z.to_nat y) fuel src dest m0 Hfuel) as H.
  rewrite Z2Nat.id in H by lia. unfold written_at in H.
  destruct (for_rows fuel (Mask.map_line f from line_size) src src_stride
              (src + y * src_stride) dest ds m0) as [m| | |].
  2: { destruct H as (k & _ & Hk). discriminate. }
  2: { destruct H as (k & _ & Hk). discriminate. }
  2: contradiction.
  exists m. split; [reflexivity|].
  intros k j Hk Hj. destruct H as [Hrows _].
  destruct (Hrows k Hk) as (mk & Hmk & Hagree).
  unfold Mask.map_line in Hmk. injection Hmk as <-.
  rewrite (agree_load8 _ _ _ _ (dest + k * ds + j) Hagree) by lia.
  apply map_bytes_load8. lia.
Qed.

Module FusedFacts.
Import Mask.

Section Fused.

Variable GL_CANVAS GDI_CANVAS : bool.
Variable surface_create : cairo_format_t -> Z -> Z -> bool -> cairo_surface_t.
Variable cairo_image_surface_create : cairo_format_t -> Z -> Z -> cairo_surface_t.
Variable wire : mem.

Lemma reversed_not_copied :
  reversed_format GL_CANVAS GDI_CANVAS <> copied_format GL_CANVAS GDI_CANVAS.
Proof.
  unfold reversed_format, copied_format.
  destruct (GL_CANVAS || GDI_CANVAS); discriminate.
Qed.

(** A mask of the format whose bytes are bit-reversed: source row [k] is
    found in the destination row the orientation asks for, every byte
    reversed and, with [invers], complemented in the same store. *)
Lemma canvas_get_bitmap_mask_reversed (fuel : nat) (bitmap : Bitmap)
    (invers : bool) :
  let surface := surface_create CAIRO_FORMAT_A1 (bitmap_x bitmap)
                                (bitmap_y bitmap) true in
  let line_size := Z.shiftr (ALIGN (bitmap_x bitmap) 8) 3 in
  let dest_stride := cairo_image_surface_get_stride surface in
  bitmap_format_of bitmap = reversed_format GL_CANVAS GDI_CANVAS ->
  cairo_surface_status surface = CAIRO_STATUS_SUCCESS ->
  0 <= bitmap_x bitmap < 2 ^ 31 ->
  0 < bitmap_y bitmap < 2 ^ 31 ->
  0 < bitmap_stride bitmap < 2 ^ 31 ->
  bitmap_y bitmap * bitmap_stride bitmap < 2 ^ 32 ->
  line_size <= dest_stride ->
  (Z.to_nat (bitmap_y bitmap) < fuel)%nat ->
  exists m,
    canvas_get_bitmap_mask GL_CANVAS GDI_CANVAS surface_create wire fuel
      bitmap invers = Done (with_data surface m)
    /\ forall k j, 0 <= k < bitmap_y bitmap -> 0 <= j < line_size ->
         let row := if bool_decide (BITMAP_TOP_DOWN (bitmap_flags_of bitmap)
                                    = GL_CANVAS)
                    then bitmap_y bitmap - 1 - k else k in
         load8 m (row * dest_stride + j)
         = (if invers then Bits.fused_byte else Bits.revers_bits)
             (load8 wire (GET_ADDRESS (bitmap_data bitmap)
                          + k * bitmap_stride bitmap + j)).
Proof.
  intros surface line_size dest_stride Hfmt Hstatus Hx Hy Hs Hend Hfit Hfuel.
  pose proof (line_size_nonneg _ (proj1 Hx)) as Hls. fold line_size in Hls.
  set (f := if invers then Bits.fused_byte else Bits.revers_bits).
  assert (Hu8 : forall b, u8 (f b) = f b).
  { intros b. unfold f. destruct invers.
    - unfold Bits.fused_byte. apply u8_idem.
    - unfold Bits.revers_bits. cbn [Bits.revers_loop]. apply u8_idem. }
  set (y := bitmap_y bitmap) in *.
  set (src := bitmap_data bitmap).
  set (src_stride := bitmap_stride bitmap) in *.
  set (m0 := cairo_image_surface_get_data surface).
  assert (Hif : forall a s e b ds m,
            (if invers
             then for_rows fuel (map_line Bits.fused_byte wire line_size)
                           a s e b ds m
             else for_rows fuel (map_line Bits.revers_bits wire line_size)
                           a s e b ds m)
            = for_rows fuel (map_line f wire line_size) a s e b ds m).
  { intros. unfold f. destruct invers; reflexivity. }
  unfold canvas_get_bitmap_mask, GET_ADDRESS.
  fold src. fold y. fold src_stride. fold surface. fold dest_stride. fold m0.
  destruct (decide (cairo_surface_status surface <> CAIRO_STATUS_SUCCESS));
    [congruence|].
  rewrite (s32_small src_stride) by lia.
  rewrite (u32_small (y * src_stride)) by nia.
  rewrite (line_size_small _ Hx). fold line_size.
  rewrite Hfmt.
  destruct (decide (reversed_format GL_CANVAS GDI_CANVAS
                    = copied_format GL_CANVAS GDI_CANVAS)) as [E|_];
    [exfalso; exact (reversed_not_copied E)|].
  destruct (decide (reversed_format GL_CANVAS GDI_CANVAS
                    = reversed_format GL_CANVAS GDI_CANVAS)) as [_|E];
    [|contradiction].
  destruct (bool_decide (BITMAP_TOP_DOWN (bitmap_flags_of bitmap) = GL_CANVAS)).
  - unfold ASSERT. rewrite (proj2 (Z.ltb_lt 0 y)) by lia.
    cbn [mbind outcome_bind]. rewrite (s32_small y) by lia.
    rewrite Hif.
    destruct (map_rows_bytes f wire fuel line_size y src src_stride
                (0 + dest_stride * (y - 1)) (- dest_stride) m0)
      as (m & Hm & Hbytes); try lia.
    rewrite Hm. cbn [mbind outcome_bind].
    exists m. split; [reflexivity|]. intros k j Hk Hj. cbn zeta.
    replace ((y - 1 - k) * dest_stride + j)
      with (0 + dest_stride * (y - 1) + k * - dest_stride + j) by lia.
    rewrite Hbytes by lia. apply Hu8.
  - cbn [mbind outcome_bind]. rewrite Hif.
    destruct (map_rows_bytes f wire fuel line_size y src src_stride
                0 dest_stride m0)
      as (m & Hm & Hbytes); try lia.
    rewrite Hm. cbn [mbind outcome_bind].
    exists m. split; [reflexivity|]. intros k j Hk Hj. cbn zeta.
    replace (k * dest_stride + j) with (0 + k * dest_stride + j) by lia.
    rewrite Hbytes by lia. apply Hu8.
Qed.

(** C8. For a 1-bit bitmap of the format whose bytes are bit-reversed,
    building the mask with inversion (one pass, every byte stored as the
    complement of its reversal) gives byte for byte the scanlines that two
    passes give, the mask built without inversion followed by
    [canvas_A1_invers]; every byte of it is the complement of the reversed
    source byte, which is also the reversal of the complemented source byte:
    [~revers_bits(b) = revers_bits(~b)]. *)
Theorem fused_reversal_and_inversion (fuel : nat) (bitmap : Bitmap) :
  let surface := surface_create CAIRO_FORMAT_A1 (bitmap_x bitmap)
                                (bitmap_y bitmap) true in
  let created := cairo_image_surface_create CAIRO_FORMAT_A1 (bitmap_x bitmap)
                                            (bitmap_y bitmap) in
  let line_size := Z.shiftr (ALIGN (bitmap_x bitmap) 8) 3 in
  let dest_stride := cairo_image_surface_get_stride surface in
  bitmap_format_of bitmap = reversed_format GL_CANVAS GDI_CANVAS ->
  cairo_surface_status surface = CAIRO_STATUS_SUCCESS ->
  cairo_image_surface_get_width surface = bitmap_x bitmap ->
  cairo_image_surface_get_height surface = bitmap_y bitmap ->
  cairo_surface_status created = CAIRO_STATUS_SUCCESS ->
  0 <= bitmap_x bitmap < 2 ^ 31 ->
  0 < bitmap_y bitmap < 2 ^ 31 ->
  0 < bitmap_stride bitmap < 2 ^ 31 ->
  bitmap_y bitmap * bitmap_stride bitmap < 2 ^ 32 ->
  0 < dest_stride ->
  line_size <= dest_stride ->
  line_size <= cairo_image_surface_get_stride created ->
  (Z.to_nat (bitmap_y bitmap) < fuel)%nat ->
  exists fused plain two_pass,
    canvas_get_bitmap_mask GL_CANVAS GDI_CANVAS surface_create wire fuel
      bitmap true = Done fused
    /\ canvas_get_bitmap_mask GL_CANVAS GDI_CANVAS surface_create wire fuel
         bitmap false = Done plain
    /\ canvas_A1_invers cairo_image_surface_create fuel plain = Done two_pass
    /\ (forall r j, 0 <= r < bitmap_y bitmap -> 0 <= j < line_size ->
          load8 (cairo_image_surface_get_data fused) (r * dest_stride + j)
          = load8 (cairo_image_surface_get_data two_pass)
                  (r * cairo_image_surface_get_stride created + j))
    /\ (forall k j, 0 <= k < bitmap_y bitmap -> 0 <= j < line_size ->
          let b := load8 wire (GET_ADDRESS (bitmap_data bitmap)
                               + k * bitmap_stride bitmap + j) in
          let row := if bool_decide (BITMAP_TOP_DOWN (bitmap_flags_of bitmap)
                                     = GL_CANVAS)
                     then bitmap_y bitmap - 1 - k else k in
          load8 (cairo_image_surface_get_data fused) (row * dest_stride + j)
          = Bits.invert_byte (Bits.revers_bits b)
          /\ Bits.invert_byte (Bits.revers_bits b)
             = Bits.revers_bits (Bits.invert_byte b)).
Proof.
  intros surface created line_size dest_stride Hfmt Hstatus Hwidth Hheight
         Hcreated Hx Hy Hs Hend Hpos Hfit Hfit' Hfuel.
  destruct (canvas_get_bitmap_mask_reversed fuel bitmap true
              Hfmt Hstatus Hx Hy Hs Hend Hfit Hfuel) as (mf & Hf & Hfb).
  destruct (canvas_get_bitmap_mask_reversed fuel bitmap false
              Hfmt Hstatus Hx Hy Hs Hend Hfit Hfuel) as (mp & Hp & Hpb).
  subst dest_stride line_size created surface. cbn zeta in Hf, Hp, Hfb, Hpb.
  pose proof (InversFacts.canvas_A1_invers_bytes cairo_image_surface_create
                fuel
                (with_data (surface_create CAIRO_FORMAT_A1 (bitmap_x bitmap)
                                           (bitmap_y bitmap) true) mp)) as HA.
  cbn zeta in HA.
  cbn [cairo_image_surface_get_width cairo_image_surface_get_height
       cairo_image_surface_get_stride cairo_image_surface_get_data
       with_data] in HA.
  rewrite Hwidth, Hheight in HA.
  destruct (HA Hcreated ltac:(lia) ltac:(lia) ltac:(lia) Hfit' Hfuel)
    as (two_pass & Htp & _ & Htb).
  eexists _, _, two_pass.
  split; [exact Hf|]. split; [exact Hp|]. split; [exact Htp|].
  cbn [cairo_image_surface_get_data with_data].
  split.
  - intros r j Hr Hj. rewrite (Htb r j Hr Hj).
    destruct (bool_decide (BITMAP_TOP_DOWN (bitmap_flags_of bitmap) = GL_CANVAS))
      eqn:Eflip.
    + pose proof (Hfb (bitmap_y bitmap - 1 - r) j ltac:(lia) Hj) as H1.
      pose proof (Hpb (bitmap_y bitmap - 1 - r) j ltac:(lia) Hj) as H2.
      cbn zeta in H1, H2.
      replace (bitmap_y bitmap - 1 - (bitmap_y bitmap - 1 - r)) with r
        in H1, H2 by lia.
      rewrite H1, H2. unfold Bits.fused_byte, Bits.invert_byte. reflexivity.
    + pose proof (Hfb r j Hr Hj) as H1. pose proof (Hpb r j Hr Hj) as H2.
      cbn zeta in H1, H2. rewrite H1, H2.
      unfold Bits.fused_byte, Bits.invert_byte. reflexivity.
  - intros k j Hk Hj. cbn zeta. split.
    + rewrite (Hfb k j Hk Hj).
      unfold Bits.fused_byte, Bits.invert_byte. reflexivity.
    + apply BitsFacts.invert_revers_commute, load8_range.
Qed.

End Fused.

End FusedFacts.

Module FusedExamples.
Import Mask Inputs.

Lemma fused_reversal_and_inversion_witness :
  exists fused plain two_pass,
    canvas_get_bitmap_mask false false image_surface_create wire_mask_be 3
      bitmap_mask_be true = Done fused
    /\ canvas_get_bitmap_mask false false image_surface_create wire_mask_be 3
         bitmap_mask_be false = Done plain
    /\ canvas_A1_invers image_surface 3 plain = Done two_pass
    /\ (forall r j, 0 <= r < 2 -> 0 <= j < Z.shiftr (ALIGN 8 8) 3 ->
          load8 (cairo_image_surface_get_data fused) (r * 4 + j)
          = load8 (cairo_image_surface_get_data two_pass) (r * 4 + j))
    /\ (forall k j, 0 <= k < 2 -> 0 <= j < Z.shiftr (ALIGN 8 8) 3 ->
          let b := load8 wire_mask_be (GET_ADDRESS 0 + k * 1 + j) in
          let row := if bool_decide (true = false) then 2 - 1 - k else k in
          load8 (cairo_image_surface_get_data fused) (row * 4 + j)
          = Bits.invert_byte (Bits.revers_bits b)
          /\ Bits.invert_byte (Bits.revers_bits b)
             = Bits.revers_bits (Bits.invert_byte b)).
Proof.
  apply (FusedFacts.fused_reversal_and_inversion false false
           image_surface_create image_surface wire_mask_be 3 bitmap_mask_be);
    first [reflexivity | simpl; lia | vm_compute; congruence | vm_compute; lia].
Defined.

(** The rows [0x05] and [0x81] of a top-down bitmap, reversed and
    complemented in one pass and in two. *)
Example fused_mask_rows :
  pixels_of (canvas_get_bitmap_mask false false image_surface_create
               wire_mask_be 3 bitmap_mask_be true) 2
  = Some [0x5f; 0x7e]
  /\ pixels_of (plain ← canvas_get_bitmap_mask false false
                            image_surface_create wire_mask_be 3
                            bitmap_mask_be false;
                canvas_A1_invers image_surface 3 plain) 2
     = Some [0x5f; 0x7e].
Proof. split; vm_compute; reflexivity. Qed.

End FusedExamples.

(** ** Palette resolution *)

Module PaletteFacts.
Import PaletteResolver.

(** The loop of [canvas_localize_palette] expands the entries from [now] up
    to [now + n] and leaves the others. *)
Lemma localize_loop_lookup (n : nat) : forall (now : nat) (l : list Z) (i : nat),
  localize_loop n now l !! i
  = if decide (now <= i < now + n)%nat
    then Pixel.canvas_16bpp_to_32bpp <$> l !! i
    else l !! i.
Proof.
  induction n as [|n IH]; intros now l i.
  - cbn [localize_loop]. destruct (decide (now <= i < now + 0)%nat); [lia|].
    reflexivity.
  - cbn [localize_loop]. rewrite IH.
    destruct (decide (i = now)) as [->|Hne].
    + destruct (decide (S now <= now < S now + n)%nat); [lia|].
      destruct (decide (now <= now < now + S n)%nat); [|lia].
      apply list_lookup_alter_eq.
    + rewrite list_lookup_alter_ne by congruence.
      destruct (decide (S now <= i < S now + n)%nat),
               (decide (now <= i < now + S n)%nat); try lia; reflexivity.
Qed.


(** In 16-bit colour mode the first [num_ents] entries are expanded; in any
    other mode the palette is left as it is. *)
Lemma canvas_localize_palette_entries (shift : Z) (palette : Palette) (i : nat) :
  ents (canvas_localize_palette shift palette) !! i
  = if decide (shift = 5 /\ (i < Z.to_nat (num_ents palette))%nat)
    then Pixel.canvas_16bpp_to_32bpp <$> ents palette !! i
    else ents palette !! i.
Proof.
  unfold canvas_localize_palette.
  destruct (shift =? 5) eqn:E.
  - apply Z.eqb_eq in E. cbn [ents]. rewrite localize_loop_lookup.
    destruct (decide (0 <= i < 0 + Z.to_nat (num_ents palette))%nat),
             (decide (shift = 5 /\ (i < Z.to_nat (num_ents palette))%nat));
      try reflexivity; exfalso; intuition lia.
  - apply Z.eqb_neq in E.
    destruct (decide (shift = 5 /\ (i < Z.to_nat (num_ents palette))%nat));
      [tauto | reflexivity].
Qed.

Lemma canvas_localize_palette_other_mode (shift : Z) (palette : Palette) :
  shift <> 5 -> canvas_localize_palette shift palette = palette.
Proof.
  intros H. unfold canvas_localize_palette.
  apply Z.eqb_neq in H. rewrite H. reflexivity.
Qed.

Section Resolver.

Variable palette_cache : Type.
Variable palette_cache_put : palette_cache -> Z -> Palette -> palette_cache.
Variable palette_cache_get : palette_cache -> Z -> Palette.

(** A palette resolved with the CacheMe flag is localized in place: the
    inline buffer itself holds the localized palette afterwards, the palette
    cache is handed that buffer, and the pointer returned is the pointer to
    it.  When the canvas is not in 16-bit colour mode the buffer keeps its
    contents. *)
Lemma canvas_get_palett_cache_me
    (st : canvas_state palette_cache) (base_palette : Z)
    (flags : bitmap_flags) (contents : Palette) :
  base_palette <> 0 ->
  BITMAP_PAL_FROM_CACHE flags = false ->
  BITMAP_PAL_CACHE_ME flags = true ->
  inline_palettes st !! GET_ADDRESS base_palette = Some contents ->
  let localized := canvas_localize_palette (color_shift st) contents in
  canvas_get_palett palette_cache palette_cache_put palette_cache_get
                    st base_palette flags
  = Done (PaletteInline (GET_ADDRESS base_palette),
          {| color_shift := color_shift st;
             inline_palettes :=
               <[GET_ADDRESS base_palette := localized]> (inline_palettes st);
             palette_cache_opaque :=
               palette_cache_put (palette_cache_opaque st)
                                 (GET_ADDRESS base_palette) localized |})
  /\ (color_shift st <> 5 ->
      <[GET_ADDRESS base_palette := localized]> (inline_palettes st)
      = inline_palettes st)
  /\ (forall i : nat,
        ents localized !! i
        = if decide (color_shift st = 5
                     /\ (i < Z.to_nat (num_ents contents))%nat)
          then Pixel.canvas_16bpp_to_32bpp <$> ents contents !! i
          else ents contents !! i).
Proof.
  intros Hbase Hfrom Hme Hin localized.
  split; [|split].
  - unfold canvas_get_palett.
    apply Z.eqb_neq in Hbase. rewrite Hbase, Hfrom, Hin, Hme. reflexivity.
  - intros Hmode. unfold localized.
    rewrite canvas_localize_palette_other_mode by exact Hmode.
    apply insert_id, Hin.
  - intros i. apply canvas_localize_palette_entries.
Qed.

End Resolver.

End PaletteFacts.

Module PaletteExamples.
Import PaletteResolver Inputs.

(** C3. A canvas in 16-bit colour mode resolves, with CacheMe, the inline
    palette at address 64 of the wire buffer, whose one entry is [0x7fff]:
    the pointer returned is the inline buffer itself and the palette cache
    is handed that same buffer; no copy is made, and the buffer of the
    caller, which held [0x7fff], holds the localized entry [0xffffff]
    afterwards. *)
Theorem canvas_get_palett_cache_me_in_place :
  inline_palettes canvas_16bit !! 64
  = Some {| num_ents := 1; ents := [0x7fff] |}
  /\ match canvas_get_palett recording_cache recording_put recording_get
                             canvas_16bit 64 cache_me_flag with
     | Done (p, st) =>
         p = PaletteInline 64
         /\ inline_palettes st !! 64
            = Some {| num_ents := 1; ents := [0xffffff] |}
         /\ inline_palettes st !! 64 <> inline_palettes canvas_16bit !! 64
         /\ palette_cache_opaque st
            = [(64, {| num_ents := 1; ents := [0xffffff] |})]
     | _ => False
     end.
Proof.
  split; [reflexivity|]. vm_compute.
  repeat split; first [reflexivity | discriminate].
Qed.

End PaletteExamples.

(** ** Chunk traversal of a Quic image *)

Module QuicFacts.
Import Quic.

Section Chunks.

Variable chunks : gmap Z DataChunk.

(** After the last chunk [more_space] supplies nothing and changes nothing,
    however often it is called. *)
Lemma quic_usr_more_space_at_end (delta io_ptr rows_completed : Z) :
  quic_usr_more_space chunks {| next := 0; address_delta := delta |}
                      io_ptr rows_completed
  = Done (0, io_ptr, {| next := 0; address_delta := delta |}).
Proof. reflexivity. Qed.

(** A reader that has used up its buffer after the last chunk fails. *)
Lemma read_io_word_at_end (st : io_state) :
  io_words st <= io_index st ->
  next (io_quic_data st) = 0 ->
  read_io_word chunks st = Abort "quic error, no more words".
Proof.
  intros Hused Hnext. unfold read_io_word.
  destruct (io_index st <? io_words st) eqn:E; [apply Z.ltb_lt in E; lia|].
  unfold quic_usr_more_space. rewrite Hnext. reflexivity.
Qed.

(** C7. The chunk list [C0 (size 8, next C1), C1 (size 4, next null)], for
    a protocol address of [C1] and an address delta of the type [ADDRESS]:
    the decode begins on the two words of [C0]; the first [more_space] call
    supplies the one word of [C1], found at the address of [C1] moved by the
    address delta (a sum of two [ADDRESS] values, which wraps around at
    [2^64]), and leaves no next chunk; every later call supplies zero
    words.  A decode that consumes three words reads the eight bytes of [C0]
    followed by the four bytes of [C1], each once, and a decode that needs
    more ends in the error of the canvas instead of returning. *)
Theorem chunk_traversal (delta first a1 : Z) (c0 c1 : DataChunk) :
  chunks !! first = Some c0 ->
  chunk_size c0 = 8 -> chunk_next c0 = a1 ->
  0 < a1 < 2 ^ 64 -> 0 <= delta < 2 ^ 64 ->
  length (chunk_data c0) = 8%nat ->
  chunks !! GET_ADDRESS (u64 (a1 + delta)) = Some c1 ->
  chunk_size c1 = 4 -> chunk_next c1 = 0 ->
  length (chunk_data c1) = 4%nat ->
  canvas_get_quic_begin chunks delta first
  = Done (first, 2, {| next := a1; address_delta := delta |})
  /\ (forall io_ptr rows_completed,
        quic_usr_more_space chunks {| next := a1; address_delta := delta |}
                            io_ptr rows_completed
        = Done (1, GET_ADDRESS (u64 (a1 + delta)),
                {| next := 0; address_delta := delta |}))
  /\ (forall io_ptr rows_completed,
        quic_usr_more_space chunks {| next := 0; address_delta := delta |}
                            io_ptr rows_completed
        = Done (0, io_ptr, {| next := 0; address_delta := delta |}))
  /\ (forall n, (n <= 3)%nat ->
        decode_words chunks delta first n
        = Done (take n (words_of_bytes (chunk_data c0 ++ chunk_data c1))))
  /\ (forall n, (3 < n)%nat ->
        decode_words chunks delta first n = Abort "quic error, no more words").
Proof.
  intros H0 Hsize0 Hnext0 Hrange _ Hlen0 H1 Hsize1 Hnext1 Hlen1.
  assert (Ha1 : a1 <> 0) by lia. clear Hrange.
  destruct c0 as [size0 prev0 next0 data0], c1 as [size1 prev1 next1 data1].
  cbn [chunk_size chunk_next chunk_data] in *. subst size0 next0 size1 next1.
  destruct data0 as [|b0 [|b1 [|b2 [|b3 [|b4 [|b5 [|b6 [|b7 [|]]]]]]]]];
    try discriminate Hlen0.
  destruct data1 as [|e0 [|e1 [|e2 [|e3 [|]]]]]; try discriminate Hlen1.
  clear Hlen0 Hlen1.
  assert (Hbegin : canvas_get_quic_begin chunks delta first
                   = Done (first, 2, {| next := a1; address_delta := delta |})).
  { unfold canvas_get_quic_begin. rewrite H0. reflexivity. }
  assert (Hmore : forall io_ptr rows_completed,
            quic_usr_more_space chunks {| next := a1; address_delta := delta |}
                                io_ptr rows_completed
            = Done (1, GET_ADDRESS (u64 (a1 + delta)),
                    {| next := 0; address_delta := delta |})).
  { intros io_ptr rows. unfold quic_usr_more_space. cbn [next address_delta].
    apply Z.eqb_neq in Ha1. rewrite Ha1, H1. reflexivity. }
  (* the three reads *)
  set (st0 := {| io_now := first; io_index := 0; io_words := 2;
                 io_quic_data := {| next := a1; address_delta := delta |} |}).
  set (st1 := {| io_now := first; io_index := 1; io_words := 2;
                 io_quic_data := {| next := a1; address_delta := delta |} |}).
  set (st2 := {| io_now := first; io_index := 2; io_words := 2;
                 io_quic_data := {| next := a1; address_delta := delta |} |}).
  set (st3 := {| io_now := GET_ADDRESS (u64 (a1 + delta)); io_index := 1; io_words := 1;
                 io_quic_data := {| next := 0; address_delta := delta |} |}).
  set (w0 := u8 b0 + 2 ^ 8 * u8 b1 + 2 ^ 16 * u8 b2 + 2 ^ 24 * u8 b3).
  set (w1 := u8 b4 + 2 ^ 8 * u8 b5 + 2 ^ 16 * u8 b6 + 2 ^ 24 * u8 b7).
  set (w2 := u8 e0 + 2 ^ 8 * u8 e1 + 2 ^ 16 * u8 e2 + 2 ^ 24 * u8 e3).
  assert (R0 : read_io_word chunks st0 = Done (w0, st1)).
  { unfold st0, st1, read_io_word, io_word. cbn [io_index io_words io_now].
    change (0 <? 2) with true. cbv iota. rewrite H0. reflexivity. }
  assert (R1 : read_io_word chunks st1 = Done (w1, st2)).
  { unfold st1, st2, read_io_word, io_word. cbn [io_index io_words io_now].
    change (1 <? 2) with true. cbv iota. rewrite H0. reflexivity. }
  assert (R2 : read_io_word chunks st2 = Done (w2, st3)).
  { unfold st2, st3, read_io_word.
    cbn [io_index io_words io_now io_quic_data].
    change (2 <? 2) with false. cbv iota. rewrite Hmore.
    cbn [mbind outcome_bind]. change (1 <=? 0) with false. cbv iota.
    unfold io_word. rewrite H1. reflexivity. }
  assert (R3 : read_io_word chunks st3 = Abort "quic error, no more words").
  { apply read_io_word_at_end; unfold st3; cbn; [lia | reflexivity]. }
  split; [exact Hbegin|]. split; [exact Hmore|].
  split; [intros; apply quic_usr_more_space_at_end|].
  split.
  - intros n Hn. unfold decode_words. rewrite Hbegin.
    cbn [mbind outcome_bind]. fold st0.
    change (words_of_bytes
              ([b0; b1; b2; b3; b4; b5; b6; b7] ++ [e0; e1; e2; e3]))
      with [w0; w1; w2].
    destruct n as [|[|[|[|n]]]]; [| | | |lia];
      cbn [read_io_words mbind outcome_bind];
      rewrite ?R0; cbn [mbind outcome_bind];
      rewrite ?R1; cbn [mbind outcome_bind];
      rewrite ?R2; cbn [mbind outcome_bind]; reflexivity.
  - intros n Hn. unfold decode_words. rewrite Hbegin.
    cbn [mbind outcome_bind]. fold st0.
    destruct n as [|[|[|[|n]]]]; [lia|lia|lia|lia|].
    cbn [read_io_words mbind outcome_bind].
    rewrite R0. cbn [mbind outcome_bind].
    rewrite R1. cbn [mbind outcome_bind].
    rewrite R2. cbn [mbind outcome_bind].
    rewrite R3. reflexivity.
Qed.

End Chunks.

End QuicFacts.

Module QuicExamples.
Import Quic Inputs.

Lemma chunk_traversal_witness :
  canvas_get_quic_begin chunk_space 100 1000
  = Done (1000, 2, {| next := 2000; address_delta := 100 |})
  /\ (forall io_ptr rows_completed,
        quic_usr_more_space chunk_space {| next := 2000; address_delta := 100 |}
                            io_ptr rows_completed
        = Done (1, GET_ADDRESS (u64 (2000 + 100)),
                {| next := 0; address_delta := 100 |}))
  /\ (forall io_ptr rows_completed,
        quic_usr_more_space chunk_space {| next := 0; address_delta := 100 |}
                            io_ptr rows_completed
        = Done (0, io_ptr, {| next := 0; address_delta := 100 |}))
  /\ (forall n, (n <= 3)%nat ->
        decode_words chunk_space 100 1000 n
        = Done (take n (words_of_bytes (chunk_data chunk0 ++ chunk_data chunk1))))
  /\ (forall n, (3 < n)%nat ->
        decode_words chunk_space 100 1000 n = Abort "quic error, no more words").
Proof.
  apply (QuicFacts.chunk_traversal chunk_space 100 1000 2000 chunk0 chunk1);
    first [reflexivity | lia | vm_compute; congruence].
Defined.

(** The twelve bytes come out as three words, in order; a fourth word is
    the error. *)
Example decode_three_words :
  decode_words chunk_space 100 1000 3
  = Done [0x04030201; 0x08070605; 0x0c0b0a09].
Proof. vm_compute. reflexivity. Qed.

Example decode_four_words :
  decode_words chunk_space 100 1000 4 = Abort "quic error, no more words".
Proof. vm_compute. reflexivity. Qed.

(** A session whose delta takes the protocol address of the second chunk
    around [2^64]: the chunk is found at the local address 2100. *)
Example decode_wrapped_address :
  quic_usr_more_space far_chunk_space
    {| next := 2 ^ 64 - 50; address_delta := 2150 |} 1000 0
  = Done (1, 2100, {| next := 0; address_delta := 2150 |})
  /\ decode_words far_chunk_space 2150 1000 3
     = Done [0x04030201; 0x08070605; 0x0c0b0a09].
Proof. split; vm_compute; reflexivity. Qed.

End QuicExamples.

(** ** Masks and the bits cache *)

Module MaskFacts.
Import Canvas.

Lemma new_surface_fresh (s : cairo_surface_t) (h : gmap loc surface_object) :
  h !! (new_surface s h).1 = None.
Proof. apply not_elem_of_dom_1. cbn. apply is_fresh. Qed.

Lemma fresh_not_allocated (h : gmap loc surface_object) (l : loc)
    (o : surface_object) :
  h !! l = Some o -> fresh (dom h) <> l.
Proof.
  intros H E. pose proof (is_fresh (dom h)) as Hf. rewrite E in Hf.
  apply Hf. apply (elem_of_dom_2 _ _ _ H).
Qed.

Lemma compute_inverse_done
    (create : cairo_format_t -> Z -> Z -> cairo_surface_t) (fuel : nat)
    (s inv : cairo_surface_t) :
  Mask.compute_inverse create fuel s = Done inv ->
  (if decide (cairo_image_surface_get_format s = CAIRO_FORMAT_A1)
   then Mask.canvas_A1_invers create fuel s
   else Mask.canvas_surf_to_invers create fuel s) = Done inv
  /\ cairo_surface_status inv = CAIRO_STATUS_SUCCESS.
Proof.
  unfold Mask.compute_inverse.
  destruct (if decide (cairo_image_surface_get_format s = CAIRO_FORMAT_A1)
            then Mask.canvas_A1_invers create fuel s
            else Mask.canvas_surf_to_invers create fuel s) as [i| | |];
    cbn [mbind outcome_bind]; try discriminate.
  destruct (decide (cairo_surface_status i <> CAIRO_STATUS_SUCCESS)) as [|Hok];
    [discriminate|].
  intros [= <-]. split; [reflexivity|].
  destruct (cairo_surface_status i); [reflexivity | exfalso; apply Hok; discriminate].
Qed.

Section GetMask.

Variable GL_CANVAS GDI_CANVAS : bool.
Variable CAIRO_CANVAS_IMAGE_CACHE CAIRO_CANVAS_CACH_IS_SHARED : bool.
Variable surface_create : cairo_format_t -> Z -> Z -> bool -> cairo_surface_t.
Variable cairo_image_surface_create : cairo_format_t -> Z -> Z -> cairo_surface_t.
Variable wire : mem.
Variable images : gmap Z BitmapImage.

(** The first request for the inverse of a surface: the inverse is a new
    object, attached to the surface, with one reference for the attachment
    and one for the caller. *)
Lemma canvas_handle_inverse_user_data_first (fuel : nat) (surface : loc)
    (h : gmap loc surface_object) (o : surface_object) (inv : cairo_surface_t) :
  h !! surface = Some o ->
  object_inverse o = None ->
  Mask.compute_inverse cairo_image_surface_create fuel (object_surface o)
    = Done inv ->
  let inv_surf := fresh (dom h) in
  canvas_handle_inverse_user_data CAIRO_CANVAS_CACH_IS_SHARED
    cairo_image_surface_create fuel surface h
  = Done (inv_surf,
          <[inv_surf := {| object_surface := inv; object_refs := 2;
                           object_inverse := None |}]>
            (<[surface := set_inverse o (Some inv_surf)]> h)).
Proof.
  intros Hs Hnone Hinv inv_surf.
  apply compute_inverse_done in Hinv as [Hinv Hstatus].
  pose proof (fresh_not_allocated h surface o Hs) as Hne. fold inv_surf in Hne.
  unfold canvas_handle_inverse_user_data, cairo_surface_get_user_data.
  rewrite Hs. cbn [mbind option_bind]. rewrite Hnone, Hinv.
  cbn [mbind outcome_bind]. unfold new_surface. fold inv_surf.
  destruct (decide (cairo_surface_status inv <> CAIRO_STATUS_SUCCESS));
    [congruence|].
  rewrite lookup_insert_ne by exact Hne. rewrite Hs.
  cbn [mbind option_bind]. rewrite Hnone.
  rewrite bool_decide_eq_false_2 by (intros [? ?]; discriminate).
  rewrite andb_false_r.
  unfold cairo_surface_set_user_data.
  destruct (decide (CAIRO_STATUS_SUCCESS = CAIRO_STATUS_SUCCESS)); [|congruence].
  do 2 f_equal. unfold cairo_surface_reference.
  apply map_eq. intros l.
  destruct (decide (l = inv_surf)) as [->|Hl].
  - rewrite lookup_alter_eq, lookup_alter_ne by congruence.
    rewrite !lookup_insert_eq. reflexivity.
  - rewrite lookup_alter_ne by congruence.
    rewrite (lookup_insert_ne _ inv_surf l) by congruence.
    destruct (decide (l = surface)) as [->|Hl'].
    + rewrite lookup_alter_eq, lookup_insert_ne by congruence.
      rewrite Hs, lookup_insert_eq. reflexivity.
    + rewrite lookup_alter_ne, !lookup_insert_ne by congruence. reflexivity.
Qed.

(** C10. A mask request whose descriptor carries CacheMe and whose flags ask
    for inversion stores under the id of the descriptor the surface that the
    conversion gives with inversion switched off; the surface it returns is
    the inverse attached to that one.  A later lookup of the id in the bits
    cache gives the stored, uninverted surface, and so does a later mask
    request whose descriptor is FromCache with that id: without inversion it
    returns the stored surface, with inversion the inverse attached to it,
    and the stored raster stays uninverted. *)
Theorem canvas_get_mask_caches_plain_mask (fuel : nat) (mask : QMask)
    (st : canvas_state) (image : BitmapImage) (plain inv : cairo_surface_t) :
  mask_bitmap mask <> 0 ->
  images !! GET_ADDRESS (mask_bitmap mask) = Some image ->
  descriptor_type (descriptor image) = IMAGE_TYPE_BITMAP ->
  IMAGE_CACHE_ME (descriptor image) = true ->
  MASK_INVERS mask = true ->
  Mask.canvas_get_bitmap_mask GL_CANVAS GDI_CANVAS surface_create wire fuel
    (bitmap image) false = Done plain ->
  Mask.compute_inverse cairo_image_surface_create fuel plain = Done inv ->
  let surface := fresh (dom (surfaces st)) in
  exists inv_surf st',
    canvas_get_mask GL_CANVAS GDI_CANVAS true CAIRO_CANVAS_IMAGE_CACHE
      CAIRO_CANVAS_CACH_IS_SHARED surface_create cairo_image_surface_create
      wire images fuel mask st
    = Done (Some inv_surf, st')
    /\ bits_cache st' !! descriptor_id (descriptor image) = Some surface
    /\ surfaces st' !! surface
       = Some {| object_surface := plain; object_refs := 1;
                 object_inverse := Some inv_surf |}
    /\ inv_surf <> surface
    /\ surfaces st' !! inv_surf
       = Some {| object_surface := inv; object_refs := 2;
                 object_inverse := None |}
    /\ (exists st'',
          bits_cache_get (descriptor_id (descriptor image)) st'
          = Done (surface, st'')
          /\ object_surface <$> surfaces st'' !! surface = Some plain)
    /\ forall (later : QMask) (cached : BitmapImage),
         mask_bitmap later <> 0 ->
         images !! GET_ADDRESS (mask_bitmap later) = Some cached ->
         descriptor_type (descriptor cached) = IMAGE_TYPE_FROM_CACHE ->
         descriptor_id (descriptor cached) = descriptor_id (descriptor image) ->
         IMAGE_CACHE_ME (descriptor cached) = false ->
         exists st'',
           canvas_get_mask GL_CANVAS GDI_CANVAS true CAIRO_CANVAS_IMAGE_CACHE
             CAIRO_CANVAS_CACH_IS_SHARED surface_create
             cairo_image_surface_create wire images fuel later st'
           = Done (Some (if MASK_INVERS later then inv_surf else surface), st'')
           /\ object_surface <$> surfaces st'' !! surface = Some plain
           /\ object_surface <$> surfaces st'' !! inv_surf = Some inv.
Proof.
  intros Hmask Himage Htype Hme Hinvers Hplain Hinv surface.
  set (o1 := {| object_surface := plain; object_refs := 1;
                object_inverse := None |}).
  set (o2 := {| object_surface := plain; object_refs := 2;
                object_inverse := None |}).
  set (h1 := <[surface := o2]> (surfaces st)).
  assert (Hfresh : surfaces st !! surface = None)
    by (apply not_elem_of_dom_1, is_fresh).
  assert (Hh1 : cairo_surface_reference surface (<[surface := o1]> (surfaces st))
                = h1).
  { unfold cairo_surface_reference, h1. apply map_eq. intros l.
    destruct (decide (l = surface)) as [->|Hl].
    - rewrite lookup_alter_eq, !lookup_insert_eq. reflexivity.
    - rewrite lookup_alter_ne, !lookup_insert_ne by congruence. reflexivity. }
  assert (Hs1 : h1 !! surface = Some o2) by apply lookup_insert_eq.
  pose proof (canvas_handle_inverse_user_data_first fuel surface h1 o2 inv
                Hs1 eq_refl Hinv) as Hhandle.
  cbv zeta in Hhandle.
  set (inv_surf := fresh (dom h1)) in *.
  pose proof (fresh_not_allocated h1 surface o2 Hs1) as Hne. fold inv_surf in Hne.
  set (h2 := <[inv_surf := {| object_surface := inv; object_refs := 2;
                              object_inverse := None |}]>
               (<[surface := set_inverse o2 (Some inv_surf)]> h1)) in *.
  set (o3 := {| object_surface := plain; object_refs := 1;
                object_inverse := Some inv_surf |}).
  assert (Hs2 : h2 !! surface = Some (set_inverse o2 (Some inv_surf))).
  { unfold h2. rewrite lookup_insert_ne by exact Hne. apply lookup_insert_eq. }
  assert (Hdestroy : cairo_surface_destroy surface h2 = <[surface := o3]> h2).
  { unfold cairo_surface_destroy. cbn [cairo_surface_destroy_rec].
    rewrite Hs2. reflexivity. }
  set (st' := {| surfaces := <[surface := o3]> h2;
                 bits_cache := <[descriptor_id (descriptor image) := surface]>
                                 (bits_cache st) |}).
  exists inv_surf, st'.
  assert (Hl3 : surfaces st' !! surface = Some o3) by apply lookup_insert_eq.
  assert (Hl4 : surfaces st' !! inv_surf
                = Some {| object_surface := inv; object_refs := 2;
                          object_inverse := None |}).
  { cbn [surfaces st']. rewrite lookup_insert_ne by congruence.
    unfold h2. apply lookup_insert_eq. }
  assert (Hcached : bits_cache st' !! descriptor_id (descriptor image)
                    = Some surface) by apply lookup_insert_eq.
  split; [|split; [|split; [|split; [|split; [|split]]]]].
  - unfold canvas_get_mask.
    apply Z.eqb_neq in Hmask. rewrite Hmask, Himage, Htype, Hme, Hinvers.
    cbn [andb negb orb]. rewrite Hplain. cbn [mbind outcome_bind].
    unfold new_surface. fold surface. fold o1.
    cbn [mbind outcome_bind surfaces bits_cache].
    unfold bits_cache_put. cbn [surfaces bits_cache].
    rewrite Hh1, Hhandle. cbn [mbind outcome_bind].
    rewrite Hdestroy. reflexivity.
  - exact Hcached.
  - exact Hl3.
  - congruence.
  - exact Hl4.
  - unfold bits_cache_get. rewrite Hcached.
    eexists. split; [reflexivity|]. cbn [surfaces].
    unfold cairo_surface_reference. rewrite lookup_alter_eq, Hl3. reflexivity.
  - intros later cached Hlater Hin Hfrom Hid Hnot.
    set (hg := cairo_surface_reference surface (surfaces st')).
    assert (Hg : hg !! surface = Some (set_refs o3 2)).
    { unfold hg, cairo_surface_reference. rewrite lookup_alter_eq, Hl3.
      reflexivity. }
    assert (Hgi : hg !! inv_surf
                  = Some {| object_surface := inv; object_refs := 2;
                            object_inverse := None |}).
    { unfold hg, cairo_surface_reference.
      rewrite lookup_alter_ne by congruence. exact Hl4. }
    unfold canvas_get_mask.
    apply Z.eqb_neq in Hlater. rewrite Hlater, Hin, Hfrom, Hid, Hnot.
    cbn [orb]. unfold bits_cache_get. rewrite Hcached.
    cbn [mbind outcome_bind surfaces bits_cache]. fold hg.
    destruct (MASK_INVERS later); cbn [andb negb].
    + unfold canvas_handle_inverse_user_data, cairo_surface_get_user_data.
      rewrite Hg. cbn [mbind option_bind set_refs object_inverse o3].
      cbn [mbind outcome_bind].
      set (hr := cairo_surface_reference inv_surf hg).
      assert (Hr : hr !! surface = Some (set_refs o3 2)).
      { unfold hr, cairo_surface_reference.
        rewrite lookup_alter_ne by congruence. exact Hg. }
      assert (Hri : hr !! inv_surf
                    = Some {| object_surface := inv; object_refs := 3;
                              object_inverse := None |}).
      { unfold hr, cairo_surface_reference. rewrite lookup_alter_eq, Hgi.
        reflexivity. }
      assert (Hd : cairo_surface_destroy surface hr
                   = <[surface := set_refs (set_refs o3 2) 1]> hr).
      { unfold cairo_surface_destroy. cbn [cairo_surface_destroy_rec].
        rewrite Hr. reflexivity. }
      rewrite Hd. eexists. split; [reflexivity|]. cbn [surfaces]. split.
      * rewrite lookup_insert_eq. reflexivity.
      * rewrite lookup_insert_ne by congruence. rewrite Hri. reflexivity.
    + eexists. split; [reflexivity|]. cbn [surfaces]. split.
      * rewrite Hg. reflexivity.
      * rewrite Hgi. reflexivity.
Qed.

End GetMask.

End MaskFacts.

Module MaskExamples.
Import Canvas Inputs.

Lemma canvas_get_mask_caches_plain_mask_witness :
  exists inv_surf st',
    canvas_get_mask false false true true true Mask.image_surface_create
      Mask.image_surface wire_mask mask_images 2 inverted_mask empty_canvas
    = Done (Some inv_surf, st')
    /\ bits_cache st' !! descriptor_id (descriptor mask_image)
       = Some (fresh (dom (surfaces empty_canvas)))
    /\ surfaces st' !! fresh (dom (surfaces empty_canvas))
       = Some {| object_surface := plain_mask; object_refs := 1;
                 object_inverse := Some inv_surf |}
    /\ inv_surf <> fresh (dom (surfaces empty_canvas))
    /\ surfaces st' !! inv_surf
       = Some {| object_surface := plain_mask_inverse; object_refs := 2;
                 object_inverse := None |}
    /\ (exists st'',
          bits_cache_get (descriptor_id (descriptor mask_image)) st'
          = Done (fresh (dom (surfaces empty_canvas)), st'')
          /\ object_surface <$> surfaces st'' !! fresh (dom (surfaces empty_canvas))
             = Some plain_mask)
    /\ forall (later : QMask) (cached : BitmapImage),
         mask_bitmap later <> 0 ->
         mask_images !! GET_ADDRESS (mask_bitmap later) = Some cached ->
         descriptor_type (descriptor cached) = IMAGE_TYPE_FROM_CACHE ->
         descriptor_id (descriptor cached) = descriptor_id (descriptor mask_image) ->
         IMAGE_CACHE_ME (descriptor cached) = false ->
         exists st'',
           canvas_get_mask false false true true true Mask.image_surface_create
             Mask.image_surface wire_mask mask_images 2 later st'
           = Done (Some (if MASK_INVERS later then inv_surf
                         else fresh (dom (surfaces empty_canvas))), st'')
           /\ object_surface <$> surfaces st'' !! fresh (dom (surfaces empty_canvas))
              = Some plain_mask
           /\ object_surface <$> surfaces st'' !! inv_surf
              = Some plain_mask_inverse.
Proof.
  apply (MaskFacts.canvas_get_mask_caches_plain_mask false false true true
           Mask.image_surface_create Mask.image_surface wire_mask mask_images
           2%nat inverted_mask empty_canvas mask_image plain_mask
           plain_mask_inverse);
    first [reflexivity | vm_compute; congruence].
Defined.

(** On the request of the examples the cache holds the byte [0x05] as it was
    sent, and the caller is handed its complement [0xFA]. *)
Example cached_mask_is_not_inverted :
  match canvas_get_mask false false true true true Mask.image_surface_create
          Mask.image_surface wire_mask mask_images 2 inverted_mask empty_canvas
  with
  | Done (Some inv_surf, st') =>
      (l ← bits_cache st' !! 7; first_byte (surfaces st') l) = Some 0x05
      /\ first_byte (surfaces st') inv_surf = Some 0xFA
  | _ => False
  end.
Proof. vm_compute. split; reflexivity. Qed.

(** A later request for the cached image, without inversion, is handed the
    byte [0x05]. *)
Example cached_mask_from_cache :
  match canvas_get_mask false false true true true Mask.image_surface_create
          Mask.image_surface wire_mask mask_images 2 inverted_mask empty_canvas
  with
  | Done (_, st') =>
      match canvas_get_mask false false true true true
              Mask.image_surface_create Mask.image_surface wire_mask
              mask_images 2 cached_mask st'
      with
      | Done (Some surface, st'') => first_byte (surfaces st'') surface = Some 0x05
      | _ => False
      end
  | _ => False
  end.
Proof. vm_compute. reflexivity. Qed.

End MaskExamples.

(** ** Concurrent requests for the inverse of a surface *)

Module SharedFacts.
Import Canvas Shared SharedVocabulary.

(** *** The heap operations of a run *)

Lemma get_user_data_reference (s l : loc) (h : gmap loc surface_object) :
  cairo_surface_get_user_data s (cairo_surface_reference l h)
  = cairo_surface_get_user_data s h.
Proof.
  unfold cairo_surface_get_user_data, cairo_surface_reference.
  destruct (decide (l = s)) as [->|Hne].
  - rewrite lookup_alter_eq. destruct (h !! s); reflexivity.
  - rewrite lookup_alter_ne by exact Hne. reflexivity.
Qed.

Lemma surface_at_reference (l l' : loc) (h : gmap loc surface_object) :
  surface_at (cairo_surface_reference l h) l' = surface_at h l'.
Proof.
  unfold surface_at, cairo_surface_reference.
  destruct (decide (l = l')) as [->|Hne].
  - rewrite lookup_alter_eq. destruct (h !! l'); reflexivity.
  - rewrite lookup_alter_ne by exact Hne. reflexivity.
Qed.

Lemma surface_at_set_user_data (s inv l : loc) (h : gmap loc surface_object) :
  surface_at (cairo_surface_set_user_data s inv h).2 l = surface_at h l.
Proof.
  unfold surface_at, cairo_surface_set_user_data. cbn [snd].
  destruct (decide (s = l)) as [->|Hne].
  - rewrite lookup_alter_eq. destruct (h !! l); reflexivity.
  - rewrite lookup_alter_ne by exact Hne. reflexivity.
Qed.

Lemma get_user_data_set_user_data (s inv : loc) (h : gmap loc surface_object)
    (x : cairo_surface_t) :
  surface_at h s = Some x ->
  cairo_surface_get_user_data s (cairo_surface_set_user_data s inv h).2 = Some inv.
Proof.
  unfold surface_at, cairo_surface_get_user_data, cairo_surface_set_user_data.
  cbn [snd]. rewrite lookup_alter_eq.
  destruct (h !! s); [reflexivity | discriminate].
Qed.

Section Attach.

Variable surface : loc.

Lemma attach_attached (inv_surf w : loc) (h : gmap loc surface_object) :
  cairo_surface_get_user_data surface h = Some w ->
  attach surface inv_surf h = h.
Proof. intros H. unfold attach. rewrite H. reflexivity. Qed.

Lemma attach_none (inv_surf : loc) (h : gmap loc surface_object)
    (x : cairo_surface_t) :
  cairo_surface_get_user_data surface h = None ->
  surface_at h surface = Some x ->
  cairo_surface_get_user_data surface (attach surface inv_surf h) = Some inv_surf.
Proof.
  intros Hnone Hs. unfold attach. rewrite Hnone.
  pose proof (get_user_data_set_user_data surface inv_surf h x Hs) as H.
  destruct (cairo_surface_set_user_data surface inv_surf h) as [status h'] eqn:E.
  cbn [snd] in H.
  assert (status = CAIRO_STATUS_SUCCESS) as -> by (injection E; congruence).
  destruct (decide (CAIRO_STATUS_SUCCESS = CAIRO_STATUS_SUCCESS)); [|congruence].
  rewrite get_user_data_reference. exact H.
Qed.

Lemma surface_at_attach (inv_surf l : loc) (h : gmap loc surface_object) :
  surface_at (attach surface inv_surf h) l = surface_at h l.
Proof.
  unfold attach.
  destruct (cairo_surface_get_user_data surface h); [reflexivity|].
  pose proof (surface_at_set_user_data surface inv_surf l h) as H.
  destruct (cairo_surface_set_user_data surface inv_surf h) as [status h'].
  cbn [snd] in H.
  destruct (decide (status = CAIRO_STATUS_SUCCESS)); [|exact H].
  rewrite surface_at_reference. exact H.
Qed.

End Attach.

Lemma surface_at_new_surface (inv : cairo_surface_t)
    (h : gmap loc surface_object) (l : loc) :
  surface_at (new_surface inv h).2 l
  = if decide (l = (new_surface inv h).1) then Some inv else surface_at h l.
Proof.
  unfold surface_at, new_surface. cbn [fst snd].
  destruct (decide (l = fresh (dom h))) as [->|Hne].
  - rewrite lookup_insert_eq. reflexivity.
  - rewrite lookup_insert_ne by congruence. reflexivity.
Qed.

Lemma new_surface_not_allocated (inv x : cairo_surface_t)
    (h : gmap loc surface_object) (l : loc) :
  surface_at h l = Some x -> l <> (new_surface inv h).1.
Proof.
  unfold surface_at. intros H E.
  pose proof (MaskFacts.new_surface_fresh inv h) as Hf.
  rewrite <- E in Hf. rewrite Hf in H. discriminate.
Qed.

Lemma get_user_data_new_surface (s : loc) (inv x : cairo_surface_t)
    (h : gmap loc surface_object) :
  surface_at h s = Some x ->
  cairo_surface_get_user_data s (new_surface inv h).2
  = cairo_surface_get_user_data s h.
Proof.
  intros H. pose proof (new_surface_not_allocated inv x h s H) as Hne.
  unfold cairo_surface_get_user_data, new_surface in *. cbn [fst snd] in *.
  rewrite lookup_insert_ne by congruence. reflexivity.
Qed.

(** An attached inverse is a surface of the heap. *)
Lemma get_user_data_allocated (s w : loc) (h : gmap loc surface_object) :
  cairo_surface_get_user_data s h = Some w -> is_Some (surface_at h s).
Proof.
  unfold cairo_surface_get_user_data, surface_at.
  destruct (h !! s); [eauto | discriminate].
Qed.

(** *** The threads of a run *)

Lemma thread_after (i j : nat) (t t' : thread_state) (c : config)
    (h : gmap loc surface_object) :
  threads (set_thread i t' c h) !! j = Some t ->
  (j = i /\ t = t') \/ (j <> i /\ threads c !! j = Some t).
Proof.
  unfold set_thread. cbn [threads]. intros H.
  apply list_lookup_insert_Some in H as [(-> & -> & _)|(Hne & H)].
  - left. split; reflexivity.
  - right. split; [congruence | exact H].
Qed.

Lemma thread_kept (i j : nat) (t t' : thread_state) (c : config)
    (h : gmap loc surface_object) :
  j <> i -> threads c !! j = Some t ->
  threads (set_thread i t' c h) !! j = Some t.
Proof.
  intros Hne H. unfold set_thread. cbn [threads].
  rewrite list_lookup_insert_ne by congruence. exact H.
Qed.

Lemma thread_set (i : nat) (t t' : thread_state) (c : config)
    (h : gmap loc surface_object) :
  threads c !! i = Some t ->
  threads (set_thread i t' c h) !! i = Some t'.
Proof.
  intros H. unfold set_thread. cbn [threads].
  apply list_lookup_insert_eq. apply lookup_lt_Some in H. exact H.
Qed.

(** *** The steps left *)

Lemma pending_cons (a : thread_state) (l : list thread_state) :
  pending (a :: l) = (remaining a + pending l)%nat.
Proof. reflexivity. Qed.

Lemma pending_insert (l : list thread_state) (i : nat) (t t' : thread_state) :
  l !! i = Some t -> (remaining t' < remaining t)%nat ->
  (pending (<[i := t']> l) < pending l)%nat.
Proof.
  revert i. induction l as [|a l IH]; intros [|i] H Hlt; try discriminate H.
  - injection H as ->.
    change (<[0%nat := t']> (t :: l)) with (t' :: l).
    rewrite !pending_cons. lia.
  - change ((a :: l) !! S i) with (l !! i) in H.
    change (<[S i := t']> (a :: l)) with (a :: <[i := t']> l).
    rewrite !pending_cons. specialize (IH i H Hlt). lia.
Qed.

Lemma pending_zero (l : list thread_state) (i : nat) (t : thread_state) :
  pending l = 0%nat -> l !! i = Some t -> exists inv_surf, t = Returned inv_surf.
Proof.
  revert i. induction l as [|a l IH]; intros [|i] H Hi; try discriminate Hi;
    rewrite pending_cons in H.
  - injection Hi as ->. destruct t; cbn [remaining] in H; try lia. eauto.
  - change ((a :: l) !! S i) with (l !! i) in Hi.
    apply (IH i); [lia | exact Hi].
Qed.

Lemma pending_pos (l : list thread_state) :
  (0 < pending l)%nat ->
  exists i t, l !! i = Some t /\ (0 < remaining t)%nat.
Proof.
  induction l as [|a l IH]; intros H; [cbn in H; lia|].
  rewrite pending_cons in H.
  destruct (decide (remaining a = 0%nat)) as [E|E].
  - destruct IH as (i & t & Hi & Ht); [lia|].
    exists (S i), t. split; [exact Hi | exact Ht].
  - exists 0%nat, a. split; [reflexivity | lia].
Qed.

Section Run.

Variable cairo_image_surface_create : cairo_format_t -> Z -> Z -> cairo_surface_t.
Variable fuel : nat.
Variable surface : loc.
Variable s0 : cairo_surface_t.
Variable n : nat.

Lemma consistent_initial (h0 : gmap loc surface_object) (o0 : surface_object) :
  h0 !! surface = Some o0 ->
  object_surface o0 = s0 ->
  object_inverse o0 = None ->
  consistent cairo_image_surface_create fuel surface s0 n (initial h0 n).
Proof.
  intros Hs Hs0 Hnone.
  assert (Hall : forall i t, threads (initial h0 n) !! i = Some t -> t = AtEntry).
  { intros i t H. unfold initial in H. cbn [threads] in H.
    apply lookup_replicate in H as [-> _]. reflexivity. }
  assert (Hdata : cairo_surface_get_user_data surface (heap (initial h0 n)) = None).
  { unfold cairo_surface_get_user_data, initial. cbn [heap].
    rewrite Hs. exact Hnone. }
  split.
  - unfold initial. cbn [threads]. apply length_replicate.
  - unfold surface_at, initial. cbn [heap]. rewrite Hs, <- Hs0. reflexivity.
  - intros i t l H Hheld. rewrite (Hall i t H) in Hheld. discriminate.
  - intros w H. rewrite Hdata in H. discriminate.
  - intros i l H. apply Hall in H. discriminate.
  - intros i l H. apply Hall in H. discriminate.
  - intros i l H. apply Hall in H. discriminate.
Qed.

(** A step that changes the state of thread [i] and keeps the surfaces and
    the attachment keeps the invariant, when the new state is justified. *)
Lemma consistent_set_thread (c : config) (i : nat) (t t' : thread_state)
    (h : gmap loc surface_object) :
  consistent cairo_image_surface_create fuel surface s0 n c ->
  threads c !! i = Some t ->
  (forall l, surface_at h l = surface_at (heap c) l) ->
  cairo_surface_get_user_data surface h
    = cairo_surface_get_user_data surface (heap c) ->
  (forall l, held t' = Some l -> held t = Some l \/
             cairo_surface_get_user_data surface (heap c) = Some l) ->
  (forall l, t = Returned l -> t' = Returned l) ->
  (forall l, t' = Found l ->
             cairo_surface_get_user_data surface (heap c) = Some l) ->
  (forall l, t' = Computed l -> t = Computed l) ->
  (forall l, t' = Returned l ->
             t = Returned l
             \/ cairo_surface_get_user_data surface (heap c) = Some l
             \/ (t = Computed l
                 /\ is_Some (cairo_surface_get_user_data surface (heap c)))) ->
  consistent cairo_image_surface_create fuel surface s0 n (set_thread i t' c h).
Proof.
  intros [Hlen Hsurf Hheld Hatt Hfound Hcomp Hret] Hi Hsame Hdata
         Hnew Hkeep Hf Hc Hr.
  assert (Hheld' : forall l, held t' = Some l ->
            l <> surface
            /\ exists inv,
                 Mask.compute_inverse cairo_image_surface_create fuel s0 = Done inv
                 /\ surface_at (heap c) l = Some inv).
  { intros l Hl. destruct (Hnew l Hl) as [Hold|Hw].
    - exact (Hheld i t l Hi Hold).
    - destruct (Hatt l Hw) as (k & Hk). exact (Hheld k _ l Hk eq_refl). }
  (* a pointer private to another thread is not the one [i] now holds *)
  assert (Hpriv : forall j l, j <> i -> private surface c j l ->
            private surface (set_thread i t' c h) j l).
  { intros j l Hji [Hna Hothers]. split.
    - cbn [heap set_thread]. rewrite Hdata. exact Hna.
    - intros k tk Hkj Hk. apply thread_after in Hk as [(-> & ->)|(Hki & Hk)].
      + intros Hl. destruct (Hnew l Hl) as [Hold|Hw].
        * exact (Hothers i t Hkj Hi Hold).
        * exact (Hna Hw).
      + exact (Hothers k tk Hkj Hk). }
  split.
  - unfold set_thread. cbn [threads]. rewrite length_insert. exact Hlen.
  - cbn [heap set_thread]. rewrite Hsame. exact Hsurf.
  - intros j tj l Hj Hl. cbn [heap set_thread].
    rewrite Hsame.
    apply thread_after in Hj as [(-> & ->)|(Hne & Hj)].
    + exact (Hheld' l Hl).
    + exact (Hheld j tj l Hj Hl).
  - intros w Hw. cbn [heap set_thread] in Hw. rewrite Hdata in Hw.
    destruct (Hatt w Hw) as (k & Hk).
    destruct (decide (k = i)) as [->|Hki].
    + exists i. rewrite Hk in Hi. injection Hi as <-.
      rewrite (Hkeep w eq_refl). exact (thread_set i _ _ c h Hk).
    + exists k. exact (thread_kept i k _ t' c h Hki Hk).
  - intros j l Hj. cbn [heap set_thread]. rewrite Hdata.
    apply thread_after in Hj as [(-> & <-)|(Hne & Hj)].
    + exact (Hf l eq_refl).
    + exact (Hfound j l Hj).
  - intros j l Hj.
    apply thread_after in Hj as [(-> & <-)|(Hne & Hj)].
    + pose proof (Hc l eq_refl) as ->.
      destruct (Hcomp i l Hi) as [Hna Hothers]. split.
      * cbn [heap set_thread]. rewrite Hdata. exact Hna.
      * intros k tk Hki Hk. apply thread_after in Hk as [(-> & _)|(_ & Hk)];
          [congruence | exact (Hothers k tk Hki Hk)].
    + exact (Hpriv j l Hne (Hcomp j l Hj)).
  - intros j l Hj. cbn [heap set_thread]. rewrite Hdata.
    apply thread_after in Hj as [(-> & <-)|(Hne & Hj)].
    + destruct (Hr l eq_refl) as [->|[Hw|[-> Hsome]]].
      * destruct (Hret i l Hi) as [Hsome [Hw|[Hna Hothers]]].
        -- split; [exact Hsome | left; exact Hw].
        -- split; [exact Hsome | right]. split.
           ++ cbn [heap set_thread]. rewrite Hdata. exact Hna.
           ++ intros k tk Hki Hk.
              apply thread_after in Hk as [(-> & _)|(_ & Hk)];
                [congruence | exact (Hothers k tk Hki Hk)].
      * split; [rewrite Hw; eauto | left; exact Hw].
      * destruct (Hcomp i l Hi) as [Hna Hothers].
        split; [exact Hsome | right]. split.
        -- cbn [heap set_thread]. rewrite Hdata. exact Hna.
        -- intros k tk Hki Hk.
           apply thread_after in Hk as [(-> & _)|(_ & Hk)];
             [congruence | exact (Hothers k tk Hki Hk)].
    + destruct (Hret j l Hj) as [Hsome [Hw|Hp]].
      * split; [exact Hsome | left; exact Hw].
      * split; [exact Hsome | right; exact (Hpriv j l Hne Hp)].
Qed.

(** Computing an inverse: the new surface is unknown to every other thread
    and is not attached. *)
Lemma consistent_compute (c : config) (i : nat) (o : surface_object)
    (inv : cairo_surface_t) :
  consistent cairo_image_surface_create fuel surface s0 n c ->
  threads c !! i = Some NotFound ->
  heap c !! surface = Some o ->
  Mask.compute_inverse cairo_image_surface_create fuel (object_surface o)
    = Done inv ->
  consistent cairo_image_surface_create fuel surface s0 n
    (set_thread i (Computed (new_surface inv (heap c)).1) c
                (new_surface inv (heap c)).2).
Proof.
  intros [Hlen Hsurf Hheld Hatt Hfound Hcomp Hret] Hi Ho Hinv.
  set (l := (new_surface inv (heap c)).1).
  set (h' := (new_surface inv (heap c)).2).
  assert (Hs0 : object_surface o = s0).
  { unfold surface_at in Hsurf. rewrite Ho in Hsurf. injection Hsurf. auto. }
  rewrite Hs0 in Hinv.
  assert (Hdata : cairo_surface_get_user_data surface h'
                  = cairo_surface_get_user_data surface (heap c))
    by exact (get_user_data_new_surface surface inv s0 (heap c) Hsurf).
  assert (Hold : forall l' x, surface_at (heap c) l' = Some x ->
            l' <> l /\ surface_at h' l' = Some x).
  { intros l' x H.
    pose proof (new_surface_not_allocated inv x (heap c) l' H) as Hne.
    split; [exact Hne|]. unfold h'. rewrite surface_at_new_surface.
    destruct (decide (l' = (new_surface inv (heap c)).1)); [contradiction|exact H]. }
  assert (Hnew : surface_at h' l = Some inv).
  { unfold h', l. rewrite surface_at_new_surface.
    destruct (decide ((new_surface inv (heap c)).1 = (new_surface inv (heap c)).1));
      [reflexivity | contradiction]. }
  (* nobody holds the new surface, and it is not attached *)
  assert (Hunheld : forall j t, threads c !! j = Some t -> held t <> Some l).
  { intros j t Hj Hl. destruct (Hheld j t l Hj Hl) as (_ & x & _ & Hx).
    destruct (Hold l x Hx) as [Hne _]. congruence. }
  assert (Hunattached : cairo_surface_get_user_data surface (heap c) <> Some l).
  { intros Hw. destruct (Hatt l Hw) as (k & Hk).
    exact (Hunheld k _ Hk eq_refl). }
  assert (Hpriv : forall j l', j <> i -> private surface c j l' ->
            threads c !! j <> None ->
            (exists t, threads c !! j = Some t /\ held t = Some l') ->
            private surface (set_thread i (Computed l) c h') j l').
  { intros j l' Hji [Hna Hothers] _ (t & Hj & Hl'). split.
    - cbn [heap set_thread]. rewrite Hdata. exact Hna.
    - intros k tk Hkj Hk. apply thread_after in Hk as [(-> & ->)|(Hki & Hk)].
      + cbn [held]. intros [= E]. subst l'. exact (Hunheld j t Hj Hl').
      + exact (Hothers k tk Hkj Hk). }
  split.
  - unfold set_thread. cbn [threads]. rewrite length_insert. exact Hlen.
  - cbn [heap set_thread]. exact (proj2 (Hold surface s0 Hsurf)).
  - intros j tj l' Hj Hl'. cbn [heap set_thread].
    apply thread_after in Hj as [(-> & ->)|(Hne & Hj)].
    + cbn [held] in Hl'. injection Hl' as <-. split.
      * intros E. destruct (Hold surface s0 Hsurf) as [Hne _]. congruence.
      * exists inv. split; [exact Hinv | exact Hnew].
    + destruct (Hheld j tj l' Hj Hl') as (Hns & x & Hx & Hat).
      split; [exact Hns|]. exists x. split; [exact Hx|].
      exact (proj2 (Hold l' x Hat)).
  - intros w Hw. cbn [heap set_thread] in Hw. rewrite Hdata in Hw.
    destruct (Hatt w Hw) as (k & Hk).
    assert (k <> i) by (intros ->; congruence).
    exists k. exact (thread_kept i k _ _ c h' H Hk).
  - intros j l' Hj. cbn [heap set_thread]. rewrite Hdata.
    apply thread_after in Hj as [(-> & [=])|(Hne & Hj)].
    exact (Hfound j l' Hj).
  - intros j l' Hj.
    apply thread_after in Hj as [(-> & E)|(Hne & Hj)].
    + injection E as <-. split.
      * cbn [heap set_thread]. rewrite Hdata. exact Hunattached.
      * intros k tk Hki Hk. apply thread_after in Hk as [(-> & _)|(_ & Hk)];
          [congruence | exact (Hunheld k tk Hk)].
    + apply (Hpriv j l' Hne (Hcomp j l' Hj)); [congruence|].
      exists (Computed l'). split; [exact Hj | reflexivity].
  - intros j l' Hj. cbn [heap set_thread]. rewrite Hdata.
    apply thread_after in Hj as [(-> & [=])|(Hne & Hj)].
    destruct (Hret j l' Hj) as [Hsome [Hw|Hp]].
    + split; [exact Hsome | left; exact Hw].
    + split; [exact Hsome | right].
      apply (Hpriv j l' Hne Hp); [congruence|].
      exists (Returned l'). split; [exact Hj | reflexivity].
Qed.

(** Attaching the first inverse. *)
Lemma consistent_attach_first (c : config) (i : nat) (l : loc) :
  consistent cairo_image_surface_create fuel surface s0 n c ->
  threads c !! i = Some (Computed l) ->
  cairo_surface_get_user_data surface (heap c) = None ->
  consistent cairo_image_surface_create fuel surface s0 n
    (set_thread i (Returned l) c (attach surface l (heap c))).
Proof.
  intros [Hlen Hsurf Hheld Hatt Hfound Hcomp Hret] Hi Hnone.
  set (h' := attach surface l (heap c)).
  assert (Hdata : cairo_surface_get_user_data surface h' = Some l)
    by exact (attach_none surface l (heap c) s0 Hnone Hsurf).
  assert (Hsame : forall l', surface_at h' l' = surface_at (heap c) l')
    by (intros l'; apply surface_at_attach).
  destruct (Hcomp i l Hi) as [_ Hothers].
  split.
  - unfold set_thread. cbn [threads]. rewrite length_insert. exact Hlen.
  - cbn [heap set_thread]. rewrite Hsame. exact Hsurf.
  - intros j tj l' Hj Hl'. cbn [heap set_thread]. rewrite Hsame.
    apply thread_after in Hj as [(-> & ->)|(Hne & Hj)].
    + exact (Hheld i (Computed l) l' Hi Hl').
    + exact (Hheld j tj l' Hj Hl').
  - intros w Hw. cbn [heap set_thread] in Hw. fold h' in Hw.
    rewrite Hdata in Hw. injection Hw as <-.
    exists i. exact (thread_set i _ _ c h' Hi).
  - intros j l' Hj.
    apply thread_after in Hj as [(-> & [=])|(Hne & Hj)].
    pose proof (Hfound j l' Hj) as Hw. congruence.
  - intros j l' Hj.
    apply thread_after in Hj as [(-> & [=])|(Hne & Hj)].
    destruct (Hcomp j l' Hj) as [Hna Hothers']. split.
    + cbn [heap set_thread]. fold h'. rewrite Hdata. intros [= ->].
      exact (Hothers j (Computed l') Hne Hj eq_refl).
    + intros k tk Hkj Hk. apply thread_after in Hk as [(-> & ->)|(Hki & Hk)].
      * exact (Hothers' i (Computed l) Hkj Hi).
      * exact (Hothers' k tk Hkj Hk).
  - intros j l' Hj. cbn [heap set_thread]. fold h'. rewrite Hdata.
    apply thread_after in Hj as [(-> & E)|(Hne & Hj)].
    + injection E as <-. split; [eauto | left; reflexivity].
    + destruct (Hret j l' Hj) as [[w Hw] _]. congruence.
Qed.

(** Every step keeps the invariant. *)
Lemma consistent_step (c c' : config) :
  consistent cairo_image_surface_create fuel surface s0 n c ->
  step cairo_image_surface_create fuel surface c c' ->
  consistent cairo_image_surface_create fuel surface s0 n c'.
Proof.
  intros Hc Hstep.
  destruct Hstep as [c i inv_surf Hi Hw|c i Hi Hnone|c i inv_surf Hi
                    |c i o inv Hi Ho Hinv|c i inv_surf Hi].
  - apply (consistent_set_thread c i AtEntry (Found inv_surf) (heap c) Hc Hi);
      try reflexivity; try discriminate.
    + intros l [= <-]. right. exact Hw.
    + intros l [= <-]. exact Hw.
  - apply (consistent_set_thread c i AtEntry NotFound (heap c) Hc Hi);
      try reflexivity; discriminate.
  - pose proof (consistent_found _ _ _ _ _ _ Hc i inv_surf Hi) as Hw.
    apply (consistent_set_thread c i (Found inv_surf) (Returned inv_surf)
             (cairo_surface_reference inv_surf (heap c)) Hc Hi);
      try discriminate.
    + intros l. apply surface_at_reference.
    + apply get_user_data_reference.
    + intros l [= <-]. left. reflexivity.
    + intros l [= <-]. right. left. exact Hw.
  - exact (consistent_compute c i o inv Hc Hi Ho Hinv).
  - destruct (cairo_surface_get_user_data surface (heap c)) as [w|] eqn:Hw.
    + rewrite (attach_attached surface inv_surf w (heap c) Hw).
      apply (consistent_set_thread c i (Computed inv_surf) (Returned inv_surf)
               (heap c) Hc Hi); try reflexivity; try discriminate.
      * intros l [= <-]. left. reflexivity.
      * intros l [= <-]. right. right. split; [reflexivity|].
        rewrite Hw. eauto.
    + exact (consistent_attach_first c i inv_surf Hc Hi Hw).
Qed.

Lemma consistent_run (c c' : config) :
  rtc (step cairo_image_surface_create fuel surface) c c' ->
  consistent cairo_image_surface_create fuel surface s0 n c ->
  consistent cairo_image_surface_create fuel surface s0 n c'.
Proof.
  induction 1 as [c|c c1 c2 Hstep _ IH]; intros Hc; [exact Hc|].
  apply IH. exact (consistent_step c c1 Hc Hstep).
Qed.

(** No caller is ever blocked: when the inversion of the surface succeeds,
    every configuration of a run can be continued until all callers have
    returned. *)
Lemma run_completes (inv : cairo_surface_t) :
  Mask.compute_inverse cairo_image_surface_create fuel s0 = Done inv ->
  forall (k : nat) (c : config),
    (pending (threads c) <= k)%nat ->
    consistent cairo_image_surface_create fuel surface s0 n c ->
    exists c', rtc (step cairo_image_surface_create fuel surface) c c'
               /\ all_returned c'.
Proof.
  intros Hinv k. induction k as [|k IH]; intros c Hk Hc.
  - exists c. split; [apply rtc_refl|].
    intros i t Hi. apply (pending_zero (threads c) i t); [lia | exact Hi].
  - destruct (decide (pending (threads c) = 0%nat)) as [E|E].
    { exists c. split; [apply rtc_refl|].
      intros i t Hi. apply (pending_zero (threads c) i t); [exact E | exact Hi]. }
    destruct (pending_pos (threads c) ltac:(lia)) as (i & t & Hi & Ht).
    assert (Hnext : exists c1,
              step cairo_image_surface_create fuel surface c c1
              /\ (pending (threads c1) < pending (threads c))%nat).
    { destruct t as [|l| |l|l].
      - destruct (cairo_surface_get_user_data surface (heap c)) as [w|] eqn:Hw.
        + eexists. split; [exact (step_lookup_found _ _ _ c i w Hi Hw)|].
          apply (pending_insert _ i AtEntry); [exact Hi | cbn; lia].
        + eexists. split; [exact (step_lookup_none _ _ _ c i Hi Hw)|].
          apply (pending_insert _ i AtEntry); [exact Hi | cbn; lia].
      - eexists. split; [exact (step_reference _ _ _ c i l Hi)|].
        apply (pending_insert _ i (Found l)); [exact Hi | cbn; lia].
      - pose proof (consistent_surface _ _ _ _ _ _ Hc) as Hs.
        unfold surface_at in Hs.
        destruct (heap c !! surface) as [o|] eqn:Ho; [|discriminate Hs].
        injection Hs as Hs. rewrite <- Hs in Hinv.
        eexists. split; [exact (step_compute _ _ _ c i o inv Hi Ho Hinv)|].
        apply (pending_insert _ i NotFound); [exact Hi | cbn; lia].
      - eexists. split; [exact (step_attach _ _ _ c i l Hi)|].
        apply (pending_insert _ i (Computed l)); [exact Hi | cbn; lia].
      - cbn in Ht. lia. }
    destruct Hnext as (c1 & Hstep & Hlt).
    destruct (IH c1 ltac:(lia) (consistent_step c c1 Hc Hstep))
      as (c' & Hrun & Hall).
    exists c'. split; [exact (rtc_l _ _ _ _ Hstep Hrun) | exact Hall].
Qed.

(** The scheduled runs are runs of the step relation. *)
Lemma thread_step_sound (i : nat) (c c' : config) :
  thread_step cairo_image_surface_create fuel surface i c = Some c' ->
  step cairo_image_surface_create fuel surface c c'.
Proof.
  unfold thread_step. intros H.
  destruct (threads c !! i) as [[|l| |l|l]|] eqn:Hi; try discriminate H.
  - destruct (cairo_surface_get_user_data surface (heap c)) as [w|] eqn:Hw;
      injection H as <-.
    + exact (step_lookup_found _ _ _ c i w Hi Hw).
    + exact (step_lookup_none _ _ _ c i Hi Hw).
  - injection H as <-. exact (step_reference _ _ _ c i l Hi).
  - destruct (heap c !! surface) as [o|] eqn:Ho; [|discriminate H].
    destruct (Mask.compute_inverse cairo_image_surface_create fuel
                (object_surface o)) as [inv| | |] eqn:Hinv;
      try discriminate H.
    injection H as <-. exact (step_compute _ _ _ c i o inv Hi Ho Hinv).
  - injection H as <-. exact (step_attach _ _ _ c i l Hi).
Qed.

Lemma run_schedule_sound (schedule : list nat) (c c' : config) :
  run_schedule cairo_image_surface_create fuel surface schedule c = Some c' ->
  rtc (step cairo_image_surface_create fuel surface) c c'.
Proof.
  revert c. induction schedule as [|i schedule IH]; intros c H.
  - injection H as <-. apply rtc_refl.
  - cbn [run_schedule] in H.
    destruct (thread_step cairo_image_surface_create fuel surface i c)
      as [c1|] eqn:H1; [|discriminate H].
    cbn in H. eapply rtc_l; [exact (thread_step_sound i c c1 H1)|].
    exact (IH c1 H).
Qed.

End Run.

(** C9 (amended). [n] callers request the inverse of a surface that has
    none attached, and the inversion of the surface succeeds.  No caller is
    blocked: every run can be continued until all callers have returned.
    When all have returned, exactly one inverse is attached to the surface,
    and the caller that attached it returned it.  Every caller returned
    either that instance or an inverse it computed itself, which no other
    caller received and which stays unattached; every returned instance is a
    live surface holding the inverse image. *)
Theorem concurrent_inverse_requests
    (cairo_image_surface_create : cairo_format_t -> Z -> Z -> cairo_surface_t)
    (fuel : nat) (surface : loc) (h0 : gmap loc surface_object)
    (o0 : surface_object) (inv : cairo_surface_t) (n : nat) (c : config) :
  h0 !! surface = Some o0 ->
  object_inverse o0 = None ->
  (0 < n)%nat ->
  Mask.compute_inverse cairo_image_surface_create fuel (object_surface o0)
    = Done inv ->
  rtc (step cairo_image_surface_create fuel surface) (initial h0 n) c ->
  (exists c', rtc (step cairo_image_surface_create fuel surface) c c'
              /\ all_returned c')
  /\ (all_returned c ->
      exists w,
        cairo_surface_get_user_data surface (heap c) = Some w
        /\ (exists i, threads c !! i = Some (Returned w))
        /\ length (threads c) = n
        /\ forall i r, threads c !! i = Some (Returned r) ->
             (r = w
              \/ (r <> w
                  /\ forall j r', j <> i ->
                       threads c !! j = Some (Returned r') -> r' <> r))
             /\ r <> surface
             /\ surface_at (heap c) r = Some inv).
Proof.
  intros Hs Hnone Hn Hinv Hrun.
  pose proof (consistent_run cairo_image_surface_create fuel surface
                (object_surface o0) n _ _ Hrun
                (consistent_initial cairo_image_surface_create fuel surface
                   (object_surface o0) n h0 o0 Hs eq_refl Hnone)) as Hc.
  split.
  { exact (run_completes cairo_image_surface_create fuel surface
             (object_surface o0) n inv Hinv (pending (threads c)) c
             (Nat.le_refl _) Hc). }
  intros Hall.
  destruct Hc as [Hlen Hsurf Hheld Hatt Hfound Hcomp Hret].
  destruct (lookup_lt_is_Some_2 (threads c) 0 ltac:(lia)) as [t0 H0].
  destruct (Hall 0%nat t0 H0) as [r0 ->].
  destruct (Hret 0%nat r0 H0) as [[w Hw] _].
  exists w. split; [exact Hw|]. split; [exact (Hatt w Hw)|].
  split; [exact Hlen|].
  intros i r Hi.
  destruct (Hheld i (Returned r) r Hi eq_refl) as (Hne & inv' & Hinv' & Hat).
  assert (inv' = inv) as -> by congruence.
  split; [|split; [exact Hne | exact Hat]].
  destruct (Hret i r Hi) as [_ [Hr|[Hna Hothers]]].
  - left. congruence.
  - right. split; [congruence|].
    intros j r' Hji Hj ->. exact (Hothers j (Returned r) Hji Hj eq_refl).
Qed.

End SharedFacts.

Module SharedExamples.
Import Canvas Shared SharedVocabulary Inputs.

Lemma racing_run_final : racing_run = Some racing_final.
Proof. vm_compute. reflexivity. Qed.

Lemma racing_final_reachable :
  rtc (step Mask.image_surface 3 0%nat) (initial shared_heap 2) racing_final.
Proof.
  apply (SharedFacts.run_schedule_sound Mask.image_surface 3 0%nat
           racing_schedule).
  exact racing_run_final.
Qed.

Lemma racing_final_threads :
  threads racing_final = [Returned 1%nat; Returned 2%nat].
Proof. vm_compute. reflexivity. Qed.

Lemma racing_final_all_returned : all_returned racing_final.
Proof.
  intros i t Hi. rewrite racing_final_threads in Hi.
  destruct i as [|[|i]]; simplify_eq/=; eauto.
Qed.

(** Two callers look before either attaches: the first to attach returns
    the attached instance, at location 1, and the second returns the
    instance it computed itself, at location 2.  Both hold the same image. *)
Lemma racing_callers_return_different_instances :
  exists c,
    rtc (step Mask.image_surface 3 0%nat) (initial shared_heap 2) c
    /\ all_returned c
    /\ threads c = [Returned 1%nat; Returned 2%nat]
    /\ cairo_surface_get_user_data 0%nat (heap c) = Some 1%nat
    /\ image_at (Some c) 1%nat 8 = Some [254; 0; 0; 0; 253; 0; 0; 0]
    /\ image_at (Some c) 2%nat 8 = Some [254; 0; 0; 0; 253; 0; 0; 0].
Proof.
  exists racing_final.
  split; [exact racing_final_reachable|].
  split; [exact racing_final_all_returned|].
  split; [exact racing_final_threads|].
  repeat split; vm_compute; reflexivity.
Qed.

Lemma concurrent_inverse_requests_witness :
  (exists c', rtc (step Mask.image_surface 3 0%nat) racing_final c'
              /\ all_returned c')
  /\ exists w,
       cairo_surface_get_user_data 0%nat (heap racing_final) = Some w
       /\ (exists i, threads racing_final !! i = Some (Returned w))
       /\ length (threads racing_final) = 2%nat
       /\ forall i r, threads racing_final !! i = Some (Returned r) ->
            (r = w
             \/ (r <> w
                 /\ forall j r', j <> i ->
                      threads racing_final !! j = Some (Returned r') -> r' <> r))
            /\ r <> 0%nat
            /\ surface_at (heap racing_final) r = Some surface_a1_inverse.
Proof.
  pose proof (SharedFacts.concurrent_inverse_requests Mask.image_surface 3
                0%nat shared_heap
                {| object_surface := surface_a1; object_refs := 1;
                   object_inverse := None |}
                surface_a1_inverse 2 racing_final
                eq_refl eq_refl ltac:(lia) ltac:(vm_compute; reflexivity)
                racing_final_reachable) as [Hcompletes Hreturned].
  split; [exact Hcompletes | exact (Hreturned racing_final_all_returned)].
Defined.

End SharedExamples.

(** ** What the copy functions write *)

(** The rows of a copy whose line conversion is confined to the [W] bytes of
    the destination line it is given. *)
Lemma copy_rows (body : Z -> Z -> mem -> outcome mem) (W : Z) (fuel : nat)
    (src src_stride dest dest_stride n : Z) (m0 : mem) :
  src_stride <> 0 -> W <= Z.abs dest_stride -> 0 <= n ->
  (forall a b, uniform b (b + W) (body a b)) ->
  (Z.to_nat n < fuel)%nat ->
  match for_rows fuel body src src_stride (src + n * src_stride)
                 dest dest_stride m0 with
  | Done m =>
      (forall k, 0 <= k < n ->
         exists mk,
           body (src + k * src_stride) (dest + k * dest_stride) m0 = Done mk
           /\ agree (dest + k * dest_stride) (dest + k * dest_stride + W) m mk)
      /\ (forall p,
            (forall k, 0 <= k < n ->
               ~ (dest + k * dest_stride <= p < dest + k * dest_stride + W)) ->
            m p = m0 p)
  | Abort msg =>
      exists k, 0 <= k < n
                /\ body (src + k * src_stride) (dest + k * dest_stride) m0
                   = Abort msg
  | Fault =>
      exists k, 0 <= k < n
                /\ body (src + k * src_stride) (dest + k * dest_stride) m0 = Fault
  | OutOfFuel => False
  end.
Proof.
  intros Hs Hw Hn Hu Hfuel.
  pose proof (for_rows_rows body true src_stride dest_stride W Hs
                ltac:(unfold written_at; lia)
                (fun a b => uniform_confined_writer _ _ _ (Hu a b))
                (fun a b => uniform_fuel _ _ _ (Hu a b))
                (Z.to_nat n) fuel src dest m0 Hfuel) as H.
  rewrite Z2Nat.id in H by lia. unfold written_at in H. exact H.
Qed.

(** What a line conversion that returns leaves outside its line. *)
Lemma uniform_load32_outside (lo hi : Z) (f : mem -> outcome mem)
    (m m' : mem) (p : Z) :
  uniform lo hi f -> f m = Done m' -> p + 4 <= lo \/ hi <= p ->
  load32 m' p = load32 m p.
Proof.
  intros Hu Hm Hp.
  pose proof (writer_frame _ _ _ (uniform_confined_writer _ _ _ Hu) m m') as Hf.
  unfold load32, load8. rewrite !Hf by (exact Hm || lia). reflexivity.
Qed.

Lemma memcpy_loop_load8 (from : mem) (n : nat) :
  forall dest src m j, 0 <= j < Z.of_nat n ->
  load8 (memcpy_loop n from dest src m) (dest + j) = load8 from (src + j).
Proof.
  induction n as [|n IH]; intros dest src m j Hj; [lia|].
  cbn [memcpy_loop].
  destruct (decide (j = 0)) as [->|Hne].
  - rewrite (confined_load8_outside (dest + 1) (dest + 1 + Z.of_nat n));
      [|apply memcpy_loop_confined; lia|lia].
    replace (dest + 0) with dest by lia. replace (src + 0) with src by lia.
    rewrite load8_store8_same. apply u8_idem.
  - replace (dest + j) with (dest + 1 + (j - 1)) by lia.
    replace (src + j) with (src + 1 + (j - 1)) by lia.
    apply IH. lia.
Qed.

(** [test_bit_be] reads the bits of a byte from the most significant one. *)
Lemma test_bit_be_table :
  forall_below 8 (fun s =>
    forall_below 256 (fun byte =>
      Bool.eqb (negb (Z.land byte (Z.shiftr 0x80 s) =? 0))
               (Z.testbit byte (7 - s)))) = true.
Proof. vm_compute. reflexivity. Qed.

Lemma test_bit_be_spec (wire : mem) (addr bit : Z) :
  0 <= bit ->
  Convert.test_bit_be wire addr bit
  = Z.testbit (load8 wire (addr + bit / 8)) (7 - bit mod 8).
Proof.
  intros Hbit. unfold Convert.test_bit_be.
  rewrite Z.shiftr_div_pow2 by lia. change (2 ^ 3) with 8.
  change 0x07 with (Z.ones 3). rewrite Z.land_ones by lia.
  change (2 ^ 3) with 8.
  pose proof (Z.mod_pos_bound bit 8 ltac:(lia)) as Hs.
  pose proof (forall_below_spec 8 _ test_bit_be_table (bit mod 8) Hs) as H.
  cbv beta in H.
  pose proof (forall_below_spec 256 _ H (load8 wire (addr + bit / 8))
                (load8_range _ _)) as H'.
  cbv beta in H'. apply Bool.eqb_prop in H'. exact H'.
Qed.

Module CopyFacts.
Import Convert.

Section Copies.

Variable wire : mem.

(** *** The pixel loops *)

Lemma copy_24bpp_pixels_bytes (n : nat) :
  forall src dest m x, 0 <= x < Z.of_nat n ->
  let m' := copy_24bpp_pixels wire n src dest m in
  load8 m' (dest + 4 * x) = load8 wire (src + 3 * x)
  /\ load8 m' (dest + 4 * x + 1) = load8 wire (src + 3 * x + 1)
  /\ load8 m' (dest + 4 * x + 2) = load8 wire (src + 3 * x + 2)
  /\ m' (dest + 4 * x + 3) = m (dest + 4 * x + 3).
Proof.
  induction n as [|n IH]; intros src dest m x Hx; [lia|].
  cbn [copy_24bpp_pixels]. cbv zeta.
  set (m1 := store8 (store8 (store8 m dest (load8 wire src))
                            (dest + 1) (load8 wire (src + 1)))
                    (dest + 2) (load8 wire (src + 2))).
  destruct (decide (x = 0)) as [->|Hne].
  - pose proof (copy_24bpp_pixels_confined wire n (dest + 4)
                  (dest + 4 + 4 * Z.of_nat n) (src + 3) (dest + 4)
                  ltac:(lia) ltac:(lia)) as Hc.
    replace (dest + 4 * 0) with dest by lia.
    replace (src + 3 * 0) with src by lia.
    rewrite !(confined_load8_outside _ _ _ m1 _ Hc) by lia.
    rewrite (confined_frame _ _ _ Hc) by lia.
    unfold m1. repeat split.
    + rewrite !load8_store8_other by lia. rewrite load8_store8_same.
      apply u8_idem.
    + rewrite load8_store8_other by lia. rewrite load8_store8_same.
      apply u8_idem.
    + rewrite load8_store8_same. apply u8_idem.
    + rewrite !store8_other by lia. reflexivity.
  - destruct (IH (src + 3) (dest + 4) m1 (x - 1) ltac:(lia))
      as (H0 & H1 & H2 & H3).
    replace (dest + 4 + 4 * (x - 1)) with (dest + 4 * x) in * by lia.
    replace (src + 3 + 3 * (x - 1)) with (src + 3 * x) in * by lia.
    repeat split; [exact H0 | exact H1 | exact H2 |].
    rewrite H3. unfold m1. rewrite !store8_other by lia. reflexivity.
Qed.

Lemma copy_16bpp_pixels_load32 (n : nat) :
  forall src dest m x, 0 <= x < Z.of_nat n ->
  load32 (copy_16bpp_pixels wire n src dest m) (dest + 4 * x)
  = u32 (Pixel.canvas_16bpp_to_32bpp (load16 wire (src + 2 * x))).
Proof.
  induction n as [|n IH]; intros src dest m x Hx; [lia|].
  cbn [copy_16bpp_pixels]. cbv zeta.
  destruct (decide (x = 0)) as [->|Hne].
  - rewrite (confined_load32_outside (dest + 4) (dest + 4 + 4 * Z.of_nat n));
      [|apply copy_16bpp_pixels_confined; lia|lia].
    replace (dest + 4 * 0) with dest by lia.
    replace (src + 2 * 0) with src by lia.
    apply load32_store32_same.
  - replace (dest + 4 * x) with (dest + 4 + 4 * (x - 1)) by lia.
    replace (src + 2 * x) with (src + 2 + 2 * (x - 1)) by lia.
    apply IH. lia.
Qed.

Lemma copy_1bpp_be_pixels_load32 (fore back : Z) (n : nat) :
  forall src i dest m x, 0 <= x < Z.of_nat n ->
  load32 (copy_1bpp_be_pixels wire n fore back src i dest m) (dest + 4 * x)
  = u32 (if test_bit_be wire src (i + x) then fore else back).
Proof.
  induction n as [|n IH]; intros src i dest m x Hx; [lia|].
  cbn [copy_1bpp_be_pixels]. cbv zeta.
  destruct (decide (x = 0)) as [->|Hne].
  - rewrite (confined_load32_outside (dest + 4) (dest + 4 + 4 * Z.of_nat n));
      [|apply copy_1bpp_be_pixels_confined; lia|lia].
    replace (dest + 4 * 0) with dest by lia.
    replace (i + 0) with i by lia.
    destruct (test_bit_be wire src i); apply load32_store32_same.
  - replace (dest + 4 * x) with (dest + 4 + 4 * (x - 1)) by lia.
    replace (i + x) with (i + 1 + (x - 1)) by lia.
    apply IH. lia.
Qed.

(** An index below [num_ents] is inside a palette that holds the entries it
    declares. *)
Lemma ents_at_declared (palette : Palette) (i : Z) :
  num_ents palette <= Z.of_nat (length (ents palette)) ->
  0 <= i < num_ents palette ->
  exists e, ents palette !! Z.to_nat i = Some e /\ ents_at palette i = Done e.
Proof.
  intros Hlen Hi.
  destruct (lookup_lt_is_Some_2 (ents palette) (Z.to_nat i) ltac:(lia))
    as [e He].
  exists e. split; [exact He|]. unfold ents_at.
  destruct (i <? 0) eqn:E; [apply Z.ltb_lt in E; lia|].
  rewrite He. reflexivity.
Qed.

Lemma copy_8bpp_pixels_outcome (palette : Palette) (n : nat) :
  num_ents palette <= Z.of_nat (length (ents palette)) ->
  forall src dest m,
  (exists m', copy_8bpp_pixels wire n palette src dest m = Done m')
  \/ copy_8bpp_pixels wire n palette src dest m
     = Abort "*src_line < palette->num_ents".
Proof.
  intros Hlen. induction n as [|n IH]; intros src dest m.
  - left. eexists. reflexivity.
  - cbn [copy_8bpp_pixels]. unfold ASSERT.
    destruct (load8 wire src <? num_ents palette) eqn:E;
      cbn [mbind outcome_bind]; [|right; reflexivity].
    apply Z.ltb_lt in E.
    destruct (ents_at_declared palette (load8 wire src) Hlen)
      as (e & _ & He); [pose proof (load8_range wire src); lia|].
    rewrite He. cbn [mbind outcome_bind]. apply IH.
Qed.

Lemma copy_8bpp_pixels_done (palette : Palette) (n : nat) :
  num_ents palette <= Z.of_nat (length (ents palette)) ->
  forall src dest m m',
  copy_8bpp_pixels wire n palette src dest m = Done m' ->
  forall x, 0 <= x < Z.of_nat n ->
    load8 wire (src + x) < num_ents palette
    /\ exists e, ents palette !! Z.to_nat (load8 wire (src + x)) = Some e
                 /\ load32 m' (dest + 4 * x) = u32 e.
Proof.
  intros Hlen. induction n as [|n IH]; intros src dest m m' H x Hx; [lia|].
  cbn [copy_8bpp_pixels] in H. unfold ASSERT in H.
  destruct (load8 wire src <? num_ents palette) eqn:E;
    cbn [mbind outcome_bind] in H; [|discriminate H].
  apply Z.ltb_lt in E.
  destruct (ents_at_declared palette (load8 wire src) Hlen)
    as (e & Hin & He); [pose proof (load8_range wire src); lia|].
  rewrite He in H. cbn [mbind outcome_bind] in H.
  destruct (decide (x = 0)) as [->|Hne].
  - replace (src + 0) with src by lia. replace (dest + 4 * 0) with dest by lia.
    split; [exact E|]. exists e. split; [exact Hin|].
    rewrite (uniform_load32_outside (dest + 4) (dest + 4 + 4 * Z.of_nat n)
               _ _ _ dest
               (copy_8bpp_pixels_uniform wire palette n (dest + 4)
                  (dest + 4 + 4 * Z.of_nat n) (src + 1) (dest + 4)
                  ltac:(lia) ltac:(lia)) H) by lia.
    apply load32_store32_same.
  - replace (src + x) with (src + 1 + (x - 1)) by lia.
    replace (dest + 4 * x) with (dest + 4 + 4 * (x - 1)) by lia.
    apply (IH _ _ _ _ H). lia.
Qed.

Lemma copy_8bpp_pixels_valid (palette : Palette) (n : nat) :
  num_ents palette <= Z.of_nat (length (ents palette)) ->
  forall src dest m,
  (forall x, 0 <= x < Z.of_nat n -> load8 wire (src + x) < num_ents palette) ->
  exists m', copy_8bpp_pixels wire n palette src dest m = Done m'.
Proof.
  intros Hlen. induction n as [|n IH]; intros src dest m Hvalid.
  - eexists. reflexivity.
  - cbn [copy_8bpp_pixels]. unfold ASSERT.
    pose proof (Hvalid 0 ltac:(lia)) as H0.
    replace (src + 0) with src in H0 by lia.
    rewrite (proj2 (Z.ltb_lt _ _) H0). cbn [mbind outcome_bind].
    destruct (ents_at_declared palette (load8 wire src) Hlen)
      as (e & _ & He); [pose proof (load8_range wire src); lia|].
    rewrite He. cbn [mbind outcome_bind]. apply IH.
    intros x Hx. replace (src + 1 + x) with (src + (x + 1)) by lia.
    apply Hvalid. lia.
Qed.

(** *** The copy functions *)

(** X1. [canvas_copy_32bpp] returns, and every destination row holds the
    [4 * width] bytes of its source row, byte for byte; nothing outside the
    rows is written. *)
Theorem canvas_copy_32bpp_rows (fuel : nat)
    (dest dest_stride src src_stride width n : Z) (m0 : mem) :
  src_stride <> 0 -> 0 <= width -> 0 <= n ->
  4 * width <= Z.abs dest_stride ->
  (Z.to_nat n < fuel)%nat ->
  exists m,
    canvas_copy_32bpp wire fuel dest dest_stride src src_stride width
                      (src + n * src_stride) m0 = Done m
    /\ (forall k j, 0 <= k < n -> 0 <= j < 4 * width ->
          load8 m (dest + k * dest_stride + j)
          = load8 wire (src + k * src_stride + j))
    /\ (forall p,
          (forall k, 0 <= k < n ->
             ~ (dest + k * dest_stride <= p
                < dest + k * dest_stride + 4 * width)) ->
          m p = m0 p).
Proof.
  intros Hs Hw Hn Hfit Hfuel. unfold canvas_copy_32bpp.
  assert (Hsize : Z.shiftl width 2 = 4 * width).
  { rewrite Z.shiftl_mul_pow2 by lia. change (2 ^ 2) with 4. lia. }
  pose proof (copy_rows (copy_32bpp_line wire width) (4 * width) fuel
                src src_stride dest dest_stride n m0 Hs Hfit Hn) as H.
  specialize (H ltac:(intros a b; apply uniform_done; unfold memcpy;
                      rewrite Hsize; apply memcpy_loop_confined; lia) Hfuel).
  destruct (for_rows fuel (copy_32bpp_line wire width) src src_stride
              (src + n * src_stride) dest dest_stride m0) as [m| | |].
  2: { destruct H as (k & _ & Hk). discriminate Hk. }
  2: { destruct H as (k & _ & Hk). discriminate Hk. }
  2: contradiction.
  destruct H as [Hrows Hframe].
  exists m. split; [reflexivity|]. split; [|exact Hframe].
  intros k j Hk Hj. destruct (Hrows k Hk) as (mk & Hmk & Hag).
  unfold copy_32bpp_line in Hmk. injection Hmk as <-.
  rewrite (agree_load8 _ _ _ _ _ Hag) by lia.
  unfold memcpy. rewrite Hsize. apply memcpy_loop_load8. lia.
Qed.

(** X2. [canvas_copy_24bpp] returns; the first three bytes of every
    destination pixel are the three bytes of the source pixel, and the
    fourth byte of every destination pixel is left as it was. *)
Theorem canvas_copy_24bpp_rows (fuel : nat)
    (dest dest_stride src src_stride width n : Z) (m0 : mem) :
  src_stride <> 0 -> 0 <= width -> 0 <= n ->
  4 * width <= Z.abs dest_stride ->
  (Z.to_nat n < fuel)%nat ->
  exists m,
    canvas_copy_24bpp wire fuel dest dest_stride src src_stride width
                      (src + n * src_stride) m0 = Done m
    /\ forall k x, 0 <= k < n -> 0 <= x < width ->
         (forall c, 0 <= c < 3 ->
            load8 m (dest + k * dest_stride + 4 * x + c)
            = load8 wire (src + k * src_stride + 3 * x + c))
         /\ m (dest + k * dest_stride + 4 * x + 3)
            = m0 (dest + k * dest_stride + 4 * x + 3).
Proof.
  intros Hs Hw Hn Hfit Hfuel. unfold canvas_copy_24bpp.
  pose proof (copy_rows (copy_24bpp_line wire width) (4 * width) fuel
                src src_stride dest dest_stride n m0 Hs Hfit Hn) as H.
  specialize (H ltac:(intros a b; apply uniform_done;
                      apply copy_24bpp_pixels_confined; lia) Hfuel).
  destruct (for_rows fuel (copy_24bpp_line wire width) src src_stride
              (src + n * src_stride) dest dest_stride m0) as [m| | |].
  2: { destruct H as (k & _ & Hk). discriminate Hk. }
  2: { destruct H as (k & _ & Hk). discriminate Hk. }
  2: contradiction.
  destruct H as [Hrows _].
  exists m. split; [reflexivity|].
  intros k x Hk Hx. destruct (Hrows k Hk) as (mk & Hmk & Hag).
  unfold copy_24bpp_line in Hmk. injection Hmk as <-.
  destruct (copy_24bpp_pixels_bytes (Z.to_nat width) (src + k * src_stride)
              (dest + k * dest_stride) m0 x ltac:(lia))
    as (H0 & H1 & H2 & H3).
  split.
  - intros c Hc.
    rewrite (agree_load8 _ _ _ _ _ Hag) by lia.
    assert (c = 0 \/ c = 1 \/ c = 2) as [-> | [-> | ->]] by lia.
    + rewrite !Z.add_0_r. exact H0.
    + exact H1.
    + exact H2.
  - rewrite (Hag (dest + k * dest_stride + 4 * x + 3)) by lia. exact H3.
Qed.

(** X3. [canvas_copy_16bpp] returns, and every destination pixel is the
    16-bit source pixel expanded by [canvas_16bpp_to_32bpp]. *)
Theorem canvas_copy_16bpp_rows (fuel : nat)
    (dest dest_stride src src_stride width n : Z) (m0 : mem) :
  src_stride <> 0 -> 0 <= width -> 0 <= n ->
  4 * width <= Z.abs dest_stride ->
  (Z.to_nat n < fuel)%nat ->
  exists m,
    canvas_copy_16bpp wire fuel dest dest_stride src src_stride width
                      (src + n * src_stride) m0 = Done m
    /\ forall k x, 0 <= k < n -> 0 <= x < width ->
         load32 m (dest + k * dest_stride + 4 * x)
         = u32 (Pixel.canvas_16bpp_to_32bpp
                  (load16 wire (src + k * src_stride + 2 * x))).
Proof.
  intros Hs Hw Hn Hfit Hfuel. unfold canvas_copy_16bpp.
  pose proof (copy_rows (copy_16bpp_line wire width) (4 * width) fuel
                src src_stride dest dest_stride n m0 Hs Hfit Hn) as H.
  specialize (H ltac:(intros a b; apply uniform_done;
                      apply copy_16bpp_pixels_confined; lia) Hfuel).
  destruct (for_rows fuel (copy_16bpp_line wire width) src src_stride
              (src + n * src_stride) dest dest_stride m0) as [m| | |].
  2: { destruct H as (k & _ & Hk). discriminate Hk. }
  2: { destruct H as (k & _ & Hk). discriminate Hk. }
  2: contradiction.
  destruct H as [Hrows _].
  exists m. split; [reflexivity|].
  intros k x Hk Hx. destruct (Hrows k Hk) as (mk & Hmk & Hag).
  unfold copy_16bpp_line in Hmk. injection Hmk as <-.
  rewrite (agree_load32 _ _ _ _ _ Hag) by lia.
  apply copy_16bpp_pixels_load32. lia.
Qed.

(** The indices of the rows are all valid: [canvas_copy_8bpp] returns and
    every pixel is the entry its index selects. *)
Lemma canvas_copy_8bpp_valid (fuel : nat) (palette : Palette)
    (dest dest_stride src src_stride width n : Z) (m0 : mem) :
  src_stride <> 0 -> 0 <= width -> 0 <= n ->
  4 * width <= Z.abs dest_stride ->
  (Z.to_nat n < fuel)%nat ->
  num_ents palette <= Z.of_nat (length (ents palette)) ->
  (forall k x, 0 <= k < n -> 0 <= x < width ->
     load8 wire (src + k * src_stride + x) < num_ents palette) ->
  exists m,
    canvas_copy_8bpp wire fuel dest dest_stride src src_stride width
                     (src + n * src_stride) (Some palette) m0 = Done m
    /\ forall k x, 0 <= k < n -> 0 <= x < width ->
         exists e,
           ents palette !! Z.to_nat (load8 wire (src + k * src_stride + x))
           = Some e
           /\ load32 m (dest + k * dest_stride + 4 * x) = u32 e.
Proof.
  intros Hs Hw Hn Hfit Hfuel Hlen Hvalid. unfold canvas_copy_8bpp.
  pose proof (copy_rows (copy_8bpp_line wire palette width) (4 * width) fuel
                src src_stride dest dest_stride n m0 Hs Hfit Hn) as H.
  specialize (H ltac:(intros a b; apply copy_8bpp_pixels_uniform; lia) Hfuel).
  destruct (for_rows fuel (copy_8bpp_line wire palette width) src src_stride
              (src + n * src_stride) dest dest_stride m0) as [m|msg| |].
  - destruct H as [Hrows _]. exists m. split; [reflexivity|].
    intros k x Hk Hx. destruct (Hrows k Hk) as (mk & Hmk & Hag).
    rewrite (agree_load32 _ _ _ _ _ Hag) by lia.
    unfold copy_8bpp_line in Hmk.
    destruct (copy_8bpp_pixels_done palette (Z.to_nat width) Hlen _ _ _ _ Hmk
                x ltac:(lia)) as (_ & e & He & Hpix).
    exists e. split; [exact He | exact Hpix].
  - destruct H as (k & Hk & Hbody). unfold copy_8bpp_line in Hbody.
    destruct (copy_8bpp_pixels_valid palette (Z.to_nat width) Hlen
                (src + k * src_stride) (dest + k * dest_stride) m0)
      as (m' & Hm'); [|congruence].
    intros x Hx. apply Hvalid; lia.
  - destruct H as (k & Hk & Hbody). unfold copy_8bpp_line in Hbody.
    destruct (copy_8bpp_pixels_valid palette (Z.to_nat width) Hlen
                (src + k * src_stride) (dest + k * dest_stride) m0)
      as (m' & Hm'); [|congruence].
    intros x Hx. apply Hvalid; lia.
  - contradiction.
Qed.

(** X4. [canvas_copy_8bpp] on a palette that holds the entries it declares:
    when every index of the rows is below [num_ents] the call returns and
    every destination pixel is the palette entry its source byte selects;
    when some index of the rows is not, the call stops at the assertion and
    returns no pixels. *)
Theorem canvas_copy_8bpp_rows (fuel : nat) (palette : Palette)
    (dest dest_stride src src_stride width n : Z) (m0 : mem) :
  src_stride <> 0 -> 0 <= width -> 0 <= n ->
  4 * width <= Z.abs dest_stride ->
  (Z.to_nat n < fuel)%nat ->
  num_ents palette <= Z.of_nat (length (ents palette)) ->
  ((forall k x, 0 <= k < n -> 0 <= x < width ->
      load8 wire (src + k * src_stride + x) < num_ents palette) ->
   exists m,
     canvas_copy_8bpp wire fuel dest dest_stride src src_stride width
                      (src + n * src_stride) (Some palette) m0 = Done m
     /\ forall k x, 0 <= k < n -> 0 <= x < width ->
          exists e,
            ents palette !! Z.to_nat (load8 wire (src + k * src_stride + x))
            = Some e
            /\ load32 m (dest + k * dest_stride + 4 * x) = u32 e)
  /\ ((exists k x, 0 <= k < n /\ 0 <= x < width
                   /\ num_ents palette <= load8 wire (src + k * src_stride + x)) ->
      canvas_copy_8bpp wire fuel dest dest_stride src src_stride width
                       (src + n * src_stride) (Some palette) m0
      = Abort "*src_line < palette->num_ents").
Proof.
  intros Hs Hw Hn Hfit Hfuel Hlen.
  split; [apply canvas_copy_8bpp_valid; assumption|].
  unfold canvas_copy_8bpp.
  pose proof (copy_rows (copy_8bpp_line wire palette width) (4 * width) fuel
                src src_stride dest dest_stride n m0 Hs Hfit Hn) as H.
  specialize (H ltac:(intros a b; apply copy_8bpp_pixels_uniform; lia) Hfuel).
  intros (k & x & Hk & Hx & Hbad).
  assert (Hrow : forall k', copy_8bpp_line wire palette width
                     (src + k' * src_stride) (dest + k' * dest_stride) m0
                   <> Fault).
  { intros k' E. unfold copy_8bpp_line in E.
    destruct (copy_8bpp_pixels_outcome palette (Z.to_nat width) Hlen
                (src + k' * src_stride) (dest + k' * dest_stride) m0)
      as [(m' & Hm')|Hab]; congruence. }
  destruct (for_rows fuel (copy_8bpp_line wire palette width) src src_stride
              (src + n * src_stride) dest dest_stride m0) as [m|msg| |].
  - destruct H as [Hrows _]. destruct (Hrows k Hk) as (mk & Hmk & _).
    unfold copy_8bpp_line in Hmk.
    destruct (copy_8bpp_pixels_done palette (Z.to_nat width) Hlen _ _ _ _ Hmk
                x ltac:(lia)) as (Hlt & _).
    lia.
  - destruct H as (k' & _ & Hbody). unfold copy_8bpp_line in Hbody.
    destruct (copy_8bpp_pixels_outcome palette (Z.to_nat width) Hlen
                (src + k' * src_stride) (dest + k' * dest_stride) m0)
      as [(m' & Hm')|Hab]; congruence.
  - destruct H as (k' & _ & Hbody). exfalso. exact (Hrow k' Hbody).
  - contradiction.
Qed.

(** X5. [canvas_copy_1bpp_be] on a palette whose buffer holds two words:
    the call returns, and pixel [x] of a row is the second word when bit
    [7 - x mod 8] of byte [x / 8] of the source row is set and the first
    word when it is clear. *)
Theorem canvas_copy_1bpp_be_rows (fuel : nat) (palette : Palette)
    (fore_color back_color : Z)
    (dest dest_stride src src_stride width n : Z) (m0 : mem) :
  src_stride <> 0 -> 0 <= width -> 0 <= n ->
  4 * width <= Z.abs dest_stride ->
  (Z.to_nat n < fuel)%nat ->
  ents palette !! 0%nat = Some back_color ->
  ents palette !! 1%nat = Some fore_color ->
  exists m,
    canvas_copy_1bpp_be wire fuel dest dest_stride src src_stride width
                        (src + n * src_stride) (Some palette) m0 = Done m
    /\ forall k x, 0 <= k < n -> 0 <= x < width ->
         load32 m (dest + k * dest_stride + 4 * x)
         = u32 (if Z.testbit (load8 wire (src + k * src_stride + x / 8))
                             (7 - x mod 8)
                then fore_color else back_color).
Proof.
  intros Hs Hw Hn Hfit Hfuel Hback Hfore. unfold canvas_copy_1bpp_be.
  assert (E1 : ents_at palette 1 = Done fore_color).
  { unfold ents_at. change (Z.to_nat 1) with 1%nat. rewrite Hfore. reflexivity. }
  assert (E0 : ents_at palette 0 = Done back_color).
  { unfold ents_at. change (Z.to_nat 0) with 0%nat. rewrite Hback. reflexivity. }
  rewrite E1, E0. cbn [mbind outcome_bind].
  pose proof (copy_rows (copy_1bpp_be_line wire fore_color back_color width)
                (4 * width) fuel
                src src_stride dest dest_stride n m0 Hs Hfit Hn) as H.
  specialize (H ltac:(intros a b; apply uniform_done;
                      apply copy_1bpp_be_pixels_confined; lia) Hfuel).
  destruct (for_rows fuel (copy_1bpp_be_line wire fore_color back_color width)
              src src_stride (src + n * src_stride) dest dest_stride m0)
    as [m| | |].
  2: { destruct H as (k & _ & Hk). discriminate Hk. }
  2: { destruct H as (k & _ & Hk). discriminate Hk. }
  2: contradiction.
  destruct H as [Hrows _].
  exists m. split; [reflexivity|].
  intros k x Hk Hx. destruct (Hrows k Hk) as (mk & Hmk & Hag).
  unfold copy_1bpp_be_line in Hmk. injection Hmk as <-.
  rewrite (agree_load32 _ _ _ _ _ Hag) by lia.
  rewrite copy_1bpp_be_pixels_load32 by lia.
  rewrite test_bit_be_spec by lia.
  replace (0 + x) with x by lia. reflexivity.
Qed.

End Copies.

End CopyFacts.

Module Copy4Facts.
Import Convert.

Lemma ents_at_done (palette : Palette) (i e : Z) :
  ents_at palette i = Done e -> ents palette !! Z.to_nat i = Some e.
Proof.
  unfold ents_at. destruct (i <? 0); [discriminate|].
  destruct (ents palette !! Z.to_nat i); [|discriminate].
  intros [= ->]. reflexivity.
Qed.

Lemma nibble_range (b s : Z) : 0 <= Z.land (Z.shiftr b s) 0x0f < 16.
Proof.
  change 0x0f with (Z.ones 4). rewrite Z.land_ones by lia.
  apply Z.mod_pos_bound. lia.
Qed.

Section Copies.

Variable wire : mem.

(** The pair loop of the 4 bpp copy: what it stores for byte [j] of the
    line. *)
Lemma copy_4bpp_be_pairs_done (palette : Palette) (n : nat) :
  forall now dest m r,
  copy_4bpp_be_pairs wire n palette now dest m = Done r ->
  r.1 = dest + 8 * Z.of_nat n
  /\ forall j, 0 <= j < Z.of_nat n ->
       exists e_hi e_lo,
         ents_at palette (Z.land (Z.shiftr (load8 wire (now + j)) 4) 0x0f)
         = Done e_hi
         /\ ents_at palette (Z.land (load8 wire (now + j)) 0x0f) = Done e_lo
         /\ load32 r.2 (dest + 8 * j) = u32 e_hi
         /\ load32 r.2 (dest + 8 * j + 4) = u32 e_lo.
Proof.
  induction n as [|n IH]; intros now dest m r H.
  - cbn [copy_4bpp_be_pairs] in H. injection H as <-. cbn [fst].
    split; [lia | intros j Hj; lia].
  - cbn [copy_4bpp_be_pairs] in H. cbv zeta in H. unfold ASSERT in H.
    destruct (Z.land (load8 wire now) 15 <? num_ents palette);
      cbn [mbind outcome_bind] in H; [|discriminate H].
    destruct (Z.land (Z.shiftr (load8 wire now) 4) 15 <? num_ents palette);
      cbn [mbind outcome_bind] in H; [|discriminate H].
    destruct (ents_at palette (Z.land (Z.shiftr (load8 wire now) 4) 15))
      as [e_hi| | |] eqn:Ehi; cbn [mbind outcome_bind] in H; try discriminate H.
    destruct (ents_at palette (Z.land (load8 wire now) 15))
      as [e_lo| | |] eqn:Elo; cbn [mbind outcome_bind] in H; try discriminate H.
    destruct (IH _ _ _ _ H) as [Hend Hrest].
    split; [lia|].
    intros j Hj.
    destruct (decide (j = 0)) as [->|Hne].
    + replace (now + 0) with now by lia.
      replace (dest + 8 * 0) with dest by lia.
      exists e_hi, e_lo. split; [exact Ehi|]. split; [exact Elo|].
      destruct (copy_4bpp_be_pairs_uniform wire palette n (dest + 8)
                  (dest + 8 + 8 * Z.of_nat n) (now + 1) (dest + 8)
                  ltac:(lia) ltac:(lia)) as [(g & Hg & E)|[(msg & E)|E]];
        rewrite E in H; try discriminate H.
      injection H as <-. cbn [snd].
      rewrite !(confined_load32_outside _ _ _ _ _ Hg) by lia.
      split.
      * rewrite load32_store32_other by lia. apply load32_store32_same.
      * apply load32_store32_same.
    + destruct (Hrest (j - 1) ltac:(lia)) as (h & l & Hh & Hl & Hph & Hpl).
      replace (now + 1 + (j - 1)) with (now + j) in * by lia.
      replace (dest + 8 + 8 * (j - 1)) with (dest + 8 * j) in * by lia.
      exists h, l. repeat split; assumption.
Qed.

Lemma copy_4bpp_be_pairs_valid (palette : Palette) (n : nat) :
  num_ents palette <= Z.of_nat (length (ents palette)) ->
  forall now dest m,
  (forall j, 0 <= j < Z.of_nat n ->
     Z.land (load8 wire (now + j)) 0x0f < num_ents palette
     /\ Z.land (Z.shiftr (load8 wire (now + j)) 4) 0x0f < num_ents palette) ->
  exists r, copy_4bpp_be_pairs wire n palette now dest m = Done r.
Proof.
  intros Hlen. induction n as [|n IH]; intros now dest m Hvalid.
  - eexists. reflexivity.
  - cbn [copy_4bpp_be_pairs]. cbv zeta. unfold ASSERT.
    destruct (Hvalid 0 ltac:(lia)) as [Hlo Hhi].
    replace (now + 0) with now in * by lia.
    rewrite (proj2 (Z.ltb_lt _ _) Hlo). cbn [mbind outcome_bind].
    rewrite (proj2 (Z.ltb_lt _ _) Hhi). cbn [mbind outcome_bind].
    destruct (CopyFacts.ents_at_declared palette
                (Z.land (Z.shiftr (load8 wire now) 4) 15) Hlen)
      as (e_hi & _ & Ehi);
      [pose proof (nibble_range (load8 wire now) 4); lia|].
    rewrite Ehi. cbn [mbind outcome_bind].
    destruct (CopyFacts.ents_at_declared palette
                (Z.land (load8 wire now) 15) Hlen)
      as (e_lo & _ & Elo).
    { pose proof (nibble_range (load8 wire now) 0) as Hr.
      rewrite Z.shiftr_0_r in Hr. lia. }
    rewrite Elo. cbn [mbind outcome_bind].
    apply IH. intros j Hj.
    replace (now + 1 + j) with (now + (j + 1)) by lia. apply Hvalid. lia.
Qed.

Lemma copy_4bpp_be_line_uniform (palette : Palette) (width src dest : Z) :
  0 <= width ->
  uniform dest (dest + 4 * width) (copy_4bpp_be_line wire palette width src dest).
Proof.
  intros Hw. unfold copy_4bpp_be_line.
  assert (Hhalf : Z.shiftr width 1 = width / 2)
    by (rewrite Z.shiftr_div_pow2 by lia; reflexivity).
  assert (Hodd : Z.land width 1 = width mod 2)
    by (change 1 with (Z.ones 1); rewrite Z.land_ones by lia; reflexivity).
  pose proof (Z.div_mod width 2 ltac:(lia)) as Hdm.
  pose proof (Z.mod_pos_bound width 2 ltac:(lia)) as Hmod.
  assert (Hpairs : Z.of_nat (Z.to_nat (Z.shiftr width 1)) = width / 2).
  { rewrite Hhalf. apply Z2Nat.id. apply Z.div_pos; lia. }
  destruct (copy_4bpp_be_pairs_uniform wire palette
              (Z.to_nat (Z.shiftr width 1)) dest (dest + 4 * width) src dest
              ltac:(lia) ltac:(lia))
    as [(g & Hg & E)|[(msg & E)|E]].
  - rewrite Hodd.
    destruct (width mod 2 =? 0) eqn:Ebit.
    + left. exists g. split; [exact Hg|].
      intros m. rewrite E. reflexivity.
    + apply Z.eqb_neq in Ebit.
      destruct (ents_at palette (Z.land (Z.shiftr (load8 wire src) 4) 15))
        as [e| msg | |] eqn:Ee.
      * left.
        exists (fun m => store32 (g m)
                           (dest + 8 * Z.of_nat (Z.to_nat (Z.shiftr width 1))) e).
        split.
        -- apply (confined_compose _ _ g
                    (fun m => store32 m
                       (dest + 8 * Z.of_nat (Z.to_nat (Z.shiftr width 1))) e));
             [exact Hg|].
           apply confined_store32; lia.
        -- intros m. rewrite E. reflexivity.
      * right. left. exists msg. intros m. rewrite E. reflexivity.
      * right. right. intros m. rewrite E. reflexivity.
      * exfalso. exact (ents_at_fuel _ _ Ee).
  - right. left. exists msg. intros m. rewrite E. reflexivity.
  - right. right. intros m. rewrite E. reflexivity.
Qed.

(** X6. [canvas_copy_4bpp_be] on a palette that holds the entries it
    declares, when every nibble the rows use is below [num_ents]: the call
    returns, and byte [j] of a source row gives the two destination pixels
    [2j] and [2j + 1], the entries selected by its high and by its low
    nibble. *)
Theorem canvas_copy_4bpp_be_rows (fuel : nat) (palette : Palette)
    (dest dest_stride src src_stride width n : Z) (m0 : mem) :
  src_stride <> 0 -> 0 <= width -> 0 <= n ->
  4 * width <= Z.abs dest_stride ->
  (Z.to_nat n < fuel)%nat ->
  num_ents palette <= Z.of_nat (length (ents palette)) ->
  (forall k j, 0 <= k < n -> 0 <= j < width / 2 ->
     Z.land (load8 wire (src + k * src_stride + j)) 0x0f < num_ents palette
     /\ Z.land (Z.shiftr (load8 wire (src + k * src_stride + j)) 4) 0x0f
        < num_ents palette) ->
  (width mod 2 = 1 ->
   forall k, 0 <= k < n ->
     Z.land (Z.shiftr (load8 wire (src + k * src_stride)) 4) 0x0f
     < num_ents palette) ->
  exists m,
    canvas_copy_4bpp_be wire fuel dest dest_stride src src_stride width
                        (src + n * src_stride) (Some palette) m0 = Done m
    /\ forall k j, 0 <= k < n -> 0 <= j < width / 2 ->
         exists e_hi e_lo,
           ents palette
             !! Z.to_nat (Z.land (Z.shiftr
                                    (load8 wire (src + k * src_stride + j)) 4)
                                 0x0f) = Some e_hi
           /\ ents palette
                !! Z.to_nat (Z.land (load8 wire (src + k * src_stride + j)) 0x0f)
              = Some e_lo
           /\ load32 m (dest + k * dest_stride + 8 * j) = u32 e_hi
           /\ load32 m (dest + k * dest_stride + 8 * j + 4) = u32 e_lo.
Proof.
  intros Hs Hw Hn Hfit Hfuel Hlen Hvalid Htail. unfold canvas_copy_4bpp_be.
  assert (Hhalf : Z.shiftr width 1 = width / 2)
    by (rewrite Z.shiftr_div_pow2 by lia; reflexivity).
  assert (Hodd : Z.land width 1 = width mod 2)
    by (change 1 with (Z.ones 1); rewrite Z.land_ones by lia; reflexivity).
  pose proof (Z.div_mod width 2 ltac:(lia)) as Hdm.
  pose proof (Z.mod_pos_bound width 2 ltac:(lia)) as Hmod.
  assert (Hpairs : Z.of_nat (Z.to_nat (Z.shiftr width 1)) = width / 2).
  { rewrite Hhalf. apply Z2Nat.id. apply Z.div_pos; lia. }
  (* every line returns *)
  assert (Hline : forall k, 0 <= k < n ->
            exists mk, copy_4bpp_be_line wire palette width
                         (src + k * src_stride) (dest + k * dest_stride) m0
                       = Done mk).
  { intros k Hk. unfold copy_4bpp_be_line.
    destruct (copy_4bpp_be_pairs_valid palette (Z.to_nat (Z.shiftr width 1))
                Hlen (src + k * src_stride) (dest + k * dest_stride) m0)
      as ([d' m1] & Hr).
    { intros j Hj. apply Hvalid; lia. }
    rewrite Hr. cbn [mbind outcome_bind]. rewrite Hodd.
    destruct (width mod 2 =? 0) eqn:Ebit; [eexists; reflexivity|].
    apply Z.eqb_neq in Ebit.
    destruct (CopyFacts.ents_at_declared palette
                (Z.land (Z.shiftr (load8 wire (src + k * src_stride)) 4) 15)
                Hlen) as (e & _ & He).
    { pose proof (nibble_range (load8 wire (src + k * src_stride)) 4).
      specialize (Htail ltac:(lia) k Hk). lia. }
    rewrite He. cbn [mbind outcome_bind]. eexists. reflexivity. }
  pose proof (copy_rows (copy_4bpp_be_line wire palette width) (4 * width) fuel
                src src_stride dest dest_stride n m0 Hs Hfit Hn) as H.
  specialize (H ltac:(intros a b; apply copy_4bpp_be_line_uniform; lia) Hfuel).
  destruct (for_rows fuel (copy_4bpp_be_line wire palette width) src src_stride
              (src + n * src_stride) dest dest_stride m0) as [m|msg| |].
  2: { destruct H as (k & Hk & Hbody). destruct (Hline k Hk). congruence. }
  2: { destruct H as (k & Hk & Hbody). destruct (Hline k Hk). congruence. }
  2: contradiction.
  destruct H as [Hrows _]. exists m. split; [reflexivity|].
  intros k j Hk Hj. destruct (Hrows k Hk) as (mk & Hmk & Hag).
  rewrite !(agree_load32 _ _ _ _ _ Hag) by lia.
  unfold copy_4bpp_be_line in Hmk.
  destruct (copy_4bpp_be_pairs wire (Z.to_nat (Z.shiftr width 1)) palette
              (src + k * src_stride) (dest + k * dest_stride) m0)
    as [[d' m1]| | |] eqn:Hr; cbn [mbind outcome_bind] in Hmk;
    try discriminate Hmk.
  destruct (copy_4bpp_be_pairs_done palette _ _ _ _ _ Hr) as [Hend Hpix].
  cbn [fst snd] in Hend, Hpix.
  destruct (Hpix j ltac:(lia)) as (e_hi & e_lo & Ehi & Elo & Hph & Hpl).
  exists e_hi, e_lo.
  split; [exact (ents_at_done _ _ _ Ehi)|].
  split; [exact (ents_at_done _ _ _ Elo)|].
  rewrite Hodd in Hmk.
  destruct (width mod 2 =? 0).
  - injection Hmk as <-. split; assumption.
  - destruct (ents_at palette
                (Z.land (Z.shiftr (load8 wire (src + k * src_stride)) 4) 15))
      as [e| | |]; cbn [mbind outcome_bind] in Hmk; try discriminate Hmk.
    injection Hmk as <-.
    rewrite !load32_store32_other by lia. split; assumption.
Qed.

End Copies.

End Copy4Facts.

Module CopyExamples.
Import Convert Inputs CopyInputs.

Lemma canvas_copy_32bpp_rows_witness :
  exists m,
    canvas_copy_32bpp wire_2x2 3 100 (-8) 0 8 2 (0 + 2 * 8) blank = Done m
    /\ (forall k j, 0 <= k < 2 -> 0 <= j < 4 * 2 ->
          load8 m (100 + k * (-8) + j) = load8 wire_2x2 (0 + k * 8 + j))
    /\ (forall p,
          (forall k, 0 <= k < 2 ->
             ~ (100 + k * (-8) <= p < 100 + k * (-8) + 4 * 2)) ->
          m p = blank p).
Proof.
  apply (CopyFacts.canvas_copy_32bpp_rows wire_2x2 3 100 (-8) 0 8 2 2 blank);
    first [lia | simpl; lia].
Defined.

Lemma canvas_copy_24bpp_rows_witness :
  exists m,
    canvas_copy_24bpp wire_24bpp 2 100 8 0 6 2 (0 + 1 * 6) blank = Done m
    /\ forall k x, 0 <= k < 1 -> 0 <= x < 2 ->
         (forall c, 0 <= c < 3 ->
            load8 m (100 + k * 8 + 4 * x + c)
            = load8 wire_24bpp (0 + k * 6 + 3 * x + c))
         /\ m (100 + k * 8 + 4 * x + 3) = blank (100 + k * 8 + 4 * x + 3).
Proof.
  apply (CopyFacts.canvas_copy_24bpp_rows wire_24bpp 2 100 8 0 6 2 1 blank);
    first [lia | simpl; lia].
Defined.

Lemma canvas_copy_16bpp_rows_witness :
  exists m,
    canvas_copy_16bpp wire_16bpp 2 100 8 0 4 2 (0 + 1 * 4) blank = Done m
    /\ forall k x, 0 <= k < 1 -> 0 <= x < 2 ->
         load32 m (100 + k * 8 + 4 * x)
         = u32 (Pixel.canvas_16bpp_to_32bpp
                  (load16 wire_16bpp (0 + k * 4 + 2 * x))).
Proof.
  apply (CopyFacts.canvas_copy_16bpp_rows wire_16bpp 2 100 8 0 4 2 1 blank);
    first [lia | simpl; lia].
Defined.

Lemma canvas_copy_8bpp_rows_witness :
  ((forall k x, 0 <= k < 1 -> 0 <= x < 2 ->
      load8 wire_8bpp (0 + k * 2 + x) < num_ents palette16) ->
   exists m,
     canvas_copy_8bpp wire_8bpp 2 100 8 0 2 2 (0 + 1 * 2) (Some palette16) blank
     = Done m
     /\ forall k x, 0 <= k < 1 -> 0 <= x < 2 ->
          exists e,
            ents palette16 !! Z.to_nat (load8 wire_8bpp (0 + k * 2 + x)) = Some e
            /\ load32 m (100 + k * 8 + 4 * x) = u32 e)
  /\ ((exists k x, 0 <= k < 1 /\ 0 <= x < 2
                   /\ num_ents palette16 <= load8 wire_8bpp (0 + k * 2 + x)) ->
      canvas_copy_8bpp wire_8bpp 2 100 8 0 2 2 (0 + 1 * 2) (Some palette16) blank
      = Abort "*src_line < palette->num_ents").
Proof.
  apply (CopyFacts.canvas_copy_8bpp_rows wire_8bpp 2 palette16 100 8 0 2 2 1
           blank);
    first [lia | simpl; lia].
Defined.

Lemma canvas_copy_1bpp_be_rows_witness :
  exists m,
    canvas_copy_1bpp_be wire_1bpp_row 2 100 32 0 1 8 (0 + 1 * 1) (Some palette1)
                        blank = Done m
    /\ forall k x, 0 <= k < 1 -> 0 <= x < 8 ->
         load32 m (100 + k * 32 + 4 * x)
         = u32 (if Z.testbit (load8 wire_1bpp_row (0 + k * 1 + x / 8))
                             (7 - x mod 8)
                then 0xBB else 0xAA).
Proof.
  apply (CopyFacts.canvas_copy_1bpp_be_rows wire_1bpp_row 2 palette1 0xBB 0xAA
           100 32 0 1 8 1 blank);
    first [reflexivity | lia | simpl; lia].
Defined.

Lemma canvas_copy_4bpp_be_rows_witness :
  exists m,
    canvas_copy_4bpp_be wire_4bpp 2 100 12 0 2 3 (0 + 1 * 2) (Some palette16)
                        blank = Done m
    /\ forall k j, 0 <= k < 1 -> 0 <= j < 3 / 2 ->
         exists e_hi e_lo,
           ents palette16
             !! Z.to_nat (Z.land (Z.shiftr (load8 wire_4bpp (0 + k * 2 + j)) 4)
                                 0x0f) = Some e_hi
           /\ ents palette16
                !! Z.to_nat (Z.land (load8 wire_4bpp (0 + k * 2 + j)) 0x0f)
              = Some e_lo
           /\ load32 m (100 + k * 12 + 8 * j) = u32 e_hi
           /\ load32 m (100 + k * 12 + 8 * j + 4) = u32 e_lo.
Proof.
  apply (Copy4Facts.canvas_copy_4bpp_be_rows wire_4bpp 2 palette16
           100 12 0 2 3 1 blank);
    try (first [lia | simpl; lia]).
  - intros k j _ _. change (num_ents palette16) with 16.
    pose proof (Copy4Facts.nibble_range (load8 wire_4bpp (0 + k * 2 + j)) 0)
      as H0.
    pose proof (Copy4Facts.nibble_range (load8 wire_4bpp (0 + k * 2 + j)) 4).
    rewrite Z.shiftr_0_r in H0. lia.
  - intros _ k _. change (num_ents palette16) with 16.
    pose proof (Copy4Facts.nibble_range (load8 wire_4bpp (0 + k * 2)) 4). lia.
Defined.

(** The rows above, run: the pixels each copy gives. *)
Example copied_rows :
  (m ← canvas_copy_16bpp wire_16bpp 2 0 8 0 4 2 4 blank;
   Done (read_words m 0 2)) = Done [0x00ffffff; 0x000000ff]
  /\ (m ← canvas_copy_8bpp wire_8bpp 2 0 8 0 2 2 2 (Some palette16) blank;
      Done (read_words m 0 2)) = Done [103; 105]
  /\ (m ← canvas_copy_1bpp_be wire_1bpp_row 2 0 32 0 1 8 1 (Some palette1) blank;
      Done (read_words m 0 8))
     = Done [0xBB; 0xAA; 0xAA; 0xAA; 0xAA; 0xAA; 0xAA; 0xBB]
  /\ (m ← canvas_copy_24bpp wire_24bpp 2 0 8 0 6 2 6 blank;
      Done (read_bytes m 0 8)) = Done [1; 2; 3; 0; 4; 5; 6; 0].
Proof. repeat split; vm_compute; reflexivity. Qed.

End CopyExamples.

(** ** The in-place inversion of a decoded Quic image, and chunk chains *)





Module QuicTailFacts.
Import QuicTail Quic.


Section Chains.

Variable chunks : gmap Z DataChunk.

(** After the last chunk every call supplies nothing and leaves the input
    pointer where it is. *)
Lemma more_space_calls_at_end (delta : Z) (n : nat) (io_ptr : Z) :
  more_space_calls chunks n {| next := 0; address_delta := delta |} io_ptr
  = Done (replicate n (0, io_ptr), {| next := 0; address_delta := delta |}).
Proof.
  induction n as [|n IH]; [reflexivity|].
  cbn [more_space_calls]. unfold quic_usr_more_space. cbn [next].
  change (0 =? 0) with true. cbv iota. cbn [mbind outcome_bind].
  rewrite IH. reflexivity.
Qed.

(** X8. [quic_usr_more_space] on a chain of any length: successive calls
    supply the chunks of the chain one by one, in the order of their links,
    each with [size >> 2] words at the address its link gives moved by the
    address delta, the sum taken in the 64 bits of an [ADDRESS]; once the
    chain is used up every later call supplies zero words and leaves the
    input pointer at the last chunk. *)
Theorem quic_usr_more_space_chain (delta : Z) (cs : list DataChunk)
    (a io_ptr : Z) (n : nat) :
  0 <= delta < 2 ^ 64 ->
  chain chunks delta a cs ->
  exists quic_data,
    more_space_calls chunks n {| next := a; address_delta := delta |} io_ptr
    = Done (take n (chain_calls delta a cs)
            ++ replicate (n - length cs) (0, chain_last delta a cs io_ptr),
            quic_data)
    /\ address_delta quic_data = delta
    /\ ((length cs <= n)%nat -> next quic_data = 0).
Proof.
  intros _. revert a io_ptr n.
  induction cs as [|c cs IH]; intros a io_ptr n Hchain.
  - cbn [chain] in Hchain. subst a.
    exists {| next := 0; address_delta := delta |}.
    rewrite more_space_calls_at_end. cbn [chain_calls chain_last length].
    rewrite take_nil, Nat.sub_0_r. cbn [app]. auto.
  - cbn [chain] in Hchain. destruct Hchain as (Ha & Hc & Hrest).
    destruct n as [|n].
    + exists {| next := a; address_delta := delta |}.
      cbn [more_space_calls take length Nat.sub replicate app address_delta].
      split; [reflexivity|]. split; [reflexivity|]. intros H. cbn in H. lia.
    + destruct (IH (chunk_next c) (GET_ADDRESS (u64 (a + delta))) n Hrest)
        as (qd & Hcalls & Hdelta & Hnext).
      exists qd. cbn [more_space_calls]. unfold quic_usr_more_space at 1.
      cbn [next address_delta].
      assert (Ha0 : (a =? 0) = false) by (apply Z.eqb_neq; lia).
      rewrite Ha0, Hc. cbn [mbind outcome_bind].
      rewrite Hcalls. cbn [mbind outcome_bind chain_calls chain_last length take].
      replace (S n - S (length cs))%nat with (n - length cs)%nat by lia.
      split; [reflexivity|]. split; [exact Hdelta|].
      intros H. apply Hnext. lia.
Qed.

End Chains.

End QuicTailFacts.

Module QuicTailExamples.
Import QuicTail Quic Inputs QuicInputs.


(** The pixel [0xFF332211] inverted in place keeps its top byte, where
    [canvas_surf_to_invers] clears it. *)
Example tinted_inverted_in_place :
  pixels_of (canvas_get_quic_invers 2 true surface_tinted 1 1) 1
  = Some [0xFFCCDDEE]
  /\ pixels_of (Mask.canvas_surf_to_invers Mask.image_surface 2 surface_tinted) 1
     = Some [0x00CCDDEE].
Proof. split; vm_compute; reflexivity. Qed.

Lemma quic_usr_more_space_chain_witness :
  exists quic_data,
    more_space_calls three_chunks 4 {| next := 2000; address_delta := 100 |} 1000
    = Done (take 4 (chain_calls 100 2000 [chunk_b; chunk_c])
            ++ replicate (4 - length [chunk_b; chunk_c])
                 (0, chain_last 100 2000 [chunk_b; chunk_c] 1000),
            quic_data)
    /\ address_delta quic_data = 100
    /\ ((length [chunk_b; chunk_c] <= 4)%nat -> next quic_data = 0).
Proof.
  apply (QuicTailFacts.quic_usr_more_space_chain three_chunks 100
           [chunk_b; chunk_c] 2000 1000 4).
  - lia.
  - vm_compute. repeat split; congruence.
Defined.

(** Four calls after the first chunk: one word of the six bytes of the
    second chunk, one word of the third, then nothing. *)
Example four_calls :
  (r ← more_space_calls three_chunks 4 {| next := 2000; address_delta := 100 |}
         1000;
   Done r.1)
  = Done [(1, 2100); (1, 3100); (0, 3100); (0, 3100)].
Proof. vm_compute. reflexivity. Qed.

(** The same chain under a delta that takes the sums around [2^64]. *)
Example four_calls_wrapped :
  chain far_chunks (2 ^ 64 - 900) 3000 [chunk_b_far; chunk_c]
  /\ (r ← more_space_calls far_chunks 4
             {| next := 3000; address_delta := 2 ^ 64 - 900 |} 1000;
      Done r.1)
     = Done [(1, 2100); (1, 3100); (0, 3100); (0, 3100)].
Proof. split; [vm_compute; repeat split; congruence | vm_compute; reflexivity]. Qed.

End QuicTailExamples.

(** ** Localizing a palette more than once *)

Module LocalizeFacts.
Import PaletteResolver Pixel.

Lemma canvas_16bpp_twice_table :
  forall_below (2 ^ 15) (fun c =>
    let once := canvas_16bpp_to_32bpp c in
    Bool.eqb (canvas_16bpp_to_32bpp once =? once)
             ((c =? 0) || (c =? 32767))) = true.
Proof. vm_compute. reflexivity. Qed.

Lemma canvas_16bpp_twice (e : Z) :
  canvas_16bpp_to_32bpp (canvas_16bpp_to_32bpp e) = canvas_16bpp_to_32bpp e
  <-> e mod 2 ^ 15 = 0 \/ e mod 2 ^ 15 = 2 ^ 15 - 1.
Proof.
  rewrite (PixelFacts.canvas_16bpp_low15 e).
  pose proof (Z.mod_pos_bound e (2 ^ 15) ltac:(lia)) as Hr.
  pose proof (forall_below_spec (2 ^ 15) _ canvas_16bpp_twice_table
                (e mod 2 ^ 15) Hr) as H.
  cbv beta zeta in H. apply Bool.eqb_prop in H.
  change 32767 with (2 ^ 15 - 1) in H.
  split.
  - intros E. apply Z.eqb_eq in E. rewrite E in H. symmetry in H.
    apply orb_true_iff in H. destruct H as [H|H]; apply Z.eqb_eq in H; auto.
  - intros E. apply Z.eqb_eq. rewrite H. apply orb_true_iff.
    destruct E as [E|E]; [left|right]; apply Z.eqb_eq; exact E.
Qed.

(** X9. [canvas_localize_palette] is not idempotent in 16-bit colour mode:
    run a second time on the same buffer it converts the converted entries
    again, and a declared entry comes out of the second pass as it came out
    of the first only when its 15 colour bits are all clear or all set. *)
Theorem canvas_localize_palette_twice (palette : Palette) (i : nat) (e : Z) :
  ents palette !! i = Some e ->
  (i < Z.to_nat (num_ents palette))%nat ->
  let once := canvas_localize_palette 5 palette in
  let twice := canvas_localize_palette 5 once in
  ents once !! i = Some (canvas_16bpp_to_32bpp e)
  /\ ents twice !! i = Some (canvas_16bpp_to_32bpp (canvas_16bpp_to_32bpp e))
  /\ (ents twice !! i = ents once !! i
      <-> e mod 2 ^ 15 = 0 \/ e mod 2 ^ 15 = 2 ^ 15 - 1).
Proof.
  intros He Hi once twice.
  assert (Honce : ents once !! i = Some (canvas_16bpp_to_32bpp e)).
  { unfold once. rewrite PaletteFacts.canvas_localize_palette_entries.
    destruct (decide (5 = 5 /\ (i < Z.to_nat (num_ents palette))%nat));
      [|exfalso; intuition lia].
    rewrite He. reflexivity. }
  assert (Hnum : num_ents once = num_ents palette) by reflexivity.
  assert (Htwice : ents twice !! i
                   = Some (canvas_16bpp_to_32bpp (canvas_16bpp_to_32bpp e))).
  { unfold twice. rewrite PaletteFacts.canvas_localize_palette_entries.
    rewrite Hnum.
    destruct (decide (5 = 5 /\ (i < Z.to_nat (num_ents palette))%nat));
      [|exfalso; intuition lia].
    rewrite Honce. reflexivity. }
  split; [exact Honce|]. split; [exact Htwice|].
  rewrite Honce, Htwice. rewrite <- canvas_16bpp_twice.
  split; [intros [= E]; exact E | intros ->; reflexivity].
Qed.

Section Flags.

Variable palette_cache : Type.
Variable palette_cache_put : palette_cache -> Z -> Palette -> palette_cache.
Variable palette_cache_get : palette_cache -> Z -> Palette.

(** X10. The flags of [canvas_get_palett]: a null palette address gives a
    null palette; FromCache takes the palette the cache holds, also when
    CacheMe is set with it, and neither of the two changes the canvas or the
    cache; an inline palette without CacheMe is localized in the wire
    buffer and the palette cache is not given it. *)
Theorem canvas_get_palett_flags (st : canvas_state palette_cache)
    (base_palette : Z) (flags : bitmap_flags) :
  (base_palette = 0 ->
   canvas_get_palett palette_cache palette_cache_put palette_cache_get
                     st base_palette flags
   = Done (PaletteNull, st))
  /\ (base_palette <> 0 -> BITMAP_PAL_FROM_CACHE flags = true ->
      canvas_get_palett palette_cache palette_cache_put palette_cache_get
                        st base_palette flags
      = Done (PaletteCached
                (palette_cache_get (palette_cache_opaque st) base_palette),
              st))
  /\ (forall contents,
        base_palette <> 0 -> BITMAP_PAL_FROM_CACHE flags = false ->
        BITMAP_PAL_CACHE_ME flags = false ->
        inline_palettes st !! GET_ADDRESS base_palette = Some contents ->
        canvas_get_palett palette_cache palette_cache_put palette_cache_get
                          st base_palette flags
        = Done (PaletteInline (GET_ADDRESS base_palette),
                {| color_shift := color_shift st;
                   inline_palettes :=
                     <[GET_ADDRESS base_palette :=
                         canvas_localize_palette (color_shift st) contents]>
                       (inline_palettes st);
                   palette_cache_opaque := palette_cache_opaque st |})).
Proof.
  split; [|split].
  - intros ->. reflexivity.
  - intros Hbase Hfrom. unfold canvas_get_palett.
    apply Z.eqb_neq in Hbase. rewrite Hbase, Hfrom. reflexivity.
  - intros contents Hbase Hfrom Hme Hin. unfold canvas_get_palett.
    apply Z.eqb_neq in Hbase. rewrite Hbase, Hfrom, Hin, Hme. reflexivity.
Qed.

End Flags.

End LocalizeFacts.

Module LocalizeExamples.
Import PaletteResolver Pixel Inputs.

Lemma canvas_localize_palette_twice_witness :
  ents (canvas_localize_palette 5 palette16) !! 3%nat
  = Some (canvas_16bpp_to_32bpp 103)
  /\ ents (canvas_localize_palette 5 (canvas_localize_palette 5 palette16))
       !! 3%nat
     = Some (canvas_16bpp_to_32bpp (canvas_16bpp_to_32bpp 103))
  /\ (ents (canvas_localize_palette 5 (canvas_localize_palette 5 palette16))
        !! 3%nat
      = ents (canvas_localize_palette 5 palette16) !! 3%nat
      <-> 103 mod 2 ^ 15 = 0 \/ 103 mod 2 ^ 15 = 2 ^ 15 - 1).
Proof.
  apply (LocalizeFacts.canvas_localize_palette_twice palette16 3 103);
    first [reflexivity | simpl; lia].
Defined.

(** The 16-bit colour [0x0421] (the components 1, 1, 1) becomes [0x080808]
    and, localized again, [0x100042]. *)
Example localized_twice :
  canvas_16bpp_to_32bpp 0x0421 = 0x080808
  /\ canvas_16bpp_to_32bpp 0x080808 = 0x100042.
Proof. split; reflexivity. Qed.

End LocalizeExamples.

(** ** [canvas_bitmap_to_surface]: errors, formats outside the switch and
    bitmaps without rows *)

Lemma with_data_same (s : cairo_surface_t) :
  with_data s (cairo_image_surface_get_data s) = s.
Proof. destruct s. reflexivity. Qed.

Module SurfaceFacts.
Import Convert.

Section Surface.

Variable wire : mem.
Variable surface_create : cairo_format_t -> Z -> Z -> bool -> cairo_surface_t.

(** The orientation step of [canvas_bitmap_to_surface] when it does not
    abort. *)
Lemma orientation_done (bitmap : Bitmap) (dest dest_stride : Z) :
  BITMAP_TOP_DOWN (bitmap_flags_of bitmap) = true \/ 0 < bitmap_y bitmap ->
  exists d ds,
    (if BITMAP_TOP_DOWN (bitmap_flags_of bitmap)
     then Done (dest, dest_stride)
     else _ ← ASSERT (0 <? bitmap_y bitmap) "bitmap->y > 0";
          Done (dest + dest_stride * (s32 (bitmap_y bitmap) - 1),
                - dest_stride))
    = Done (d, ds).
Proof.
  intros H. destruct (BITMAP_TOP_DOWN (bitmap_flags_of bitmap)) eqn:E.
  - eexists _, _. reflexivity.
  - destruct H as [H|H]; [discriminate|].
    unfold ASSERT. rewrite (proj2 (Z.ltb_lt _ _) H).
    eexists _, _. reflexivity.
Qed.

(** X11. The errors of [canvas_bitmap_to_surface]: a surface that could not
    be created, a bottom-up bitmap without rows, and a palette-indexed
    format without a palette (whether or not the bitmap has rows). *)
Theorem canvas_bitmap_to_surface_errors (fuel : nat) (bitmap : Bitmap)
    (palette : option Palette) :
  let created := new_bitmap_surface surface_create bitmap in
  (cairo_surface_status created <> CAIRO_STATUS_SUCCESS ->
   canvas_bitmap_to_surface wire surface_create fuel bitmap palette
   = Abort "create surface failed")
  /\ (cairo_surface_status created = CAIRO_STATUS_SUCCESS ->
      BITMAP_TOP_DOWN (bitmap_flags_of bitmap) = false ->
      bitmap_y bitmap <= 0 ->
      canvas_bitmap_to_surface wire surface_create fuel bitmap palette
      = Abort "bitmap->y > 0")
  /\ (cairo_surface_status created = CAIRO_STATUS_SUCCESS ->
      BITMAP_TOP_DOWN (bitmap_flags_of bitmap) = true \/ 0 < bitmap_y bitmap ->
      bitmap_format_of bitmap = BITMAP_FMT_8BIT
      \/ bitmap_format_of bitmap = BITMAP_FMT_4BIT_BE
      \/ bitmap_format_of bitmap = BITMAP_FMT_1BIT_BE ->
      canvas_bitmap_to_surface wire surface_create fuel bitmap None
      = Abort "no palette").
Proof.
  intros created. split; [|split].
  - intros Hstatus. unfold canvas_bitmap_to_surface. cbv zeta. fold created.
    destruct (decide (cairo_surface_status created <> CAIRO_STATUS_SUCCESS));
      [reflexivity | contradiction].
  - intros Hstatus Hflag Hy. unfold canvas_bitmap_to_surface. cbv zeta.
    fold created.
    destruct (decide (cairo_surface_status created <> CAIRO_STATUS_SUCCESS));
      [congruence|].
    rewrite Hflag. unfold ASSERT.
    rewrite (proj2 (Z.ltb_ge _ _) Hy). reflexivity.
  - intros Hstatus Horient Hfmt. unfold canvas_bitmap_to_surface. cbv zeta.
    fold created.
    destruct (decide (cairo_surface_status created <> CAIRO_STATUS_SUCCESS));
      [congruence|].
    destruct (orientation_done bitmap 0
                (cairo_image_surface_get_stride created) Horient)
      as (d & ds & E).
    rewrite E. cbn [mbind outcome_bind].
    destruct Hfmt as [-> | [-> | ->]]; reflexivity.
Qed.

(** X12. [canvas_bitmap_to_surface] does not reject the formats its switch
    leaves out: for [BITMAP_FMT_INVALID], [BITMAP_FMT_1BIT_LE] and
    [BITMAP_FMT_4BIT_LE] it returns the surface as the backend created it,
    no row converted and no error raised, whatever the palette. *)
Theorem canvas_bitmap_to_surface_other_formats (fuel : nat) (bitmap : Bitmap)
    (palette : option Palette) :
  let created := new_bitmap_surface surface_create bitmap in
  cairo_surface_status created = CAIRO_STATUS_SUCCESS ->
  BITMAP_TOP_DOWN (bitmap_flags_of bitmap) = true \/ 0 < bitmap_y bitmap ->
  bitmap_format_of bitmap = BITMAP_FMT_INVALID
  \/ bitmap_format_of bitmap = BITMAP_FMT_1BIT_LE
  \/ bitmap_format_of bitmap = BITMAP_FMT_4BIT_LE ->
  canvas_bitmap_to_surface wire surface_create fuel bitmap palette
  = Done created.
Proof.
  intros created Hstatus Horient Hfmt.
  unfold canvas_bitmap_to_surface. cbv zeta. fold created.
  destruct (decide (cairo_surface_status created <> CAIRO_STATUS_SUCCESS));
    [congruence|].
  destruct (orientation_done bitmap 0
              (cairo_image_surface_get_stride created) Horient)
    as (d & ds & E).
  rewrite E. cbn [mbind outcome_bind].
  destruct Hfmt as [-> | [-> | ->]]; cbn [mbind outcome_bind];
    rewrite with_data_same; reflexivity.
Qed.

(** X13. A bitmap whose rows end where they start, because it has no rows,
    because its stride is zero, or because [y * stride] is a multiple of
    [2^32]: for the formats without a palette the row loop is left at once
    and the surface is returned as the backend created it. *)
Theorem canvas_bitmap_to_surface_no_rows (fuel : nat) (bitmap : Bitmap)
    (palette : option Palette) :
  let created := new_bitmap_surface surface_create bitmap in
  cairo_surface_status created = CAIRO_STATUS_SUCCESS ->
  BITMAP_TOP_DOWN (bitmap_flags_of bitmap) = true \/ 0 < bitmap_y bitmap ->
  u32 (bitmap_y bitmap * s32 (bitmap_stride bitmap)) = 0 ->
  (0 < fuel)%nat ->
  bitmap_format_of bitmap = BITMAP_FMT_32BIT
  \/ bitmap_format_of bitmap = BITMAP_FMT_RGBA
  \/ bitmap_format_of bitmap = BITMAP_FMT_24BIT
  \/ bitmap_format_of bitmap = BITMAP_FMT_16BIT ->
  canvas_bitmap_to_surface wire surface_create fuel bitmap palette
  = Done created.
Proof.
  intros created Hstatus Horient Hend Hfuel Hfmt.
  unfold canvas_bitmap_to_surface. cbv zeta. fold created.
  destruct (decide (cairo_surface_status created <> CAIRO_STATUS_SUCCESS));
    [congruence|].
  destruct (orientation_done bitmap 0
              (cairo_image_surface_get_stride created) Horient)
    as (d & ds & E).
  rewrite E. cbn [mbind outcome_bind]. rewrite Hend.
  destruct fuel as [|fuel]; [lia|].
  assert (Hloop : forall body a s b t m,
            for_rows (S fuel) body a s (a + 0) b t m = Done m).
  { intros. cbn [for_rows]. replace (a + 0) with a by lia.
    rewrite Z.eqb_refl. reflexivity. }
  destruct Hfmt as [-> | [-> | [-> | ->]]];
    unfold canvas_copy_32bpp, canvas_copy_24bpp, canvas_copy_16bpp;
    rewrite Hloop; cbn [mbind outcome_bind];
    rewrite with_data_same; reflexivity.
Qed.

End Surface.

End SurfaceFacts.

Module SurfaceExamples.
Import Convert Inputs CopyInputs SurfaceInputs.

(** The three errors on concrete bitmaps. *)
Example surface_errors :
  canvas_bitmap_to_surface wire_2x2 failing_create 3 (bitmap_2x2 no_flags) None
  = Abort "create surface failed"
  /\ canvas_bitmap_to_surface wire_2x2 Mask.image_surface_create 3
       bitmap_no_rows None
     = Abort "bitmap->y > 0"
  /\ canvas_bitmap_to_surface wire_2x2 Mask.image_surface_create 3
       (bitmap_of_format BITMAP_FMT_8BIT 2) None
     = Abort "no palette".
Proof. repeat split; vm_compute; reflexivity. Qed.

Lemma canvas_bitmap_to_surface_other_formats_witness :
  canvas_bitmap_to_surface wire_2x2 Mask.image_surface_create 0
    (bitmap_of_format BITMAP_FMT_4BIT_LE 1) None
  = Done (new_bitmap_surface Mask.image_surface_create
            (bitmap_of_format BITMAP_FMT_4BIT_LE 1)).
Proof.
  apply (SurfaceFacts.canvas_bitmap_to_surface_other_formats wire_2x2
           Mask.image_surface_create 0 (bitmap_of_format BITMAP_FMT_4BIT_LE 1)
           None);
    [reflexivity | left; reflexivity | right; right; reflexivity].
Defined.

Lemma canvas_bitmap_to_surface_no_rows_witness :
  canvas_bitmap_to_surface wire_2x2 Mask.image_surface_create 1
    (bitmap_of_format BITMAP_FMT_32BIT 0) None
  = Done (new_bitmap_surface Mask.image_surface_create
            (bitmap_of_format BITMAP_FMT_32BIT 0)).
Proof.
  apply (SurfaceFacts.canvas_bitmap_to_surface_no_rows wire_2x2
           Mask.image_surface_create 1 (bitmap_of_format BITMAP_FMT_32BIT 0)
           None);
    [reflexivity | left; reflexivity | reflexivity | lia | left; reflexivity].
Defined.

(** A bitmap of [2^16] rows with a stride of [2^16] bytes has no rows to
    the loop. *)
Example wrapped_rows : u32 (2 ^ 16 * s32 (2 ^ 16)) = 0.
Proof. reflexivity. Qed.

End SurfaceExamples.

(** ** Masks: every format and orientation, errors, and requests without
    caching *)

Lemma memcpy_loop_map_bytes (from : mem) (n : nat) : forall dest src m,
  memcpy_loop n from dest src m = Mask.map_bytes (fun b => b) n from src dest m.
Proof.
  induction n as [|n IH]; intros dest src m; [reflexivity|].
  cbn [memcpy_loop Mask.map_bytes]. apply IH.
Qed.

Module MaskRowsFacts.
Import Mask.

Section Rows.

Variable GL_CANVAS GDI_CANVAS : bool.
Variable surface_create : cairo_format_t -> Z -> Z -> bool -> cairo_surface_t.
Variable wire : mem.

Lemma mask_formats (format : bitmap_format) :
  format = BITMAP_FMT_1BIT_LE \/ format = BITMAP_FMT_1BIT_BE
  <-> format = copied_format GL_CANVAS GDI_CANVAS
      \/ format = reversed_format GL_CANVAS GDI_CANVAS.
Proof.
  unfold copied_format, reversed_format.
  destruct (GL_CANVAS || GDI_CANVAS); tauto.
Qed.

(** A mask of the format whose scanlines are copied: every byte is the
    source byte, complemented with [invers]. *)
Lemma canvas_get_bitmap_mask_copied (fuel : nat) (bitmap : Bitmap)
    (invers : bool) :
  let surface := surface_create CAIRO_FORMAT_A1 (bitmap_x bitmap)
                                (bitmap_y bitmap) true in
  let line_size := Z.shiftr (ALIGN (bitmap_x bitmap) 8) 3 in
  let dest_stride := cairo_image_surface_get_stride surface in
  bitmap_format_of bitmap = copied_format GL_CANVAS GDI_CANVAS ->
  cairo_surface_status surface = CAIRO_STATUS_SUCCESS ->
  0 <= bitmap_x bitmap < 2 ^ 31 ->
  0 < bitmap_y bitmap < 2 ^ 31 ->
  0 < bitmap_stride bitmap < 2 ^ 31 ->
  bitmap_y bitmap * bitmap_stride bitmap < 2 ^ 32 ->
  line_size <= dest_stride ->
  (Z.to_nat (bitmap_y bitmap) < fuel)%nat ->
  exists m,
    canvas_get_bitmap_mask GL_CANVAS GDI_CANVAS surface_create wire fuel
      bitmap invers = Done (with_data surface m)
    /\ forall k j, 0 <= k < bitmap_y bitmap -> 0 <= j < line_size ->
         let row := if bool_decide (BITMAP_TOP_DOWN (bitmap_flags_of bitmap)
                                    = GL_CANVAS)
                    then bitmap_y bitmap - 1 - k else k in
         load8 m (row * dest_stride + j)
         = (if invers then Bits.invert_byte else fun b => b)
             (load8 wire (GET_ADDRESS (bitmap_data bitmap)
                          + k * bitmap_stride bitmap + j)).
Proof.
  intros surface line_size dest_stride Hfmt Hstatus Hx Hy Hs Hend Hfit Hfuel.
  pose proof (line_size_nonneg _ (proj1 Hx)) as Hls. fold line_size in Hls.
  set (f := if invers then Bits.invert_byte else fun b : Z => b).
  assert (Hu8 : forall p, u8 (f (load8 wire p)) = f (load8 wire p)).
  { intros p. unfold f. destruct invers.
    - unfold Bits.invert_byte. apply u8_idem.
    - unfold load8. apply u8_idem. }
  set (y := bitmap_y bitmap) in *.
  set (src := bitmap_data bitmap).
  set (src_stride := bitmap_stride bitmap) in *.
  set (m0 := cairo_image_surface_get_data surface).
  assert (Hif : forall a s e b ds m,
            (if invers
             then for_rows fuel (map_line Bits.invert_byte wire line_size)
                           a s e b ds m
             else for_rows fuel (memcpy_line wire line_size) a s e b ds m)
            = for_rows fuel (map_line f wire line_size) a s e b ds m).
  { intros. unfold f. destruct invers; [reflexivity|].
    apply for_rows_ext. intros a' b' m'. unfold memcpy_line, map_line, memcpy.
    rewrite memcpy_loop_map_bytes. reflexivity. }
  unfold canvas_get_bitmap_mask, GET_ADDRESS.
  fold src. fold y. fold src_stride. fold surface. fold dest_stride. fold m0.
  destruct (decide (cairo_surface_status surface <> CAIRO_STATUS_SUCCESS));
    [congruence|].
  rewrite (s32_small src_stride) by lia.
  rewrite (u32_small (y * src_stride)) by nia.
  rewrite (line_size_small _ Hx). fold line_size.
  rewrite Hfmt.
  destruct (decide (copied_format GL_CANVAS GDI_CANVAS
                    = copied_format GL_CANVAS GDI_CANVAS)) as [_|E];
    [|contradiction].
  destruct (bool_decide (BITMAP_TOP_DOWN (bitmap_flags_of bitmap) = GL_CANVAS)).
  - unfold ASSERT. rewrite (proj2 (Z.ltb_lt 0 y)) by lia.
    cbn [mbind outcome_bind]. rewrite (s32_small y) by lia.
    rewrite Hif.
    destruct (map_rows_bytes f wire fuel line_size y src src_stride
                (0 + dest_stride * (y - 1)) (- dest_stride) m0)
      as (m & Hm & Hbytes); try lia.
    rewrite Hm. cbn [mbind outcome_bind].
    exists m. split; [reflexivity|]. intros k j Hk Hj. cbn zeta.
    replace ((y - 1 - k) * dest_stride + j)
      with (0 + dest_stride * (y - 1) + k * - dest_stride + j) by lia.
    rewrite Hbytes by lia. apply Hu8.
  - cbn [mbind outcome_bind]. rewrite Hif.
    destruct (map_rows_bytes f wire fuel line_size y src src_stride
                0 dest_stride m0)
      as (m & Hm & Hbytes); try lia.
    rewrite Hm. cbn [mbind outcome_bind].
    exists m. split; [reflexivity|]. intros k j Hk Hj. cbn zeta.
    replace (k * dest_stride + j) with (0 + k * dest_stride + j) by lia.
    rewrite Hbytes by lia. apply Hu8.
Qed.

(** X14. [canvas_get_bitmap_mask] on a 1-bit bitmap of either bit order: the
    call returns the created surface, and source row [k] is found in
    destination row [k], or in row [y - 1 - k] when the bitmap is bottom-up
    (top-down in the GL build); every byte of it is the source byte, with
    its bits reversed for the format the build reverses, and complemented
    when [invers] is set. *)
Theorem canvas_get_bitmap_mask_rows (fuel : nat) (bitmap : Bitmap)
    (invers : bool) :
  let surface := surface_create CAIRO_FORMAT_A1 (bitmap_x bitmap)
                                (bitmap_y bitmap) true in
  let line_size := Z.shiftr (ALIGN (bitmap_x bitmap) 8) 3 in
  let dest_stride := cairo_image_surface_get_stride surface in
  bitmap_format_of bitmap = BITMAP_FMT_1BIT_LE
  \/ bitmap_format_of bitmap = BITMAP_FMT_1BIT_BE ->
  cairo_surface_status surface = CAIRO_STATUS_SUCCESS ->
  0 <= bitmap_x bitmap < 2 ^ 31 ->
  0 < bitmap_y bitmap < 2 ^ 31 ->
  0 < bitmap_stride bitmap < 2 ^ 31 ->
  bitmap_y bitmap * bitmap_stride bitmap < 2 ^ 32 ->
  line_size <= dest_stride ->
  (Z.to_nat (bitmap_y bitmap) < fuel)%nat ->
  exists m,
    canvas_get_bitmap_mask GL_CANVAS GDI_CANVAS surface_create wire fuel
      bitmap invers = Done (with_data surface m)
    /\ forall k j, 0 <= k < bitmap_y bitmap -> 0 <= j < line_size ->
         let row := if bool_decide (BITMAP_TOP_DOWN (bitmap_flags_of bitmap)
                                    = GL_CANVAS)
                    then bitmap_y bitmap - 1 - k else k in
         let byte := load8 wire (GET_ADDRESS (bitmap_data bitmap)
                                 + k * bitmap_stride bitmap + j) in
         let ordered :=
           if decide (bitmap_format_of bitmap
                      = reversed_format GL_CANVAS GDI_CANVAS)
           then Bits.revers_bits byte else byte in
         load8 m (row * dest_stride + j)
         = if invers then Bits.invert_byte ordered else ordered.
Proof.
  intros surface line_size dest_stride Hfmt Hstatus Hx Hy Hs Hend Hfit Hfuel.
  apply mask_formats in Hfmt. destruct Hfmt as [Hfmt|Hfmt].
  - destruct (canvas_get_bitmap_mask_copied fuel bitmap invers Hfmt Hstatus
                Hx Hy Hs Hend Hfit Hfuel) as (m & Hm & Hbytes).
    exists m. split; [exact Hm|]. intros k j Hk Hj. cbv zeta.
    specialize (Hbytes k j Hk Hj). cbv zeta in Hbytes.
    eapply eq_trans; [exact Hbytes|].
    destruct (decide (bitmap_format_of bitmap
                      = reversed_format GL_CANVAS GDI_CANVAS)) as [E|_].
    + exfalso. rewrite Hfmt in E.
      exact (FusedFacts.reversed_not_copied GL_CANVAS GDI_CANVAS (eq_sym E)).
    + destruct invers; reflexivity.
  - destruct (FusedFacts.canvas_get_bitmap_mask_reversed GL_CANVAS GDI_CANVAS
                surface_create wire fuel bitmap invers Hfmt Hstatus
                Hx Hy Hs Hend Hfit Hfuel) as (m & Hm & Hbytes).
    exists m. split; [exact Hm|]. intros k j Hk Hj. cbv zeta.
    specialize (Hbytes k j Hk Hj). cbv zeta in Hbytes.
    eapply eq_trans; [exact Hbytes|].
    destruct (decide (bitmap_format_of bitmap
                      = reversed_format GL_CANVAS GDI_CANVAS)) as [_|E];
      [|contradiction].
    destruct invers; [unfold Bits.fused_byte, Bits.invert_byte|];
      reflexivity.
Qed.

(** X15. The errors of [canvas_get_bitmap_mask]: a surface that could not be
    created; a bitmap without rows whose rows would be flipped; and every
    format other than the two 1-bit ones, with or without inversion. *)
Theorem canvas_get_bitmap_mask_errors (fuel : nat) (bitmap : Bitmap)
    (invers : bool) :
  let surface := surface_create CAIRO_FORMAT_A1 (bitmap_x bitmap)
                                (bitmap_y bitmap) true in
  (cairo_surface_status surface <> CAIRO_STATUS_SUCCESS ->
   canvas_get_bitmap_mask GL_CANVAS GDI_CANVAS surface_create wire fuel
     bitmap invers = Abort "create surface failed")
  /\ (cairo_surface_status surface = CAIRO_STATUS_SUCCESS ->
      BITMAP_TOP_DOWN (bitmap_flags_of bitmap) = GL_CANVAS ->
      bitmap_y bitmap <= 0 ->
      canvas_get_bitmap_mask GL_CANVAS GDI_CANVAS surface_create wire fuel
        bitmap invers = Abort "bitmap->y > 0")
  /\ (cairo_surface_status surface = CAIRO_STATUS_SUCCESS ->
      BITMAP_TOP_DOWN (bitmap_flags_of bitmap) <> GL_CANVAS
      \/ 0 < bitmap_y bitmap ->
      bitmap_format_of bitmap <> BITMAP_FMT_1BIT_LE ->
      bitmap_format_of bitmap <> BITMAP_FMT_1BIT_BE ->
      canvas_get_bitmap_mask GL_CANVAS GDI_CANVAS surface_create wire fuel
        bitmap invers = Abort "invalid bitmap format").
Proof.
  intros surface. split; [|split].
  - intros Hstatus. unfold canvas_get_bitmap_mask. cbv zeta. fold surface.
    destruct (decide (cairo_surface_status surface <> CAIRO_STATUS_SUCCESS));
      [reflexivity | contradiction].
  - intros Hstatus Hflip Hy. unfold canvas_get_bitmap_mask. cbv zeta.
    fold surface.
    destruct (decide (cairo_surface_status surface <> CAIRO_STATUS_SUCCESS));
      [congruence|].
    rewrite bool_decide_eq_true_2 by exact Hflip.
    unfold ASSERT. rewrite (proj2 (Z.ltb_ge _ _) Hy). reflexivity.
  - intros Hstatus Horient Hle Hbe. unfold canvas_get_bitmap_mask. cbv zeta.
    fold surface.
    destruct (decide (cairo_surface_status surface <> CAIRO_STATUS_SUCCESS));
      [congruence|].
    assert (Hc : bitmap_format_of bitmap <> copied_format GL_CANVAS GDI_CANVAS).
    { intros E.
      destruct (proj2 (mask_formats (bitmap_format_of bitmap)) (or_introl E));
        contradiction. }
    assert (Hr : bitmap_format_of bitmap
                 <> reversed_format GL_CANVAS GDI_CANVAS).
    { intros E.
      destruct (proj2 (mask_formats (bitmap_format_of bitmap)) (or_intror E));
        contradiction. }
    destruct (decide (bitmap_format_of bitmap
                      = copied_format GL_CANVAS GDI_CANVAS)); [contradiction|].
    destruct (decide (bitmap_format_of bitmap
                      = reversed_format GL_CANVAS GDI_CANVAS));
      [contradiction|].
    destruct (bool_decide (BITMAP_TOP_DOWN (bitmap_flags_of bitmap)
                           = GL_CANVAS)) eqn:Eflip.
    + apply bool_decide_eq_true_1 in Eflip.
      destruct Horient as [H|H]; [contradiction|].
      unfold ASSERT. rewrite (proj2 (Z.ltb_lt _ _) H).
      cbn [mbind outcome_bind]. destruct invers; reflexivity.
    + cbn [mbind outcome_bind]. destruct invers; reflexivity.
Qed.

End Rows.

End MaskRowsFacts.

(** ** [canvas_get_mask] without caching, its edges, and a second request
    for an inverse *)

Module GetMaskFacts.
Import Canvas.

Section GetMask.

Variable GL_CANVAS GDI_CANVAS : bool.
Variable CAIRO_CANVAS_CACHE CAIRO_CANVAS_IMAGE_CACHE : bool.
Variable CAIRO_CANVAS_CACH_IS_SHARED : bool.
Variable surface_create : cairo_format_t -> Z -> Z -> bool -> cairo_surface_t.
Variable cairo_image_surface_create : cairo_format_t -> Z -> Z -> cairo_surface_t.
Variable wire : mem.
Variable images : gmap Z BitmapImage.

(** X16. A mask request for a bitmap that is not to be cached (the
    descriptor has no CacheMe, or the build has no [CAIRO_CANVAS_CACHE]):
    the inversion the mask asks for is done by the conversion itself; the
    surface returned is a new object with one reference and no inverse
    attached, nothing else of the surfaces changes and the bits cache is
    left as it was. *)
Theorem canvas_get_mask_uncached (fuel : nat) (mask : QMask)
    (st : canvas_state) (image : BitmapImage) (s : cairo_surface_t) :
  mask_bitmap mask <> 0 ->
  images !! GET_ADDRESS (mask_bitmap mask) = Some image ->
  descriptor_type (descriptor image) = IMAGE_TYPE_BITMAP ->
  CAIRO_CANVAS_CACHE = false \/ IMAGE_CACHE_ME (descriptor image) = false ->
  Mask.canvas_get_bitmap_mask GL_CANVAS GDI_CANVAS surface_create wire fuel
    (bitmap image) (MASK_INVERS mask) = Done s ->
  canvas_get_mask GL_CANVAS GDI_CANVAS CAIRO_CANVAS_CACHE
    CAIRO_CANVAS_IMAGE_CACHE CAIRO_CANVAS_CACH_IS_SHARED surface_create
    cairo_image_surface_create wire images fuel mask st
  = Done (Some (fresh (dom (surfaces st))),
          {| surfaces :=
               <[fresh (dom (surfaces st)) :=
                   {| object_surface := s; object_refs := 1;
                      object_inverse := None |}]> (surfaces st);
             bits_cache := bits_cache st |}).
Proof.
  intros Hmask Himage Htype Hme Hs.
  unfold canvas_get_mask.
  apply Z.eqb_neq in Hmask. rewrite Hmask, Himage. cbv zeta. rewrite Htype.
  assert (Hcache : (if CAIRO_CANVAS_CACHE
                    then IMAGE_CACHE_ME (descriptor image) else false) = false).
  { destruct Hme as [-> | ->]; [reflexivity|].
    destruct CAIRO_CANVAS_CACHE; reflexivity. }
  rewrite Hcache. cbn [negb]. rewrite andb_true_r, Hs.
  cbn [mbind outcome_bind]. unfold new_surface. cbn [mbind outcome_bind].
  rewrite andb_negb_r.
  destruct (CAIRO_CANVAS_CACHE || CAIRO_CANVAS_IMAGE_CACHE); reflexivity.
Qed.

(** X18. [canvas_handle_inverse_user_data] computes the inverse of a surface
    once: a second request for the same surface, whatever fuel it is given,
    returns the instance the first request attached and takes one more
    reference on it; it creates no object. *)
Theorem canvas_handle_inverse_user_data_again (fuel fuel' : nat)
    (surface : loc) (h : gmap loc surface_object) (o : surface_object)
    (inv : cairo_surface_t) :
  h !! surface = Some o ->
  object_inverse o = None ->
  Mask.compute_inverse cairo_image_surface_create fuel (object_surface o)
    = Done inv ->
  exists inv_surf h1,
    canvas_handle_inverse_user_data CAIRO_CANVAS_CACH_IS_SHARED
      cairo_image_surface_create fuel surface h = Done (inv_surf, h1)
    /\ inv_surf <> surface
    /\ h1 !! inv_surf = Some {| object_surface := inv; object_refs := 2;
                                object_inverse := None |}
    /\ canvas_handle_inverse_user_data CAIRO_CANVAS_CACH_IS_SHARED
         cairo_image_surface_create fuel' surface h1
       = Done (inv_surf,
               <[inv_surf := {| object_surface := inv; object_refs := 3;
                                object_inverse := None |}]> h1).
Proof.
  intros Hs Hnone Hinv.
  pose proof (MaskFacts.canvas_handle_inverse_user_data_first
                CAIRO_CANVAS_CACH_IS_SHARED cairo_image_surface_create
                fuel surface h o inv Hs Hnone Hinv) as Hfirst.
  cbv zeta in Hfirst.
  pose proof (MaskFacts.fresh_not_allocated h surface o Hs) as Hne.
  set (inv_surf := fresh (dom h)) in *.
  set (o2 := {| object_surface := inv; object_refs := 2;
                object_inverse := None |}) in *.
  set (h1 := <[inv_surf := o2]> (<[surface := set_inverse o (Some inv_surf)]> h))
    in *.
  exists inv_surf, h1.
  split; [exact Hfirst|]. split; [exact Hne|].
  assert (Hinv1 : h1 !! inv_surf = Some o2) by apply lookup_insert_eq.
  split; [exact Hinv1|].
  assert (Hs1 : h1 !! surface = Some (set_inverse o (Some inv_surf))).
  { unfold h1. rewrite lookup_insert_ne by exact Hne. apply lookup_insert_eq. }
  unfold canvas_handle_inverse_user_data, cairo_surface_get_user_data.
  rewrite Hs1. cbn [mbind option_bind set_inverse object_inverse].
  do 2 f_equal. unfold cairo_surface_reference.
  apply map_eq. intros l.
  destruct (decide (l = inv_surf)) as [->|Hl].
  - rewrite lookup_alter_eq, lookup_insert_eq, Hinv1. reflexivity.
  - rewrite lookup_alter_ne, lookup_insert_ne by congruence. reflexivity.
Qed.

(** X19. The inverse attached to a surface lives as long as the surface and
    is released with it: after a request for the inverse of a surface with
    one reference, destroying the reference the request returned leaves the
    inverse attached, and destroying the surface then releases the inverse
    through [__release_surface]; the two objects are gone and nothing else
    has changed. *)
Theorem inverse_released_with_surface (fuel : nat) (surface : loc)
    (h : gmap loc surface_object) (o : surface_object) (inv : cairo_surface_t) :
  h !! surface = Some o ->
  object_inverse o = None ->
  object_refs o = 1 ->
  Mask.compute_inverse cairo_image_surface_create fuel (object_surface o)
    = Done inv ->
  exists inv_surf h1,
    canvas_handle_inverse_user_data CAIRO_CANVAS_CACH_IS_SHARED
      cairo_image_surface_create fuel surface h = Done (inv_surf, h1)
    /\ cairo_surface_get_user_data surface (cairo_surface_destroy inv_surf h1)
       = Some inv_surf
    /\ object_refs <$> cairo_surface_destroy inv_surf h1 !! inv_surf = Some 1
    /\ cairo_surface_destroy surface (cairo_surface_destroy inv_surf h1)
       = delete surface h.
Proof.
  intros Hs Hnone Hrefs Hinv.
  pose proof (MaskFacts.canvas_handle_inverse_user_data_first
                CAIRO_CANVAS_CACH_IS_SHARED cairo_image_surface_create
                fuel surface h o inv Hs Hnone Hinv) as Hfirst.
  cbv zeta in Hfirst.
  pose proof (MaskFacts.fresh_not_allocated h surface o Hs) as Hne.
  assert (Hfresh : h !! fresh (dom h) = None)
    by (apply not_elem_of_dom_1, is_fresh).
  set (inv_surf := fresh (dom h)) in *.
  set (o1 := set_inverse o (Some inv_surf)) in *.
  set (o2 := {| object_surface := inv; object_refs := 2;
                object_inverse := None |}) in *.
  set (h1 := <[inv_surf := o2]> (<[surface := o1]> h)) in *.
  exists inv_surf, h1. split; [exact Hfirst|].
  set (o3 := {| object_surface := inv; object_refs := 1;
                object_inverse := None |}).
  assert (Hd1 : cairo_surface_destroy inv_surf h1 = <[inv_surf := o3]> h1).
  { unfold cairo_surface_destroy. cbn [cairo_surface_destroy_rec].
    unfold h1 at 1. rewrite lookup_insert_eq. reflexivity. }
  rewrite Hd1.
  set (h2 := <[inv_surf := o3]> h1).
  assert (Hs2 : h2 !! surface = Some o1).
  { unfold h2, h1. rewrite !lookup_insert_ne by exact Hne.
    apply lookup_insert_eq. }
  assert (Hi2 : h2 !! inv_surf = Some o3) by apply lookup_insert_eq.
  split; [|split].
  - unfold cairo_surface_get_user_data. rewrite Hs2. reflexivity.
  - rewrite Hi2. reflexivity.
  - unfold cairo_surface_destroy.
    assert (Hsize : exists n, size h2 = S n).
    { destruct (size h2) eqn:E; [|eexists; reflexivity].
      apply map_size_empty_iff in E. rewrite E in Hs2.
      rewrite lookup_empty in Hs2. discriminate. }
    destruct Hsize as (n & ->).
    cbn [cairo_surface_destroy_rec]. rewrite Hs2.
    assert (Ho1 : object_refs o1 = 1) by exact Hrefs.
    rewrite Ho1. change (1 <=? 1) with true. cbv iota.
    cbn [object_inverse o1 set_inverse].
    rewrite lookup_delete_ne by (intros E; apply Hne; symmetry; exact E).
    rewrite Hi2. cbn [object_refs o3]. change (1 <=? 1) with true. cbv iota.
    cbn [object_inverse o3].
    apply map_eq. intros l.
    destruct (decide (l = inv_surf)) as [->|Hl].
    + rewrite lookup_delete_eq, lookup_delete_ne by congruence.
      symmetry. exact Hfresh.
    + rewrite lookup_delete_ne by congruence.
      destruct (decide (l = surface)) as [->|Hl'].
      * rewrite !lookup_delete_eq. reflexivity.
      * rewrite !lookup_delete_ne by congruence.
        unfold h2, h1. rewrite !lookup_insert_ne by congruence. reflexivity.
Qed.

End GetMask.

End GetMaskFacts.

Module MaskMoreExamples.
Import Mask Canvas Inputs SurfaceInputs MaskInputs.

Lemma canvas_get_bitmap_mask_rows_witness :
  exists m,
    canvas_get_bitmap_mask false false image_surface_create wire_mask_be 3
      bitmap_mask_le true
    = Done (with_data (image_surface_create CAIRO_FORMAT_A1 8 2 true) m)
    /\ forall k j, 0 <= k < 2 -> 0 <= j < Z.shiftr (ALIGN 8 8) 3 ->
         let row := if bool_decide (false = false) then 2 - 1 - k else k in
         let byte := load8 wire_mask_be (GET_ADDRESS 0 + k * 1 + j) in
         let ordered :=
           if decide (BITMAP_FMT_1BIT_LE = reversed_format false false)
           then Bits.revers_bits byte else byte in
         load8 m (row * 4 + j)
         = if true then Bits.invert_byte ordered else ordered.
Proof.
  apply (MaskRowsFacts.canvas_get_bitmap_mask_rows false false
           image_surface_create wire_mask_be 3 bitmap_mask_le true);
    first [reflexivity | left; reflexivity | simpl; lia
          | vm_compute; congruence | vm_compute; lia].
Defined.

(** The rows [0x05] and [0x81] of a bottom-up bitmap in the copied bit
    order: the rows change places, and with inversion every byte is
    complemented. *)
Example copied_mask_rows :
  pixels_of (canvas_get_bitmap_mask false false image_surface_create
               wire_mask_be 3 bitmap_mask_le false) 2
  = Some [0x81; 0x05]
  /\ pixels_of (canvas_get_bitmap_mask false false image_surface_create
                  wire_mask_be 3 bitmap_mask_le true) 2
     = Some [0x7e; 0xfa].
Proof. split; vm_compute; reflexivity. Qed.

Example mask_errors :
  canvas_get_bitmap_mask false false failing_create wire_mask_be 3
    bitmap_mask_le false = Abort "create surface failed"
  /\ canvas_get_bitmap_mask false false image_surface_create wire_mask_be 3
       bitmap_mask_8bit true = Abort "invalid bitmap format".
Proof. split; vm_compute; reflexivity. Qed.

Lemma canvas_get_mask_uncached_witness :
  canvas_get_mask false false true true true image_surface_create
    image_surface wire_mask more_images 2 uncached_mask empty_canvas
  = Done (Some (fresh (dom (surfaces empty_canvas))),
          {| surfaces :=
               <[fresh (dom (surfaces empty_canvas)) :=
                   {| object_surface := inverted_conversion; object_refs := 1;
                      object_inverse := None |}]> (surfaces empty_canvas);
             bits_cache := bits_cache empty_canvas |}).
Proof.
  apply (GetMaskFacts.canvas_get_mask_uncached false false true true true
           image_surface_create image_surface wire_mask more_images 2
           uncached_mask empty_canvas uncached_image inverted_conversion);
    first [reflexivity | right; reflexivity | vm_compute; congruence].
Defined.

(** Without CacheMe the caller is handed the complement [0xFA] of the byte
    [0x05] and the cache stays empty. *)
Example uncached_mask_is_inverted :
  match canvas_get_mask false false true true true image_surface_create
          image_surface wire_mask more_images 2 uncached_mask empty_canvas
  with
  | Done (Some surface, st') =>
      first_byte (surfaces st') surface = Some 0xFA
      /\ bits_cache st' = ∅
  | _ => False
  end.
Proof. vm_compute. split; reflexivity. Qed.

(** A mask without a bitmap, and a mask whose image is a Quic image. *)
Example mask_edges :
  canvas_get_mask false false true true true image_surface_create
    image_surface wire_mask more_images 2 no_mask empty_canvas
  = Done (None, empty_canvas)
  /\ canvas_get_mask false false true true true image_surface_create
       image_surface wire_mask more_images 2 quic_mask empty_canvas
     = Abort "invalid image type".
Proof. split; vm_compute; reflexivity. Qed.

Lemma canvas_handle_inverse_user_data_again_witness :
  exists inv_surf h1,
    canvas_handle_inverse_user_data true image_surface 3 0%nat shared_heap
    = Done (inv_surf, h1)
    /\ inv_surf <> 0%nat
    /\ h1 !! inv_surf = Some {| object_surface := surface_a1_inverse;
                                object_refs := 2; object_inverse := None |}
    /\ canvas_handle_inverse_user_data true image_surface 0 0%nat h1
       = Done (inv_surf,
               <[inv_surf := {| object_surface := surface_a1_inverse;
                                object_refs := 3; object_inverse := None |}]>
                 h1).
Proof.
  apply (GetMaskFacts.canvas_handle_inverse_user_data_again true image_surface
           3 0 0%nat shared_heap shared_object surface_a1_inverse);
    first [reflexivity | vm_compute; congruence].
Defined.

Lemma inverse_released_with_surface_witness :
  exists inv_surf h1,
    canvas_handle_inverse_user_data true image_surface 3 0%nat shared_heap
    = Done (inv_surf, h1)
    /\ cairo_surface_get_user_data 0%nat (cairo_surface_destroy inv_surf h1)
       = Some inv_surf
    /\ object_refs <$> cairo_surface_destroy inv_surf h1 !! inv_surf = Some 1
    /\ cairo_surface_destroy 0%nat (cairo_surface_destroy inv_surf h1)
       = delete 0%nat shared_heap.
Proof.
  apply (GetMaskFacts.inverse_released_with_surface true image_surface
           3 0%nat shared_heap shared_object surface_a1_inverse);
    first [reflexivity | vm_compute; congruence].
Defined.

End MaskMoreExamples.

(** ** Glyph bits: the byte and line loops *)

Module GlyphLemmas.
Import Glyph GlyphVocabulary.

Lemma put_bits_table :
  forall_below 256 (fun val =>
    forall_below 8 (fun offset =>
      forall_below 9 (fun n =>
        put_bits_check false val offset n && put_bits_check true val offset n)))
  = true.
Proof. vm_compute. reflexivity. Qed.

Lemma put_bits_checked (GL_CANVAS : bool) (val offset n b : Z) :
  0 <= val < 256 -> 0 <= offset < 8 -> 0 <= n <= 8 -> 0 <= b < 8 ->
  Z.testbit (u8 (first_bits GL_CANVAS val offset n)) (bit_position GL_CANVAS b)
  = (offset <=? b) && (b <? offset + n) && Z.testbit val (7 - (b - offset))
  /\ Z.testbit (u8 (second_bits GL_CANVAS val offset n))
               (bit_position GL_CANVAS b)
     = (8 + b <? offset + n) && Z.testbit val (7 - (8 + b - offset)).
Proof.
  intros Hval Hoff Hn Hb.
  pose proof (forall_below_spec 256 _ put_bits_table val Hval) as H.
  cbv beta in H.
  pose proof (forall_below_spec 8 _ H offset Hoff) as H1. cbv beta in H1.
  pose proof (forall_below_spec 9 _ H1 n ltac:(lia)) as H2. cbv beta in H2.
  apply andb_true_iff in H2. destruct H2 as [Hf Ht].
  assert (Hc : put_bits_check GL_CANVAS val offset n = true)
    by (destruct GL_CANVAS; assumption).
  unfold put_bits_check in Hc. cbv zeta in Hc.
  pose proof (forall_below_spec 8 _ Hc b Hb) as H3. cbv beta in H3.
  apply andb_true_iff in H3. destruct H3 as [E1 E2].
  apply Bool.eqb_prop in E1, E2. split; assumption.
Qed.

(** The two stores of [__canvas_put_bits]. *)
Lemma put_bits_stores (GL_CANVAS : bool) (dest offset val n : Z) (m : mem) :
  let D := dest + offset / 8 in
  let o := offset mod 8 in
  let m1 := store8 m D (Z.lor (first_bits GL_CANVAS (u8 val) o n) (load8 m D)) in
  __canvas_put_bits GL_CANVAS dest offset val n m
  = if n - MIN (8 - o) n =? 0 then m1
    else store8 m1 (D + 1)
           (Z.lor (second_bits GL_CANVAS (u8 val) o n) (load8 m1 (D + 1))).
Proof.
  intros D o m1. unfold __canvas_put_bits, first_bits, second_bits in *.
  subst m1 D o.
  rewrite Z.shiftr_div_pow2 by lia. change (2 ^ 3) with 8.
  change 7 with (Z.ones 3). rewrite Z.land_ones by lia. change (2 ^ 3) with 8.
  cbv zeta.
  destruct GL_CANVAS; reflexivity.
Qed.

Lemma u8_testbit (x k : Z) : 0 <= k < 8 -> Z.testbit (u8 x) k = Z.testbit x k.
Proof. intros Hk. unfold u8. apply Z.mod_pow2_bits_low. lia. Qed.

Lemma load8_or_store8 (m : mem) (p A k : Z) :
  0 <= k < 8 ->
  Z.testbit (load8 (store8 m p (Z.lor A (load8 m p))) p) k
  = Z.testbit (u8 A) k || Z.testbit (load8 m p) k.
Proof.
  intros Hk. rewrite load8_store8_same, !u8_testbit by lia.
  apply Z.lor_spec.
Qed.

Lemma bit_position_range (GL_CANVAS : bool) (b : Z) :
  0 <= b < 8 -> 0 <= bit_position GL_CANVAS b < 8.
Proof. unfold bit_position. destruct GL_CANVAS; lia. Qed.

Lemma dest_bit_byte (GL_CANVAS : bool) (m : mem) (q : Z) :
  dest_bit GL_CANVAS m q
  = Z.testbit (load8 m (q / 8)) (bit_position GL_CANVAS (q mod 8)).
Proof. unfold dest_bit, bit_msb, bit_lsb, bit_position. destruct GL_CANVAS; reflexivity. Qed.

Ltac cmp_to_prop :=
  repeat match goal with
         | H : (_ <=? _) = true |- _ => apply Z.leb_le in H
         | H : (_ <=? _) = false |- _ => apply Z.leb_gt in H
         | H : (_ <? _) = true |- _ => apply Z.ltb_lt in H
         | H : (_ <? _) = false |- _ => apply Z.ltb_ge in H
         end.

(** Decides an equation between boolean combinations of comparisons by
    cases on the comparisons. *)
Ltac cmp_cases :=
  repeat match goal with
         | |- context [?a <=? ?b] =>
             let E := fresh "E" in destruct (a <=? b) eqn:E
         | |- context [?a <? ?b] =>
             let E := fresh "E" in destruct (a <? b) eqn:E
         end;
  cmp_to_prop; try reflexivity; try (exfalso; lia).

(** [__canvas_put_bits] ORs the first [n] bits of [val], most significant
    first, into the destination bits from [8 * dest + offset] on. *)
Lemma put_bits_spec (GL_CANVAS : bool) (dest offset val n : Z) (m : mem) (q : Z) :
  0 <= n <= 8 ->
  dest_bit GL_CANVAS (__canvas_put_bits GL_CANVAS dest offset val n m) q
  = dest_bit GL_CANVAS m q
    || ((8 * dest + offset <=? q) && (q <? 8 * dest + offset + n)
        && Z.testbit (u8 val) (7 - (q - (8 * dest + offset)))).
Proof.
  intros Hn. rewrite put_bits_stores. cbv zeta.
  pose proof (Z.div_mod offset 8 ltac:(lia)) as Hoff.
  pose proof (Z.mod_pos_bound offset 8 ltac:(lia)) as Ho.
  pose proof (Z.div_mod q 8 ltac:(lia)) as Hq.
  pose proof (Z.mod_pos_bound q 8 ltac:(lia)) as Hb.
  pose proof (u8_range val) as Hval.
  set (D := dest + offset / 8) in *.
  set (o := offset mod 8) in *.
  set (B := q / 8) in *. set (b := q mod 8) in *.
  assert (HQ : 8 * dest + offset = 8 * D + o) by (unfold D; lia).
  rewrite HQ.
  pose proof (bit_position_range GL_CANVAS b Hb) as Hpos.
  destruct (put_bits_checked GL_CANVAS (u8 val) o n b Hval Ho Hn Hb)
    as [Hfirst Hsecond].
  assert (Hnow : n - MIN (8 - o) n = 0 <-> o + n <= 8).
  { unfold MIN. destruct (8 - o <=? n) eqn:E;
      [apply Z.leb_le in E | apply Z.leb_gt in E]; lia. }
  rewrite !dest_bit_byte. fold B b.
  set (v := Z.testbit (u8 val)) in *.
  destruct (n - MIN (8 - o) n =? 0) eqn:En;
    [apply Z.eqb_eq in En; apply Hnow in En
    | apply Z.eqb_neq in En;
      assert (Hlong : 8 < o + n) by (destruct (decide (o + n <= 8)) as [H|H];
                                     [apply Hnow in H; contradiction | lia])].
  - destruct (decide (B = D)) as [->|HBD].
    + rewrite load8_or_store8 by lia. rewrite Hfirst.
      rewrite orb_comm.
      replace (q - (8 * D + o)) with (b - o) by lia.
      destruct (v (7 - (b - o))); rewrite ?andb_true_r, ?andb_false_r;
        [|reflexivity].
      f_equal. cmp_cases.
    + rewrite load8_store8_other by lia.
      replace ((8 * D + o <=? q) && (q <? 8 * D + o + n)) with false
        by cmp_cases.
      rewrite orb_false_r. reflexivity.
  - destruct (decide (B = D + 1)) as [->|HBD1].
    + rewrite load8_or_store8 by lia. rewrite Hsecond.
      rewrite load8_store8_other by lia.
      rewrite orb_comm.
      replace (q - (8 * D + o)) with (8 + b - o) by lia.
      destruct (v (7 - (8 + b - o))); rewrite ?andb_true_r, ?andb_false_r;
        [|reflexivity].
      f_equal. cmp_cases.
    + rewrite load8_store8_other by lia.
      destruct (decide (B = D)) as [->|HBD].
      * rewrite load8_or_store8 by lia. rewrite Hfirst.
        rewrite orb_comm.
        replace (q - (8 * D + o)) with (b - o) by lia.
        destruct (v (7 - (b - o))); rewrite ?andb_true_r, ?andb_false_r;
          [|reflexivity].
        f_equal. cmp_cases.
      * rewrite load8_store8_other by lia.
        replace ((8 * D + o <=? q) && (q <? 8 * D + o + n)) with false
          by cmp_cases.
        rewrite orb_false_r. reflexivity.
Qed.

Lemma bit_msb_byte (wire : mem) (src d : Z) :
  0 <= d < 8 ->
  bit_msb wire (8 * src + d) = Z.testbit (load8 wire src) (7 - d).
Proof.
  intros Hd. unfold bit_msb.
  replace ((8 * src + d) / 8) with src
    by (apply (Z.div_unique _ _ _ d); lia).
  replace ((8 * src + d) mod 8) with d
    by (apply (Z.mod_unique _ _ src d); lia).
  reflexivity.
Qed.

(** [canvas_put_bits] ORs [n] bits of the source, most significant bit of
    each byte first, into the destination bits from [8 * dest + dest_offset]
    on, and returns. *)
Lemma canvas_put_bits_spec (GL_CANVAS : bool) (wire : mem) (fuel : nat) :
  forall dest dest_offset src n m,
  0 <= n <= 8 * (Z.of_nat fuel - 1) ->
  exists m',
    canvas_put_bits GL_CANVAS wire fuel dest dest_offset src n m = Done m'
    /\ forall q,
         dest_bit GL_CANVAS m' q
         = dest_bit GL_CANVAS m q
           || ((8 * dest + dest_offset <=? q)
               && (q <? 8 * dest + dest_offset + n)
               && bit_msb wire (8 * src + (q - (8 * dest + dest_offset)))).
Proof.
  induction fuel as [|fuel IH]; intros dest dest_offset src n m Hn; [lia|].
  cbn [canvas_put_bits].
  destruct (n =? 0) eqn:En; [apply Z.eqb_eq in En | apply Z.eqb_neq in En].
  - exists m. split; [reflexivity|]. intros q. subst n.
    replace ((8 * dest + dest_offset <=? q) && (q <? 8 * dest + dest_offset + 0))
      with false by cmp_cases.
    rewrite orb_false_r. reflexivity.
  - cbv zeta.
    assert (Hnow : 0 <= MIN n 8 <= 8 /\ MIN n 8 <= n
                   /\ (MIN n 8 < n -> MIN n 8 = 8)).
    { unfold MIN. destruct (n <=? 8) eqn:E; cmp_to_prop; lia. }
    set (now := MIN n 8) in *.
    destruct (IH dest (dest_offset + now) (src + 1) (n - now)
                (__canvas_put_bits GL_CANVAS dest dest_offset (load8 wire src)
                                   now m))
      as (m' & Hm' & Hbits).
    { unfold MIN in now. destruct (n <=? 8) eqn:E; cmp_to_prop; lia. }
    exists m'. split; [exact Hm'|].
    intros q. rewrite Hbits, put_bits_spec by lia.
    rewrite u8_small by apply load8_range.
    rewrite <- orb_assoc. f_equal.
    set (Q := 8 * dest + dest_offset).
    replace (8 * dest + (dest_offset + now)) with (Q + now) by (unfold Q; lia).
    destruct (decide (Q <= q < Q + now)) as [Hin|Hout].
    + rewrite (bit_msb_byte wire src (q - Q)) by lia.
      replace ((Q + now <=? q) && (q <? Q + now + (n - now))) with false
        by cmp_cases.
      rewrite orb_false_r.
      destruct (Z.testbit (load8 wire src) (7 - (q - Q)));
        rewrite ?andb_true_r, ?andb_false_r; [|reflexivity].
      cmp_cases.
    + replace ((Q <=? q) && (q <? Q + now)) with false by cmp_cases.
      cbn [andb orb].
      destruct (decide (Q + now <= q < Q + n)) as [Hin'|Hout'].
      * assert (now = 8) by lia.
        replace (8 * (src + 1) + (q - (Q + now))) with (8 * src + (q - Q))
          by lia.
        destruct (bit_msb wire (8 * src + (q - Q)));
          rewrite ?andb_true_r, ?andb_false_r; [|reflexivity].
        cmp_cases.
      * replace ((Q + now <=? q) && (q <? Q + now + (n - now))) with false
          by cmp_cases.
        replace ((Q <=? q) && (q <? Q + n)) with false by cmp_cases.
        reflexivity.
Qed.

Lemma put_lines_1bpp_spec (GL_CANVAS : bool) (wire : mem) (fuel : nat)
    (src_stride dest_stride left width : Z) (n : nat) :
  0 <= width <= 8 * (Z.of_nat fuel - 1) ->
  forall src dest m,
  exists m',
    put_lines_1bpp GL_CANVAS wire fuel n src src_stride dest dest_stride
                   left width m = Done m'
    /\ forall q,
         dest_bit GL_CANVAS m' q = true
         <-> dest_bit GL_CANVAS m q = true
             \/ exists i t,
                  0 <= i < Z.of_nat n /\ 0 <= t < width
                  /\ q = 8 * (dest + i * dest_stride) + left + t
                  /\ bit_msb wire (8 * (src - (i + 1) * src_stride) + t) = true.
Proof.
  intros Hw. induction n as [|n IH]; intros src dest m.
  - exists m. split; [reflexivity|]. intros q. split; [auto|].
    intros [H|(i & t & Hi & _)]; [exact H | lia].
  - cbn [put_lines_1bpp]. cbv zeta.
    destruct (canvas_put_bits_spec GL_CANVAS wire fuel dest left
                (src - src_stride) width m Hw) as (m1 & Hm1 & Hbits1).
    rewrite Hm1. cbn [mbind outcome_bind].
    destruct (IH (src - src_stride) (dest + dest_stride) m1)
      as (m' & Hm' & Hbits).
    exists m'. split; [exact Hm'|].
    intros q. rewrite Hbits, Hbits1. rewrite orb_true_iff, !andb_true_iff.
    rewrite Z.leb_le, Z.ltb_lt.
    split.
    + intros [[H|[[Hlo Hhi] Hbit]]|(i & t & Hi & Ht & Hq & Hbit)].
      * left. exact H.
      * right. exists 0, (q - (8 * dest + left)).
        split; [lia|]. split; [lia|]. split; [lia|].
        replace (src - (0 + 1) * src_stride) with (src - src_stride) by lia.
        exact Hbit.
      * right. exists (i + 1), t.
        split; [lia|]. split; [exact Ht|]. split; [lia|].
        replace (src - (i + 1 + 1) * src_stride)
          with (src - src_stride - (i + 1) * src_stride) by lia.
        exact Hbit.
    + intros [H|(i & t & Hi & Ht & Hq & Hbit)].
      * left. left. exact H.
      * destruct (decide (i = 0)) as [->|Hne].
        -- left. right. split; [lia|].
           replace (q - (8 * dest + left)) with t by lia.
           replace (src - (0 + 1) * src_stride) with (src - src_stride)
             in Hbit by lia.
           exact Hbit.
        -- right. exists (i - 1), t.
           split; [lia|]. split; [exact Ht|]. split; [lia|].
           replace (src - src_stride - (i - 1 + 1) * src_stride)
             with (src - (i + 1) * src_stride) by lia.
           exact Hbit.
Qed.

(** A byte updated in place. *)
Lemma confined_update8 (lo hi p : Z) (g : Z -> Z) :
  lo <= p < hi -> confined lo hi (fun m => store8 m p (g (load8 m p))).
Proof.
  intros Hp. split.
  - intros m q Hq. apply store8_other. lia.
  - intros m1 m2 H q Hq. rewrite !store8_at.
    destruct (decide (p = q)); [|apply H, Hq].
    rewrite (agree_load8 lo hi m1 m2 p H Hp). reflexivity.
Qed.

Lemma MAX_bytes (x y : Z) : 0 <= x < 256 -> 0 <= y < 256 -> 0 <= MAX x y < 256.
Proof. intros Hx Hy. unfold MAX. destruct (x >=? y); lia. Qed.

Section GlyphLines.

Variable wire : mem.

Lemma put_bytes_8bpp_confined (n : nat) : forall lo hi dest src,
  lo <= dest -> dest + Z.of_nat n <= hi ->
  confined lo hi (put_bytes_8bpp wire n dest src).
Proof.
  induction n as [|n IH]; intros lo hi dest src Hlo Hhi.
  - apply (confined_ext lo hi _ (fun m => m)); [reflexivity | apply confined_id].
  - apply (confined_ext lo hi _
             (fun m => put_bytes_8bpp wire n (dest + 1) (src + 1)
                         (store8 m dest (MAX (load8 m dest) (load8 wire src)))));
      [reflexivity|].
    apply (confined_compose lo hi
             (fun m => store8 m dest (MAX (load8 m dest) (load8 wire src)))).
    + apply (confined_update8 lo hi dest (fun old => MAX old (load8 wire src))).
      lia.
    + apply IH; lia.
Qed.

Lemma put_bytes_8bpp_load8 (n : nat) : forall dest src m j,
  0 <= j < Z.of_nat n ->
  load8 (put_bytes_8bpp wire n dest src m) (dest + j)
  = MAX (load8 m (dest + j)) (load8 wire (src + j)).
Proof.
  induction n as [|n IH]; intros dest src m j Hj; [lia|].
  cbn [put_bytes_8bpp].
  destruct (decide (j = 0)) as [->|Hne].
  - rewrite (confined_load8_outside (dest + 1) (dest + 1 + Z.of_nat n));
      [|apply put_bytes_8bpp_confined; lia|lia].
    rewrite !Z.add_0_r. rewrite load8_store8_same.
    apply u8_small, MAX_bytes; apply load8_range.
  - replace (dest + j) with (dest + 1 + (j - 1)) by lia.
    replace (src + j) with (src + 1 + (j - 1)) by lia.
    rewrite IH by lia. rewrite load8_store8_other by lia. reflexivity.
Qed.

(** The pair loop of the 4 bpp case. *)
Lemma put_pairs_4bpp_confined (n : nat) : forall lo hi dest i now,
  lo <= dest + i -> dest + i + 2 * Z.of_nat n <= hi ->
  exists g,
    confined lo hi g
    /\ forall m, put_pairs_4bpp wire n dest i now m
                 = (i + 2 * Z.of_nat n, now + Z.of_nat n, g m).
Proof.
  induction n as [|n IH]; intros lo hi dest i now Hlo Hhi.
  - exists (fun m => m). split; [apply confined_id|].
    intros m. cbn [put_pairs_4bpp]. f_equal. f_equal; lia.
  - destruct (IH lo hi dest (i + 2) (now + 1) ltac:(lia) ltac:(lia))
      as (g & Hg & E).
    exists (fun m =>
              g (store8
                   (store8 m (dest + i)
                      (MAX (load8 m (dest + i)) (Z.land (load8 wire now) 0xf0)))
                   (dest + i + 1)
                   (MAX (load8
                           (store8 m (dest + i)
                              (MAX (load8 m (dest + i))
                                   (Z.land (load8 wire now) 0xf0)))
                           (dest + i + 1))
                        (Z.shiftl (load8 wire now) 4)))).
    split.
    + apply (confined_compose lo hi
               (fun m => store8
                   (store8 m (dest + i)
                      (MAX (load8 m (dest + i)) (Z.land (load8 wire now) 0xf0)))
                   (dest + i + 1)
                   (MAX (load8
                           (store8 m (dest + i)
                              (MAX (load8 m (dest + i))
                                   (Z.land (load8 wire now) 0xf0)))
                           (dest + i + 1))
                        (Z.shiftl (load8 wire now) 4))) g); [|exact Hg].
      apply (confined_compose lo hi
               (fun m => store8 m (dest + i)
                           (MAX (load8 m (dest + i))
                                (Z.land (load8 wire now) 0xf0)))
               (fun m => store8 m (dest + i + 1)
                           (MAX (load8 m (dest + i + 1))
                                (Z.shiftl (load8 wire now) 4)))).
      * apply (confined_update8 lo hi (dest + i)
                 (fun old => MAX old (Z.land (load8 wire now) 0xf0))). lia.
      * apply (confined_update8 lo hi (dest + i + 1)
                 (fun old => MAX old (Z.shiftl (load8 wire now) 4))). lia.
    + intros m. cbn [put_pairs_4bpp]. cbv zeta. rewrite E.
      f_equal. f_equal; lia.
Qed.

Lemma put_pairs_4bpp_load8 (n : nat) : forall dest i now m j,
  0 <= j < Z.of_nat n ->
  load8 (put_pairs_4bpp wire n dest i now m).2 (dest + i + 2 * j)
  = MAX (load8 m (dest + i + 2 * j)) (Z.land (load8 wire (now + j)) 0xf0)
  /\ load8 (put_pairs_4bpp wire n dest i now m).2 (dest + i + 2 * j + 1)
     = u8 (MAX (load8 m (dest + i + 2 * j + 1))
               (Z.shiftl (load8 wire (now + j)) 4)).
Proof.
  induction n as [|n IH]; intros dest i now m j Hj; [lia|].
  cbn [put_pairs_4bpp]. cbv zeta.
  destruct (decide (j = 0)) as [->|Hne].
  - destruct (put_pairs_4bpp_confined n (dest + i + 2)
                (dest + i + 2 + 2 * Z.of_nat n) dest (i + 2) (now + 1)
                ltac:(lia) ltac:(lia)) as (g & Hg & E).
    rewrite E. cbn [snd].
    rewrite !(confined_load8_outside _ _ _ _ _ Hg) by lia.
    replace (dest + i + 2 * 0) with (dest + i) by lia.
    replace (now + 0) with now by lia.
    rewrite load8_store8_same.
    rewrite load8_store8_other by lia.
    rewrite load8_store8_same.
    rewrite load8_store8_other by lia.
    split; [|reflexivity].
    apply u8_small, MAX_bytes; [apply load8_range|].
    change 0xf0 with (Z.land 0xf0 (Z.ones 8)).
    rewrite Z.land_assoc, Z.land_ones by lia.
    apply Z.mod_pos_bound. lia.
  - set (m1 := store8 _ (dest + i + 1) _).
    destruct (IH dest (i + 2) (now + 1) m1 (j - 1) ltac:(lia)) as [H0 H1].
    replace (dest + (i + 2) + 2 * (j - 1)) with (dest + i + 2 * j) in * by lia.
    replace (now + 1 + (j - 1)) with (now + j) in * by lia.
    assert (E0 : load8 m1 (dest + i + 2 * j) = load8 m (dest + i + 2 * j))
      by (unfold m1; rewrite !load8_store8_other by lia; reflexivity).
    assert (E1 : load8 m1 (dest + i + 2 * j + 1)
                 = load8 m (dest + i + 2 * j + 1))
      by (unfold m1; rewrite !load8_store8_other by lia; reflexivity).
    rewrite E0 in H0. rewrite E1 in H1. split; assumption.
Qed.

End GlyphLines.

Lemma land_lnot_1 (w : Z) : Z.land w (Z.lnot 1) = 2 * (w / 2).
Proof.
  rewrite <- Z.ldiff_land. change 1 with (Z.ones 1).
  rewrite Z.ldiff_ones_r by lia.
  rewrite Z.shiftr_div_pow2, Z.shiftl_mul_pow2 by lia.
  change (2 ^ 1) with 2. lia.
Qed.

End GlyphLemmas.

(** ** [canvas_get_bits] and [canvas_get_image] *)

Lemma outcome_bind_done {A : Type} (o : outcome A) : (x ← o; Done x) = o.
Proof. destruct o; reflexivity. Qed.

Module ImagesFacts.
Import PaletteResolver Images Convert.

Section GetBits.

Variable wire : mem.
Variable surface_create : cairo_format_t -> Z -> Z -> bool -> cairo_surface_t.
Variable palette_cache : Type.
Variable palette_cache_put : palette_cache -> Z -> Palette -> palette_cache.
Variable palette_cache_get : palette_cache -> Z -> Palette.
Variable palette_cache_release : palette_cache -> Palette -> palette_cache.




(** X21. The two builds of [canvas_get_bits] return the same surface for a
    bitmap whose palette is not taken from the palette cache, when the
    inline palette holds the entries it declares and no more: the build
    without a palette cache localizes a copy, the build with one localizes
    the palette in the wire buffer. *)
Theorem canvas_get_bits_builds_agree (fuel : nat)
    (st : canvas_state palette_cache) (bitmap : Bitmap) :
  BITMAP_PAL_FROM_CACHE (bitmap_flags_of bitmap) = false ->
  (forall contents,
     inline_palettes st !! GET_ADDRESS (bitmap_palette bitmap) = Some contents ->
     num_ents contents = Z.of_nat (length (ents contents))) ->
  canvas_get_bits_uncached wire surface_create fuel (color_shift st)
    (inline_palettes st) bitmap
  = (r ← canvas_get_bits wire surface_create palette_cache palette_cache_put
           palette_cache_get palette_cache_release fuel st bitmap;
     Done r.1).
Proof.
  intros Hfrom Hexact.
  unfold canvas_get_bits_uncached, canvas_get_bits, canvas_get_palett.
  destruct (bitmap_palette bitmap =? 0) eqn:Ebase.
  - cbn [mbind outcome_bind palette_of].
    destruct (canvas_bitmap_to_surface wire surface_create fuel bitmap None);
      reflexivity.
  - rewrite Hfrom.
    destruct (inline_palettes st !! GET_ADDRESS (bitmap_palette bitmap))
      as [contents|] eqn:Ein; [|reflexivity].
    specialize (Hexact contents eq_refl). cbv zeta.
    assert (Hpalette :
              (if color_shift st =? 5
               then
                 if num_ents contents <=? Z.of_nat (length (ents contents))
                 then
                   canvas_bitmap_to_surface wire surface_create fuel bitmap
                     (Some (canvas_localize_palette (color_shift st)
                              {| num_ents := num_ents contents;
                                 ents := take (Z.to_nat (num_ents contents))
                                              (ents contents) |}))
                 else Fault
               else canvas_bitmap_to_surface wire surface_create fuel bitmap
                      (Some contents))
              = canvas_bitmap_to_surface wire surface_create fuel bitmap
                  (Some (canvas_localize_palette (color_shift st) contents))).
    { destruct (color_shift st =? 5) eqn:Eshift.
      - rewrite (proj2 (Z.leb_le _ _)) by lia.
        rewrite firstn_all2 by lia.
        destruct contents; reflexivity.
      - apply Z.eqb_neq in Eshift.
        rewrite PaletteFacts.canvas_localize_palette_other_mode
          by exact Eshift.
        reflexivity. }
    rewrite Hpalette.
    destruct (BITMAP_PAL_CACHE_ME (bitmap_flags_of bitmap));
      cbn [mbind outcome_bind palette_of inline_palettes];
      rewrite lookup_insert_eq; cbn [mbind outcome_bind];
      destruct (canvas_bitmap_to_surface wire surface_create fuel bitmap
                  (Some (canvas_localize_palette (color_shift st) contents)));
      reflexivity.
Qed.

End GetBits.

Section GetImage.
Import Canvas.

Variable CAIRO_CANVAS_NO_CHUNKS USE_GLZ : bool.
Variable images : gmap Z BitmapImage.
Variable canvas_get_quic canvas_get_lz canvas_get_glz
  : Z -> canvas_state -> outcome (loc * canvas_state).
Variable canvas_get_bits : Bitmap -> canvas_state -> outcome (loc * canvas_state).

(** X22. [canvas_get_image] and the bits cache: an image decoded from a
    descriptor with CacheMe is stored under the id of the descriptor, and a
    later descriptor of the type FromCache with that id is answered with
    the same surface, without decoding anything and without storing it
    again, whatever its own flags. *)
Theorem canvas_get_image_round_trip (addr later : Z) (st st1 : canvas_state)
    (image cached : BitmapImage) (surface : loc) :
  images !! GET_ADDRESS addr = Some image ->
  IMAGE_CACHE_ME (descriptor image) = true ->
  (descriptor_type (descriptor image) = IMAGE_TYPE_BITMAP
   /\ canvas_get_bits (bitmap image) st = Done (surface, st1))
  \/ (descriptor_type (descriptor image) = IMAGE_TYPE_QUIC
      /\ canvas_get_quic (GET_ADDRESS addr) st = Done (surface, st1)) ->
  images !! GET_ADDRESS later = Some cached ->
  descriptor_type (descriptor cached) = IMAGE_TYPE_FROM_CACHE ->
  descriptor_id (descriptor cached) = descriptor_id (descriptor image) ->
  let st2 := bits_cache_put (descriptor_id (descriptor image)) surface st1 in
  canvas_get_image CAIRO_CANVAS_NO_CHUNKS USE_GLZ images canvas_get_quic
    canvas_get_lz canvas_get_glz canvas_get_bits addr st
  = Done (surface, st2)
  /\ bits_cache st2 !! descriptor_id (descriptor image) = Some surface
  /\ canvas_get_image CAIRO_CANVAS_NO_CHUNKS USE_GLZ images canvas_get_quic
       canvas_get_lz canvas_get_glz canvas_get_bits later st2
     = Done (surface,
             {| surfaces := cairo_surface_reference surface (surfaces st2);
                bits_cache := bits_cache st2 |}).
Proof.
  intros Himage Hme Hdecoded Hcached Htype Hid st2.
  assert (Hstored : bits_cache st2 !! descriptor_id (descriptor image)
                    = Some surface) by apply lookup_insert_eq.
  split; [|split; [exact Hstored|]].
  - unfold canvas_get_image. rewrite Himage. cbv zeta.
    destruct Hdecoded as [[-> ->] | [-> ->]];
      cbn [mbind outcome_bind]; rewrite Hme; reflexivity.
  - unfold canvas_get_image. rewrite Hcached. cbv zeta. rewrite Htype.
    unfold bits_cache_get. rewrite Hid, Hstored. reflexivity.
Qed.

(** X23. The image types [canvas_get_image] decodes depend on the build:
    an LZ image in a build without [CAIRO_CANVAS_NO_CHUNKS] and a GLZ image
    in a build without [USE_GLZ] are the error "invalid image type", and no
    decoder is called for them. *)
Theorem canvas_get_image_types (addr : Z) (st : canvas_state)
    (image : BitmapImage) :
  images !! GET_ADDRESS addr = Some image ->
  (descriptor_type (descriptor image) = IMAGE_TYPE_LZ_PLT
   \/ descriptor_type (descriptor image) = IMAGE_TYPE_LZ_RGB)
  /\ CAIRO_CANVAS_NO_CHUNKS = false
  \/ descriptor_type (descriptor image) = IMAGE_TYPE_GLZ_RGB
     /\ USE_GLZ = false ->
  canvas_get_image CAIRO_CANVAS_NO_CHUNKS USE_GLZ images canvas_get_quic
    canvas_get_lz canvas_get_glz canvas_get_bits addr st
  = Abort "invalid image type".
Proof.
  intros Himage Htype. unfold canvas_get_image. rewrite Himage. cbv zeta.
  destruct Htype as [[Htype Hlz] | [Htype Hglz]].
  - rewrite Hlz. destruct Htype as [-> | ->]; reflexivity.
  - rewrite Htype, Hglz. reflexivity.
Qed.

End GetImage.

End ImagesFacts.

Module ImagesExamples.
Import PaletteResolver Images Convert Canvas Inputs ImageInputs.


(** The 16-bit white of the inline palette comes out as the 32-bit white in
    both pixels, and the palette in the wire buffer holds the 32-bit white
    afterwards. *)
Example indexed_16bit_pixels :
  match canvas_get_bits wire_indexed Mask.image_surface_create recording_cache
          recording_put recording_get recording_release 2 canvas_16bit
          bitmap_indexed
  with
  | Done (surface, st') =>
      read_words (cairo_image_surface_get_data surface) 0 2
      = [0x00ffffff; 0x00ffffff]
      /\ ents <$> inline_palettes st' !! 64 = Some [0x00ffffff]
  | _ => False
  end.
Proof. vm_compute. split; reflexivity. Qed.

Lemma canvas_get_bits_builds_agree_witness :
  canvas_get_bits_uncached wire_indexed Mask.image_surface_create 2
    (color_shift canvas_16bit) (inline_palettes canvas_16bit) bitmap_indexed
  = (r ← canvas_get_bits wire_indexed Mask.image_surface_create
           recording_cache recording_put recording_get recording_release 2
           canvas_16bit bitmap_indexed;
     Done r.1).
Proof.
  apply (ImagesFacts.canvas_get_bits_builds_agree wire_indexed
           Mask.image_surface_create recording_cache recording_put
           recording_get recording_release 2 canvas_16bit bitmap_indexed).
  - reflexivity.
  - intros contents H. vm_compute in H. injection H as <-. reflexivity.
Defined.

Lemma canvas_get_image_round_trip_witness :
  canvas_get_image false false image_space blank_decoder blank_decoder
    blank_decoder blank_bits 500 empty_canvas
  = Done (decoded.1,
          bits_cache_put (descriptor_id (descriptor mask_image)) decoded.1
                         decoded.2)
  /\ bits_cache
       (bits_cache_put (descriptor_id (descriptor mask_image)) decoded.1
                       decoded.2)
     !! descriptor_id (descriptor mask_image) = Some decoded.1
  /\ canvas_get_image false false image_space blank_decoder blank_decoder
       blank_decoder blank_bits 600
       (bits_cache_put (descriptor_id (descriptor mask_image)) decoded.1
                       decoded.2)
     = Done (decoded.1,
             {| surfaces :=
                  cairo_surface_reference decoded.1
                    (surfaces
                       (bits_cache_put (descriptor_id (descriptor mask_image))
                                       decoded.1 decoded.2));
                bits_cache :=
                  bits_cache
                    (bits_cache_put (descriptor_id (descriptor mask_image))
                                    decoded.1 decoded.2) |}).
Proof.
  apply (ImagesFacts.canvas_get_image_round_trip false false image_space
           blank_decoder blank_decoder blank_decoder blank_bits 500 600
           empty_canvas decoded.2 mask_image cached_mask_image decoded.1);
    first [reflexivity | left; split; reflexivity].
Defined.

Lemma canvas_get_image_types_witness :
  canvas_get_image false false image_space blank_decoder blank_decoder
    blank_decoder blank_bits 900 empty_canvas
  = Abort "invalid image type".
Proof.
  apply (ImagesFacts.canvas_get_image_types false false image_space
           blank_decoder blank_decoder blank_decoder blank_bits 900
           empty_canvas lz_image).
  - reflexivity.
  - left. split; [right; reflexivity | reflexivity].
Defined.

(** The same LZ image in a build without chunks is handed to the LZ
    decoder. *)
Example lz_image_decoded :
  canvas_get_image true false image_space blank_decoder blank_decoder
    blank_decoder blank_bits 900 empty_canvas
  = blank_decoder 900 empty_canvas.
Proof. vm_compute. reflexivity. Qed.

End ImagesExamples.

(** ** Glyph bits: [canvas_put_bits] and [canvas_put_glyph_bits] *)

Module GlyphFacts.
Import Glyph GlyphVocabulary GlyphLemmas.

(** Two bytes with the same eight bits. *)
Lemma dest_bits_byte (GL_CANVAS : bool) (m1 m2 : mem) (p : Z) :
  (forall b, 0 <= b < 8 ->
     dest_bit GL_CANVAS m1 (8 * p + b) = dest_bit GL_CANVAS m2 (8 * p + b)) ->
  load8 m1 p = load8 m2 p.
Proof.
  intros H. apply Z.bits_inj'. intros k Hk.
  destruct (decide (k < 8)) as [Hlt|Hge].
  - specialize (H (bit_position GL_CANVAS k)
                  (bit_position_range GL_CANVAS k ltac:(lia))).
    rewrite !dest_bit_byte in H.
    replace ((8 * p + bit_position GL_CANVAS k) / 8) with p in H
      by (apply (Z.div_unique _ _ _ (bit_position GL_CANVAS k));
          [pose proof (bit_position_range GL_CANVAS k); lia | lia]).
    replace ((8 * p + bit_position GL_CANVAS k) mod 8)
      with (bit_position GL_CANVAS k) in H
      by (apply (Z.mod_unique _ _ p);
          [pose proof (bit_position_range GL_CANVAS k); lia | lia]).
    replace (bit_position GL_CANVAS (bit_position GL_CANVAS k)) with k in H
      by (unfold bit_position; destruct GL_CANVAS; lia).
    exact H.
  - unfold load8, u8. rewrite !Z.mod_pow2_bits_high by lia. reflexivity.
Qed.

Section Glyphs.

Variable GL_CANVAS : bool.
Variable wire : mem.

(** X24. [canvas_put_bits] returns, and it ORs the [n] source bits, taken
    from the most significant bit of each source byte on, into the
    destination bits from bit [dest_offset] of [dest] on (counted from the
    least significant bit of each byte, or from the most significant one in
    the GL build): a destination bit is never cleared, and the bytes before
    and after the bits written keep their value. *)
Theorem canvas_put_bits_or (fuel : nat) (dest dest_offset src n : Z) (m : mem) :
  0 <= n <= 8 * (Z.of_nat fuel - 1) ->
  exists m',
    canvas_put_bits GL_CANVAS wire fuel dest dest_offset src n m = Done m'
    /\ (forall q,
          dest_bit GL_CANVAS m' q
          = dest_bit GL_CANVAS m q
            || ((8 * dest + dest_offset <=? q)
                && (q <? 8 * dest + dest_offset + n)
                && bit_msb wire (8 * src + (q - (8 * dest + dest_offset)))))
    /\ (forall p,
          8 * p + 8 <= 8 * dest + dest_offset
          \/ 8 * dest + dest_offset + n <= 8 * p ->
          load8 m' p = load8 m p).
Proof.
  intros Hn.
  destruct (canvas_put_bits_spec GL_CANVAS wire fuel dest dest_offset src n m Hn)
    as (m' & Hm' & Hbits).
  exists m'. split; [exact Hm'|]. split; [exact Hbits|].
  intros p Hp. apply (dest_bits_byte GL_CANVAS). intros b Hb.
  rewrite Hbits.
  replace ((8 * dest + dest_offset <=? 8 * p + b)
           && (8 * p + b <? 8 * dest + dest_offset + n)) with false
    by cmp_cases.
  rewrite orb_false_r. reflexivity.
Qed.

(** *** [canvas_put_glyph_bits] *)

Lemma glyph_asserts (glyph : RasterGlyph) (bounds : Rect) :
  top bounds <= top (canvas_raster_glyph_box glyph) ->
  bottom (canvas_raster_glyph_box glyph) <= bottom bounds ->
  left bounds <= left (canvas_raster_glyph_box glyph) ->
  right (canvas_raster_glyph_box glyph) <= right bounds ->
  (top (canvas_raster_glyph_box glyph) >=? top bounds)
  && (bottom (canvas_raster_glyph_box glyph) <=? bottom bounds) = true
  /\ (left (canvas_raster_glyph_box glyph) >=? left bounds)
     && (right (canvas_raster_glyph_box glyph) <=? right bounds) = true.
Proof.
  intros Ht Hb Hl Hr. split; apply andb_true_iff; split;
    first [apply Z.geb_le | apply Z.leb_le]; assumption.
Qed.

(** A glyph whose box lies inside the bounds: the two assertions pass, and
    the loops run on the rows and columns of the box moved to the origin of
    the bounds. *)
Lemma canvas_put_glyph_bits_inside (fuel : nat) (glyph : RasterGlyph)
    (bpp dest dest_stride : Z) (bounds : Rect) (m : mem) :
  top bounds <= top (canvas_raster_glyph_box glyph) ->
  bottom (canvas_raster_glyph_box glyph) <= bottom bounds ->
  left bounds <= left (canvas_raster_glyph_box glyph) ->
  right (canvas_raster_glyph_box glyph) <= right bounds ->
  canvas_put_glyph_bits GL_CANVAS wire fuel glyph bpp dest dest_stride bounds m
  = let lines := glyph_height glyph in
    let width := glyph_width glyph in
    let dest := dest + (top (canvas_raster_glyph_box glyph) - top bounds)
                       * dest_stride in
    let l := left (canvas_raster_glyph_box glyph) - left bounds in
    if bpp =? 1 then
      put_lines_1bpp GL_CANVAS wire fuel (Z.to_nat lines)
        (glyph_data glyph + Z.shiftr (ALIGN width 8) 3 * lines)
        (Z.shiftr (ALIGN width 8) 3) dest dest_stride l width m
    else if bpp =? 4 then
      for_rows fuel (put_line_4bpp wire width (Z.shiftr (ALIGN (width * 4) 8) 3))
        (dest + l) dest_stride (dest + l + dest_stride * lines)
        (glyph_data glyph + Z.shiftr (ALIGN (width * 4) 8) 3 * lines)
        (- Z.shiftr (ALIGN (width * 4) 8) 3) m
    else if bpp =? 8 then
      for_rows fuel (put_line_8bpp wire width)
        (dest + l) dest_stride (dest + l + dest_stride * lines)
        (glyph_data glyph + width * lines) (- width) m
    else CANVAS_ERROR "invalid bpp".
Proof.
  intros Ht Hb Hl Hr.
  destruct (glyph_asserts glyph bounds Ht Hb Hl Hr) as [A1 A2].
  unfold canvas_put_glyph_bits. cbv zeta. rewrite A1, A2.
  cbn [ASSERT mbind outcome_bind].
  cbn [rect_offset top left bottom right].
  set (box := canvas_raster_glyph_box glyph) in *.
  replace (bottom box + - top bounds - (top box + - top bounds))
    with (glyph_height glyph)
    by (unfold box, canvas_raster_glyph_box; cbn [top bottom]; lia).
  replace (right box + - left bounds - (left box + - left bounds))
    with (glyph_width glyph)
    by (unfold box, canvas_raster_glyph_box; cbn [left right]; lia).
  replace (top box + - top bounds) with (top box - top bounds) by lia.
  replace (left box + - left bounds) with (left box - left bounds) by lia.
  reflexivity.
Qed.

(** X25. [canvas_put_glyph_bits] with 1 bit per pixel, for a glyph whose box
    lies inside the bounds: the call returns, and a bit of the destination
    is set afterwards exactly when it was set before or it is the bit at
    column [t] of row [i] of the box and the glyph has bit [t] of its row
    [lines - 1 - i] set.  The rows of the glyph are taken from the last one
    up, and no bit is cleared. *)
Theorem canvas_put_glyph_bits_1bpp (fuel : nat) (glyph : RasterGlyph)
    (dest dest_stride : Z) (bounds : Rect) (m : mem) :
  let box := canvas_raster_glyph_box glyph in
  let lines := glyph_height glyph in
  let width := glyph_width glyph in
  let src_stride := Z.shiftr (ALIGN width 8) 3 in
  let origin := dest + (top box - top bounds) * dest_stride in
  top bounds <= top box -> bottom box <= bottom bounds ->
  left bounds <= left box -> right box <= right bounds ->
  0 <= width <= 8 * (Z.of_nat fuel - 1) ->
  exists m',
    canvas_put_glyph_bits GL_CANVAS wire fuel glyph 1 dest dest_stride bounds m
    = Done m'
    /\ forall q,
         dest_bit GL_CANVAS m' q = true
         <-> dest_bit GL_CANVAS m q = true
             \/ exists i t,
                  0 <= i < lines /\ 0 <= t < width
                  /\ q = 8 * (origin + i * dest_stride)
                         + (left box - left bounds) + t
                  /\ bit_msb wire
                       (8 * (glyph_data glyph + (lines - 1 - i) * src_stride)
                        + t) = true.
Proof.
  intros box lines width src_stride origin Ht Hb Hl Hr Hw.
  rewrite canvas_put_glyph_bits_inside by assumption. cbv zeta.
  change (1 =? 1) with true. cbv iota.
  fold box lines width src_stride origin.
  destruct (put_lines_1bpp_spec GL_CANVAS wire fuel src_stride dest_stride
              (left box - left bounds) width (Z.to_nat lines) Hw
              (glyph_data glyph + src_stride * lines) origin m)
    as (m' & Hm' & Hbits).
  exists m'. split; [exact Hm'|].
  intros q. rewrite Hbits. split.
  - intros [H|(i & t & Hi & Ht' & Hq & Hbit)]; [left; exact H|].
    right. exists i, t. split; [lia|]. split; [exact Ht'|].
    split; [exact Hq|].
    replace (glyph_data glyph + (lines - 1 - i) * src_stride)
      with (glyph_data glyph + src_stride * lines - (i + 1) * src_stride)
      by lia.
    exact Hbit.
  - intros [H|(i & t & Hi & Ht' & Hq & Hbit)]; [left; exact H|].
    right. exists i, t. split; [lia|]. split; [exact Ht'|].
    split; [exact Hq|].
    replace (glyph_data glyph + src_stride * lines - (i + 1) * src_stride)
      with (glyph_data glyph + (lines - 1 - i) * src_stride) by lia.
    exact Hbit.
Qed.

(** One line of the 4 bpp case. *)
Lemma put_line_4bpp_spec (width src_stride dest src : Z) :
  0 <= width ->
  exists g,
    confined dest (dest + width) g
    /\ (forall m, put_line_4bpp wire width src_stride dest src m = Done (g m))
    /\ (forall m j, 0 <= j -> 2 * j < width ->
          load8 (g m) (dest + 2 * j)
          = MAX (load8 m (dest + 2 * j))
                (Z.land (load8 wire (src - src_stride + j)) 0xf0))
    /\ (forall m j, 0 <= j -> 2 * j + 1 < width ->
          load8 (g m) (dest + 2 * j + 1)
          = u8 (MAX (load8 m (dest + 2 * j + 1))
                    (Z.shiftl (load8 wire (src - src_stride + j)) 4))).
Proof.
  intros Hw. unfold put_line_4bpp.
  rewrite land_lnot_1, (Z.mul_comm 2), Z.div_mul by lia.
  pose proof (Z.div_mod width 2 ltac:(lia)) as Hdm.
  pose proof (Z.mod_pos_bound width 2 ltac:(lia)) as Hmod.
  assert (Hh : 0 <= width / 2) by (apply Z.div_pos; lia).
  set (h := width / 2) in *.
  assert (Hrounds : Z.of_nat (Z.to_nat h) = h) by (apply Z2Nat.id; exact Hh).
  destruct (put_pairs_4bpp_confined wire (Z.to_nat h) dest (dest + width)
              dest 0 (src - src_stride) ltac:(lia) ltac:(lia))
    as (g0 & Hg0 & E0).
  destruct (put_pairs_4bpp_confined wire (Z.to_nat h) (dest + 0)
              (dest + 0 + 2 * Z.of_nat (Z.to_nat h))
              dest 0 (src - src_stride) ltac:(lia) ltac:(lia))
    as (g1 & Hg1 & E1).
  assert (Hsame : forall m, g0 m = g1 m).
  { intros m. pose proof (E0 m) as H0. rewrite (E1 m) in H0.
    injection H0 as H0. symmetry. exact H0. }
  assert (Hpairs : forall m j, 0 <= j < h ->
            load8 (g0 m) (dest + 2 * j)
            = MAX (load8 m (dest + 2 * j))
                  (Z.land (load8 wire (src - src_stride + j)) 0xf0)
            /\ load8 (g0 m) (dest + 2 * j + 1)
               = u8 (MAX (load8 m (dest + 2 * j + 1))
                         (Z.shiftl (load8 wire (src - src_stride + j)) 4))).
  { intros m j Hj.
    pose proof (put_pairs_4bpp_load8 wire (Z.to_nat h) dest 0
                  (src - src_stride) m j ltac:(lia)) as H.
    rewrite (E0 m) in H. cbn [snd] in H.
    replace (dest + 0 + 2 * j) with (dest + 2 * j) in H by lia.
    exact H. }
  rewrite Hrounds in E0.
  destruct (0 + 2 * h <? width) eqn:Etail';
    [assert (Etail := proj1 (Z.ltb_lt _ _) Etail')
    | assert (Etail := proj1 (Z.ltb_ge _ _) Etail')].
  - exists (fun m =>
              store8 (g0 m) (dest + (0 + 2 * h))
                (MAX (load8 (g0 m) (dest + (0 + 2 * h)))
                     (Z.land (load8 wire (src - src_stride + h)) 0xf0))).
    split; [|split; [|split]].
    + apply (confined_compose _ _ g0
               (fun m => store8 m (dest + (0 + 2 * h))
                           (MAX (load8 m (dest + (0 + 2 * h)))
                                (Z.land (load8 wire (src - src_stride + h))
                                        0xf0))));
        [exact Hg0|].
      apply (confined_update8 dest (dest + width) (dest + (0 + 2 * h))
               (fun old => MAX old
                             (Z.land (load8 wire (src - src_stride + h)) 0xf0))).
      lia.
    + intros m. rewrite E0. cbv beta iota zeta. rewrite Etail'. reflexivity.
    + intros m j Hj0 Hj.
      destruct (decide (j = h)) as [->|Hne].
      * replace (dest + (0 + 2 * h)) with (dest + 2 * h) by lia.
        rewrite load8_store8_same.
        rewrite (Hsame m).
        rewrite (confined_load8_outside _ _ _ _ _ Hg1) by lia.
        apply u8_small, MAX_bytes; [apply load8_range|].
        change 0xf0 with (Z.land 0xf0 (Z.ones 8)).
        rewrite Z.land_assoc, Z.land_ones by lia.
        apply Z.mod_pos_bound. lia.
      * rewrite load8_store8_other by lia.
        apply (Hpairs m j). lia.
    + intros m j Hj0 Hj.
      rewrite load8_store8_other by lia.
      apply (Hpairs m j). lia.
  - exists g0.
    split; [exact Hg0|]. split; [|split].
    + intros m. rewrite E0. cbv beta iota zeta. rewrite Etail'. reflexivity.
    + intros m j Hj0 Hj. apply (Hpairs m j). lia.
    + intros m j Hj0 Hj. apply (Hpairs m j). lia.
Qed.

Lemma put_line_4bpp_writer (width src_stride dest src : Z) :
  0 <= width ->
  confined_writer dest (dest + width)
                  (put_line_4bpp wire width src_stride dest src).
Proof.
  intros Hw.
  destruct (put_line_4bpp_spec width src_stride dest src Hw)
    as (g & Hg & E & _).
  apply (confined_writer_ext _ _ _ (fun m => Done (g m)) E).
  apply confined_writer_done, Hg.
Qed.

(** The odd pixel of a pair: the byte shifted left by four is compared as an
    [int] and stored as a byte. *)
Lemma odd_pixel_stored (old byte : Z) :
  0 <= old < 256 -> 0 <= byte < 256 ->
  u8 (MAX old (Z.shiftl byte 4))
  = if byte <? 16 then MAX old (Z.shiftl byte 4)
    else Z.shiftl (Z.land byte 0x0f) 4.
Proof.
  intros Hold Hbyte. rewrite !Z.shiftl_mul_pow2 by lia. change (2 ^ 4) with 16.
  destruct (byte <? 16) eqn:E; [apply Z.ltb_lt in E | apply Z.ltb_ge in E].
  - apply u8_small. unfold MAX. destruct (old >=? byte * 16); lia.
  - unfold MAX.
    destruct (old >=? byte * 16) eqn:E'; [apply Z.geb_le in E'; lia|].
    change 0x0f with (Z.ones 4). rewrite Z.land_ones by lia.
    unfold u8. change (2 ^ 8) with (16 * 16). change (2 ^ 4) with 16.
    rewrite (Z.mul_comm byte 16), Zmult_mod_distr_l. lia.
Qed.

(** X26. [canvas_put_glyph_bits] with 4 bits per pixel, for a glyph whose
    box lies inside the bounds: the call returns; row [r] of the box takes
    row [lines - 1 - r] of the glyph; an even pixel becomes the larger of
    its value and the high nibble of the source byte (in the high nibble of
    the pixel); an odd pixel becomes the larger of its value and the low
    nibble shifted left by four when the high nibble of the source byte is
    zero, and is overwritten with the low nibble shifted left by four when
    it is not.  Nothing outside the rows is written. *)
Theorem canvas_put_glyph_bits_4bpp (fuel : nat) (glyph : RasterGlyph)
    (dest dest_stride : Z) (bounds : Rect) (m : mem) :
  let box := canvas_raster_glyph_box glyph in
  let lines := glyph_height glyph in
  let width := glyph_width glyph in
  let src_stride := Z.shiftr (ALIGN (width * 4) 8) 3 in
  let origin := dest + (top box - top bounds) * dest_stride
                + (left box - left bounds) in
  top bounds <= top box -> bottom box <= bottom bounds ->
  left bounds <= left box -> right box <= right bounds ->
  dest_stride <> 0 -> 0 <= width <= Z.abs dest_stride ->
  0 <= lines -> (Z.to_nat lines < fuel)%nat ->
  exists m',
    canvas_put_glyph_bits GL_CANVAS wire fuel glyph 4 dest dest_stride bounds m
    = Done m'
    /\ (forall r j, 0 <= r < lines -> 0 <= j ->
          let byte := load8 wire (glyph_data glyph
                                  + (lines - 1 - r) * src_stride + j) in
          (2 * j < width ->
           load8 m' (origin + r * dest_stride + 2 * j)
           = MAX (load8 m (origin + r * dest_stride + 2 * j))
                 (Z.land byte 0xf0))
          /\ (2 * j + 1 < width ->
              load8 m' (origin + r * dest_stride + 2 * j + 1)
              = if byte <? 16
                then MAX (load8 m (origin + r * dest_stride + 2 * j + 1))
                         (Z.shiftl byte 4)
                else Z.shiftl (Z.land byte 0x0f) 4))
    /\ (forall p,
          (forall r, 0 <= r < lines ->
             ~ (origin + r * dest_stride <= p
                < origin + r * dest_stride + width)) ->
          m' p = m p).
Proof.
  intros box lines width src_stride origin Ht Hb Hl Hr Hs Hw Hh Hfuel.
  rewrite canvas_put_glyph_bits_inside by assumption. cbv zeta.
  change (4 =? 1) with false. change (4 =? 4) with true. cbv iota.
  fold box lines width src_stride.
  replace (dest + (top box - top bounds) * dest_stride
           + (left box - left bounds)) with origin by (unfold origin; lia).
  pose proof (for_rows_rows (put_line_4bpp wire width src_stride) false
                dest_stride (- src_stride) width Hs
                ltac:(unfold written_at; lia)) as H.
  specialize (H ltac:(intros a b; unfold written_at;
                      apply put_line_4bpp_writer; lia)).
  specialize (H ltac:(intros a b m1;
                      destruct (put_line_4bpp_spec width src_stride a b
                                  ltac:(lia)) as (g & _ & E & _);
                      rewrite E; discriminate)
                (Z.to_nat lines) fuel origin
                (glyph_data glyph + src_stride * lines) m Hfuel).
  rewrite Z2Nat.id in H by lia. unfold written_at in H.
  replace (origin + dest_stride * lines) with (origin + lines * dest_stride)
    by lia.
  destruct (for_rows fuel (put_line_4bpp wire width src_stride) origin
              dest_stride (origin + lines * dest_stride)
              (glyph_data glyph + src_stride * lines) (- src_stride) m)
    as [m'|msg| |].
  2: { destruct H as (k & _ & Hk).
       destruct (put_line_4bpp_spec width src_stride (origin + k * dest_stride)
                   (glyph_data glyph + src_stride * lines + k * - src_stride)
                   ltac:(lia)) as (g & _ & E & _).
       rewrite E in Hk. discriminate Hk. }
  2: { destruct H as (k & _ & Hk).
       destruct (put_line_4bpp_spec width src_stride (origin + k * dest_stride)
                   (glyph_data glyph + src_stride * lines + k * - src_stride)
                   ltac:(lia)) as (g & _ & E & _).
       rewrite E in Hk. discriminate Hk. }
  2: contradiction.
  destruct H as [Hrows Hframe].
  exists m'. split; [reflexivity|]. split; [|exact Hframe].
  intros r j Hr' Hj. destruct (Hrows r Hr') as (mk & Hmk & Hag).
  destruct (put_line_4bpp_spec width src_stride (origin + r * dest_stride)
              (glyph_data glyph + src_stride * lines + r * - src_stride)
              ltac:(lia)) as (g & _ & E & Heven & Hodd).
  rewrite E in Hmk. injection Hmk as <-.
  specialize (Heven m j Hj). specialize (Hodd m j Hj).
  replace (glyph_data glyph + src_stride * lines + r * - src_stride
           - src_stride + j)
    with (glyph_data glyph + (lines - 1 - r) * src_stride + j)
    in Heven, Hodd by lia.
  split.
  - intros Hin. rewrite (agree_load8 _ _ _ _ _ Hag) by lia.
    apply (Heven Hin).
  - intros Hin. rewrite (agree_load8 _ _ _ _ _ Hag) by lia.
    rewrite (Hodd Hin).
    apply odd_pixel_stored; apply load8_range.
Qed.

(** X27. [canvas_put_glyph_bits] with 8 bits per pixel, for a glyph whose
    box lies inside the bounds: the call returns, and every pixel of row [r]
    of the box becomes the larger of its value and the source byte of the
    same column in the row that starts [width * (lines - r)] bytes into the
    data of the glyph.  The first row of the data is not read, and the
    [width] bytes that follow the last row are.  Nothing outside the rows is
    written. *)
Theorem canvas_put_glyph_bits_8bpp (fuel : nat) (glyph : RasterGlyph)
    (dest dest_stride : Z) (bounds : Rect) (m : mem) :
  let box := canvas_raster_glyph_box glyph in
  let lines := glyph_height glyph in
  let width := glyph_width glyph in
  let origin := dest + (top box - top bounds) * dest_stride
                + (left box - left bounds) in
  top bounds <= top box -> bottom box <= bottom bounds ->
  left bounds <= left box -> right box <= right bounds ->
  dest_stride <> 0 -> 0 <= width <= Z.abs dest_stride ->
  0 <= lines -> (Z.to_nat lines < fuel)%nat ->
  exists m',
    canvas_put_glyph_bits GL_CANVAS wire fuel glyph 8 dest dest_stride bounds m
    = Done m'
    /\ (forall r i, 0 <= r < lines -> 0 <= i < width ->
          load8 m' (origin + r * dest_stride + i)
          = MAX (load8 m (origin + r * dest_stride + i))
                (load8 wire (glyph_data glyph + width * (lines - r) + i)))
    /\ (forall p,
          (forall r, 0 <= r < lines ->
             ~ (origin + r * dest_stride <= p
                < origin + r * dest_stride + width)) ->
          m' p = m p).
Proof.
  intros box lines width origin Ht Hb Hl Hr Hs Hw Hh Hfuel.
  rewrite canvas_put_glyph_bits_inside by assumption. cbv zeta.
  change (8 =? 1) with false. change (8 =? 4) with false.
  change (8 =? 8) with true. cbv iota.
  fold box lines width.
  replace (dest + (top box - top bounds) * dest_stride
           + (left box - left bounds)) with origin by (unfold origin; lia).
  pose proof (for_rows_rows (put_line_8bpp wire width) false dest_stride
                (- width) width Hs ltac:(unfold written_at; lia)) as H.
  specialize (H ltac:(intros a b; unfold written_at;
                      apply confined_writer_done, put_bytes_8bpp_confined; lia)
                ltac:(intros a b m1; discriminate)
                (Z.to_nat lines) fuel origin
                (glyph_data glyph + width * lines) m Hfuel).
  rewrite Z2Nat.id in H by lia. unfold written_at in H.
  replace (origin + dest_stride * lines) with (origin + lines * dest_stride)
    by lia.
  destruct (for_rows fuel (put_line_8bpp wire width) origin dest_stride
              (origin + lines * dest_stride)
              (glyph_data glyph + width * lines) (- width) m) as [m'| | |].
  2: { destruct H as (k & _ & Hk). discriminate Hk. }
  2: { destruct H as (k & _ & Hk). discriminate Hk. }
  2: contradiction.
  destruct H as [Hrows Hframe].
  exists m'. split; [reflexivity|]. split; [|exact Hframe].
  intros r i Hr' Hi. destruct (Hrows r Hr') as (mk & Hmk & Hag).
  unfold put_line_8bpp in Hmk. injection Hmk as <-.
  rewrite (agree_load8 _ _ _ _ _ Hag) by lia.
  rewrite put_bytes_8bpp_load8 by lia.
  replace (glyph_data glyph + width * lines + r * - width)
    with (glyph_data glyph + width * (lines - r)) by lia.
  reflexivity.
Qed.

(** X28. [canvas_put_glyph_bits] aborts before it writes anything when the
    box of the glyph is not inside the bounds, first on the rows, then on
    the columns, and, for a box inside the bounds, when the depth is not 1,
    4 or 8. *)
Theorem canvas_put_glyph_bits_errors (fuel : nat) (glyph : RasterGlyph)
    (bpp dest dest_stride : Z) (bounds : Rect) (m : mem) :
  let box := canvas_raster_glyph_box glyph in
  (~ (top bounds <= top box /\ bottom box <= bottom bounds) ->
   canvas_put_glyph_bits GL_CANVAS wire fuel glyph bpp dest dest_stride bounds m
   = Abort "glyph_box.top >= bounds->top && glyph_box.bottom <= bounds->bottom")
  /\ (top bounds <= top box /\ bottom box <= bottom bounds ->
      ~ (left bounds <= left box /\ right box <= right bounds) ->
      canvas_put_glyph_bits GL_CANVAS wire fuel glyph bpp dest dest_stride
                            bounds m
      = Abort "glyph_box.left >= bounds->left && glyph_box.right <= bounds->right")
  /\ (top bounds <= top box /\ bottom box <= bottom bounds ->
      left bounds <= left box /\ right box <= right bounds ->
      bpp <> 1 -> bpp <> 4 -> bpp <> 8 ->
      canvas_put_glyph_bits GL_CANVAS wire fuel glyph bpp dest dest_stride
                            bounds m
      = Abort "invalid bpp").
Proof.
  intros box. split; [|split].
  - intros Hrows. unfold canvas_put_glyph_bits. cbv zeta. fold box.
    replace ((top box >=? top bounds) && (bottom box <=? bottom bounds))
      with false; [reflexivity|].
    symmetry. apply andb_false_iff.
    destruct (top box >=? top bounds) eqn:E1; [|left; reflexivity].
    destruct (bottom box <=? bottom bounds) eqn:E2; [|right; reflexivity].
    apply Z.geb_le in E1. apply Z.leb_le in E2. tauto.
  - intros [Ht Hb] Hcols. unfold canvas_put_glyph_bits. cbv zeta. fold box.
    replace ((top box >=? top bounds) && (bottom box <=? bottom bounds))
      with true
      by (symmetry; apply andb_true_iff; split;
          [apply Z.geb_le | apply Z.leb_le]; assumption).
    cbn [ASSERT mbind outcome_bind].
    replace ((left box >=? left bounds) && (right box <=? right bounds))
      with false; [reflexivity|].
    symmetry. apply andb_false_iff.
    destruct (left box >=? left bounds) eqn:E1; [|left; reflexivity].
    destruct (right box <=? right bounds) eqn:E2; [|right; reflexivity].
    apply Z.geb_le in E1. apply Z.leb_le in E2. tauto.
  - intros [Ht Hb] [Hl Hr] H1 H4 H8.
    rewrite canvas_put_glyph_bits_inside by assumption. cbv zeta.
    apply Z.eqb_neq in H1, H4, H8. rewrite H1, H4, H8. reflexivity.
Qed.

End Glyphs.

(** An [int] as its value less the multiples of [2^32] that bring it into
    range. *)
Lemma s32_wraps (z : Z) : s32 z = z - 2 ^ 32 * ((z + 2 ^ 31) / 2 ^ 32).
Proof.
  unfold s32. cbv zeta.
  pose proof (Z.div_mod z (2 ^ 32) ltac:(lia)) as Hdm.
  pose proof (Z.mod_pos_bound z (2 ^ 32) ltac:(lia)) as Hr.
  destruct (z mod 2 ^ 32 <? 2 ^ 31) eqn:E;
    [apply Z.ltb_lt in E | apply Z.ltb_ge in E].
  - replace ((z + 2 ^ 31) / 2 ^ 32) with (z / 2 ^ 32); [lia|].
    apply (Z.div_unique _ _ _ (z mod 2 ^ 32 + 2 ^ 31)); lia.
  - replace ((z + 2 ^ 31) / 2 ^ 32) with (z / 2 ^ 32 + 1); [lia|].
    apply (Z.div_unique _ _ _ (z mod 2 ^ 32 - 2 ^ 31)); lia.
Qed.

(** X29. [canvas_next_raster_glyph] for a glyph of [width] by [height]
    pixels (16-bit fields) of at most 8 bits: the rows of the glyph take
    [(width * bpp + 7) / 8] bytes each, and the next glyph is looked for
    that many bytes times [height] after the header, less [2^29] bytes for
    every time the size in bits, an [int], wraps around.  So the next glyph
    is found right after the rows of this one exactly when its size in bits
    stays below [2^31]. *)
Theorem canvas_next_raster_glyph_rows (glyph_end : Z) (glyph : RasterGlyph)
    (bpp : Z) :
  0 <= glyph_width glyph < 2 ^ 16 ->
  0 <= glyph_height glyph < 2 ^ 16 ->
  0 <= bpp <= 8 ->
  let row := (glyph_width glyph * bpp + 7) / 8 in
  let bits := 8 * row * glyph_height glyph in
  canvas_next_raster_glyph glyph_end glyph bpp
  = glyph_end + glyph_height glyph * row
    - 2 ^ 29 * ((bits + 2 ^ 31) / 2 ^ 32)
  /\ (canvas_next_raster_glyph glyph_end glyph bpp
      = glyph_end + glyph_height glyph * row
      <-> bits < 2 ^ 31).
Proof.
  intros Hw Hh Hbpp row bits.
  assert (Hwb : 0 <= glyph_width glyph * bpp <= (2 ^ 16 - 1) * 8)
    by (split; [apply Z.mul_nonneg_nonneg | apply Z.mul_le_mono_nonneg]; lia).
  assert (Hrow : 0 <= row < 2 ^ 16).
  { unfold row. split; [apply Z.div_pos; lia|].
    apply Z.div_lt_upper_bound; lia. }
  assert (Hbits : 0 <= bits)
    by (unfold bits; repeat apply Z.mul_nonneg_nonneg; lia).
  assert (Hnext : canvas_next_raster_glyph glyph_end glyph bpp
                  = glyph_end + glyph_height glyph * row
                    - 2 ^ 29 * ((bits + 2 ^ 31) / 2 ^ 32)).
  { unfold canvas_next_raster_glyph.
    rewrite (s32_small (glyph_width glyph * bpp)) by lia.
    rewrite ALIGN_8 by lia. fold row.
    rewrite (s32_small (8 * row)) by lia.
    fold bits. rewrite s32_wraps.
    rewrite Z.shiftr_div_pow2 by lia. change (2 ^ 3) with 8.
    set (k := (bits + 2 ^ 31) / 2 ^ 32).
    replace (bits - 2 ^ 32 * k)
      with ((glyph_height glyph * row - 2 ^ 29 * k) * 8)
      by (unfold bits; lia).
    rewrite Z.div_mul by lia. lia. }
  split; [exact Hnext|].
  rewrite Hnext.
  assert (Hk : 0 <= (bits + 2 ^ 31) / 2 ^ 32) by (apply Z.div_pos; lia).
  split.
  - intros E.
    assert (Hz : (bits + 2 ^ 31) / 2 ^ 32 = 0) by lia.
    apply Z.div_small_iff in Hz; lia.
  - intros Hsmall. rewrite Z.div_small by lia. lia.
Qed.

End GlyphFacts.

Module GlyphExamples.
Import Glyph GlyphVocabulary Inputs CopyInputs GlyphInputs.

Lemma canvas_put_bits_or_witness :
  exists m',
    canvas_put_bits false wire_glyph_1bpp 3 0 6 0 3 blank = Done m'
    /\ (forall q,
          dest_bit false m' q
          = dest_bit false blank q
            || ((8 * 0 + 6 <=? q) && (q <? 8 * 0 + 6 + 3)
                && bit_msb wire_glyph_1bpp (8 * 0 + (q - (8 * 0 + 6)))))
    /\ (forall p,
          8 * p + 8 <= 8 * 0 + 6 \/ 8 * 0 + 6 + 3 <= 8 * p ->
          load8 m' p = load8 blank p).
Proof.
  apply (GlyphFacts.canvas_put_bits_or false wire_glyph_1bpp 3 0 6 0 3 blank).
  simpl. lia.
Defined.

(** The three bits [101] put at bit 6: bits 6 and 8 of the destination are
    set, from the least significant bit of each byte on, or from the most
    significant one in the GL build. *)
Example put_three_bits :
  (m ← canvas_put_bits false wire_glyph_1bpp 3 0 6 0 3 blank;
   Done (read_bytes m 0 2)) = Done [0x40; 0x01]
  /\ (m ← canvas_put_bits true wire_glyph_1bpp 3 0 6 0 3 blank;
      Done (read_bytes m 0 2)) = Done [0x02; 0x80].
Proof. split; vm_compute; reflexivity. Qed.

Lemma canvas_put_glyph_bits_1bpp_witness :
  exists m',
    canvas_put_glyph_bits false wire_glyph_1bpp 3 glyph_3x2 1 0 4 string_bounds
                          blank = Done m'
    /\ forall q,
         dest_bit false m' q = true
         <-> dest_bit false blank q = true
             \/ exists i t,
                  0 <= i < glyph_height glyph_3x2
                  /\ 0 <= t < glyph_width glyph_3x2
                  /\ q = 8 * (0 + (top (canvas_raster_glyph_box glyph_3x2)
                                   - top string_bounds) * 4 + i * 4)
                         + (left (canvas_raster_glyph_box glyph_3x2)
                            - left string_bounds) + t
                  /\ bit_msb wire_glyph_1bpp
                       (8 * (glyph_data glyph_3x2
                             + (glyph_height glyph_3x2 - 1 - i)
                               * Z.shiftr (ALIGN (glyph_width glyph_3x2) 8) 3)
                        + t) = true.
Proof.
  apply (GlyphFacts.canvas_put_glyph_bits_1bpp false wire_glyph_1bpp 3
           glyph_3x2 0 4 string_bounds blank);
    cbn; lia.
Defined.

(** The glyph drawn into four blank rows of four bytes: its last row,
    [010], comes first. *)
Example glyph_1bpp_drawn :
  (m ← canvas_put_glyph_bits false wire_glyph_1bpp 3 glyph_3x2 1 0 4
         string_bounds blank;
   Done (read_bytes m 0 16))
  = Done [0; 0; 0; 0;  0x08; 0; 0; 0;  0x14; 0; 0; 0;  0; 0; 0; 0].
Proof. vm_compute. reflexivity. Qed.

Lemma canvas_put_glyph_bits_4bpp_witness :
  exists m',
    canvas_put_glyph_bits false wire_glyph_4bpp 3 glyph_3x2 4 0 8 string_bounds
                          blank = Done m'
    /\ (forall r j, 0 <= r < glyph_height glyph_3x2 -> 0 <= j ->
          let byte :=
            load8 wire_glyph_4bpp
                  (glyph_data glyph_3x2
                   + (glyph_height glyph_3x2 - 1 - r)
                     * Z.shiftr (ALIGN (glyph_width glyph_3x2 * 4) 8) 3 + j) in
          let origin :=
            0 + (top (canvas_raster_glyph_box glyph_3x2) - top string_bounds) * 8
            + (left (canvas_raster_glyph_box glyph_3x2) - left string_bounds) in
          (2 * j < glyph_width glyph_3x2 ->
           load8 m' (origin + r * 8 + 2 * j)
           = MAX (load8 blank (origin + r * 8 + 2 * j)) (Z.land byte 0xf0))
          /\ (2 * j + 1 < glyph_width glyph_3x2 ->
              load8 m' (origin + r * 8 + 2 * j + 1)
              = if byte <? 16
                then MAX (load8 blank (origin + r * 8 + 2 * j + 1))
                         (Z.shiftl byte 4)
                else Z.shiftl (Z.land byte 0x0f) 4))
    /\ (forall p,
          (forall r, 0 <= r < glyph_height glyph_3x2 ->
             ~ (0 + (top (canvas_raster_glyph_box glyph_3x2)
                     - top string_bounds) * 8
                + (left (canvas_raster_glyph_box glyph_3x2)
                   - left string_bounds) + r * 8 <= p
                < 0 + (top (canvas_raster_glyph_box glyph_3x2)
                       - top string_bounds) * 8
                  + (left (canvas_raster_glyph_box glyph_3x2)
                     - left string_bounds) + r * 8
                  + glyph_width glyph_3x2)) ->
          m' p = blank p).
Proof.
  apply (GlyphFacts.canvas_put_glyph_bits_4bpp false wire_glyph_4bpp 3
           glyph_3x2 0 8 string_bounds blank);
    cbn; lia.
Defined.

(** The 4 bpp glyph drawn over pixels of the value [0xFF]: the odd pixel of
    the byte [0x1F] is overwritten with [0xF0], the odd pixel of the byte
    [0x03] keeps the larger value. *)
Example glyph_4bpp_drawn :
  (m ← canvas_put_glyph_bits false wire_glyph_4bpp 3 glyph_3x2 4 0 8
         string_bounds (fun _ => 0xFF);
   Done (read_bytes m 8 8, read_bytes m 16 8))
  = Done ([0xFF; 0xFF; 0xFF; 0xFF; 0xFF; 0xFF; 0xFF; 0xFF],
          [0xFF; 0xFF; 0xFF; 0xF0; 0xFF; 0xFF; 0xFF; 0xFF]).
Proof. vm_compute. reflexivity. Qed.

Lemma canvas_put_glyph_bits_8bpp_witness :
  exists m',
    canvas_put_glyph_bits false wire_glyph_8bpp 3 glyph_3x2 8 0 8 string_bounds
                          blank = Done m'
    /\ (forall r i, 0 <= r < glyph_height glyph_3x2 ->
          0 <= i < glyph_width glyph_3x2 ->
          load8 m' (0 + (top (canvas_raster_glyph_box glyph_3x2)
                         - top string_bounds) * 8
                    + (left (canvas_raster_glyph_box glyph_3x2)
                       - left string_bounds) + r * 8 + i)
          = MAX (load8 blank
                       (0 + (top (canvas_raster_glyph_box glyph_3x2)
                             - top string_bounds) * 8
                        + (left (canvas_raster_glyph_box glyph_3x2)
                           - left string_bounds) + r * 8 + i))
                (load8 wire_glyph_8bpp
                       (glyph_data glyph_3x2
                        + glyph_width glyph_3x2
                          * (glyph_height glyph_3x2 - r) + i)))
    /\ (forall p,
          (forall r, 0 <= r < glyph_height glyph_3x2 ->
             ~ (0 + (top (canvas_raster_glyph_box glyph_3x2)
                     - top string_bounds) * 8
                + (left (canvas_raster_glyph_box glyph_3x2)
                   - left string_bounds) + r * 8 <= p
                < 0 + (top (canvas_raster_glyph_box glyph_3x2)
                       - top string_bounds) * 8
                  + (left (canvas_raster_glyph_box glyph_3x2)
                     - left string_bounds) + r * 8
                  + glyph_width glyph_3x2)) ->
          m' p = blank p).
Proof.
  apply (GlyphFacts.canvas_put_glyph_bits_8bpp false wire_glyph_8bpp 3
           glyph_3x2 0 8 string_bounds blank);
    cbn; lia.
Defined.

(** The 8 bpp glyph with the rows [1, 2, 3] and [4, 5, 6]: the rows drawn
    are [7, 8, 9], the bytes after the glyph, and [4, 5, 6]. *)
Example glyph_8bpp_drawn :
  (m ← canvas_put_glyph_bits false wire_glyph_8bpp 3 glyph_3x2 8 0 8
         string_bounds blank;
   Done (read_bytes m 8 8, read_bytes m 16 8))
  = Done ([0; 0; 7; 8; 9; 0; 0; 0], [0; 0; 4; 5; 6; 0; 0; 0]).
Proof. vm_compute. reflexivity. Qed.

(** A glyph over the right edge, and a depth of 2. *)
Example glyph_errors :
  canvas_put_glyph_bits false wire_glyph_8bpp 3 glyph_outside 8 0 8
                        string_bounds blank
  = Abort "glyph_box.left >= bounds->left && glyph_box.right <= bounds->right"
  /\ canvas_put_glyph_bits false wire_glyph_8bpp 3 glyph_3x2 2 0 8
                           string_bounds blank
     = Abort "invalid bpp".
Proof. split; vm_compute; reflexivity. Qed.

Lemma canvas_next_raster_glyph_rows_witness :
  canvas_next_raster_glyph 20 glyph_3x2 4
  = 20 + glyph_height glyph_3x2 * ((glyph_width glyph_3x2 * 4 + 7) / 8)
    - 2 ^ 29 * ((8 * ((glyph_width glyph_3x2 * 4 + 7) / 8)
                 * glyph_height glyph_3x2 + 2 ^ 31) / 2 ^ 32)
  /\ (canvas_next_raster_glyph 20 glyph_3x2 4
      = 20 + glyph_height glyph_3x2 * ((glyph_width glyph_3x2 * 4 + 7) / 8)
      <-> 8 * ((glyph_width glyph_3x2 * 4 + 7) / 8) * glyph_height glyph_3x2
          < 2 ^ 31).
Proof.
  apply (GlyphFacts.canvas_next_raster_glyph_rows 20 glyph_3x2 4); cbn; lia.
Defined.

(** The glyph of three columns and two rows at 4 bits per pixel takes two
    rows of two bytes; a glyph of 20000 by 20000 pixels at 8 bits per pixel
    has [3200000000] bits, and the glyph after it is looked for before its
    own header. *)
Example next_glyph_addresses :
  canvas_next_raster_glyph 20 glyph_3x2 4 = 24
  /\ canvas_next_raster_glyph 20 glyph_large 8 = 20 + 400000000 - 2 ^ 29
  /\ canvas_next_raster_glyph 20 glyph_large 8 < 0.
Proof. repeat split; vm_compute; reflexivity. Qed.

End GlyphExamples.

(** ** The mask of a string: [canvas_get_str_mask] *)

Module StrMaskFacts.
Import Glyph GlyphVocabulary GlyphLemmas.





Section StrMask.

Variable GL_CANVAS : bool.
Variable wire : mem.
Variable cairo_image_surface_create : cairo_format_t -> Z -> Z -> cairo_surface_t.
Variable glyphs : gmap Z RasterGlyph.
Variable sizeof_RasterGlyph : Z.





End StrMask.

End StrMaskFacts.

Module StrMaskExamples.
Import Mask Glyph GlyphVocabulary Inputs CopyInputs GlyphInputs.


(** The string drawn: the mask is six columns by three rows from column 2
    and row 0 on; the second glyph is in its first row, and the rows of the
    first glyph follow, the last one first. *)
Example string_mask_drawn :
  match canvas_get_str_mask false wire_string image_surface string_glyphs 20
          3 0 2 1 with
  | Done (str_mask, pos) =>
      read_bytes (cairo_image_surface_get_data str_mask) 0 12
      = [0x30; 0; 0; 0;  0x02; 0; 0; 0;  0x05; 0; 0; 0]
      /\ cairo_image_surface_get_width str_mask = 6
      /\ cairo_image_surface_get_height str_mask = 3
      /\ pos = {| point_x := 2; point_y := 0 |}
  | _ => False
  end.
Proof. vm_compute. repeat split. Qed.

(** A string without glyphs, and a depth that is none of 1, 4 and 8: the
    second is found only when the first glyph is drawn, after the mask was
    created. *)
Example string_mask_errors :
  canvas_get_str_mask false wire_string image_surface string_glyphs 20
    3 0 0 1 = Abort "str->length > 0"
  /\ canvas_get_str_mask false wire_string image_surface string_glyphs 20
       3 0 1 2 = Abort "invalid bpp".
Proof. split; vm_compute; reflexivity. Qed.

End StrMaskExamples.

